(** * supereight2: octree store, voxel blocks and integration kernels

    A shallow embedding of the parts of supereight2 that the map
    specification talks about: the multi-resolution TSDF voxel update, the
    log-odds occupancy voxel update, parent-node propagation and pruning, the
    octree allocator and the multi-resolution voxel blocks with their
    double-buffered scale switch.

    Conventions.
    - [float]/[double] values ([se::field_t], [se::weight_t]) are embedded as
      exact rationals [Q]; equality of such values is [Qeq] ([==]). Where
      the code compares a [float] product with a [double] product (the
      pruning test of the occupancy updater) the two roundings are
      parameters of the embedding.
    - [int] values that stay far away from the limits of their type (scales,
      voxel counts, frame numbers) are embedded as [Z].
    - Raw pointers are embedded as [positive] addresses ([None] is
      [nullptr]); objects that the code reaches through a pointer live in an
      explicit store ([gmap]), so that aliasing is visible.
    - Behaviour that C++ leaves undefined (out-of-range index, dangling
      pointer, failed assertion) is the result [None]. *)

From Stdlib Require Import ZArith QArith Qminmax Qround Lia Lqa.
From stdpp Require Import base option list sorting gmap.

(* ===================================================================== *)
(** * Part I: the embedding                                               *)
(* ===================================================================== *)

(** ** Arithmetic helpers of <cmath>, <algorithm> and se::math *)

Module cxx.

(** [a < b] on floats. *)
Definition Qltb (a b : Q) : bool :=
  match (a ?= b)%Q with Lt => true | _ => false end.

(** [std::min(a, b)]: [(b < a) ? b : a]. *)
Definition std_min (a b : Q) : Q := if Qltb b a then b else a.

(** [std::max(a, b)]: [(a < b) ? b : a]. *)
Definition std_max (a b : Q) : Q := if Qltb a b then b else a.

(** Modelled from the spec: [se::math::clamp] is declared outside the
    available sources; it is the usual [max(a, min(f, b))]. *)
Definition clamp (f a b : Q) : Q := std_max a (std_min f b).

(** Modelled from the spec: [se::math::sq] and [se::math::cu] are declared
    outside the available sources; square and cube. *)
Definition sq (x : Z) : Z := (x * x)%Z.
Definition cu (x : Z) : Z := (x * x * x)%Z.

(** [std::numeric_limits<float>::max()] and [::lowest()] (exact values). *)
Definition FLT_MAX : Q := inject_Z 340282346638528859811704183484516925440.
Definition FLT_LOWEST : Q := (- FLT_MAX)%Q.

(** [v[i]] on a [std::vector] or array with an [int] index. *)
Definition at_ {A} (v : list A) (i : Z) : option A :=
  if (i <? 0)%Z then None else v !! Z.to_nat i.

(** Conversion of an [int] to [size_t] (64 bit). *)
Definition to_size_t (z : Z) : Z := (z mod 2 ^ 64)%Z.

End cxx.

(** The clamp and minimum the specification is written with. *)
Definition spec_clamp (x lo hi : Q) : Q := Qmax lo (Qmin x hi).

(** ** Multi-resolution TSDF updater (multires_tsdf_updater.hpp) *)

Module tsdf.
Import cxx.

(** [Data<Field::TSDF>]: the field value and its weight. *)
Record Data := mkData { tsdf : Q; weight : Q }.

(** The per-voxel propagation data of the block's past-data shadow. *)
Record PropData := mkPropData { delta_tsdf : Q; delta_weight : Z }.

(** [BlockType::DataUnion]: one voxel of a block at one scale. *)
Record DataUnion := mkDataUnion {
  coord : Z * Z * Z;
  scale : Z;
  data : Data;
  prop_data : PropData
}.

(** [Updater::updateVoxel]; [max_weight] is
    [map_.getDataConfig().max_weight]. *)
Definition updateVoxel (max_weight : Q) (data_union : DataUnion)
    (sdf_value truncation_boundary : Q) : DataUnion :=
  if Qltb (- truncation_boundary) sdf_value then
    let tsdf_value := std_min 1 (sdf_value / truncation_boundary) in
    let d := data data_union in
    let tsdf1 := ((tsdf d * weight d + tsdf_value) / (weight d + 1))%Q in
    let tsdf2 := clamp tsdf1 (-1) 1 in
    let weight1 := std_min (weight d + 1) max_weight in
    {| coord := coord data_union;
       scale := scale data_union;
       data := {| tsdf := tsdf2; weight := weight1 |};
       prop_data := {| delta_tsdf := delta_tsdf (prop_data data_union);
                       delta_weight := delta_weight (prop_data data_union) + 1 |} |}
  else data_union.

End tsdf.

(** ** Occupancy data and the occupancy voxel update
       (ray_integrator_core_impl.hpp) *)

Module occupancy.
Import cxx.

(** [FieldData<Field::Occupancy>]. *)
Record FieldData := mkFieldData {
  occupancy : Q;
  weight : Q;
  observed : bool
}.

(** [Data<Field::Occupancy, ...>]; the optional colour and id payloads play
    no role here. *)
Record Data := mkData { field : FieldData }.

(** Modelled from the spec: the default-constructed data (declared outside
    the available sources): no occupancy, no weight, not observed. *)
Definition default_data : Data :=
  {| field := {| occupancy := 0; weight := 0; observed := false |} |}.

(** Modelled from the spec: [se::get_field] is declared outside the
    available sources; for occupancy it is the mean log-odds times the
    weight. *)
Definition get_field (d : Data) : Q :=
  (occupancy (field d) * weight (field d))%Q.

(** The field part of the map's data configuration. *)
Record FieldConfig := mkFieldConfig {
  log_odd_min : Q;
  log_odd_max : Q;
  max_weight : Q;
  min_occupancy : Q
}.

Definition set_observed (d : Data) (o : bool) : Data :=
  {| field := {| occupancy := occupancy (field d);
                 weight := weight (field d);
                 observed := o |} |}.

Section update_voxel.

(** [data.field.update(sample, max_weight)] is declared outside the
    available sources; the kernels only pass values to it. *)
Variable field_update : FieldData -> Q -> Q -> FieldData.

Definition update (d : Data) (sample_value max_w : Q) : Data :=
  {| field := field_update (field d) sample_value max_w |}.

(** [ray_integrator::update_voxel]: the updated data and the returned
    [newly_observed]. *)
Definition update_voxel (data : Data) (range_diff tau three_sigma : Q)
    (config : FieldConfig) : Data * bool :=
  let finish sample_value :=
    let newly_observed := negb (observed (field data)) in
    (update data sample_value (max_weight config), newly_observed) in
  if Qltb range_diff (- three_sigma) then
    finish (log_odd_min config)
  else if Qltb range_diff (tau / 2) then
    finish (std_min (log_odd_min config
                     - log_odd_min config / three_sigma * (range_diff + three_sigma))
                    (log_odd_max config))
  else if Qltb range_diff tau then
    finish (std_min (- log_odd_min config * tau / (2 * three_sigma))
                    (log_odd_max config))
  else (data, false).

(** [ray_integrator::free_voxel]. *)
Definition free_voxel (voxel_data : Data) (config : FieldConfig) : Data * bool :=
  let newly_observed := negb (observed (field voxel_data)) in
  (update voxel_data (log_odd_min config) (max_weight config), newly_observed).

End update_voxel.

End occupancy.

(** ** Multi-resolution voxel blocks (block_impl.hpp) *)

Module block.
Import cxx.
Local Open Scope Z_scope.

(** Addresses. *)
Abbreviation ptr := positive.

(** The arrays that an occupancy block reaches through its [DataType*]
    members. *)
Abbreviation heap := (gmap positive (list occupancy.Data)).

(** [Eigen::Vector3i]. *)
Definition Vector3i := (Z * Z * Z)%type.

Definition vsub (a b : Vector3i) : Vector3i :=
  let '(ax, ay, az) := a in
  let '(bx, by_, bz) := b in
  (ax - bx, ay - by_, az - bz).

(** Component-wise [int] division, which truncates. *)
Definition vquot (a : Vector3i) (d : Z) : Vector3i :=
  let '(ax, ay, az) := a in (ax ÷ d, ay ÷ d, az ÷ d).

(** [v.pop_back()]; undefined on an empty vector. *)
Definition pop_back {A} (v : list A) : option (list A) :=
  match v with
  | [] => None
  | _ => Some (take (length v - 1)%nat v)
  end.

(** [v[i] = x]; undefined out of range. *)
Definition set_at {A} (v : list A) (i : Z) (x : A) : option (list A) :=
  if (i <? 0) || (Z.of_nat (length v) <=? i) then None
  else Some (<[Z.to_nat i := x]> v).

Section BlockSize.

(** The template parameter [BlockSize]. *)
Variable BlockSize : Z.

(** Modelled from the spec: [max_scale] is a static member declared outside
    the available sources; scales run from 0 to [log2 B]. *)
Definition max_scale : Z := Z.log2 BlockSize.

(** *** The TSDF flavour *)

(** Modelled from the spec: the static tables [size_at_scales_] and
    [scale_offsets_] are declared outside the available sources; the block
    holds the concatenated scale arrays of sizes [(B / 2^i)^3], finest
    first. *)
Definition size_at_scales_ (scale : Z) : option Z :=
  if (0 <=? scale) && (scale <=? max_scale) then Some (BlockSize ≫ scale)
  else None.

Fixpoint scale_offset (s : nat) : Z :=
  match s with
  | O => 0
  | S s' => scale_offset s' + cu (BlockSize ≫ Z.of_nat s')
  end.

Definition scale_offsets_ (scale : Z) : option Z :=
  if (0 <=? scale) && (scale <=? max_scale)
  then Some (scale_offset (Z.to_nat scale))
  else None.

Record BlockMultiResTSDF := mkBlockTSDF {
  t_coord : Vector3i;
  t_current_scale : Z;
  t_block_data_ : list tsdf.Data;
  t_block_past_data_ : list tsdf.PropData
}.

(** [BlockMultiRes<TSDF>::getVoxelIdx]. *)
Definition t_getVoxelIdx (b : BlockMultiResTSDF) (voxel_coord : Vector3i)
    (scale : Z) : option Z :=
  if (0 <=? scale) && (scale <=? max_scale) then
    let '(ox, oy, oz) := vquot (vsub voxel_coord (t_coord b)) (1 ≪ scale) in
    size_at_scale ← size_at_scales_ scale;
    offset ← scale_offsets_ scale;
    Some (offset + ox + oy * size_at_scale + oz * sq size_at_scale)
  else None.

(** [data(voxel_idx)]. *)
Definition t_data_idx (b : BlockMultiResTSDF) (voxel_idx : Z) : option tsdf.Data :=
  at_ (t_block_data_ b) voxel_idx.

(** [data(voxel_coord, scale)]. *)
Definition t_data_at (b : BlockMultiResTSDF) (voxel_coord : Vector3i)
    (scale : Z) : option tsdf.Data :=
  t_getVoxelIdx b voxel_coord scale ≫= t_data_idx b.

(** [data(voxel_coord, scale_desired, scale_returned)]: the data and the
    value written to [scale_returned]. *)
Definition t_data (b : BlockMultiResTSDF) (voxel_coord : Vector3i)
    (scale_desired : Z) : option (tsdf.Data * Z) :=
  let scale_returned := Z.max scale_desired (t_current_scale b) in
  d ← t_getVoxelIdx b voxel_coord scale_returned ≫= t_data_idx b;
  Some (d, scale_returned).

(** *** The occupancy flavour *)

Import occupancy.

Record BlockMultiRes := mkBlock {
  coord : Vector3i;
  block_data_ : list ptr;
  block_min_data_ : list ptr;
  block_max_data_ : list ptr;
  curr_data_ : option ptr;
  buffer_data_ : option ptr;
  current_scale : Z;
  min_scale : Z;
  buffer_scale_ : Z;
  curr_integr_count_ : Z;
  curr_observed_count_ : Z;
  buffer_integr_count_ : Z;
  buffer_observed_count_ : Z;
  init_data_ : Data
}.

(** [new DataType[n]]: a fresh array of default-constructed data. *)
Definition new_array (h : heap) (n : Z) : ptr * heap :=
  let p := fresh (dom h) in
  (p, <[p := replicate (Z.to_nat n) default_data]> h).

(** [delete[] p] of a live array. *)
Definition delete_array (h : heap) (p : ptr) : option heap :=
  _ ← h !! p; Some (delete p h).

(** [BlockMultiRes<Occupancy>::getVoxelIdx]. *)
Definition getVoxelIdx (b : BlockMultiRes) (voxel_coord : Vector3i)
    (scale : Z) : option Z :=
  if (0 <=? scale) && (scale <=? max_scale) then
    let '(ox, oy, oz) := vquot (vsub voxel_coord (coord b)) (1 ≪ scale) in
    let size_at_scale := BlockSize ≫ scale in
    Some (ox + oy * size_at_scale + oz * sq size_at_scale)
  else None.

(** [arrays[max_scale - scale][voxel_idx]]. *)
Definition pyramid_at (h : heap) (arrays : list ptr) (scale voxel_idx : Z) :
    option Data :=
  p ← at_ arrays (max_scale - scale);
  arr ← h !! p;
  at_ arr voxel_idx.

(** [data(voxel_coord, scale_in, scale_out)]: the data and the value written
    to [scale_out]. *)
Definition data (h : heap) (b : BlockMultiRes) (voxel_coord : Vector3i)
    (scale_in : Z) : option (Data * Z) :=
  let scale_out := Z.max scale_in (current_scale b) in
  d ← getVoxelIdx b voxel_coord scale_out
        ≫= pyramid_at h (block_data_ b) scale_out;
  Some (d, scale_out).

(** The scale test of the two-argument accessors,
    [max_scale - (block_data_.size() - 1) > static_cast<size_t>(scale)],
    evaluated in [size_t]. *)
Definition finer_than_allocated (b : BlockMultiRes) (scale : Z) : bool :=
  to_size_t scale
  <? to_size_t (to_size_t max_scale
                - to_size_t (Z.of_nat (length (block_data_ b)) - 1)).

(** The body shared by [data], [minData] and [maxData] with arguments
    [(voxel_coord, scale)], for the pyramid [arrays]. The shift [1 << scale]
    is undefined for a negative scale and for one beyond the width of
    [int]. *)
Definition data_at_scale (h : heap) (b : BlockMultiRes) (arrays : list ptr)
    (voxel_coord : Vector3i) (scale : Z) : option Data :=
  if finer_than_allocated b scale then Some (init_data_ b)
  else if (0 <=? scale) && (scale <? 31) then
    let '(ox, oy, oz) := vquot (vsub voxel_coord (coord b)) (1 ≪ scale) in
    let size_at_scale := BlockSize ≫ scale in
    pyramid_at h arrays scale (ox + oy * size_at_scale + oz * sq size_at_scale)
  else None.

(** [data(voxel_coord, scale)]. *)
Definition data_at (h : heap) (b : BlockMultiRes) :=
  data_at_scale h b (block_data_ b).

(** [minData(voxel_coord, scale)]. *)
Definition minData (h : heap) (b : BlockMultiRes) :=
  data_at_scale h b (block_min_data_ b).

(** [maxData(voxel_coord, scale)]. *)
Definition maxData (h : heap) (b : BlockMultiRes) :=
  data_at_scale h b (block_max_data_ b).

(** The test on the observed counts that [incrBufferIntegrCount] and
    [switchData] share:
    [buffer_observed_count_ * cu(1 << buffer_scale_)
       >= 0.9 * curr_observed_count_ * cu(1 << current_scale)],
    in exact arithmetic. It is meant for an active buffer
    ([buffer_scale_ >= 0]). *)
Definition buffer_covers_current (b : BlockMultiRes) : bool :=
  Qle_bool
    ((9 # 10) * inject_Z (curr_observed_count_ b)
     * inject_Z (cu (1 ≪ current_scale b)))%Q
    (inject_Z (buffer_observed_count_ b * cu (1 ≪ buffer_scale_ b))).

Definition set_buffer_counts (b : BlockMultiRes) (integr observed_count : Z) :
    BlockMultiRes :=
  {| coord := coord b; block_data_ := block_data_ b;
     block_min_data_ := block_min_data_ b; block_max_data_ := block_max_data_ b;
     curr_data_ := curr_data_ b; buffer_data_ := buffer_data_ b;
     current_scale := current_scale b; min_scale := min_scale b;
     buffer_scale_ := buffer_scale_ b;
     curr_integr_count_ := curr_integr_count_ b;
     curr_observed_count_ := curr_observed_count_ b;
     buffer_integr_count_ := integr;
     buffer_observed_count_ := observed_count;
     init_data_ := init_data_ b |}.

(** [incrBufferIntegrCount]. *)
Definition incrBufferIntegrCount (b : BlockMultiRes) (do_increment : bool) :
    BlockMultiRes :=
  if do_increment || buffer_covers_current b then
    set_buffer_counts b (buffer_integr_count_ b + 1) (buffer_observed_count_ b)
  else b.

(** [incrBufferObservedCount]. *)
Definition incrBufferObservedCount (b : BlockMultiRes) (do_increment : bool) :
    BlockMultiRes :=
  if do_increment then
    set_buffer_counts b (buffer_integr_count_ b) (buffer_observed_count_ b + 1)
  else b.

(** [resetBufferCount]. *)
Definition resetBufferCount (b : BlockMultiRes) : BlockMultiRes :=
  set_buffer_counts b 0 0.

Definition set_pyramid (b : BlockMultiRes) (bd bmin bmax : list ptr)
    (new_min_scale : Z) : BlockMultiRes :=
  {| coord := coord b; block_data_ := bd;
     block_min_data_ := bmin; block_max_data_ := bmax;
     curr_data_ := curr_data_ b; buffer_data_ := buffer_data_ b;
     current_scale := current_scale b; min_scale := new_min_scale;
     buffer_scale_ := buffer_scale_ b;
     curr_integr_count_ := curr_integr_count_ b;
     curr_observed_count_ := curr_observed_count_ b;
     buffer_integr_count_ := buffer_integr_count_ b;
     buffer_observed_count_ := buffer_observed_count_ b;
     init_data_ := init_data_ b |}.

Definition set_buffer (b : BlockMultiRes) (buf : option ptr) (scale : Z) :
    BlockMultiRes :=
  {| coord := coord b; block_data_ := block_data_ b;
     block_min_data_ := block_min_data_ b; block_max_data_ := block_max_data_ b;
     curr_data_ := curr_data_ b; buffer_data_ := buf;
     current_scale := current_scale b; min_scale := min_scale b;
     buffer_scale_ := scale;
     curr_integr_count_ := curr_integr_count_ b;
     curr_observed_count_ := curr_observed_count_ b;
     buffer_integr_count_ := buffer_integr_count_ b;
     buffer_observed_count_ := buffer_observed_count_ b;
     init_data_ := init_data_ b |}.

(** [resetBuffer]. *)
Definition resetBuffer (h : heap) (b : BlockMultiRes) :
    option (heap * BlockMultiRes) :=
  h1 ← (if buffer_scale_ b <? current_scale b then
          match buffer_data_ b with
          | Some p => delete_array h p
          | None => Some h
          end
        else Some h);
  Some (h1, resetBufferCount (set_buffer b None (-1))).

(** [initBuffer]. *)
Definition initBuffer (h : heap) (b : BlockMultiRes) (buffer_scale : Z) :
    option (heap * BlockMultiRes) :=
  if (0 <=? buffer_scale) && (buffer_scale <=? max_scale) then
    '(h1, b1) ← resetBuffer h b;
    if buffer_scale <? current_scale b1 then
      let '(p, h2) := new_array h1 (cu (BlockSize ≫ buffer_scale)) in
      Some (h2, set_buffer b1 (Some p) buffer_scale)
    else
      p ← at_ (block_data_ b1) (max_scale - buffer_scale);
      Some (h1, set_buffer b1 (Some p) buffer_scale)
  else None.

(** One round of the loop of [deleteUpTo] over the scales strictly between
    the old and the new finest scale. *)
Definition deleteUpTo_step (scale : Z)
    (st : heap * list ptr * list ptr * list ptr) :
    option (heap * list ptr * list ptr * list ptr) :=
  let '(h, bd, bmin, bmax) := st in
  p ← at_ bd (max_scale - scale);
  h ← delete_array h p;
  bd ← pop_back bd;
  pmin ← at_ bmin (max_scale - scale);
  h ← delete_array h pmin;
  bmin ← pop_back bmin;
  pmax ← at_ bmax (max_scale - scale);
  h ← delete_array h pmax;
  bmax ← pop_back bmax;
  Some (h, bd, bmin, bmax).

Fixpoint deleteUpTo_loop (scales : list Z)
    (st : heap * list ptr * list ptr * list ptr) :
    option (heap * list ptr * list ptr * list ptr) :=
  match scales with
  | [] => Some st
  | scale :: rest => deleteUpTo_step scale st ≫= deleteUpTo_loop rest
  end.

(** [deleteUpTo]; a failed assertion on [new_min_scale] is [None]. *)
Definition deleteUpTo (h : heap) (b : BlockMultiRes) (new_min_scale : Z) :
    option (heap * BlockMultiRes) :=
  if negb ((0 <=? new_min_scale) && (new_min_scale <=? max_scale)) then None
  else if (min_scale b =? -1) || (new_min_scale <=? min_scale b) then
    Some (h, b)
  else
    p ← at_ (block_data_ b) (max_scale - min_scale b);
    h ← delete_array h p;
    bd ← pop_back (block_data_ b);
    bmin ← pop_back (block_min_data_ b);
    bmax ← pop_back (block_max_data_ b);
    '(h, bd, bmin, bmax) ←
      deleteUpTo_loop
        (seqZ (min_scale b + 1) (new_min_scale - (min_scale b + 1)))
        (h, bd, bmin, bmax);
    (* Replace min data at min scale with same as mean data. *)
    pmin ← at_ bmin (max_scale - new_min_scale);
    h ← delete_array h pmin;
    bmin ← pop_back bmin;
    shared ← at_ bd (max_scale - new_min_scale);
    let bmin := bmin ++ [shared] in
    (* Replace max data at min scale with same as mean data. *)
    pmax ← at_ bmax (max_scale - new_min_scale);
    h ← delete_array h pmax;
    bmax ← pop_back bmax;
    shared ← at_ bd (max_scale - new_min_scale);
    let bmax := bmax ++ [shared] in
    Some (h, set_pyramid b bd bmin bmax new_min_scale).

(** The body of the loop of [switchData] over the buffer voxels. *)
Definition missed_observation (d : Data) : bool :=
  Qltb 0 (weight (field d)) && negb (observed (field d)).

Definition mark_observed (d : Data) : Data :=
  if missed_observation d then set_observed d true else d.

(** [switchData]: the heap and block afterwards and the returned flag. *)
Definition switchData (h : heap) (b : BlockMultiRes) :
    option (heap * BlockMultiRes * bool) :=
  if (20 <=? buffer_integr_count_ b) && buffer_covers_current b then
    buf ← buffer_data_ b;
    '(h1, b1) ←
      (if buffer_scale_ b <? current_scale b then
         (* Switch to finer scale. *)
         let bd := block_data_ b ++ [buf] in
         let bmin := block_min_data_ b ++ [buf] in
         let bmax := block_max_data_ b ++ [buf] in
         let num_voxels_at_scale := cu (BlockSize ≫ (buffer_scale_ b + 1)) in
         let '(pmin, h1) := new_array h num_voxels_at_scale in
         bmin ← set_at bmin (max_scale - (buffer_scale_ b + 1)) pmin;
         let '(pmax, h2) := new_array h1 num_voxels_at_scale in
         bmax ← set_at bmax (max_scale - (buffer_scale_ b + 1)) pmax;
         Some (h2, set_pyramid b bd bmin bmax (min_scale b))
       else
         (* Switch to coarser scale. *)
         deleteUpTo h b (buffer_scale_ b));
    (* Update observed state. *)
    let num_voxels_at_buffer_scale := cu (BlockSize ≫ buffer_scale_ b) in
    arr ← h1 !! buf;
    if Z.of_nat (length arr) <? num_voxels_at_buffer_scale then None
    else
      let n := Z.to_nat num_voxels_at_buffer_scale in
      let missed_observed_count :=
        Z.of_nat (length (filter (λ d, missed_observation d = true) (take n arr))) in
      let h2 := <[buf := (mark_observed <$> take n arr) ++ drop n arr]> h1 in
      let buffer_observed_count := buffer_observed_count_ b + missed_observed_count in
      Some (h2,
            {| coord := coord b1; block_data_ := block_data_ b1;
               block_min_data_ := block_min_data_ b1;
               block_max_data_ := block_max_data_ b1;
               curr_data_ := Some buf; buffer_data_ := None;
               current_scale := buffer_scale_ b; min_scale := buffer_scale_ b;
               buffer_scale_ := -1;
               curr_integr_count_ := buffer_integr_count_ b;
               curr_observed_count_ := buffer_observed_count;
               buffer_integr_count_ := 0;
               buffer_observed_count_ := 0;
               init_data_ := init_data_ b1 |},
            true)
  else Some (h, b, false).

End BlockSize.

(** *** Well-formed blocks *)

Import occupancy.

(** A voxel lies inside the block at [c] of side [B]. *)
Definition inside_block (B : Z) (c v : Vector3i) : Prop :=
  let '(cx, cy, cz) := c in
  let '(vx, vy, vz) := v in
  (cx <= vx < cx + B) /\ (cy <= vy < cy + B) /\ (cz <= vz < cz + B).

(** A TSDF block of side [2^k]: the current scale is a scale of the block
    and the flat array holds all scales. *)
Definition t_wf (k : Z) (b : BlockMultiResTSDF) : Prop :=
  0 <= t_current_scale b <= k
  /\ Z.of_nat (length (t_block_data_ b)) = scale_offset (2 ^ k) (S (Z.to_nat k)).

(** The pyramid [arrays] of a block of side [2^k] holds one live array of
    the right size for every scale from [finest] up to [k], coarsest
    first. *)
Definition pyramid_allocated (k : Z) (h : heap) (arrays : list ptr)
    (finest : Z) : Prop :=
  Z.of_nat (length arrays) = k - finest + 1
  /\ forall s, finest <= s <= k ->
       exists p arr, at_ arrays (k - s) = Some p /\ h !! p = Some arr
                     /\ Z.of_nat (length arr) = cu (2 ^ k ≫ s).

(** An occupancy block of side [2^k] whose mean pyramid is allocated down to
    its finest scale. *)
Definition wf (k : Z) (h : heap) (b : BlockMultiRes) : Prop :=
  0 <= min_scale b /\ min_scale b <= current_scale b <= k
  /\ pyramid_allocated k h (block_data_ b) (min_scale b).

(** An active buffer one scale below the current scale: a separate live
    array [arr] at [buf], as [initBuffer] allocates it. *)
Definition buffer_finer (k : Z) (h : heap) (b : BlockMultiRes) (buf : ptr)
    (arr : list Data) : Prop :=
  buffer_scale_ b = current_scale b - 1 /\ 0 <= buffer_scale_ b
  /\ buffer_data_ b = Some buf /\ h !! buf = Some arr
  /\ Z.of_nat (length arr) = cu (2 ^ k ≫ buffer_scale_ b).

(** An active buffer one scale above the current scale: [initBuffer] makes
    it the mean array of that scale, the min and max arrays of that scale
    and the arrays of the mean pyramid being distinct live arrays. *)
Definition buffer_coarser (k : Z) (h : heap) (b : BlockMultiRes) (buf : ptr)
    (arr : list Data) : Prop :=
  buffer_scale_ b = current_scale b + 1 /\ buffer_scale_ b <= k
  /\ buffer_data_ b = Some buf /\ h !! buf = Some arr
  /\ Z.of_nat (length arr) = cu (2 ^ k ≫ buffer_scale_ b)
  /\ at_ (block_data_ b) (k - buffer_scale_ b) = Some buf
  /\ NoDup (block_data_ b)
  /\ exists pmin pmax,
       at_ (block_min_data_ b) (k - buffer_scale_ b) = Some pmin
       /\ at_ (block_max_data_ b) (k - buffer_scale_ b) = Some pmax
       /\ pmin <> pmax /\ (pmin ∉ block_data_ b) /\ (pmax ∉ block_data_ b)
       /\ is_Some (h !! pmin) /\ is_Some (h !! pmax).

(** A block in the middle of a scale change, as [updateBlock] leaves it
    before it calls [switchData]. *)
Definition switch_ready (k : Z) (h : heap) (b : BlockMultiRes) (buf : ptr)
    (arr : list Data) : Prop :=
  wf k h b /\ min_scale b = current_scale b
  /\ length (block_min_data_ b) = length (block_data_ b)
  /\ length (block_max_data_ b) = length (block_data_ b)
  /\ (buffer_finer k h b buf arr \/ buffer_coarser k h b buf arr).

(** The test of [switchData], as the proposition it decides. *)
Definition ratified (b : BlockMultiRes) : Prop :=
  20 <= buffer_integr_count_ b
  /\ ((9 # 10) * inject_Z (curr_observed_count_ b)
        * inject_Z (cu (1 ≪ current_scale b))
      <= inject_Z (buffer_observed_count_ b * cu (1 ≪ buffer_scale_ b)))%Q.

(** The heap [h'] and block [b'] after the buffer [arr] at [buf] of the
    block [b] has become its current data. *)
Definition switched (k : Z) (h : heap) (b : BlockMultiRes) (buf : ptr)
    (arr : list Data) (h' : heap) (b' : BlockMultiRes) : Prop :=
  current_scale b' = buffer_scale_ b /\ min_scale b' = buffer_scale_ b
  /\ curr_data_ b' = Some buf
  /\ (buffer_scale_ b < current_scale b ->
      block_data_ b' = block_data_ b ++ [buf])
  /\ (current_scale b < buffer_scale_ b ->
      block_data_ b' = take (length (block_data_ b) - 1)%nat (block_data_ b))
  /\ at_ (block_data_ b') (k - buffer_scale_ b) = Some buf
  /\ h' !! buf = Some (mark_observed <$> arr)
  /\ wf k h' b'
  /\ curr_integr_count_ b' = buffer_integr_count_ b
  /\ curr_observed_count_ b'
     = buffer_observed_count_ b
       + Z.of_nat (length (filter (λ d, missed_observation d = true) arr))
  /\ buffer_data_ b' = None /\ buffer_scale_ b' = -1
  /\ buffer_integr_count_ b' = 0 /\ buffer_observed_count_ b' = 0.

End block.

(** ** Point queries (visitor.hpp) *)

Module visitor.
Import cxx occupancy block.

(** Modelled from the spec: [se::is_valid] is declared outside the available
    sources; occupancy data is valid once it has been observed. *)
Definition is_valid (d : Data) : bool := observed (field d).

(** Modelled from the spec: the body of [visitor::getData]
    ([impl/visitor_impl.hpp]) and the block fetcher it calls are not among
    the available sources. Following the documentation of its declaration,
    the query returns the data of the voxel in the block that contains it and
    "init data if block is not allocated". [fetched] is the result of
    fetching the block that contains [voxel_coord]. *)
Definition getData (BlockSize : Z) (h : heap) (fetched : option BlockMultiRes)
    (voxel_coord : Vector3i) : option Data :=
  match fetched with
  | None => Some default_data
  | Some b => fst <$> data BlockSize h b voxel_coord (current_scale b)
  end.

(** Modelled from the spec: the body of [visitor::getField] is not among the
    available sources; it "returns {}/invalid if the data is invalid". The
    inner [None] is [std::nullopt]. *)
Definition getField (BlockSize : Z) (h : heap) (fetched : option BlockMultiRes)
    (voxel_coord : Vector3i) : option (option Q) :=
  d ← getData BlockSize h fetched voxel_coord;
  Some (if is_valid d then Some (get_field d) else None).

End visitor.

(** ** The octree store (octree_impl.hpp) *)

Module octree.
Import cxx occupancy.
Local Open Scope Z_scope.

Abbreviation ptr := positive.
Abbreviation Vector3i := block.Vector3i.

(** An octant of the store: a node with its eight child pointers and its
    min and max aggregates, or a block, for which [min_data] and [max_data]
    are what [minData()] and [maxData()] return. *)
Record Octant := mkOctant {
  is_block : bool;
  parent_ptr : option ptr;
  coord : Vector3i;
  size : Z;
  timestamp : Z;
  children : list (option ptr);
  min_data : Data;
  max_data : Data
}.

(** The octants of the memory pool. *)
Abbreviation pool := (gmap positive Octant).

Record Octree := mkOctree {
  size_ : Z;
  root_ptr_ : ptr;
  memory_pool_ : pool
}.

Definition set_children (o : Octant) (cs : list (option ptr)) : Octant :=
  {| is_block := is_block o; parent_ptr := parent_ptr o; coord := coord o;
     size := size o; timestamp := timestamp o; children := cs;
     min_data := min_data o; max_data := max_data o |}.

Definition set_aggregates (o : Octant) (t : Z) (dmin dmax : Data) : Octant :=
  {| is_block := is_block o; parent_ptr := parent_ptr o; coord := coord o;
     size := size o; timestamp := t; children := children o;
     min_data := dmin; max_data := dmax |}.

(** [node.getChild(child_idx)]; the outer [None] is an index outside the
    child array. *)
Definition getChild (o : Octant) (child_idx : Z) : option (option ptr) :=
  at_ (children o) child_idx.

(** [node.setChild(child_idx, child_ptr)]. *)
Definition setChild (o : Octant) (child_idx : Z) (c : option ptr) :
    option Octant :=
  set_children o <$> block.set_at (children o) child_idx c.



(** The coordinates of child [child_idx] of an octant at [c] whose children
    have side [child_size]: bit 0 of the index selects x, bit 1 y and bit 2 z
    (the expression of the [Block] constructor). *)
Definition child_coord (c : Vector3i) (child_size : Z) (child_idx : Z) :
    Vector3i :=
  let '(x, y, z) := c in
  let sel (bit : Z) := if 0 <? Z.land bit child_idx then 1 else 0 in
  (x + child_size * sel 1, y + child_size * sel 2, z + child_size * sel 4).

Definition no_children : list (option ptr) := replicate 8 None.

Section BlockSize.

(** The template parameter [BlockSize]. *)
Variable BlockSize : Z.

(** Modelled from the spec: the memory pool ([allocateNode],
    [allocateBlock]) is declared outside the available sources. It places a
    new octant with default data at an address that is not in use. *)
Definition pool_new (p : pool) (o : Octant) : ptr * pool :=
  let a := fresh (dom p) in (a, <[a := o]> p).


Definition allocateNode (p : pool) (parent_ptr : ptr) (parent : Octant)
    (child_idx : Z) : ptr * pool :=
  pool_new p
    {| is_block := false; parent_ptr := Some parent_ptr;
       coord := child_coord (coord parent) (size parent ≫ 1) child_idx;
       size := size parent ≫ 1;
       timestamp := -1; children := no_children;
       min_data := default_data; max_data := default_data |}.

Definition allocateBlock (p : pool) (parent_ptr : ptr) (parent : Octant)
    (child_idx : Z) : ptr * pool :=
  pool_new p
    {| is_block := true; parent_ptr := Some parent_ptr;
       coord := child_coord (coord parent) BlockSize child_idx;
       size := BlockSize;
       timestamp := -1; children := [];
       min_data := default_data; max_data := default_data |}.



(** The part of [allocate] that both overloads share once the child is
    known to be missing. *)
Definition allocate_missing (t : Octree) (parent_ptr : ptr) (parent : Octant)
    (child_idx : Z) : option (ptr * Octree) :=
  let '(child_ptr, p) :=
    if size parent =? BlockSize ≪ 1
    then allocateBlock (memory_pool_ t) parent_ptr parent child_idx
    else allocateNode (memory_pool_ t) parent_ptr parent child_idx in
  parent' ← setChild parent child_idx (Some child_ptr);
  Some (child_ptr,
        {| size_ := size_ t; root_ptr_ := root_ptr_ t;
           memory_pool_ := <[parent_ptr := parent']> p |}).

(** [OctantBase* Octree::allocate(parent_ptr, child_idx)]. *)
Definition allocate (t : Octree) (parent_ptr : ptr) (child_idx : Z) :
    option (ptr * Octree) :=
  parent ← memory_pool_ t !! parent_ptr;
  if is_block parent then None
  else
    child_ptr ← getChild parent child_idx;
    match child_ptr with
    | Some c => Some (c, t)
    | None => allocate_missing t parent_ptr parent child_idx
    end.

(** [bool Octree::allocate(parent_ptr, child_idx, child_ptr)]: the returned
    flag, the pointer written to [child_ptr] and the octree. *)
Definition allocate_flag (t : Octree) (parent_ptr : ptr) (child_idx : Z) :
    option (bool * ptr * Octree) :=
  parent ← memory_pool_ t !! parent_ptr;
  if is_block parent then None
  else
    child_ptr ← getChild parent child_idx;
    match child_ptr with
    | Some c => Some (false, c, t)
    | None =>
        '(c, t') ← allocate_missing t parent_ptr parent child_idx;
        Some (true, c, t')
    end.

End BlockSize.

(** *** Deleting a subtree *)

(** The loop of [deleteChildren] over the child pointers [cs]; [rec] is the
    recursive call. *)
Fixpoint deleteChildren_loop (rec : pool -> ptr -> option pool)
    (cs : list (option ptr)) (p : pool) : option pool :=
  match cs with
  | [] => Some p
  | None :: cs' => deleteChildren_loop rec cs' p
  | Some c :: cs' =>
      child ← p !! c;
      p ← (if is_block child then Some p else rec p c);
      _ ← p !! c;
      deleteChildren_loop rec cs' (delete c p)
  end.

(** [Octree::deleteChildren(parent_ptr)] in the revision that frees every
    descendant through the memory pool. The recursion follows child
    pointers; [fuel] bounds its depth. All child pointers are reset once the
    loop is over. *)
Fixpoint deleteChildren (fuel : nat) (p : pool) (parent_ptr : ptr) :
    option pool :=
  match fuel with
  | O => None
  | S fuel' =>
      parent ← p !! parent_ptr;
      if is_block parent || negb (length (children parent) =? 8)%nat then None
      else
        p ← deleteChildren_loop (deleteChildren fuel') (children parent) p;
        parent ← p !! parent_ptr;
        Some (<[parent_ptr := set_children parent no_children]> p)
  end.

(** The octants below [p], in the order in which [deleteChildren] frees
    them. *)
Fixpoint descendants_loop (rec : pool -> ptr -> option (list ptr)) (p : pool)
    (cs : list (option ptr)) : option (list ptr) :=
  match cs with
  | [] => Some []
  | None :: cs' => descendants_loop rec p cs'
  | Some c :: cs' =>
      child ← p !! c;
      below ← (if is_block child then Some [] else rec p c);
      rest ← descendants_loop rec p cs';
      Some (below ++ c :: rest)
  end.

Fixpoint descendants (fuel : nat) (p : pool) (octant_ptr : ptr) :
    option (list ptr) :=
  match fuel with
  | O => None
  | S fuel' =>
      o ← p !! octant_ptr;
      if is_block o || negb (length (children o) =? 8)%nat then None
      else descendants_loop (descendants fuel') p (children o)
  end.

(** The octants below the node [n] form a tree that the recursion explores
    within [fuel]: all child pointers are live and no octant is reached
    twice. *)
Definition subtree_ok (fuel : nat) (p : pool) (n : ptr) : Prop :=
  exists ds, descendants fuel p n = Some ds /\ NoDup (n :: ds).

(** The part of an octant that [deleteChildren] follows. *)
Definition shape (o : Octant) : bool * list (option ptr) :=
  (is_block o, children o).

(** The result of [descendants] depends only on the shape of the octants it
    lists. *)
Definition reads_only_result (rec : pool -> ptr -> option (list ptr)) : Prop :=
  forall (p p' : pool) (n : ptr) (ds : list ptr),
    rec p n = Some ds ->
    (forall x, x = n \/ x ∈ ds -> shape <$> p' !! x = shape <$> p !! x) ->
    rec p' n = Some ds.

(** What [deleteChildren] leaves of the pool: the node without children,
    nothing of the octants [ds] below it, and every other octant as it
    was. *)
Definition subtree_deleted (p : pool) (n : ptr) (ds : list ptr) (p' : pool) :
    Prop :=
  forall x,
    p' !! x = if decide (x = n) then
                (λ o, set_children o no_children) <$> p !! n
              else if decide (x ∈ ds) then None else p !! x.

Definition deletes_subtree (desc : pool -> ptr -> option (list ptr))
    (rec : pool -> ptr -> option pool) : Prop :=
  forall (p : pool) (n : ptr) (ds : list ptr),
    desc p n = Some ds -> NoDup (n :: ds) ->
    exists p', rec p n = Some p' /\ subtree_deleted p n ds p'.

(** [x] lies below the node [n]: a chain of child pointers of the pool
    leads from [n] to [x]. *)
Inductive below (p : pool) (n : ptr) : ptr -> Prop :=
  | below_child (o : Octant) (c : ptr) :
      p !! n = Some o -> Some c ∈ children o -> below p n c
  | below_step (y : ptr) (o : Octant) (c : ptr) :
      below p n y -> p !! y = Some o -> Some c ∈ children o -> below p n c.

(** What a call [deleteChildren(n)] that has returned [p'] has done to the
    pool [p]: the node is left without children, its former children are
    gone, and every other octant is as it was or, if it lay below the node,
    gone. *)
Definition prunes (p : pool) (n : ptr) (p' : pool) : Prop :=
  (exists o,
      p !! n = Some o /\ p' !! n = Some (set_children o no_children)
      /\ forall c, Some c ∈ children o -> p' !! c = None)
  /\ forall x, x <> n ->
       p' !! x = p !! x \/ (p' !! x = None /\ below p n x).

(** What a propagation into the node [n] that has returned the pool [p']
    and the data [d] has done: the node is stamped with [frame], [d] is its
    max data, and nothing but the aggregates and the timestamp of the node
    has changed. *)
Definition propagates (frame : Z) (p : pool) (n : ptr) (p' : pool) (d : Data) :
    Prop :=
  exists o dmin,
    p !! n = Some o /\ p' = <[n := set_aggregates o frame dmin d]> p.

End octree.

(** ** Propagation to the parent node (ray_integrator_core_impl.hpp) *)

Module propagator.
Import cxx occupancy octree.
Local Open Scope Z_scope.

(** The local variables of [propagate_to_parent_node]. *)
Record Aggregate := mkAggregate {
  max_occupancy : Q;
  max_mean_occupancy : Q;
  max_weight : Q;
  max_data_count : Z;
  min_mean_occupancy : Q;
  min_weight : Q;
  min_occupancy : Q;
  min_data_count : Z;
  observed_count : Z
}.

Definition initial : Aggregate :=
  {| max_occupancy := FLT_LOWEST; max_mean_occupancy := 0; max_weight := 0;
     max_data_count := 0;
     min_mean_occupancy := 0; min_weight := 0; min_occupancy := FLT_MAX;
     min_data_count := 0;
     observed_count := 0 |}.

(** The body of the loop for a child that is not null. The assertion that
    the min and max data of the child agree on [observed] aborts the call;
    the count reads the max data, as the code does. *)
Definition visit_child (acc : Aggregate) (child : Octant) : option Aggregate :=
  let child_min_data := min_data child in
  let acc :=
    if Qltb 0 (weight (field child_min_data))
       && Qltb (get_field child_min_data) (min_occupancy acc)
    then {| max_occupancy := max_occupancy acc;
            max_mean_occupancy := max_mean_occupancy acc;
            max_weight := max_weight acc;
            max_data_count := max_data_count acc;
            min_mean_occupancy := occupancy (field child_min_data);
            min_weight := weight (field child_min_data);
            min_occupancy := get_field child_min_data;
            min_data_count := min_data_count acc + 1;
            observed_count := observed_count acc |}
    else acc in
  let child_max_data := max_data child in
  let acc :=
    if Qltb 0 (weight (field child_max_data))
       && Qltb (max_occupancy acc) (get_field child_max_data)
    then {| max_occupancy := get_field child_max_data;
            max_mean_occupancy := occupancy (field child_max_data);
            max_weight := weight (field child_max_data);
            max_data_count := max_data_count acc + 1;
            min_mean_occupancy := min_mean_occupancy acc;
            min_weight := min_weight acc;
            min_occupancy := min_occupancy acc;
            min_data_count := min_data_count acc;
            observed_count := observed_count acc |}
    else acc in
  if negb (Bool.eqb (observed (field child_min_data))
                    (observed (field child_max_data)))
  then None
  else if observed (field child_max_data)
  then Some {| max_occupancy := max_occupancy acc;
               max_mean_occupancy := max_mean_occupancy acc;
               max_weight := max_weight acc;
               max_data_count := max_data_count acc;
               min_mean_occupancy := min_mean_occupancy acc;
               min_weight := min_weight acc;
               min_occupancy := min_occupancy acc;
               min_data_count := min_data_count acc;
               observed_count := observed_count acc + 1 |}
  else Some acc.

(** The loop over the child pointers; a null child is skipped. *)
Fixpoint visit_children (p : pool) (cs : list (option ptr)) (acc : Aggregate) :
    option Aggregate :=
  match cs with
  | [] => Some acc
  | None :: cs' => visit_children p cs' acc
  | Some c :: cs' =>
      child ← p !! c; acc ← visit_child acc child; visit_children p cs' acc
  end.

(** The write-back of one aggregate: [count] is [min_data_count] or
    [max_data_count]. *)
Definition write_back (old : Data) (count : Z) (mean_occupancy w : Q)
    (observed_count : Z) : Data :=
  if 0 <? count then
    {| field := {| occupancy := mean_occupancy; weight := w;
                   observed := if observed_count =? 8 then true
                               else observed (field old) |} |}
  else old.

(** [propagate_to_parent_node]: the pool afterwards and the returned
    [node.max_data]. *)
Definition propagate_to_parent_node (p : pool) (octant_ptr : ptr)
    (timestamp : Z) : option (pool * Data) :=
  node ← p !! octant_ptr;
  if is_block node || negb (length (children node) =? 8)%nat then None
  else
    acc ← visit_children p (children node) initial;
    let dmin := write_back (min_data node) (min_data_count acc)
                  (min_mean_occupancy acc) (min_weight acc) (observed_count acc) in
    let dmax := write_back (max_data node) (max_data_count acc)
                  (max_mean_occupancy acc) (max_weight acc) (observed_count acc) in
    Some (<[octant_ptr := set_aggregates node timestamp dmin dmax]> p, dmax).

(** The octants behind the child pointers [cs] that are not null. *)
Fixpoint live_children (p : pool) (cs : list (option ptr)) :
    option (list Octant) :=
  match cs with
  | [] => Some []
  | None :: cs' => live_children p cs'
  | Some c :: cs' =>
      child ← p !! c; kids ← live_children p cs'; Some (child :: kids)
  end.

(** The loop on the octants themselves. *)
Fixpoint visit_kids (kids : list Octant) (acc : Aggregate) : option Aggregate :=
  match kids with
  | [] => Some acc
  | child :: kids' => acc ← visit_child acc child; visit_kids kids' acc
  end.

(** What the assertion of the loop demands of a child. *)
Definition child_consistent (child : Octant) : Prop :=
  observed (field (min_data child)) = observed (field (max_data child)).

(** The max data of a child is observed; it carries weight and a field
    value that the running maximum can take up. *)
Definition child_observed (child : Octant) : Prop :=
  observed (field (max_data child)) = true.

Definition child_weighted (child : Octant) : Prop :=
  (0 < weight (field (max_data child)))%Q
  /\ (FLT_LOWEST < get_field (max_data child))%Q.

(** The running maximum never falls below its initial value, and it is the
    initial value as long as no child has been counted. *)
Definition max_invariant (acc : Aggregate) : Prop :=
  0 <= max_data_count acc
  /\ (FLT_LOWEST <= max_occupancy acc)%Q
  /\ (max_data_count acc = 0 -> (max_occupancy acc == FLT_LOWEST)%Q).

End propagator.

(** ** The occupancy updater: propagation to the root
       (multires_ofusion_updater_impl.hpp) *)

Module updater.
Import cxx occupancy octree.
Local Open Scope Z_scope.

(** The members of the updater that [propagateToRoot] uses. *)
Record Updater := mkUpdater {
  octree_ : Octree;
  frame_ : Z;
  config_ : FieldConfig;
  node_set_ : list (gset ptr)
}.

(** [node_set_[d].insert(x)]. *)
Definition node_set_insert (sets : list (gset ptr)) (d : Z) (x : ptr) :
    option (list (gset ptr)) :=
  s ← at_ sets d; block.set_at sets d ({[x]} ∪ s).

Fixpoint foldM {A S} (f : S -> A -> option S) (l : list A) (s : S) : option S :=
  match l with
  | [] => Some s
  | x :: l' => f s x ≫= foldM f l'
  end.

Section Updater.

Variable BlockSize : Z.

(** The roundings of the two products of the pruning test: the product of
    two [float]s is rounded to [float], the product with the literal [0.95]
    is computed in [double]. The embedding leaves both roundings open. *)
Variable round_float : Q -> Q.
Variable round_double : Q -> Q.

(** [updater::propagateToNoteAtCoarserScale<NodeType, BlockType>(octant_ptr,
    max_scale, frame)] is defined outside the available sources: the pool
    afterwards and the node data it returns. *)
Variable propagateToNoteAtCoarserScale :
  pool -> ptr -> Z -> Z -> option (pool * Data).

(** [octree.deleteChildren(node_ptr)]. The available sources hold two
    revisions of it, neither with the revision of the updater. *)
Variable deleteChildren : pool -> ptr -> option pool.

(** The test that decides the pruning,
    [node_data.observed && node_data.occupancy * node_data.weight
       <= 0.95 * min_occupancy]. *)
Definition prune_test (config : FieldConfig) (node_data : Data) : bool :=
  observed (field node_data)
  && Qle_bool
       (round_float (occupancy (field node_data) * weight (field node_data)))
       (round_double
          (round_double (95 # 100) * occupancy.min_occupancy config)).

(** [getMaxScale] as the later revision of octree_impl.hpp defines it, the
    scale of the root. *)
Definition getMaxScale (t : Octree) : Z := Z.log2 (size_ t).

(** [getBlockDepth] as the later revision of octree_impl.hpp defines it,
    the depth of the blocks below the root. *)
Definition getBlockDepth (t : Octree) : Z :=
  getMaxScale t - Z.log2 BlockSize.

(** The body of the loop over the nodes of depth [d]. *)
Definition propagateToRoot_visit (frame : Z) (config : FieldConfig)
    (max_scale : Z) (d : Z) (st : pool * list (gset ptr))
    (octant_ptr : ptr) : option (pool * list (gset ptr)) :=
  let '(p, sets) := st in
  octant ← p !! octant_ptr;
  if timestamp octant =? frame then Some st
  else
    match parent_ptr octant with
    | None => Some st
    | Some parent =>
        '(p, node_data) ←
          propagateToNoteAtCoarserScale p octant_ptr max_scale frame;
        sets ← node_set_insert sets (d - 1) parent;
        if prune_test config node_data then
          p ← deleteChildren p octant_ptr; Some (p, sets)
        else Some (p, sets)
    end.

(** The loop over [node_set_[d]], in the order of the [std::set]. *)
Definition propagateToRoot_level (frame : Z) (config : FieldConfig)
    (max_scale : Z) (st : pool * list (gset ptr)) (d : Z) :
    option (pool * list (gset ptr)) :=
  s ← at_ st.2 d;
  foldM (propagateToRoot_visit frame config max_scale d)
        (merge_sort Pos.le (elements s)) st.

(** The first loop: the parents of the updated blocks. *)
Definition propagateToRoot_seed (t : Octree) (st : pool * list (gset ptr))
    (block_ptr : ptr) : option (pool * list (gset ptr)) :=
  block ← st.1 !! block_ptr;
  match parent_ptr block with
  | Some parent =>
      sets ← node_set_insert st.2 (getBlockDepth t - 1) parent;
      Some (st.1, sets)
  | None => Some st
  end.

(** The loops over the depths, from the parents of the blocks up to the
    children of the root. *)
Definition propagateToRoot_levels (t : Octree) (frame : Z)
    (config : FieldConfig) (st : pool * list (gset ptr)) :
    option (pool * list (gset ptr)) :=
  foldM (propagateToRoot_level frame config (getMaxScale t))
        (reverse (seqZ 1 (getBlockDepth t - 1))) st.

(** [Updater::propagateToRoot(block_list)]. *)
Definition propagateToRoot (u : Updater) (block_list : list ptr) :
    option Updater :=
  let t := octree_ u in
  st ← foldM (propagateToRoot_seed t) block_list (memory_pool_ t, node_set_ u);
  st ← propagateToRoot_levels t (frame_ u) (config_ u) st;
  '(p, _) ←
    propagateToNoteAtCoarserScale st.1 (root_ptr_ t) (getMaxScale t) (frame_ u);
  Some {| octree_ := {| size_ := size_ t; root_ptr_ := root_ptr_ t;
                        memory_pool_ := p |};
          frame_ := frame_ u; config_ := config_ u; node_set_ := st.2 |}.

End Updater.

(** The bound on the depth of the recursion of [deleteChildren] that the
    runs of the embedding use: the height of the octree. *)
Definition height (t : Octree) : nat := S (Z.to_nat (Z.log2 (size_ t))).

(** [propagate_to_parent_node] of ray_integrator_core_impl.hpp with the
    arguments of the call in [propagateToRoot]; it makes no use of the max
    scale. *)
Definition propagate_node (p : pool) (octant_ptr : ptr) (max_scale frame : Z) :
    option (pool * Data) :=
  propagator.propagate_to_parent_node p octant_ptr frame.




End updater.


(** ** Helpers of <cmath> used by the propagation kernels *)

Module cmath.
Import cxx.

(** [fminf(x, y)] on numbers. *)
Definition fminf (x y : Q) : Q := if Qltb y x then y else x.

(** [ceil(x)]. *)
Definition ceil (x : Q) : Q := inject_Z (Qceiling x).

End cmath.

(** ** Propagation between the scales of a TSDF block
       (multires_tsdf_updater.hpp) *)

Module tsdf_propagation.
Import cxx cmath tsdf.

(** The lambda [parent_down_funct]: the parent remembers the value that it
    hands down. *)
Definition parent_down_funct (data_union : DataUnion) : DataUnion :=
  {| coord := coord data_union; scale := scale data_union;
     data := data data_union;
     prop_data := {| delta_tsdf := tsdf (data data_union);
                     delta_weight := 0 |} |}.

(** The lambda [child_down_funct]. [interp_field_value] is the result of
    [visitor::getFieldInterp] at the sample point of the child, which only
    the branch of a child without weight looks at. *)
Definition child_down_funct (max_weight : Q) (interp_field_value : option Q)
    (child_data_union parent_data_union : DataUnion) : DataUnion :=
  let delta_tsdf_ := (tsdf (data parent_data_union)
                      - delta_tsdf (prop_data parent_data_union))%Q in
  if negb (Qeq_bool (weight (data child_data_union)) 0) then
    {| coord := coord child_data_union; scale := scale child_data_union;
       data :=
         {| tsdf := std_max (tsdf (data child_data_union) + delta_tsdf_) (-1);
            weight :=
              fminf (weight (data child_data_union)
                     + inject_Z (delta_weight (prop_data parent_data_union)))
                    max_weight |};
       prop_data :=
         {| delta_tsdf := delta_tsdf (prop_data child_data_union);
            delta_weight := delta_weight (prop_data parent_data_union) |} |}
  else
    match interp_field_value with
    | Some v =>
        {| coord := coord child_data_union; scale := scale child_data_union;
           data := {| tsdf := v; weight := weight (data parent_data_union) |};
           prop_data := {| delta_tsdf := v; delta_weight := 0 |} |}
    | None => child_data_union
    end.

(** The lambda [child_up_funct]: the new [data_tmp] and the returned
    count. *)
Definition child_up_funct (child_data_union : DataUnion) (data_tmp : Data) :
    Data * Z :=
  if negb (Qeq_bool (weight (data child_data_union)) 0) then
    ({| tsdf := tsdf data_tmp + tsdf (data child_data_union);
        weight := weight data_tmp + weight (data child_data_union) |}, 1%Z)
  else (data_tmp, 0%Z).

(** The lambda [parent_up_funct]. [dflt] and [dflt_prop] are the
    value-initialised [DataType()] and [PropDataType()], whose member
    initialisers are declared outside the available sources. *)
Definition parent_up_funct (dflt : Data) (dflt_prop : PropData)
    (parent_data_union : DataUnion) (data_tmp : Data) (sample_count : Z) :
    DataUnion :=
  if negb (sample_count =? 0)%Z then
    let t := (tsdf data_tmp / inject_Z sample_count)%Q in
    let w := (weight data_tmp / inject_Z sample_count)%Q in
    {| coord := coord parent_data_union; scale := scale parent_data_union;
       data := {| tsdf := t; weight := ceil w |};
       prop_data := {| delta_tsdf := t; delta_weight := 0 |} |}
  else
    {| coord := coord parent_data_union; scale := scale parent_data_union;
       data := dflt; prop_data := dflt_prop |}.

(** The test [child_data_union.data.weight != 0] of [child_up_funct]. *)
Definition weighted (child_data_union : DataUnion) : bool :=
  negb (Qeq_bool (weight (data child_data_union)) 0).

(** Modelled from the spec: the [propagateBlockUp] that takes the two
    lambdas is declared outside the available sources. For one parent
    voxel it hands the children in turn to [child_up_funct], all on the
    same [data_tmp], and adds up the counts that the lambda returns;
    [init] is the [data_tmp] that it starts from. *)
Definition accumulate_children (init : Data) (children : list DataUnion) :
    Data * Z :=
  foldl (fun acc child_data_union =>
           let '(data_tmp, count) := child_up_funct child_data_union acc.1 in
           (data_tmp, (acc.2 + count)%Z))
        (init, 0%Z) children.

(** The sum of a list of values. *)
Definition sum_of (values : list Q) : Q := foldr Qplus 0%Q values.

(** The integration of one voxel over a sequence of frames: [updateVoxel]
    once per frame, with the signed distance measured in that frame. *)
Definition integrate (max_weight tau : Q) (du : DataUnion)
    (sdf_values : list Q) : DataUnion :=
  foldl (fun du sdf_value => updateVoxel max_weight du sdf_value tau)
        du sdf_values.

End tsdf_propagation.

(** ** Writing a voxel of a block (block_impl.hpp) *)

Module block_access.
Import cxx block.
Local Open Scope Z_scope.

Section BlockSize.
Variable BlockSize : Z.

(** Writing [x] through the reference that the non-const
    [data(voxel_coord, scale)] of a TSDF block returns. *)
Definition t_set_data (b : BlockMultiResTSDF) (voxel_coord : Vector3i)
    (scale : Z) (x : tsdf.Data) : option BlockMultiResTSDF :=
  voxel_idx ← t_getVoxelIdx BlockSize b voxel_coord scale;
  block_data ← set_at (t_block_data_ b) voxel_idx x;
  Some {| t_coord := t_coord b; t_current_scale := t_current_scale b;
          t_block_data_ := block_data;
          t_block_past_data_ := t_block_past_data_ b |}.

(** Writing [x] through the reference that the non-const
    [data(voxel_coord, scale_in, scale_out)] of an occupancy block
    returns: the heap afterwards. *)
Definition set_data (h : heap) (b : BlockMultiRes) (voxel_coord : Vector3i)
    (scale_in : Z) (x : occupancy.Data) : option heap :=
  let scale_out := Z.max scale_in (current_scale b) in
  voxel_idx ← getVoxelIdx BlockSize b voxel_coord scale_out;
  p ← at_ (block_data_ b) (max_scale BlockSize - scale_out);
  arr ← h !! p;
  arr ← set_at arr voxel_idx x;
  Some (<[p := arr]> h).

End BlockSize.

(** The cell of scale [s] of the block at [c] that holds the voxel [v]:
    the offset of the voxel in units of [1 << s]. *)
Definition cell (c : Vector3i) (s : Z) (v : Vector3i) : Vector3i :=
  vquot (vsub v c) (1 ≪ s).

(** The voxel [v] lies in the cube of side [2^s] that is number
    [(i, j, l)] along the three axes of the block at [c]. *)
Definition in_cell (c : Vector3i) (s : Z) (i j l : Z) (v : Vector3i) : Prop :=
  let '(cx, cy, cz) := c in
  let '(vx, vy, vz) := v in
  (cx + 2 ^ s * i <= vx < cx + 2 ^ s * (i + 1))
  /\ (cy + 2 ^ s * j <= vy < cy + 2 ^ s * (j + 1))
  /\ (cz + 2 ^ s * l <= vz < cz + 2 ^ s * (l + 1)).

End block_access.

(** ** Single-resolution blocks (block_impl.hpp) *)

Module single_res.
Import cxx block.
Local Open Scope Z_scope.

Section BlockSingleRes.

(** [size] and [size_sq] are members of the octant ([underlying()->size],
    [underlying()->size_sq]) that are declared outside the available
    sources. *)
Variables size size_sq : Z.
Context {DataType : Type}.

Record BlockSingleRes := mkBlockSingleRes {
  s_coord : Vector3i;
  s_block_data_ : list DataType
}.

(** [data(voxel_idx)], with its two assertions. *)
Definition s_data_idx (b : BlockSingleRes) (voxel_idx : Z) :
    option DataType :=
  if (voxel_idx <? 0) || (Z.of_nat (length (s_block_data_ b)) <=? voxel_idx)
  then None
  else s_block_data_ b !! Z.to_nat voxel_idx.

(** The index that [data(voxel_coord)] computes. *)
Definition s_voxel_idx (b : BlockSingleRes) (voxel_coord : Vector3i) : Z :=
  let '(ox, oy, oz) := vsub voxel_coord (s_coord b) in
  ox + oy * size + oz * size_sq.

(** [data(voxel_coord)]. *)
Definition s_data (b : BlockSingleRes) (voxel_coord : Vector3i) :
    option DataType :=
  s_data_idx b (s_voxel_idx b voxel_coord).

(** Writing [x] through the reference that the non-const [data(voxel_coord)]
    returns. *)
Definition s_set_data (b : BlockSingleRes) (voxel_coord : Vector3i)
    (x : DataType) : option BlockSingleRes :=
  let voxel_idx := s_voxel_idx b voxel_coord in
  if (voxel_idx <? 0) || (Z.of_nat (length (s_block_data_ b)) <=? voxel_idx)
  then None
  else Some {| s_coord := s_coord b;
               s_block_data_ :=
                 <[Z.to_nat voxel_idx := x]> (s_block_data_ b) |}.

End BlockSingleRes.

End single_res.

(** ** The storage of a multi-resolution occupancy block (block_impl.hpp) *)

Module block_alloc.
Import cxx occupancy block.
Local Open Scope Z_scope.

Section BlockSize.

Variable BlockSize : Z.

(** The body of [initialiseData] is outside the available sources. What it
    stores in an array of [num_voxels] voxels of a block with the given
    [init_data_] is left open: [init_values init_data num_voxels]. *)
Variable init_values : Data -> Z -> list Data.

(** [initialiseData(data, num_voxels)]. *)
Definition initialiseData (h : heap) (b : BlockMultiRes) (p : ptr)
    (num_voxels : Z) : option heap :=
  arr ← h !! p;
  if Z.of_nat (length arr) <? num_voxels then None
  else Some (<[p := init_values (init_data_ b) num_voxels
                    ++ drop (Z.to_nat num_voxels) arr]> h).

(** [std::copy(src, src + num_voxels, dst)]. *)
Definition copy_array (h : heap) (src : ptr) (num_voxels : Z) (dst : ptr) :
    option heap :=
  from ← h !! src;
  to ← h !! dst;
  if (Z.of_nat (length from) <? num_voxels)
     || (Z.of_nat (length to) <? num_voxels) then None
  else Some (<[dst := take (Z.to_nat num_voxels) from
                      ++ drop (Z.to_nat num_voxels) to]> h).

(** [BlockMultiRes(init_data)]. [members] holds the members as their
    default initialisers, which are declared outside the available sources,
    leave them; the three vectors start empty. *)
Definition BlockMultiRes_ctor (h : heap) (members : BlockMultiRes)
    (init_data : Data) : option (heap * BlockMultiRes) :=
  let b0 :=
    {| coord := coord members; block_data_ := []; block_min_data_ := [];
       block_max_data_ := []; curr_data_ := curr_data_ members;
       buffer_data_ := buffer_data_ members;
       current_scale := current_scale members;
       min_scale := min_scale members;
       buffer_scale_ := buffer_scale_ members;
       curr_integr_count_ := curr_integr_count_ members;
       curr_observed_count_ := curr_observed_count_ members;
       buffer_integr_count_ := buffer_integr_count_ members;
       buffer_observed_count_ := buffer_observed_count_ members;
       init_data_ := init_data |} in
  let num_voxels_at_scale := 1 in
  let '(data_at_scale, h) := new_array h num_voxels_at_scale in
  h ← initialiseData h b0 data_at_scale num_voxels_at_scale;
  Some (h,
        {| coord := coord b0;
           block_data_ := block_data_ b0 ++ [data_at_scale];
           block_min_data_ := block_min_data_ b0 ++ [data_at_scale];
           block_max_data_ := block_max_data_ b0 ++ [data_at_scale];
           curr_data_ := Some data_at_scale;
           buffer_data_ := buffer_data_ b0;
           current_scale := current_scale b0; min_scale := min_scale b0;
           buffer_scale_ := buffer_scale_ b0;
           curr_integr_count_ := curr_integr_count_ b0;
           curr_observed_count_ := curr_observed_count_ b0;
           buffer_integr_count_ := buffer_integr_count_ b0;
           buffer_observed_count_ := buffer_observed_count_ b0;
           init_data_ := init_data_ b0 |}).

(** One round of the loop of [allocateDownTo]; the state is the heap and
    the three vectors. *)
Definition allocateDownTo_step (b : BlockMultiRes) (new_min_scale : Z)
    (st : heap * list ptr * list ptr * list ptr) (scale : Z) :
    option (heap * list ptr * list ptr * list ptr) :=
  let '(h, bd, bmin, bmax) := st in
  let size_at_scale := BlockSize ≫ scale in
  let num_voxels_at_scale := cu size_at_scale in
  if scale =? new_min_scale then
    let '(data_at_scale, h) := new_array h num_voxels_at_scale in
    h ← initialiseData h b data_at_scale num_voxels_at_scale;
    Some (h, bd ++ [data_at_scale], bmin ++ [data_at_scale],
          bmax ++ [data_at_scale])
  else
    let '(data_at_scale, h) := new_array h num_voxels_at_scale in
    let '(min_data_at_scale, h) := new_array h num_voxels_at_scale in
    let '(max_data_at_scale, h) := new_array h num_voxels_at_scale in
    h ← initialiseData h b data_at_scale num_voxels_at_scale;
    h ← copy_array h data_at_scale num_voxels_at_scale min_data_at_scale;
    h ← copy_array h data_at_scale num_voxels_at_scale max_data_at_scale;
    Some (h, bd ++ [data_at_scale], bmin ++ [min_data_at_scale],
          bmax ++ [max_data_at_scale]).

(** [allocateDownTo]. The shift by
    [max_scale - (block_data_.size() - 1)] is evaluated in [size_t] and is
    undefined beyond the width of [int]. *)
Definition allocateDownTo (h : heap) (b : BlockMultiRes) (new_min_scale : Z) :
    option (heap * BlockMultiRes) :=
  if (0 <=? new_min_scale) && (new_min_scale <=? max_scale BlockSize) then
    if finer_than_allocated BlockSize b new_min_scale then
      let size := Z.of_nat (length (block_data_ b)) in
      bmin ← pop_back (block_min_data_ b);
      bmax ← pop_back (block_max_data_ b);
      let shift := to_size_t (max_scale BlockSize - (size - 1)) in
      if 32 <=? shift then None
      else
        let size_at_scale := BlockSize ≫ shift in
        let num_voxels_at_scale := cu size_at_scale in
        let '(min_data_at_scale, h) := new_array h num_voxels_at_scale in
        let '(max_data_at_scale, h) := new_array h num_voxels_at_scale in
        data_at_scale ← at_ (block_data_ b) (size - 1);
        h ← copy_array h data_at_scale num_voxels_at_scale min_data_at_scale;
        h ← copy_array h data_at_scale num_voxels_at_scale max_data_at_scale;
        let bmin := bmin ++ [min_data_at_scale] in
        let bmax := bmax ++ [max_data_at_scale] in
        '(h, bd, bmin, bmax) ←
          updater.foldM (allocateDownTo_step b new_min_scale)
            (reverse (seqZ new_min_scale
                        (max_scale BlockSize - size - new_min_scale + 1)))
            (h, block_data_ b, bmin, bmax);
        curr_data ← at_ bd (max_scale BlockSize - new_min_scale);
        Some (h,
              {| coord := coord b; block_data_ := bd;
                 block_min_data_ := bmin; block_max_data_ := bmax;
                 curr_data_ := Some curr_data; buffer_data_ := buffer_data_ b;
                 current_scale := new_min_scale; min_scale := new_min_scale;
                 buffer_scale_ := buffer_scale_ b;
                 curr_integr_count_ := curr_integr_count_ b;
                 curr_observed_count_ := curr_observed_count_ b;
                 buffer_integr_count_ := buffer_integr_count_ b;
                 buffer_observed_count_ := buffer_observed_count_ b;
                 init_data_ := init_data_ b |})
    else Some (h, b)
  else None.

(** The loops of the destructor: [delete[]] of every array of a vector. *)
Fixpoint delete_arrays (h : heap) (arrays : list ptr) : option heap :=
  match arrays with
  | [] => Some h
  | p :: rest => delete_array h p ≫= λ h, delete_arrays h rest
  end.

(** [if (!v.empty()) v.pop_back()]. *)
Definition pop_back_if_any {A} (v : list A) : list A :=
  take (length v - 1)%nat v.

(** [~BlockMultiRes()]. *)
Definition BlockMultiRes_dtor (h : heap) (b : BlockMultiRes) : option heap :=
  h ← delete_arrays h (block_data_ b);
  h ← delete_arrays h (pop_back_if_any (block_min_data_ b));
  h ← delete_arrays h (pop_back_if_any (block_max_data_ b));
  match buffer_data_ b with
  | Some p => if buffer_scale_ b <? min_scale b then delete_array h p else Some h
  | None => Some h
  end.

End BlockSize.

(** The three pyramids of a block of side [2^k]: the first [separate]
    scales have a min and a max array of their own, the scales after them
    share the mean array, and every array is live and has one entry per
    voxel of its scale. No array occurs twice. *)
Definition pyramid (k : Z) (h : heap) (bd bmin bmax : list ptr)
    (separate : nat) : Prop :=
  length bmin = length bd /\ length bmax = length bd
  /\ Z.of_nat (length bd) <= k + 1
  /\ NoDup (bd ++ take separate bmin ++ take separate bmax)
  /\ drop separate bmin = drop separate bd
  /\ drop separate bmax = drop separate bd
  /\ forall (i : nat) (p : ptr),
       bd !! i = Some p \/ bmin !! i = Some p \/ bmax !! i = Some p ->
       exists arr, h !! p = Some arr
                   /\ Z.of_nat (length arr) = cu (2 ^ k ≫ (k - Z.of_nat i)).

(** The pyramids as the constructor, [allocateDownTo], [deleteUpTo] and
    [switchData] leave them: only the finest allocated scale is shared. *)
Definition pyramid_inv (k : Z) (h : heap) (b : BlockMultiRes) : Prop :=
  (0 < length (block_data_ b))%nat
  /\ pyramid k h (block_data_ b) (block_min_data_ b) (block_max_data_ b)
       (length (block_data_ b) - 1).

(** The arrays of the pyramids from index [from] on hold what
    [initialiseData] stores for their scale. *)
Definition initialised (init_values : Data -> Z -> list Data) (k : Z)
    (b : BlockMultiRes) (h : heap) (bd bmin bmax : list ptr) (from : nat) :
    Prop :=
  forall (i : nat) (p : ptr), (from <= i)%nat ->
    bd !! i = Some p \/ bmin !! i = Some p \/ bmax !! i = Some p ->
    h !! p = Some (init_values (init_data_ b) (cu (2 ^ k ≫ (k - Z.of_nat i)))).

(** The finest scale for which the block holds an array. *)
Definition finest_allocated (k : Z) (b : BlockMultiRes) : Z :=
  k - (Z.of_nat (length (block_data_ b)) - 1).

(** [h'] is [h] without the arrays [freed]. *)
Definition frees (h : heap) (freed : list ptr) (h' : heap) : Prop :=
  forall q, h' !! q = if decide (q ∈ freed) then None else h !! q.

(** The buffer of the block when it is an array of its own, which the
    destructor has to free: a buffer of a scale finer than [min_scale]. *)
Definition separate_buffer (b : BlockMultiRes) : list ptr :=
  match buffer_data_ b with
  | Some p => if buffer_scale_ b <? min_scale b then [p] else []
  | None => []
  end.

(** A block at rest: the pyramids reach down to [min_scale], which is the
    current scale, and no buffer is open. *)
Definition settled (k : Z) (h : heap) (b : BlockMultiRes) : Prop :=
  pyramid_inv k h b
  /\ min_scale b = finest_allocated k b
  /\ current_scale b = min_scale b
  /\ buffer_data_ b = None /\ buffer_scale_ b = -1.

(** A block at rest but for the buffer [buf], which [initBuffer] opened one
    scale below or above the current scale: a live array of its own in the
    first case, the mean array of the coarser scale in the second. *)
Definition buffering (k : Z) (h : heap) (b : BlockMultiRes) (buf : ptr) :
    Prop :=
  pyramid_inv k h b
  /\ min_scale b = finest_allocated k b
  /\ current_scale b = min_scale b
  /\ buffer_data_ b = Some buf
  /\ ((buffer_scale_ b = current_scale b - 1 /\ 0 <= buffer_scale_ b
       /\ (exists arr, h !! buf = Some arr
                       /\ Z.of_nat (length arr)
                          = cu (2 ^ k ≫ buffer_scale_ b))
       /\ buf ∉ block_data_ b ++ block_min_data_ b ++ block_max_data_ b)
      \/ (buffer_scale_ b = current_scale b + 1 /\ buffer_scale_ b <= k
          /\ at_ (block_data_ b) (k - buffer_scale_ b) = Some buf)).

End block_alloc.

(** ** The links between the octants of the octree *)

Module octree_inv.
Import cxx occupancy octree.
Local Open Scope Z_scope.

(** The octant [oc] is child [i] of the octant [o] at address [a]: it points
    back to [a], has half the side of [o] and lies in the octant of [o] that
    the child index selects. *)
Definition child_ok (a : ptr) (o : Octant) (i : nat) (oc : Octant) : Prop :=
  parent_ptr oc = Some a
  /\ size oc = size o ≫ 1
  /\ coord oc = child_coord (coord o) (size o ≫ 1) (Z.of_nat i).

(** Every child pointer of the pool leads to a live octant that is that
    child. *)
Definition links_ok (p : pool) : Prop :=
  forall (a : ptr) (o : Octant) (i : nat) (c : ptr),
    p !! a = Some o -> children o !! i = Some (Some c) ->
    exists oc, p !! c = Some oc /\ child_ok a o i oc.

(** Every octant below a node is a child of the node or of another octant
    below it. *)
Definition reaches_through_children
    (rec : pool -> ptr -> option (list ptr)) : Prop :=
  forall (p : pool) (n : ptr) (ds : list ptr),
    rec p n = Some ds ->
    forall c, c ∈ ds ->
      exists y o, (y = n \/ y ∈ ds) /\ p !! y = Some o /\ Some c ∈ children o.

(** [child_ok] and [links_ok] as tests that can be run on a concrete
    pool. *)
Definition child_ok_b (a : ptr) (o : Octant) (i : nat) (oc : Octant) : bool :=
  bool_decide (parent_ptr oc = Some a)
  && (size oc =? size o ≫ 1)
  && bool_decide
       (coord oc = child_coord (coord o) (size o ≫ 1) (Z.of_nat i)).

Definition links_ok_b (p : pool) : bool :=
  forallb
    (λ '(a, o),
       forallb
         (λ '(i, c),
            match c with
            | Some c =>
                match p !! c with
                | Some oc => child_ok_b a o i oc
                | None => false
                end
            | None => true
            end)
         (imap pair (children o)))
    (map_to_list p).

End octree_inv.

(** ** What the propagation into a parent node selects *)

Module propagator_bounds.
Import cxx occupancy octree propagator.
Local Open Scope Z_scope.

(** The min data of a child carries weight and a field value that the
    running minimum can take up. *)
Definition child_min_weighted (child : Octant) : Prop :=
  (0 < weight (field (min_data child)))%Q
  /\ (get_field (min_data child) < FLT_MAX)%Q.

(** [d] is the max data of the child among [kids] with the greatest field
    value, the children without weight left aside. *)
Definition greatest_of (kids : list Octant) (d : Data) : Prop :=
  (forall kid, kid ∈ kids -> (0 < weight (field (max_data kid)))%Q ->
     (get_field (max_data kid) <= get_field d)%Q)
  /\ exists kid, kid ∈ kids /\ (0 < weight (field (max_data kid)))%Q
                 /\ occupancy (field d) = occupancy (field (max_data kid))
                 /\ weight (field d) = weight (field (max_data kid)).

(** [d] is the min data of the child among [kids] with the least field
    value, the children without weight left aside. *)
Definition least_of (kids : list Octant) (d : Data) : Prop :=
  (forall kid, kid ∈ kids -> (0 < weight (field (min_data kid)))%Q ->
     (get_field d <= get_field (min_data kid))%Q)
  /\ exists kid, kid ∈ kids /\ (0 < weight (field (min_data kid)))%Q
                 /\ occupancy (field d) = occupancy (field (min_data kid))
                 /\ weight (field d) = weight (field (min_data kid)).

(** The running maximum of [visit_child] over the children [kids]: it
    bounds the weighted children, and once a child was counted it is the
    max data of one of them. *)
Definition max_tracks (kids : list Octant) (acc : Aggregate) : Prop :=
  (forall kid, kid ∈ kids -> (0 < weight (field (max_data kid)))%Q ->
     (get_field (max_data kid) <= max_occupancy acc)%Q)
  /\ (0 < max_data_count acc ->
      exists kid, kid ∈ kids /\ (0 < weight (field (max_data kid)))%Q
                  /\ max_mean_occupancy acc = occupancy (field (max_data kid))
                  /\ max_weight acc = weight (field (max_data kid))
                  /\ max_occupancy acc = get_field (max_data kid)).

(** The running minimum of [visit_child] over the children [kids]. *)
Definition min_tracks (kids : list Octant) (acc : Aggregate) : Prop :=
  0 <= min_data_count acc
  /\ (min_occupancy acc <= FLT_MAX)%Q
  /\ (min_data_count acc = 0 -> (min_occupancy acc == FLT_MAX)%Q)
  /\ (forall kid, kid ∈ kids -> (0 < weight (field (min_data kid)))%Q ->
        (min_occupancy acc <= get_field (min_data kid))%Q)
  /\ (0 < min_data_count acc ->
      exists kid, kid ∈ kids /\ (0 < weight (field (min_data kid)))%Q
                  /\ min_mean_occupancy acc = occupancy (field (min_data kid))
                  /\ min_weight acc = weight (field (min_data kid))
                  /\ min_occupancy acc = get_field (min_data kid)).

End propagator_bounds.

(** ** Propagation of the time stamps to the root (propagator.hpp) *)

Module propagator_impl.
Import cxx occupancy octree updater.
Local Open Scope Z_scope.

(** The assignment [octant->timestamp = t]. *)
Definition set_timestamp (o : Octant) (t : Z) : Octant :=
  {| is_block := is_block o; parent_ptr := parent_ptr o; coord := coord o;
     size := size o; timestamp := t; children := children o;
     min_data := min_data o; max_data := max_data o |}.

(** The lambda [time_step_prop] of [propagateTimeStampToRoot]. *)
Definition time_step_prop (p : pool) (child_ptr parent_ptr : ptr) :
    option pool :=
  child ← p !! child_ptr;
  parent ← p !! parent_ptr;
  if timestamp parent <? timestamp child
  then Some (<[parent_ptr := set_timestamp parent (timestamp child)]> p)
  else Some p.

(** The body of the first loop of [propagateToRoot(octant_ptrs,
    propagate_funct)], over the octants of the vector; the state is the pool
    and the set [child_ptrs]. *)
Definition propagateToRoot_first (st : pool * gset ptr) (child_ptr : ptr) :
    option (pool * gset ptr) :=
  let '(p, child_ptrs) := st in
  child ← p !! child_ptr;
  parent_ptr ← parent_ptr child;
  parent ← p !! parent_ptr;
  if timestamp parent <? timestamp child
  then Some (<[parent_ptr := set_timestamp parent (timestamp child)]> p,
             {[parent_ptr]} ∪ child_ptrs)
  else Some (p, child_ptrs).

(** The body of the loop over [child_ptrs] inside the [while] loop; the
    state is the pool and the set [parent_ptrs]. *)
Definition propagateToRoot_climb
    (propagate_funct : pool -> ptr -> ptr -> option pool)
    (st : pool * gset ptr) (child_ptr : ptr) : option (pool * gset ptr) :=
  let '(p, parent_ptrs) := st in
  child ← p !! child_ptr;
  match parent_ptr child with
  | Some parent_ptr =>
      p ← propagate_funct p child_ptr parent_ptr;
      Some (p, {[parent_ptr]} ∪ parent_ptrs)
  | None => Some (p, parent_ptrs)
  end.

(** [while (!parent_ptrs.empty()) { ... }]; [fuel] bounds the number of
    rounds. The order in which an [unordered_set] is traversed is not
    specified; the embedding takes the order of [elements]. *)
Fixpoint propagateToRoot_while (fuel : nat)
    (propagate_funct : pool -> ptr -> ptr -> option pool) (p : pool)
    (child_ptrs parent_ptrs : gset ptr) : option pool :=
  if decide (parent_ptrs = ∅) then Some p
  else
    match fuel with
    | O => None
    | S fuel' =>
        '(p, parent_ptrs) ←
          foldM (propagateToRoot_climb propagate_funct) (elements child_ptrs)
            (p, parent_ptrs);
        (* std::swap(child_ptrs, parent_ptrs); parent_ptrs.clear(); *)
        propagateToRoot_while fuel' propagate_funct p parent_ptrs ∅
    end.

(** [propagateToRoot(std::vector<OctantBase*>&, PropagateF&)]. *)
Definition propagateToRoot (fuel : nat)
    (propagate_funct : pool -> ptr -> ptr -> option pool) (p : pool)
    (octant_ptrs : list ptr) : option pool :=
  '(p, child_ptrs) ← foldM propagateToRoot_first octant_ptrs (p, ∅);
  let parent_ptrs : gset ptr := ∅ in
  propagateToRoot_while fuel propagate_funct p child_ptrs parent_ptrs.

(** [propagateTimeStampToRoot]. *)
Definition propagateTimeStampToRoot (fuel : nat) (p : pool)
    (octant_ptrs : list ptr) : option pool :=
  propagateToRoot fuel time_step_prop p octant_ptrs.

(** [x] is the parent of one of the octants [octant_ptrs]. *)
Definition direct_parent (p : pool) (octant_ptrs : list ptr) (x : ptr) : Prop :=
  exists c child, c ∈ octant_ptrs /\ p !! c = Some child
                  /\ parent_ptr child = Some x.

(** [p'] is [p] with some time stamps raised and nothing else changed. *)
Definition stamped (p p' : pool) : Prop :=
  forall x,
    match p !! x, p' !! x with
    | Some o, Some o' =>
        o' = set_timestamp o (timestamp o') /\ timestamp o <= timestamp o'
    | None, None => True
    | _, _ => False
    end.

End propagator_impl.

(** ** Propagation inside an occupancy block: from the current scale to its
       parent scale (ray_integrator_core_impl.hpp) *)

Module block_propagation.
Import cxx cmath occupancy block updater.
Local Open Scope Z_scope.

(** The local variables of the loop over the parent voxels of
    [propagate_block_to_scale]. *)
Record Sums := mkSums {
  mean_occupancy : Q;
  mean_weight : Q;
  min_mean_occupancy : Q;
  min_weight : Q;
  min_occupancy : Q;
  max_mean_occupancy : Q;
  max_weight : Q;
  max_occupancy : Q;
  data_count : Z;
  observed_count : Z
}.

Definition initial : Sums :=
  {| mean_occupancy := 0; mean_weight := 0;
     min_mean_occupancy := 0; min_weight := 0; min_occupancy := FLT_MAX;
     max_mean_occupancy := 0; max_weight := 0; max_occupancy := FLT_LOWEST;
     data_count := 0; observed_count := 0 |}.

(** The body of the loop over the eight children of a parent voxel at the
    first level, where the children are voxels of the current scale: a
    weighted child that raises the maximum takes the [if] branch, and only
    a weighted child that does not is compared with the minimum
    ([else if]). *)
Definition add_child (s : Sums) (child_data : Data) : Sums :=
  let weighted := Qltb 0 (weight (field child_data)) in
  let occ := get_field child_data in
  let raises_max := weighted && Qltb (max_occupancy s) occ in
  let lowers_min :=
    weighted && negb (Qltb (max_occupancy s) occ)
    && Qltb occ (min_occupancy s) in
  {| mean_occupancy :=
       if weighted then (mean_occupancy s + occupancy (field child_data))%Q
       else mean_occupancy s;
     mean_weight :=
       if weighted then (mean_weight s + weight (field child_data))%Q
       else mean_weight s;
     min_mean_occupancy :=
       if lowers_min then occupancy (field child_data)
       else min_mean_occupancy s;
     min_weight :=
       if lowers_min then weight (field child_data) else min_weight s;
     min_occupancy := if lowers_min then occ else min_occupancy s;
     max_mean_occupancy :=
       if raises_max then occupancy (field child_data)
       else max_mean_occupancy s;
     max_weight :=
       if raises_max then weight (field child_data) else max_weight s;
     max_occupancy := if raises_max then occ else max_occupancy s;
     data_count := if weighted then data_count s + 1 else data_count s;
     observed_count :=
       if observed (field child_data) then observed_count s + 1
       else observed_count s |}.

(** The indices [child_data_idx] of the eight children of the parent voxel
    [(x, y, z)], in the order of the loops over [k], [j] and [i]. *)
Definition child_data_indices (size_at_child_scale_li x y z : Z) : list Z :=
  k ← [0; 1]; j ← [0; 1]; i ← [0; 1];
  [(2 * x + i) + (2 * y + j) * size_at_child_scale_li
   + (2 * z + k) * sq size_at_child_scale_li].

(** The loops over the eight children of the parent voxel [(x, y, z)]. *)
Definition aggregate_children (data_at_child_scale : list Data)
    (size_at_child_scale_li x y z : Z) : option Sums :=
  foldM (λ s child_data_idx,
           add_child s <$> at_ data_at_child_scale child_data_idx)
        (child_data_indices size_at_child_scale_li x y z) initial.

(** The assignments after the loops: the new [parent_data],
    [parent_min_data] and [parent_max_data]. The three are different
    objects, the parent scale being coarser than the finest scale. *)
Definition write_parent (s : Sums)
    (parent_data parent_min_data parent_max_data : Data) :
    Data * Data * Data :=
  if 0 <? data_count s then
    ({| field := {| occupancy := mean_occupancy s / inject_Z (data_count s);
                    weight := ceil (mean_weight s) / inject_Z (data_count s);
                    observed := false |} |},
     {| field := {| occupancy := min_mean_occupancy s;
                    weight := min_weight s;
                    observed := if observed_count s =? 8 then true
                                else observed (field parent_min_data) |} |},
     {| field := {| occupancy := max_mean_occupancy s;
                    weight := max_weight s;
                    observed := if observed_count s =? 8 then true
                                else observed (field parent_max_data) |} |})
  else (parent_data, parent_min_data, parent_max_data).

(** The field values of the weighted children rise from child to child. *)
Definition rising (children : list Data) : Prop :=
  Sorted Qlt
    (FLT_LOWEST
     :: (get_field
         <$> filter (λ d, Qltb 0 (weight (field d)) = true) children)).

(** The sum of a list of numbers. *)
Definition Qsum (l : list Q) : Q := foldr Qplus 0%Q l.

End block_propagation.

(** ** The choice of the integration scale of a block
       (ray_integrator_impl.hpp) *)

Module scale_selection.
Import cxx occupancy.
Local Open Scope Z_scope.

(** The computation of [recommended_scale] at the head of [updateBlock]:
    [min_scale] and [current_scale] are those of the block, [max_value] is
    [block_ptr->maxValue()], [computed_integration_scale] the result of
    [sensor_.computeIntegrationScale] and [max_scale] is
    [BlockType::getMaxScale()]. *)
Definition recommended_scale (low_variance : bool)
    (min_scale current_scale : Z) (max_value log_odd_min : Q)
    (fs_integr_scale max_scale computed_integration_scale : Z) : Z :=
  let last_scale := if min_scale =? -1 then 0 else current_scale in
  let min_integration_scale :=
    if low_variance
       && ((min_scale =? -1) || Qltb max_value ((95 # 100) * log_odd_min))
    then fs_integr_scale
    else Z.max 0 (last_scale - 1) in
  let max_integration_scale :=
    if min_scale =? -1 then max_scale else Z.min max_scale (last_scale + 1) in
  Z.min (Z.max min_integration_scale computed_integration_scale)
        max_integration_scale.

(** The same computation in [freeBlock], which takes the free-space scale
    whatever the variance. *)
Definition freeBlock_recommended_scale := recommended_scale true.

End scale_selection.
(** ** Concrete inputs used to run the embedding *)

(** A running-mean field update, used to run the kernels on concrete
    voxels. *)
Definition mean_field_update (f : occupancy.FieldData) (sample max_w : Q) :
    occupancy.FieldData :=
  {| occupancy.occupancy :=
       ((occupancy.occupancy f * occupancy.weight f + sample)
        / (occupancy.weight f + 1))%Q;
     occupancy.weight := cxx.std_min (occupancy.weight f + 1) max_w;
     occupancy.observed := true |}.


Module fixtures.
Import cxx occupancy block.
Local Open Scope Z_scope.

Definition voxel (occ w : Q) (o : bool) : Data :=
  {| field := {| occupancy := occ; weight := w; observed := o |} |}.

(** A TSDF block of side 2 at [(8, 0, 0)]: eight voxels of scale 0 followed
    by the single voxel of scale 1. *)
Definition tsdf_block : BlockMultiResTSDF :=
  {| t_coord := (8, 0, 0);
     t_current_scale := 0;
     t_block_data_ :=
       (λ i : Z, {| tsdf.tsdf := inject_Z i / 10; tsdf.weight := 1 |})
         <$> seqZ 0 9;
     t_block_past_data_ :=
       replicate 9 {| tsdf.delta_tsdf := 0; tsdf.delta_weight := 0 |} |}.

(** An occupancy block of side 2 at [(8, 0, 0)] that holds only its coarsest
    scale and buffers the finer scale 0; all eight buffer voxels carry
    weight, two of them are not yet marked observed. *)
Definition coarse_heap : heap :=
  <[2%positive := [voxel (-1) 3 true; voxel (-1) 3 false; voxel (-2) 1 true;
                   voxel 1 2 true; voxel (-1) 3 false; voxel (-1) 3 true;
                   voxel (-3) 4 true; voxel (-1) 3 true]]>
  (<[1%positive := [voxel (-1) 3 true]]> ∅).

Definition coarse_block : BlockMultiRes :=
  {| coord := (8, 0, 0);
     block_data_ := [1%positive];
     block_min_data_ := [1%positive];
     block_max_data_ := [1%positive];
     curr_data_ := Some 1%positive;
     buffer_data_ := Some 2%positive;
     current_scale := 1; min_scale := 1; buffer_scale_ := 0;
     curr_integr_count_ := 25; curr_observed_count_ := 1;
     buffer_integr_count_ := 20; buffer_observed_count_ := 8;
     init_data_ := voxel (-1) 3 true |}.

(** The same block one integration earlier. *)
Definition coarse_block_early : BlockMultiRes :=
  set_buffer_counts coarse_block 19 8.

(** An occupancy block of side 2 allocated down to scale 0 that buffers the
    coarser scale 1; the buffer is the mean array of scale 1. *)
Definition fine_heap : heap :=
  <[4%positive := [voxel 1 2 true]]>
  (<[3%positive := [voxel (-3) 4 true]]>
  (<[2%positive := [voxel (-1) 3 true; voxel (-1) 3 true; voxel (-2) 1 true;
                    voxel 1 2 true; voxel (-1) 3 true; voxel (-1) 3 true;
                    voxel (-3) 4 true; voxel (-1) 3 true]]>
  (<[1%positive := [voxel (-1) 3 false]]> ∅))).

Definition fine_block : BlockMultiRes :=
  {| coord := (8, 0, 0);
     block_data_ := [1%positive; 2%positive];
     block_min_data_ := [3%positive; 2%positive];
     block_max_data_ := [4%positive; 2%positive];
     curr_data_ := Some 2%positive;
     buffer_data_ := Some 1%positive;
     current_scale := 0; min_scale := 0; buffer_scale_ := 1;
     curr_integr_count_ := 40; curr_observed_count_ := 8;
     buffer_integr_count_ := 21; buffer_observed_count_ := 1;
     init_data_ := default_data |}.

(** An occupancy block of side 8 at the origin that holds only its
    coarsest scale 3, a single free voxel, and has no buffer. *)
Definition top_heap : heap := <[1%positive := [voxel (-5) 3 true]]> ∅.

Definition top_block : BlockMultiRes :=
  {| coord := (0, 0, 0);
     block_data_ := [1%positive];
     block_min_data_ := [1%positive];
     block_max_data_ := [1%positive];
     curr_data_ := Some 1%positive;
     buffer_data_ := None;
     current_scale := 3; min_scale := 3; buffer_scale_ := -1;
     curr_integr_count_ := 25; curr_observed_count_ := 1;
     buffer_integr_count_ := 0; buffer_observed_count_ := 0;
     init_data_ := default_data |}.

(** Octrees with blocks of side 8. A block whose aggregates say "observed
    and free" (log-odds -5 with weight 3), and one that was never
    integrated. *)
Definition free_data : Data := voxel (-5) 3 true.

Definition free_block (parent : positive) (c : Vector3i) : octree.Octant :=
  {| octree.is_block := true; octree.parent_ptr := Some parent;
     octree.coord := c; octree.size := 8; octree.timestamp := 7;
     octree.children := [];
     octree.min_data := free_data; octree.max_data := free_data |}.

Definition node (parent : option positive) (c : Vector3i) (size : Z)
    (children : list (option positive)) : octree.Octant :=
  {| octree.is_block := false; octree.parent_ptr := parent;
     octree.coord := c; octree.size := size; octree.timestamp := -1;
     octree.children := children;
     octree.min_data := default_data; octree.max_data := default_data |}.

Definition config : FieldConfig :=
  {| log_odd_min := -5; log_odd_max := 5; max_weight := 100;
     min_occupancy := -10 |}.

(** A root of side 32 without children. *)
Definition empty_tree : octree.Octree :=
  {| octree.size_ := 32; octree.root_ptr_ := 1%positive;
     octree.memory_pool_ :=
       {[ 1%positive := node None (0, 0, 0) 32 octree.no_children ]} |}.

(** A root of side 16 whose only child is one free block. *)
Definition lone_child_root : octree.Octant :=
  node None (0, 0, 0) 16 (Some 2%positive :: replicate 7 None).

Definition lone_child_pool : gmap positive octree.Octant :=
  <[2%positive := free_block 1 (0, 0, 0)]>
  (<[1%positive := lone_child_root]> ∅).

(** Eight free blocks at the addresses [first], ..., [first + 7] below
    [parent]. *)
Definition free_blocks (parent first : positive) (c : Vector3i) :
    list (positive * octree.Octant) :=
  (λ i : Z, (Z.to_pos (Z.pos first + i),
             free_block parent (octree.child_coord c 8 i))) <$> seqZ 0 8.

Definition block_ptrs (first : positive) : list (option positive) :=
  (λ i : Z, Some (Z.to_pos (Z.pos first + i))) <$> seqZ 0 8.

(** A root of side 16 all of whose eight blocks are free. *)
Definition free_root : octree.Octant :=
  node None (0, 0, 0) 16 (block_ptrs 2).

Definition free_pool : gmap positive octree.Octant :=
  <[1%positive := free_root]> (list_to_map (free_blocks 1 2 (0, 0, 0))).


(** A root of side 32 with one node of side 16 all of whose eight blocks
    are free. *)
Definition deep_node : octree.Octant :=
  node (Some 1%positive) (0, 0, 0) 16 (block_ptrs 3).

Definition deep_pool : gmap positive octree.Octant :=
  <[1%positive := node None (0, 0, 0) 32 (Some 2%positive :: replicate 7 None)]>
  (<[2%positive := deep_node]> (list_to_map (free_blocks 2 3 (0, 0, 0)))).


End fixtures.

(** More concrete inputs, for the properties of Part III. *)
Module samples.
Import cxx occupancy block.
Local Open Scope Z_scope.

(** A TSDF voxel of scale 0 at the origin with nothing to hand down. *)
Definition tsdf_voxel (v w : Q) : tsdf.DataUnion :=
  {| tsdf.coord := (0, 0, 0); tsdf.scale := 0;
     tsdf.data := {| tsdf.tsdf := v; tsdf.weight := w |};
     tsdf.prop_data := {| tsdf.delta_tsdf := 0; tsdf.delta_weight := 0 |} |}.

(** One way to fill an array: the init data of the block in every
    voxel. *)
Definition fill (init_data : Data) (num_voxels : Z) : list Data :=
  replicate (Z.to_nat num_voxels) init_data.

(** The members of an occupancy block of side 2 before the body of its
    constructor runs: no arrays, no buffer, never integrated. *)
Definition new_members : BlockMultiRes :=
  {| coord := (8, 0, 0);
     block_data_ := []; block_min_data_ := []; block_max_data_ := [];
     curr_data_ := None; buffer_data_ := None;
     current_scale := 1; min_scale := -1; buffer_scale_ := -1;
     curr_integr_count_ := 0; curr_observed_count_ := 0;
     buffer_integr_count_ := 0; buffer_observed_count_ := 0;
     init_data_ := default_data |}.

(** The block of side 2 that holds only its coarsest scale, at rest: no
    buffer is open. *)
Definition coarse_block_at_rest : BlockMultiRes :=
  resetBufferCount (set_buffer fixtures.coarse_block None (-1)).

(** The block of side 2 that is allocated down to scale 0, at rest. *)
Definition fine_block_at_rest : BlockMultiRes :=
  resetBufferCount (set_buffer fixtures.fine_block None (-1)).

(** The eight voxels of scale 0 of a block of side 2, all with weight 1,
    whose log-odds rise in the order in which the propagation visits
    them. *)
Definition rising_voxels : list Data :=
  (λ occ : Z, fixtures.voxel (inject_Z occ) 1 true)
    <$> [-4; -3; -2; -1; 1; 2; 3; 4].

(** The eight voxels of scale 0 of the block [fixtures.fine_block]. *)
Definition fine_voxels : list Data :=
  [fixtures.voxel (-1) 3 true; fixtures.voxel (-1) 3 true;
   fixtures.voxel (-2) 1 true; fixtures.voxel 1 2 true;
   fixtures.voxel (-1) 3 true; fixtures.voxel (-1) 3 true;
   fixtures.voxel (-3) 4 true; fixtures.voxel (-1) 3 true].

End samples.
(* ===================================================================== *)
(** * Part II: properties                                                 *)
(* ===================================================================== *)

(** ** Facts about the arithmetic helpers *)

Section cxx_facts.
Import cxx.

Lemma Qltb_lt (a b : Q) : Qltb a b = true <-> (a < b)%Q.
Proof.
  unfold Qltb. rewrite Qlt_alt. destruct (a ?= b)%Q; split; congruence.
Qed.

Lemma Qltb_ge (a b : Q) : Qltb a b = false <-> (b <= a)%Q.
Proof.
  pose proof (Qltb_lt a b) as H. pose proof (Qnot_lt_le a b) as H1.
  pose proof (Qle_not_lt b a) as H2.
  destruct (Qltb a b); split; intros H3; try congruence.
  - exfalso. apply (H2 H3). apply H. reflexivity.
  - apply H1. intros H4. apply H in H4. congruence.
Qed.

Lemma std_min_Qmin (a b : Q) : (std_min a b == Qmin a b)%Q.
Proof.
  unfold std_min. destruct (Qltb b a) eqn:E.
  - apply Qltb_lt in E. symmetry. apply Q.min_r. lra.
  - apply Qltb_ge in E. symmetry. apply Q.min_l. exact E.
Qed.

Lemma std_max_Qmax (a b : Q) : (std_max a b == Qmax a b)%Q.
Proof.
  unfold std_max. destruct (Qltb a b) eqn:E.
  - apply Qltb_lt in E. symmetry. apply Q.max_r. lra.
  - apply Qltb_ge in E. symmetry. apply Q.max_l. exact E.
Qed.

Lemma clamp_spec_clamp (f a b : Q) : (clamp f a b == spec_clamp f a b)%Q.
Proof.
  unfold clamp, spec_clamp. rewrite std_max_Qmax.
  apply Q.max_compat; [reflexivity | apply std_min_Qmin].
Qed.

Lemma spec_clamp_compat (x y lo hi : Q) :
  (x == y)%Q -> (spec_clamp x lo hi == spec_clamp y lo hi)%Q.
Proof.
  intros E. unfold spec_clamp.
  apply Q.max_compat; [reflexivity | apply Q.min_compat; [exact E | reflexivity]].
Qed.

End cxx_facts.

(** ** The TSDF voxel update *)

Section tsdf_facts.
Import cxx tsdf.

Lemma in_band_ratio (sdf tau : Q) :
  (0 < tau)%Q -> (- tau < sdf)%Q -> (-1 < sdf / tau)%Q.
Proof.
  intros Htau Hsdf. apply Qlt_shift_div_l; [exact Htau | lra].
Qed.

(** Inside the band the one-sided [std::min(1, sdf / tau)] of the code is the
    two-sided clamp of the specification. *)
Lemma tsdf_value_clamp (sdf tau : Q) :
  (0 < tau)%Q -> (- tau < sdf)%Q ->
  (std_min 1 (sdf / tau) == spec_clamp (sdf / tau) (-1) 1)%Q.
Proof.
  intros Htau Hsdf. pose proof (in_band_ratio sdf tau Htau Hsdf) as Hr.
  rewrite std_min_Qmin. unfold spec_clamp.
  rewrite (Q.min_comm 1 (sdf / tau)). symmetry. apply Q.max_r.
  apply Q.min_glb; lra.
Qed.

(** C1: with a truncation boundary [tau > 0], a voxel whose [sdf] is above
    [-tau] gets the value [clamp((value*weight + t') / (weight + 1), -1, 1)]
    with [t' = clamp(sdf / tau, -1, 1)] and the weight
    [min(weight + 1, W_max)]; a voxel with [sdf <= -tau] is left as it
    was. *)
Theorem updateVoxel_running_average (max_weight : Q) (du : DataUnion)
    (sdf tau : Q) :
  (0 < tau)%Q ->
  ((- tau < sdf)%Q ->
     let d := data du in
     let d' := data (updateVoxel max_weight du sdf tau) in
     let t' := spec_clamp (sdf / tau) (-1) 1 in
     (tsdf d' == spec_clamp ((tsdf d * weight d + t') / (weight d + 1)) (-1) 1)%Q
     /\ (weight d' == Qmin (weight d + 1) max_weight)%Q)
  /\ ((sdf <= - tau)%Q -> updateVoxel max_weight du sdf tau = du).
Proof.
  intros Htau. split.
  - intros Hsdf. cbv zeta. unfold updateVoxel.
    rewrite (proj2 (Qltb_lt (- tau) sdf) Hsdf). cbn [data tsdf weight].
    split.
    + rewrite clamp_spec_clamp. apply spec_clamp_compat.
      rewrite (tsdf_value_clamp sdf tau Htau Hsdf). reflexivity.
    + apply std_min_Qmin.
  - intros Hsdf. unfold updateVoxel.
    rewrite (proj2 (Qltb_ge (- tau) sdf) Hsdf). reflexivity.
Qed.

(** The update at a concrete voxel: value 1/2 with weight 3, [sdf = 1/10],
    [tau = 2/5] and [W_max = 100]. *)
Lemma updateVoxel_running_average_witness :
  let du := {| coord := (0, 0, 0)%Z; scale := 0%Z;
               data := {| tsdf := 1 # 2; weight := 3 |};
               prop_data := {| delta_tsdf := 0; delta_weight := 0%Z |} |} in
  (tsdf (data (updateVoxel 100 du (1 # 10) (2 # 5))) == 7 # 16)%Q
  /\ (weight (data (updateVoxel 100 du (1 # 10) (2 # 5))) == 4)%Q
  /\ updateVoxel 100 du (- (1 # 2)) (2 # 5) = du.
Proof.
  intros du.
  assert (Htau : (0 < 2 # 5)%Q) by reflexivity.
  destruct (updateVoxel_running_average 100 du (1 # 10) (2 # 5) Htau) as [Hin _].
  destruct (updateVoxel_running_average 100 du (- (1 # 2)) (2 # 5) Htau) as [_ Hout].
  assert (Hsdf : (- (2 # 5) < 1 # 10)%Q) by reflexivity.
  destruct (Hin Hsdf) as [Hv Hw].
  split; [| split].
  - rewrite Hv. reflexivity.
  - rewrite Hw. reflexivity.
  - apply Hout. discriminate.
Defined.

End tsdf_facts.

(** ** The occupancy voxel update *)

Section occupancy_update_facts.
Import cxx occupancy.

Variable field_update : FieldData -> Q -> Q -> FieldData.

(** C3: for a truncation band [tau >= 0] and a noise bound
    [three_sigma > 0] the sample fused into the voxel is [log_odd_min] below
    [-three_sigma], the ramp
    [min(log_odd_min - (log_odd_min / three_sigma) * (range_diff + three_sigma), log_odd_max)]
    on [[-three_sigma, tau/2)], the plateau
    [min(-log_odd_min * tau / (2 * three_sigma), log_odd_max)] on
    [[tau/2, tau)], and from [tau] on the voxel is not touched. *)
Theorem update_voxel_piecewise (data : Data) (range_diff tau three_sigma : Q)
    (config : FieldConfig) :
  (0 <= tau)%Q -> (0 < three_sigma)%Q ->
  let lmin := log_odd_min config in
  let lmax := log_odd_max config in
  let result := update_voxel field_update data range_diff tau three_sigma config in
  let fused sample :=
    (update field_update data sample (max_weight config),
     negb (observed (field data))) in
  ((range_diff < - three_sigma)%Q -> result = fused lmin)
  /\ ((- three_sigma <= range_diff)%Q -> (range_diff < tau / 2)%Q ->
      exists sample,
        (sample == Qmin (lmin - (lmin / three_sigma) * (range_diff + three_sigma)) lmax)%Q
        /\ result = fused sample)
  /\ ((tau / 2 <= range_diff)%Q -> (range_diff < tau)%Q ->
      exists sample,
        (sample == Qmin (- lmin * tau / (2 * three_sigma)) lmax)%Q
        /\ result = fused sample)
  /\ ((tau <= range_diff)%Q -> result = (data, false)).
Proof.
  intros Htau Hsigma. cbv zeta. unfold update_voxel.
  assert (Hhalf : (0 <= tau / 2)%Q).
  { apply Qle_shift_div_l; [reflexivity | lra]. }
  assert (Hhalf' : (tau / 2 <= tau)%Q).
  { apply Qle_shift_div_r; [reflexivity | lra]. }
  repeat split.
  - intros H1. rewrite (proj2 (Qltb_lt _ _) H1). reflexivity.
  - intros H1 H2. rewrite (proj2 (Qltb_ge _ _) H1), (proj2 (Qltb_lt _ _) H2).
    eexists. split; [apply std_min_Qmin | reflexivity].
  - intros H1 H2.
    assert (H0 : (- three_sigma <= range_diff)%Q) by lra.
    rewrite (proj2 (Qltb_ge _ _) H0), (proj2 (Qltb_ge _ _) H1),
      (proj2 (Qltb_lt _ _) H2).
    eexists. split; [apply std_min_Qmin | reflexivity].
  - intros H1.
    assert (H0 : (- three_sigma <= range_diff)%Q) by lra.
    assert (H2 : (tau / 2 <= range_diff)%Q) by lra.
    rewrite (proj2 (Qltb_ge _ _) H0), (proj2 (Qltb_ge _ _) H2),
      (proj2 (Qltb_ge _ _) H1).
    reflexivity.
Qed.

End occupancy_update_facts.

(** The four pieces at [tau = 4/10], [three_sigma = 3/10],
    [log_odd_min = -5], [log_odd_max = 5], on a fresh voxel. *)
Lemma update_voxel_piecewise_witness :
  let config := {| occupancy.log_odd_min := -5; occupancy.log_odd_max := 5;
                   occupancy.max_weight := 100;
                   occupancy.min_occupancy := -100 |} in
  let run rd := occupancy.update_voxel mean_field_update
                  occupancy.default_data rd (4 # 10) (3 # 10) config in
  let fused s := (occupancy.update mean_field_update occupancy.default_data s 100,
                  true) in
  run (- (1 # 2)) = fused (-5)%Q
  /\ (exists s, (s == - (5 # 3))%Q /\ run (- (1 # 10)) = fused s)
  /\ (exists s, (s == 10 # 3)%Q /\ run (3 # 10) = fused s)
  /\ run (1 # 2) = (occupancy.default_data, false).
Proof.
  intros config run fused.
  assert (Htau : (0 <= 4 # 10)%Q) by discriminate.
  assert (Hsigma : (0 < 3 # 10)%Q) by reflexivity.
  pose proof (fun rd => update_voxel_piecewise mean_field_update
                occupancy.default_data rd (4 # 10) (3 # 10) config Htau Hsigma)
    as H.
  split; [| split; [| split]].
  - apply (H (- (1 # 2))%Q). reflexivity.
  - destruct (H (- (1 # 10))%Q) as (_ & H2 & _).
    destruct H2 as (s & Hs & Hr); [discriminate | reflexivity |].
    exists s. split; [rewrite Hs; reflexivity | exact Hr].
  - destruct (H (3 # 10)%Q) as (_ & _ & H3 & _).
    destruct H3 as (s & Hs & Hr); [discriminate | reflexivity |].
    exists s. split; [rewrite Hs; reflexivity | exact Hr].
  - apply (H (1 # 2)%Q). discriminate.
Defined.

(** ** Voxel indexing inside a block *)

Section block_index_facts.
Import cxx block.
Local Open Scope Z_scope.

Lemma at_Some {A} (v : list A) (i : Z) (x : A) :
  at_ v i = Some x <-> 0 <= i /\ v !! Z.to_nat i = Some x.
Proof.
  unfold at_. destruct (Z.ltb_spec i 0); split.
  - discriminate.
  - intros [? _]. lia.
  - intros ->. split; [lia | reflexivity].
  - intros [_ ->]. reflexivity.
Qed.

Lemma at_in_range {A} (v : list A) (i : Z) :
  0 <= i < Z.of_nat (length v) -> is_Some (at_ v i).
Proof.
  intros Hi. unfold at_. destruct (Z.ltb_spec i 0); [lia |].
  apply lookup_lt_is_Some. lia.
Qed.

Lemma log2_pow2 (k : Z) : 0 <= k -> max_scale (2 ^ k) = k.
Proof. intros Hk. unfold max_scale. apply Z.log2_pow2. exact Hk. Qed.

Lemma scale_asserted (k scale : Z) :
  0 <= k -> 0 <= scale <= k ->
  negb ((0 <=? scale) && (scale <=? max_scale (2 ^ k))) = false.
Proof.
  intros Hk Hs. rewrite log2_pow2 by exact Hk.
  apply negb_false_iff, andb_true_iff. split; apply Z.leb_le; lia.
Qed.

Lemma shiftr_pow2 (k s : Z) : 0 <= s <= k -> 2 ^ k ≫ s = 2 ^ (k - s).
Proof.
  intros Hs. rewrite Z.shiftr_div_pow2 by lia.
  replace k with ((k - s) + s) at 1 by lia.
  rewrite Z.pow_add_r by lia. apply Z.div_mul.
  apply Z.pow_nonzero; lia.
Qed.

(** A voxel offset inside the block falls, after the division by the stride
    [1 << s], inside the grid of scale [s]. *)
Lemma offset_in_grid (k s o : Z) :
  0 <= s <= k -> 0 <= o < 2 ^ k -> 0 <= o ÷ (1 ≪ s) < 2 ^ k ≫ s.
Proof.
  intros Hs Ho. rewrite Z.shiftl_1_l, shiftr_pow2 by lia.
  assert (Hpos : 0 < 2 ^ s) by (apply Z.pow_pos_nonneg; lia).
  rewrite Z.quot_div_nonneg by lia. split.
  - apply Z.div_pos; lia.
  - apply Z.div_lt_upper_bound; [lia |].
    rewrite <- Z.pow_add_r by lia. replace (s + (k - s)) with k by lia. lia.
Qed.

(** The linear index of a grid cell stays below the number of cells. *)
Lemma linear_index_bound (n x y z : Z) :
  0 <= x < n -> 0 <= y < n -> 0 <= z < n ->
  0 <= x + y * n + z * sq n < cu n.
Proof. unfold sq, cu. intros Hx Hy Hz. nia. Qed.

Lemma scale_offset_nonneg (k : Z) (s : nat) :
  0 <= k -> 0 <= scale_offset (2 ^ k) s.
Proof.
  intros Hk. induction s as [| s IH]; cbn [scale_offset]; [lia |].
  assert (0 <= 2 ^ k ≫ Z.of_nat s).
  { apply Z.shiftr_nonneg. apply Z.pow_nonneg. lia. }
  unfold cu. nia.
Qed.

Lemma scale_offset_mono (k : Z) (s t : nat) :
  0 <= k -> (s <= t)%nat -> scale_offset (2 ^ k) s <= scale_offset (2 ^ k) t.
Proof.
  intros Hk Hst. induction Hst as [| t Hst IH]; [lia |].
  cbn [scale_offset].
  assert (0 <= 2 ^ k ≫ Z.of_nat t).
  { apply Z.shiftr_nonneg. apply Z.pow_nonneg. lia. }
  unfold cu. nia.
Qed.

(** The index that [getVoxelIdx] of a TSDF block computes lies in the slice
    of the flat array that holds scale [s]. *)
Lemma t_getVoxelIdx_in_slice (k : Z) (b : BlockMultiResTSDF) (v : Vector3i)
    (s : Z) :
  0 <= s <= k -> inside_block (2 ^ k) (t_coord b) v ->
  exists idx,
    t_getVoxelIdx (2 ^ k) b v s = Some idx
    /\ scale_offset (2 ^ k) (Z.to_nat s) <= idx
       < scale_offset (2 ^ k) (S (Z.to_nat s)).
Proof.
  intros Hs Hin. unfold t_getVoxelIdx, size_at_scales_, scale_offsets_.
  rewrite log2_pow2 by lia.
  destruct (Z.leb_spec 0 s); [| lia]. destruct (Z.leb_spec s k); [| lia].
  cbn [andb]. destruct (t_coord b) as [[cx cy] cz], v as [[vx vy] vz].
  cbn in Hin. destruct Hin as (Hx & Hy & Hz).
  cbn [vsub vquot mbind option_bind].
  eexists. split; [reflexivity |].
  cbn [scale_offset]. rewrite Z2Nat.id by lia.
  pose proof (offset_in_grid k s (vx - cx) ltac:(lia) ltac:(lia)) as Ox.
  pose proof (offset_in_grid k s (vy - cy) ltac:(lia) ltac:(lia)) as Oy.
  pose proof (offset_in_grid k s (vz - cz) ltac:(lia) ltac:(lia)) as Oz.
  pose proof (linear_index_bound _ _ _ _ Ox Oy Oz). lia.
Qed.

(** The same for an occupancy block, whose scales are separate arrays. *)
Lemma getVoxelIdx_in_grid (k : Z) (b : BlockMultiRes) (v : Vector3i) (s : Z) :
  0 <= s <= k -> inside_block (2 ^ k) (coord b) v ->
  exists idx,
    getVoxelIdx (2 ^ k) b v s = Some idx /\ 0 <= idx < cu (2 ^ k ≫ s).
Proof.
  intros Hs Hin. unfold getVoxelIdx. rewrite log2_pow2 by lia.
  destruct (Z.leb_spec 0 s); [| lia]. destruct (Z.leb_spec s k); [| lia].
  cbn [andb]. destruct (coord b) as [[cx cy] cz], v as [[vx vy] vz].
  cbn in Hin. destruct Hin as (Hx & Hy & Hz).
  cbn [vsub vquot]. eexists. split; [reflexivity |].
  apply linear_index_bound; apply offset_in_grid; lia.
Qed.

End block_index_facts.

(** ** The scale-aware accessors of the blocks *)

Section block_data_facts.
Import cxx block block_access.
Local Open Scope Z_scope.

Lemma t_data_at_coarser (k : Z) (b : BlockMultiResTSDF) (v : Vector3i)
    (scale_desired : Z) :
  0 <= k -> t_wf k b -> inside_block (2 ^ k) (t_coord b) v ->
  scale_desired <= k ->
  let s := Z.max scale_desired (t_current_scale b) in
  exists d idx,
    t_data (2 ^ k) b v scale_desired = Some (d, s)
    /\ t_data_at (2 ^ k) b v s = Some d
    /\ t_getVoxelIdx (2 ^ k) b v s = Some idx
    /\ scale_offset (2 ^ k) (Z.to_nat s) <= idx
       < scale_offset (2 ^ k) (S (Z.to_nat s))
    /\ at_ (t_block_data_ b) idx = Some d.
Proof.
  intros Hk (Hcur & Hlen) Hin Hsd s.
  assert (Hs : 0 <= s <= k) by (unfold s; lia).
  destruct (t_getVoxelIdx_in_slice k b v s Hs Hin) as (idx & Hidx & Hlo & Hhi).
  assert (Hidx_range : 0 <= idx < Z.of_nat (length (t_block_data_ b))).
  { split.
    - pose proof (scale_offset_nonneg k (Z.to_nat s) Hk). lia.
    - rewrite Hlen.
      pose proof (scale_offset_mono k (S (Z.to_nat s)) (S (Z.to_nat k)) Hk
                    ltac:(lia)).
      lia. }
  destruct (at_in_range _ _ Hidx_range) as [d Hd].
  exists d, idx. unfold t_data, t_data_at, t_data_idx. fold s.
  rewrite Hidx. cbn [mbind option_bind]. rewrite Hd. cbn [mbind option_bind].
  repeat split; try reflexivity; assumption.
Qed.

Lemma finer_than_allocated_false (k : Z) (h : heap) (b : BlockMultiRes) (s : Z) :
  0 <= k < 31 -> wf k h b -> min_scale b <= s <= k ->
  finer_than_allocated (2 ^ k) b s = false.
Proof.
  intros Hk (Hmin & Hcur & Hlen & _) Hs. unfold finer_than_allocated, to_size_t.
  rewrite log2_pow2 by lia. rewrite Hlen.
  rewrite (Z.mod_small k), (Z.mod_small (k - min_scale b + 1 - 1)),
    (Z.mod_small s), Z.mod_small by lia.
  apply Z.ltb_ge. lia.
Qed.

Lemma data_at_coarser (k : Z) (h : heap) (b : BlockMultiRes) (v : Vector3i)
    (scale_in : Z) :
  0 <= k < 31 -> wf k h b -> inside_block (2 ^ k) (coord b) v ->
  scale_in <= k ->
  let s := Z.max scale_in (current_scale b) in
  exists d idx,
    data (2 ^ k) h b v scale_in = Some (d, s)
    /\ data_at (2 ^ k) h b v s = Some d
    /\ getVoxelIdx (2 ^ k) b v s = Some idx
    /\ pyramid_at (2 ^ k) h (block_data_ b) s idx = Some d.
Proof.
  intros Hk Hwf Hin Hsd s.
  pose proof Hwf as (Hmin & Hcur & Hlen & Hall).
  assert (Hs : 0 <= s <= k) by (unfold s; lia).
  destruct (getVoxelIdx_in_grid k b v s Hs Hin) as (idx & Hidx & Hrange).
  destruct (Hall s ltac:(unfold s; lia)) as (p & arr & Hp & Harr & Hsize).
  destruct (at_in_range arr idx ltac:(lia)) as [d Hd].
  assert (Hpyr : pyramid_at (2 ^ k) h (block_data_ b) s idx = Some d).
  { unfold pyramid_at. rewrite log2_pow2 by lia. rewrite Hp.
    cbn [mbind option_bind]. rewrite Harr. exact Hd. }
  exists d, idx. unfold data. fold s. rewrite Hidx.
  cbn [mbind option_bind]. rewrite Hpyr. cbn [mbind option_bind].
  repeat split; try reflexivity; try assumption.
  unfold data_at, data_at_scale.
  rewrite (finer_than_allocated_false k h b s Hk Hwf) by (unfold s; lia).
  destruct (Z.leb_spec 0 s); [| lia]. destruct (Z.ltb_spec s 31); [| lia].
  cbn [andb]. revert Hidx. unfold getVoxelIdx. rewrite log2_pow2 by lia.
  destruct (Z.leb_spec 0 s); [| lia]. destruct (Z.leb_spec s k); [| lia].
  cbn [andb]. destruct (vquot _ _) as [[ox oy] oz].
  intros [= <-]. exact Hpyr.
Qed.


(** *** Where the accessors read *)

Lemma radix_injective (n x y z x' y' z' : Z) :
  0 <= x < n -> 0 <= y < n -> 0 <= z < n ->
  0 <= x' < n -> 0 <= y' < n -> 0 <= z' < n ->
  x + y * n + z * sq n = x' + y' * n + z' * sq n ->
  x = x' /\ y = y' /\ z = z'.
Proof.
  unfold sq. intros Hx Hy Hz Hx' Hy' Hz' E.
  assert (Ez : z = z') by nia. subst z'.
  assert (Ey : y = y') by nia. subst y'.
  split; [lia | split; reflexivity].
Qed.

Lemma cell_in_grid (k s : Z) (c v : Vector3i) :
  0 <= s <= k -> inside_block (2 ^ k) c v ->
  let '(ox, oy, oz) := cell c s v in
  0 <= ox < 2 ^ k ≫ s /\ 0 <= oy < 2 ^ k ≫ s /\ 0 <= oz < 2 ^ k ≫ s.
Proof.
  intros Hs Hin. destruct c as [[cx cy] cz], v as [[vx vy] vz].
  cbn in Hin. destruct Hin as (Hx & Hy & Hz). cbn [cell vsub vquot].
  split; [| split]; apply offset_in_grid; lia.
Qed.

Lemma t_getVoxelIdx_cell (k : Z) (b : BlockMultiResTSDF) (v : Vector3i)
    (s : Z) :
  0 <= s <= k ->
  t_getVoxelIdx (2 ^ k) b v s
  = let '(ox, oy, oz) := cell (t_coord b) s v in
    Some (scale_offset (2 ^ k) (Z.to_nat s)
          + ox + oy * (2 ^ k ≫ s) + oz * sq (2 ^ k ≫ s)).
Proof.
  intros Hs. unfold t_getVoxelIdx, size_at_scales_, scale_offsets_, cell.
  rewrite log2_pow2 by lia.
  destruct (Z.leb_spec 0 s); [| lia]. destruct (Z.leb_spec s k); [| lia].
  cbn [andb]. destruct (vquot (vsub v (t_coord b)) (1 ≪ s)) as [[ox oy] oz].
  reflexivity.
Qed.

Lemma t_getVoxelIdx_in_array (k : Z) (b : BlockMultiResTSDF) (v : Vector3i)
    (s : Z) :
  0 <= s <= k -> inside_block (2 ^ k) (t_coord b) v ->
  exists idx, t_getVoxelIdx (2 ^ k) b v s = Some idx
              /\ 0 <= idx < scale_offset (2 ^ k) (S (Z.to_nat k)).
Proof.
  intros Hs Hin.
  destruct (t_getVoxelIdx_in_slice k b v s Hs Hin) as (i & Hi & Hlo & Hhi).
  exists i. split; [exact Hi |].
  pose proof (scale_offset_nonneg k (Z.to_nat s) ltac:(lia)).
  pose proof (scale_offset_mono k (S (Z.to_nat s)) (S (Z.to_nat k))
                ltac:(lia) ltac:(lia)). lia.
Qed.

Lemma t_getVoxelIdx_same_cell (k : Z) (b : BlockMultiResTSDF)
    (v v' : Vector3i) (s s' : Z) :
  0 <= s <= k -> 0 <= s' <= k ->
  inside_block (2 ^ k) (t_coord b) v -> inside_block (2 ^ k) (t_coord b) v' ->
  t_getVoxelIdx (2 ^ k) b v s = t_getVoxelIdx (2 ^ k) b v' s'
  <-> s = s' /\ cell (t_coord b) s v = cell (t_coord b) s' v'.
Proof.
  intros Hs Hs' Hin Hin'.
  destruct (t_getVoxelIdx_in_slice k b v s Hs Hin) as (i & Hi & Hlo & Hhi).
  destruct (t_getVoxelIdx_in_slice k b v' s' Hs' Hin')
    as (i' & Hi' & Hlo' & Hhi').
  split.
  - intros E. assert (Es : s = s').
    { rewrite Hi, Hi' in E. injection E as E. subst i'.
      destruct (Z.lt_trichotomy s s') as [Hlt | [Heq | Hgt]]; [| exact Heq |].
      - pose proof (scale_offset_mono k (S (Z.to_nat s)) (Z.to_nat s')
                      ltac:(lia) ltac:(lia)). lia.
      - pose proof (scale_offset_mono k (S (Z.to_nat s')) (Z.to_nat s)
                      ltac:(lia) ltac:(lia)). lia. }
    subst s'. split; [reflexivity |].
    rewrite !t_getVoxelIdx_cell in E by lia.
    pose proof (cell_in_grid k s (t_coord b) v Hs Hin) as G.
    pose proof (cell_in_grid k s (t_coord b) v' Hs Hin') as G'.
    destruct (cell (t_coord b) s v) as [[ox oy] oz].
    destruct (cell (t_coord b) s v') as [[ox' oy'] oz'].
    destruct G as (Gx & Gy & Gz), G' as (Gx' & Gy' & Gz').
    injection E as E.
    destruct (radix_injective (2 ^ k ≫ s) ox oy oz ox' oy' oz')
      as (-> & -> & ->); try assumption; [lia | reflexivity].
  - intros [<- Ec]. rewrite !t_getVoxelIdx_cell by lia. rewrite Ec.
    reflexivity.
Qed.

Lemma at_set_at_eq {A} (l l' : list A) (i : Z) (x : A) :
  set_at l i x = Some l' -> at_ l' i = Some x.
Proof.
  unfold set_at, at_. destruct (Z.ltb_spec i 0); cbn; [discriminate |].
  destruct (Z.leb_spec (Z.of_nat (length l)) i); [discriminate |].
  intros [= <-]. apply list_lookup_insert_eq. lia.
Qed.

Lemma at_set_at_ne {A} (l l' : list A) (i j : Z) (x : A) :
  set_at l i x = Some l' -> i <> j -> at_ l' j = at_ l j.
Proof.
  unfold set_at, at_. destruct (Z.ltb_spec i 0); cbn; [discriminate |].
  destruct (Z.leb_spec (Z.of_nat (length l)) i); [discriminate |].
  intros [= <-] Hij. destruct (Z.ltb_spec j 0); [reflexivity |].
  apply list_lookup_insert_ne. lia.
Qed.


Lemma getVoxelIdx_cell (k : Z) (b : BlockMultiRes) (v : Vector3i) (s : Z) :
  0 <= s <= k ->
  getVoxelIdx (2 ^ k) b v s
  = let '(ox, oy, oz) := cell (coord b) s v in
    Some (ox + oy * (2 ^ k ≫ s) + oz * sq (2 ^ k ≫ s)).
Proof.
  intros Hs. unfold getVoxelIdx, cell. rewrite log2_pow2 by lia.
  destruct (Z.leb_spec 0 s); [| lia]. destruct (Z.leb_spec s k); [| lia].
  cbn [andb]. destruct (vquot (vsub v (coord b)) (1 ≪ s)) as [[ox oy] oz].
  reflexivity.
Qed.

Lemma getVoxelIdx_same_cell (k : Z) (b : BlockMultiRes) (v v' : Vector3i)
    (s : Z) :
  0 <= s <= k ->
  inside_block (2 ^ k) (coord b) v -> inside_block (2 ^ k) (coord b) v' ->
  getVoxelIdx (2 ^ k) b v s = getVoxelIdx (2 ^ k) b v' s
  <-> cell (coord b) s v = cell (coord b) s v'.
Proof.
  intros Hs Hin Hin'. rewrite !getVoxelIdx_cell by lia.
  pose proof (cell_in_grid k s (coord b) v Hs Hin) as G.
  pose proof (cell_in_grid k s (coord b) v' Hs Hin') as G'.
  destruct (cell (coord b) s v) as [[ox oy] oz].
  destruct (cell (coord b) s v') as [[ox' oy'] oz'].
  destruct G as (Gx & Gy & Gz), G' as (Gx' & Gy' & Gz').
  split.
  - intros [= E].
    destruct (radix_injective (2 ^ k ≫ s) ox oy oz ox' oy' oz')
      as (-> & -> & ->); try assumption; reflexivity.
  - intros [= -> -> ->]. reflexivity.
Qed.

(** The quotient that the accessors compute is the number of the cube
    that holds the voxel. *)
Lemma quot_cell (s o i : Z) :
  0 <= s -> 0 <= o -> (o ÷ (1 ≪ s) = i <-> 2 ^ s * i <= o < 2 ^ s * (i + 1)).
Proof.
  intros Hs Ho. rewrite Z.shiftl_1_l.
  assert (Hpos : 0 < 2 ^ s) by (apply Z.pow_pos_nonneg; lia).
  rewrite Z.quot_div_nonneg by lia. split.
  - intros <-. pose proof (Z.mul_div_le o (2 ^ s) Hpos).
    pose proof (Z.mul_succ_div_gt o (2 ^ s) Hpos). lia.
  - intros [Hlo Hhi]. symmetry. apply (Z.div_unique o (2 ^ s) i (o - 2 ^ s * i)); lia.
Qed.

Lemma in_cell_cell (k s : Z) (c v : Vector3i) (i j l : Z) :
  0 <= s -> inside_block (2 ^ k) c v ->
  in_cell c s i j l v <-> cell c s v = (i, j, l).
Proof.
  intros Hs Hin. destruct c as [[cx cy] cz], v as [[vx vy] vz].
  cbn in Hin. destruct Hin as (Hx & Hy & Hz). cbn [in_cell cell vsub vquot].
  pose proof (quot_cell s (vx - cx) i Hs ltac:(lia)) as Qx.
  pose proof (quot_cell s (vy - cy) j Hs ltac:(lia)) as Qy.
  pose proof (quot_cell s (vz - cz) l Hs ltac:(lia)) as Qz.
  split.
  - intros (Ix & Iy & Iz). f_equal; [f_equal |].
    + apply Qx. lia.
    + apply Qy. lia.
    + apply Qz. lia.
  - intros [= Ex Ey Ez]. apply Qx in Ex. apply Qy in Ey. apply Qz in Ez. lia.
Qed.

(** What the accessor of a TSDF block reads, and what a write to that
    voxel and scale does to it. *)
Lemma t_data_stored (k : Z) (b : BlockMultiResTSDF) (v : Vector3i)
    (scale_desired : Z) :
  0 <= k -> t_wf k b -> inside_block (2 ^ k) (t_coord b) v ->
  scale_desired <= k ->
  let s := Z.max scale_desired (t_current_scale b) in
  let n := 2 ^ (k - s) in
  exists d i j l,
    t_data (2 ^ k) b v scale_desired = Some (d, s)
    /\ in_cell (t_coord b) s i j l v
    /\ (0 <= i < n /\ 0 <= j < n /\ 0 <= l < n)
    /\ t_block_data_ b
         !! Z.to_nat (scale_offset (2 ^ k) (Z.to_nat s) + i + j * n + l * (n * n))
       = Some d
    /\ forall x,
         exists b',
           t_set_data (2 ^ k) b v s x = Some b'
           /\ t_data (2 ^ k) b' v scale_desired = Some (x, s)
           /\ forall v',
                inside_block (2 ^ k) (t_coord b) v' ->
                ~ in_cell (t_coord b) s i j l v' ->
                t_data (2 ^ k) b' v' scale_desired
                = t_data (2 ^ k) b v' scale_desired.
Proof.
  intros Hk Hwf Hin Hsd s n. pose proof Hwf as (Hcur & Hlen).
  assert (Hs : 0 <= s <= k) by (unfold s; lia).
  destruct (t_data_at_coarser k b v scale_desired Hk Hwf Hin Hsd)
    as (d & idx & Hdata & _ & Hidx & _ & Hat).
  fold s in Hdata, Hidx.
  pose proof (cell_in_grid k s (t_coord b) v Hs Hin) as G.
  pose proof (t_getVoxelIdx_cell k b v s Hs) as Hcell.
  destruct (cell (t_coord b) s v) as [[i j] l] eqn:Ecell.
  rewrite shiftr_pow2 in G, Hcell by lia. fold n in G, Hcell.
  rewrite Hidx in Hcell. injection Hcell as ->.
  exists d, i, j, l. split; [exact Hdata |].
  split; [apply (in_cell_cell k); [lia | exact Hin | exact Ecell] |].
  split; [exact G |].
  apply at_Some in Hat as [_ Hat]. unfold sq in Hat.
  split; [exact Hat |].
  intros x.
  assert (Hrange : 0 <= scale_offset (2 ^ k) (Z.to_nat s) + i + j * n + l * sq n
                   < Z.of_nat (length (t_block_data_ b))).
  { destruct (t_getVoxelIdx_in_array k b v s Hs Hin) as (idx & Hi & Hr).
    rewrite Hidx in Hi. injection Hi as <-. rewrite Hlen. exact Hr. }
  unfold t_set_data. rewrite Hidx. cbn [mbind option_bind].
  destruct (set_at (t_block_data_ b) _ x) as [block_data |] eqn:Hset.
  2:{ unfold set_at in Hset.
      destruct (Z.ltb_spec (scale_offset (2 ^ k) (Z.to_nat s) + i + j * n
                            + l * sq n) 0); [lia |].
      destruct (Z.leb_spec (Z.of_nat (length (t_block_data_ b)))
                  (scale_offset (2 ^ k) (Z.to_nat s) + i + j * n + l * sq n));
        [lia | discriminate]. }
  cbn [mbind option_bind]. eexists. split; [reflexivity |].
  split.
  - unfold t_data, t_data_idx. cbn [t_current_scale t_getVoxelIdx]. fold s.
    replace (t_getVoxelIdx (2 ^ k) _ v s) with (t_getVoxelIdx (2 ^ k) b v s)
      by reflexivity.
    rewrite Hidx. cbn [mbind option_bind t_block_data_].
    rewrite (at_set_at_eq _ _ _ _ Hset). reflexivity.
  - intros v' Hin' Hnot. unfold t_data, t_data_idx.
    cbn [t_current_scale]. fold s.
    replace (t_getVoxelIdx (2 ^ k) _ v' s) with (t_getVoxelIdx (2 ^ k) b v' s)
      by reflexivity.
    destruct (t_getVoxelIdx (2 ^ k) b v' s) as [idx' |] eqn:Hidx';
      cbn [mbind option_bind t_block_data_]; [| reflexivity].
    rewrite (at_set_at_ne _ _ _ idx' _ Hset); [reflexivity |].
    intros <-. apply Hnot. apply (in_cell_cell k); [lia | exact Hin' |].
    rewrite <- Ecell. symmetry.
    apply (t_getVoxelIdx_same_cell k b v v' s s Hs Hs Hin Hin').
    congruence.
Qed.

(** The same for an occupancy block. *)
Lemma data_stored (k : Z) (h : heap) (b : BlockMultiRes) (v : Vector3i)
    (scale_in : Z) :
  0 <= k < 31 -> wf k h b -> inside_block (2 ^ k) (coord b) v ->
  scale_in <= k ->
  let s := Z.max scale_in (current_scale b) in
  let n := 2 ^ (k - s) in
  exists d i j l p arr,
    data (2 ^ k) h b v scale_in = Some (d, s)
    /\ in_cell (coord b) s i j l v
    /\ (0 <= i < n /\ 0 <= j < n /\ 0 <= l < n)
    /\ block_data_ b !! Z.to_nat (k - s) = Some p /\ h !! p = Some arr
    /\ arr !! Z.to_nat (i + j * n + l * (n * n)) = Some d
    /\ forall x,
         exists h',
           set_data (2 ^ k) h b v scale_in x = Some h'
           /\ data (2 ^ k) h' b v scale_in = Some (x, s)
           /\ forall v',
                inside_block (2 ^ k) (coord b) v' ->
                ~ in_cell (coord b) s i j l v' ->
                data (2 ^ k) h' b v' scale_in = data (2 ^ k) h b v' scale_in.
Proof.
  intros Hk Hwf Hin Hsd s n. pose proof Hwf as (Hmin & Hcur & Hlen & Hall).
  assert (Hs : 0 <= s <= k) by (unfold s; lia).
  pose proof (cell_in_grid k s (coord b) v Hs Hin) as G.
  pose proof (getVoxelIdx_cell k b v s Hs) as Hidx.
  destruct (cell (coord b) s v) as [[i j] l] eqn:Ecell.
  rewrite shiftr_pow2 in G, Hidx by lia. fold n in G, Hidx.
  destruct (Hall s ltac:(unfold s; lia)) as (p & arr & Hp & Harr & Hsize).
  rewrite shiftr_pow2 in Hsize by lia. fold n in Hsize.
  assert (Hrange : 0 <= i + j * n + l * sq n < Z.of_nat (length arr)).
  { rewrite Hsize. apply linear_index_bound; lia. }
  destruct (at_in_range arr _ Hrange) as [d Hd].
  assert (Hpyr : forall h0 arr0, h0 !! p = Some arr0 -> forall idx,
            pyramid_at (2 ^ k) h0 (block_data_ b) s idx = at_ arr0 idx).
  { intros h0 arr0 H0 idx. unfold pyramid_at. rewrite log2_pow2 by lia.
    rewrite Hp. cbn [mbind option_bind]. rewrite H0. reflexivity. }
  exists d, i, j, l, p, arr. split.
  { unfold data. fold s. rewrite Hidx. cbn [mbind option_bind].
    rewrite (Hpyr h arr Harr), Hd. reflexivity. }
  split; [apply (in_cell_cell k); [lia | exact Hin | exact Ecell] |].
  split; [exact G |].
  split; [apply at_Some in Hp as [_ Hp]; exact Hp |]. split; [exact Harr |].
  split; [apply at_Some in Hd as [_ Hd]; unfold sq in Hd; exact Hd |].
  intros x. unfold set_data. fold s. rewrite Hidx. cbn [mbind option_bind].
  rewrite log2_pow2 by lia. rewrite Hp. cbn [mbind option_bind].
  rewrite Harr. cbn [mbind option_bind].
  destruct (set_at arr (i + j * n + l * sq n) x) as [arr' |] eqn:Hset.
  2:{ unfold set_at in Hset.
      destruct (Z.ltb_spec (i + j * n + l * sq n) 0); [lia |].
      destruct (Z.leb_spec (Z.of_nat (length arr)) (i + j * n + l * sq n));
        [lia | discriminate]. }
  cbn [mbind option_bind]. eexists. split; [reflexivity |].
  assert (Hp' : <[p := arr']> h !! p = Some arr') by apply lookup_insert_eq.
  split.
  - unfold data. fold s. rewrite Hidx. cbn [mbind option_bind].
    rewrite (Hpyr _ arr' Hp'), (at_set_at_eq _ _ _ _ Hset). reflexivity.
  - intros v' Hin' Hnot. unfold data. fold s.
    destruct (getVoxelIdx (2 ^ k) b v' s) as [idx' |] eqn:Hidx';
      cbn [mbind option_bind]; [| reflexivity].
    rewrite (Hpyr _ arr' Hp'), (Hpyr h arr Harr).
    rewrite (at_set_at_ne _ _ _ idx' _ Hset); [reflexivity |].
    intros <-. apply Hnot. apply (in_cell_cell k); [lia | exact Hin' |].
    rewrite <- Ecell. symmetry.
    apply (getVoxelIdx_same_cell k b v v' s Hs Hin Hin'). congruence.
Qed.

(** C7: in a multi-resolution block of side [2^k], of either flavour, the
    accessor [data(voxel_coord, desired_scale)] on a voxel of the block
    reports the scale [max(desired_scale, current_scale)] and returns the
    data stored for the voxel at that scale: the entry of the cube of side
    [2^scale] that holds the voxel, cubes being numbered along x first,
    then y, then z (in the slice of that scale of the flat TSDF array, in
    the array of that scale of an occupancy block). Data written to the
    voxel at that scale is what the accessor returns afterwards, and the
    write is not seen from a voxel of another cube. *)
Theorem data_at_max_of_desired_and_current (k : Z) :
  0 <= k < 31 ->
  (forall (b : BlockMultiResTSDF) (v : Vector3i) (scale_desired : Z),
      t_wf k b -> inside_block (2 ^ k) (t_coord b) v -> scale_desired <= k ->
      let s := Z.max scale_desired (t_current_scale b) in
      let n := 2 ^ (k - s) in
      exists d i j l,
        t_data (2 ^ k) b v scale_desired = Some (d, s)
        /\ in_cell (t_coord b) s i j l v
        /\ (0 <= i < n /\ 0 <= j < n /\ 0 <= l < n)
        /\ t_block_data_ b
             !! Z.to_nat (scale_offset (2 ^ k) (Z.to_nat s)
                          + i + j * n + l * (n * n))
           = Some d
        /\ forall x,
             exists b',
               t_set_data (2 ^ k) b v s x = Some b'
               /\ t_data (2 ^ k) b' v scale_desired = Some (x, s)
               /\ forall v',
                    inside_block (2 ^ k) (t_coord b) v' ->
                    ~ in_cell (t_coord b) s i j l v' ->
                    t_data (2 ^ k) b' v' scale_desired
                    = t_data (2 ^ k) b v' scale_desired)
  /\ (forall (h : heap) (b : BlockMultiRes) (v : Vector3i) (scale_in : Z),
      wf k h b -> inside_block (2 ^ k) (coord b) v -> scale_in <= k ->
      let s := Z.max scale_in (current_scale b) in
      let n := 2 ^ (k - s) in
      exists d i j l p arr,
        data (2 ^ k) h b v scale_in = Some (d, s)
        /\ in_cell (coord b) s i j l v
        /\ (0 <= i < n /\ 0 <= j < n /\ 0 <= l < n)
        /\ block_data_ b !! Z.to_nat (k - s) = Some p /\ h !! p = Some arr
        /\ arr !! Z.to_nat (i + j * n + l * (n * n)) = Some d
        /\ forall x,
             exists h',
               set_data (2 ^ k) h b v scale_in x = Some h'
               /\ data (2 ^ k) h' b v scale_in = Some (x, s)
               /\ forall v',
                    inside_block (2 ^ k) (coord b) v' ->
                    ~ in_cell (coord b) s i j l v' ->
                    data (2 ^ k) h' b v' scale_in
                    = data (2 ^ k) h b v' scale_in).
Proof.
  intros Hk. split.
  - intros b v sd Hwf Hin Hsd. apply t_data_stored; [lia | assumption ..].
  - intros h b v sd Hwf Hin Hsd. apply data_stored; assumption.
Qed.

End block_data_facts.

(** The accessors on two concrete blocks of side 2 at [(8, 0, 0)]. Asked
    for scale 1, the TSDF block at scale 0 returns the single entry of
    scale 1, the ninth of its array; asked for scale -1, the occupancy
    block at scale 0 returns the entry of the voxel in the array of scale
    0. *)
Lemma data_at_max_of_desired_and_current_witness :
  block.t_data 2 fixtures.tsdf_block (9, 1, 0)%Z 1
  = Some ({| tsdf.tsdf := 8 / 10; tsdf.weight := 1 |}, 1%Z)
  /\ block.data 2 fixtures.fine_heap fixtures.fine_block (9, 1, 0)%Z (-1)
     = Some (fixtures.voxel 1 2 true, 0%Z)
  /\ (exists h',
        block_access.set_data 2 fixtures.fine_heap fixtures.fine_block
          (9, 1, 0)%Z (-1) (fixtures.voxel 4 4 true) = Some h'
        /\ block.data 2 h' fixtures.fine_block (9, 1, 0)%Z (-1)
           = Some (fixtures.voxel 4 4 true, 0%Z)
        /\ block.data 2 h' fixtures.fine_block (8, 1, 0)%Z (-1)
           = block.data 2 fixtures.fine_heap fixtures.fine_block (8, 1, 0)%Z (-1)).
Proof.
  destruct (data_at_max_of_desired_and_current 1 ltac:(lia)) as [Ht Ho].
  assert (Hwf : block.wf 1 fixtures.fine_heap fixtures.fine_block).
  { split; [cbn; lia |]. split; [cbn; lia |]. split; [reflexivity |].
    intros s Hs. cbn in Hs.
    assert (Hcases : s = 0%Z \/ s = 1%Z) by lia.
    destruct Hcases as [-> | ->].
    - exists 2%positive. eexists. repeat split; reflexivity.
    - exists 1%positive. eexists. repeat split; reflexivity. }
  destruct (Ht fixtures.tsdf_block (9, 1, 0)%Z 1%Z)
    as (d & i & j & l & Hd & _); [split; [cbn; lia | reflexivity] | cbn; lia | lia |].
  destruct (Ho fixtures.fine_heap fixtures.fine_block (9, 1, 0)%Z (-1)%Z Hwf)
    as (d' & i' & j' & l' & p & arr & Hd' & Hcell & _ & _ & _ & _ & Hwrite);
    [cbn; lia | lia |].
  destruct (Hwrite (fixtures.voxel 4 4 true)) as (h' & Hset & Hget & Hframe).
  split; [reflexivity |]. split; [reflexivity |].
  exists h'. split; [exact Hset |]. split; [exact Hget |].
  apply Hframe; [cbn; lia |].
  cbn in Hcell. cbn. change (2 ^ ((-1) `max` 0))%Z with 1%Z in *. lia.
Defined.

(** ** Queries of unallocated data *)

Section unallocated_facts.
Import cxx occupancy block.
Local Open Scope Z_scope.

(** The finest scale for which the block holds data,
    [max_scale - (block_data_.size() - 1)]. *)
Lemma finer_than_allocated_true (k : Z) (b : BlockMultiRes) (scale : Z) :
  0 <= k < 31 -> block_data_ b <> [] ->
  0 <= scale < k - (Z.of_nat (length (block_data_ b)) - 1) ->
  finer_than_allocated (2 ^ k) b scale = true.
Proof.
  intros Hk Hne Hs. unfold finer_than_allocated, to_size_t.
  rewrite log2_pow2 by lia.
  assert (0 < Z.of_nat (length (block_data_ b))).
  { destruct (block_data_ b); [congruence | cbn; lia]. }
  rewrite (Z.mod_small k), (Z.mod_small (_ - 1)), (Z.mod_small scale),
    Z.mod_small by lia.
  apply Z.ltb_lt. lia.
Qed.

(** C9: data inspectors answer a query of an unallocated region with initial
    data and value-returning queries answer it with nothing. For an
    occupancy block of side [2^k], [maxData(voxel_coord, scale)] (and
    likewise [minData] and [data]) at a scale below the finest allocated
    scale [k - (block_data_.size() - 1)] returns the block's [init_data_];
    [visitor::getData] returns the default data when the containing block is
    not allocated, and [visitor::getField] then returns [std::nullopt]. *)
Theorem unallocated_queries_return_init_data (k : Z) (h : heap)
    (b : BlockMultiRes) (voxel_coord : Vector3i) (scale : Z) :
  0 <= k < 31 -> block_data_ b <> [] ->
  0 <= scale < k - (Z.of_nat (length (block_data_ b)) - 1) ->
  maxData (2 ^ k) h b voxel_coord scale = Some (init_data_ b)
  /\ minData (2 ^ k) h b voxel_coord scale = Some (init_data_ b)
  /\ data_at (2 ^ k) h b voxel_coord scale = Some (init_data_ b)
  /\ visitor.getData (2 ^ k) h None voxel_coord = Some default_data
  /\ visitor.getField (2 ^ k) h None voxel_coord = Some None.
Proof.
  intros Hk Hne Hs.
  pose proof (finer_than_allocated_true k b scale Hk Hne Hs) as Hfiner.
  unfold maxData, minData, data_at, data_at_scale. rewrite Hfiner.
  repeat split; reflexivity.
Qed.

End unallocated_facts.

(** The block that holds only its coarsest scale, queried at scale 0. *)
Lemma unallocated_queries_return_init_data_witness :
  block.maxData 2 fixtures.coarse_heap fixtures.coarse_block (9, 1, 0)%Z 0
  = Some (fixtures.voxel (-1) 3 true)
  /\ visitor.getData 2 fixtures.coarse_heap None (9, 1, 0)%Z
     = Some occupancy.default_data
  /\ visitor.getField 2 fixtures.coarse_heap None (9, 1, 0)%Z = Some None.
Proof.
  destruct (unallocated_queries_return_init_data 1 fixtures.coarse_heap
              fixtures.coarse_block (9, 1, 0)%Z 0%Z)
    as (Hmax & _ & _ & Hget & Hfield).
  - lia.
  - discriminate.
  - cbn. lia.
  - repeat split; assumption.
Defined.

(** ** The integration counter of the buffer *)

Section buffer_count_facts.
Import cxx occupancy block.
Local Open Scope Z_scope.

(** The test on the observed counts, as the inequality it decides. *)
Lemma buffer_covers_current_spec (b : BlockMultiRes) :
  buffer_covers_current b = true
  <-> ((9 # 10) * inject_Z (curr_observed_count_ b)
         * inject_Z (cu (1 ≪ current_scale b))
       <= inject_Z (buffer_observed_count_ b * cu (1 ≪ buffer_scale_ b)))%Q.
Proof. unfold buffer_covers_current. apply Qle_bool_iff. Qed.


End buffer_count_facts.


(** ** The double-buffered scale switch *)

Section switch_facts.
Import cxx occupancy block.
Local Open Scope Z_scope.

Lemma pop_back_Some {A} (v : list A) :
  v <> [] -> pop_back v = Some (take (length v - 1)%nat v).
Proof. destruct v; [congruence | reflexivity]. Qed.

Lemma at_take {A} (v : list A) (n : nat) (i : Z) :
  i < Z.of_nat n -> at_ (take n v) i = at_ v i.
Proof.
  intros Hi. unfold at_. destruct (Z.ltb_spec i 0); [reflexivity |].
  apply lookup_take_lt. lia.
Qed.

Lemma at_app_l {A} (v w : list A) (i : Z) :
  i < Z.of_nat (length v) -> at_ (v ++ w) i = at_ v i.
Proof.
  intros Hi. unfold at_. destruct (Z.ltb_spec i 0); [reflexivity |].
  apply lookup_app_l. lia.
Qed.

Lemma at_app_last {A} (v : list A) (x : A) :
  at_ (v ++ [x]) (Z.of_nat (length v)) = Some x.
Proof.
  unfold at_. destruct (Z.ltb_spec (Z.of_nat (length v)) 0); [lia |].
  rewrite Nat2Z.id. rewrite lookup_app_r by lia.
  rewrite Nat.sub_diag. reflexivity.
Qed.

Lemma set_at_Some {A} (v : list A) (i : Z) (x : A) :
  0 <= i < Z.of_nat (length v) -> set_at v i x = Some (<[Z.to_nat i := x]> v).
Proof.
  intros Hi. unfold set_at.
  destruct (Z.ltb_spec i 0); [lia |].
  destruct (Z.leb_spec (Z.of_nat (length v)) i); [lia |]. reflexivity.
Qed.

Lemma delete_array_live (h : heap) (p : ptr) :
  is_Some (h !! p) -> delete_array h p = Some (delete p h).
Proof. intros [a Ha]. unfold delete_array. rewrite Ha. reflexivity. Qed.

(** What the marking loop does to one voxel. *)
Lemma mark_observed_spec (d : Data) :
  occupancy (field (mark_observed d)) = occupancy (field d)
  /\ weight (field (mark_observed d)) = weight (field d)
  /\ ((0 < weight (field d))%Q -> observed (field (mark_observed d)) = true)
  /\ ((weight (field d) <= 0)%Q \/ observed (field d) = true ->
      mark_observed d = d).
Proof.
  unfold mark_observed, missed_observation.
  destruct (Qltb 0 (weight (field d))) eqn:Hw.
  - apply Qltb_lt in Hw. destruct (observed (field d)) eqn:Ho; cbn [andb negb].
    + rewrite Ho. repeat split; try reflexivity.
    + cbn. repeat split; try reflexivity.
      intros [Hle | Hobs]; [| discriminate].
      exfalso. apply (Qlt_not_le _ _ Hw Hle).
  - cbn [andb]. repeat split; try reflexivity.
    intros Hlt. apply Qltb_lt in Hlt. congruence.
Qed.

Lemma cu_shiftr_nonneg (k s : Z) : 0 <= k -> 0 <= cu (2 ^ k ≫ s).
Proof.
  intros Hk. assert (0 <= 2 ^ k ≫ s).
  { apply Z.shiftr_nonneg. apply Z.pow_nonneg. lia. }
  unfold cu. nia.
Qed.

(** [initBuffer] on a block without a buffer sets up what [switchData]
    expects: for the next finer scale a fresh array of that scale. *)
Lemma initBuffer_finer (k : Z) (h : heap) (b : BlockMultiRes) :
  0 <= k < 31 -> wf k h b ->
  buffer_data_ b = None -> buffer_scale_ b = -1 -> 0 < current_scale b ->
  exists h' b' buf arr,
    initBuffer (2 ^ k) h b (current_scale b - 1) = Some (h', b')
    /\ buffer_finer k h' b' buf arr /\ wf k h' b'
    /\ h !! buf = None /\ current_scale b' = current_scale b
    /\ block_data_ b' = block_data_ b
    /\ buffer_integr_count_ b' = 0 /\ buffer_observed_count_ b' = 0.
Proof.
  intros Hk Hwf Hnone Hscale Hcur.
  pose proof Hwf as (Hmin0 & Hcurk & Hlen & Hall).
  unfold initBuffer, resetBuffer. rewrite log2_pow2 by lia.
  destruct (Z.leb_spec 0 (current_scale b - 1)); [| lia].
  destruct (Z.leb_spec (current_scale b - 1) k); [| lia]. cbn [andb].
  rewrite Hscale, Hnone.
  destruct (Z.ltb_spec (-1) (current_scale b)); [| lia].
  cbn [mbind option_bind current_scale resetBufferCount set_buffer set_buffer_counts].
  destruct (Z.ltb_spec (current_scale b - 1) (current_scale b)); [| lia].
  unfold new_array. cbv beta iota zeta.
  set (buf := fresh (dom h)).
  set (arr := replicate (Z.to_nat (cu (2 ^ k ≫ (current_scale b - 1)))) default_data).
  assert (Hfresh : h !! buf = None) by (apply not_elem_of_dom, is_fresh).
  eexists _, _, buf, arr. split; [reflexivity |].
  split; [| split; [| repeat split; try reflexivity; exact Hfresh]].
  - unfold buffer_finer. cbn.
    split; [reflexivity |]. split; [lia |]. split; [reflexivity |].
    split; [apply lookup_insert_eq |].
    unfold arr. rewrite length_replicate, Z2Nat.id; [reflexivity |].
    apply cu_shiftr_nonneg. lia.
  - unfold wf. cbn. split; [exact Hmin0 |]. split; [exact Hcurk |].
    split; [exact Hlen |]. intros s Hs.
    destruct (Hall s Hs) as (p & a & Hp & Ha & Hla).
    exists p, a. split; [exact Hp |]. split; [| exact Hla].
    rewrite lookup_insert_ne; [exact Ha |]. intros E. congruence.
Qed.

(** For the next coarser scale the buffer is the mean array of that
    scale. *)
Lemma initBuffer_coarser (k : Z) (h : heap) (b : BlockMultiRes) :
  0 <= k < 31 -> wf k h b ->
  buffer_data_ b = None -> buffer_scale_ b = -1 -> current_scale b < k ->
  exists b' buf arr,
    initBuffer (2 ^ k) h b (current_scale b + 1) = Some (h, b')
    /\ buffer_scale_ b' = current_scale b + 1
    /\ buffer_data_ b' = Some buf
    /\ at_ (block_data_ b) (k - (current_scale b + 1)) = Some buf
    /\ h !! buf = Some arr
    /\ Z.of_nat (length arr) = cu (2 ^ k ≫ (current_scale b + 1))
    /\ current_scale b' = current_scale b
    /\ block_data_ b' = block_data_ b
    /\ buffer_integr_count_ b' = 0 /\ buffer_observed_count_ b' = 0.
Proof.
  intros Hk Hwf Hnone Hscale Hcur.
  pose proof Hwf as (Hmin0 & Hcurk & Hlen & Hall).
  destruct (Hall (current_scale b + 1) ltac:(lia)) as (buf & arr & Hbuf & Harr & Hla).
  unfold initBuffer, resetBuffer. rewrite log2_pow2 by lia.
  destruct (Z.leb_spec 0 (current_scale b + 1)); [| lia].
  destruct (Z.leb_spec (current_scale b + 1) k); [| lia]. cbn [andb].
  rewrite Hscale, Hnone.
  destruct (Z.ltb_spec (-1) (current_scale b)); [| lia].
  cbn [mbind option_bind current_scale block_data_ resetBufferCount set_buffer
       set_buffer_counts].
  destruct (Z.ltb_spec (current_scale b + 1) (current_scale b)); [lia |].
  rewrite Hbuf. cbn [mbind option_bind].
  eexists _, buf, arr. split; [reflexivity |]. cbn.
  repeat split; try reflexivity; assumption.
Qed.

Lemma switchData_test (b : BlockMultiRes) :
  (20 <=? buffer_integr_count_ b) && buffer_covers_current b = true
  <-> ratified b.
Proof.
  unfold ratified. rewrite andb_true_iff, Z.leb_le, buffer_covers_current_spec.
  reflexivity.
Qed.

Lemma switchData_finer (k : Z) (h : heap) (b : BlockMultiRes) (buf : ptr)
    (arr : list Data) :
  0 <= k < 31 -> wf k h b -> min_scale b = current_scale b ->
  length (block_min_data_ b) = length (block_data_ b) ->
  length (block_max_data_ b) = length (block_data_ b) ->
  buffer_finer k h b buf arr -> ratified b ->
  exists h' b', switchData (2 ^ k) h b = Some (h', b', true)
                /\ switched k h b buf arr h' b'.
Proof.
  intros Hk Hwf Hmin Hlmin Hlmax (Hbs & Hbs0 & Hbuf & Harr & Hlen) Hrat.
  pose proof Hwf as (Hmin0 & Hcur & Hbdlen & Hall).
  unfold switchData.
  rewrite (proj2 (switchData_test b) Hrat). rewrite Hbuf. cbn [mbind option_bind].
  destruct (Z.ltb_spec (buffer_scale_ b) (current_scale b)); [| lia].
  rewrite log2_pow2 by lia.
  set (n := cu (2 ^ k ≫ (buffer_scale_ b + 1))).
  unfold new_array.
  set (pmin := fresh (dom h)).
  set (h1 := <[pmin := replicate (Z.to_nat n) default_data]> h).
  set (pmax := fresh (dom h1)).
  set (h2 := <[pmax := replicate (Z.to_nat n) default_data]> h1).
  cbv beta iota zeta.
  rewrite !set_at_Some by (rewrite length_app; cbn [length]; lia).
  cbn [mbind option_bind].
  assert (Hpmin : pmin <> buf).
  { intros E. assert (Hin : buf ∈ dom h) by (apply elem_of_dom; eauto).
    rewrite <- E in Hin. exact (is_fresh (dom h) Hin). }
  assert (Hpmax : pmax <> buf).
  { intros E. assert (Hin : buf ∈ dom h1).
    { apply elem_of_dom. unfold h1. rewrite lookup_insert_ne by exact Hpmin. eauto. }
    rewrite <- E in Hin. exact (is_fresh (dom h1) Hin). }
  assert (Hh2 : h2 !! buf = Some arr).
  { unfold h2, h1. rewrite !lookup_insert_ne by assumption. exact Harr. }
  rewrite Hh2. cbn [mbind option_bind].
  destruct (Z.ltb_spec (Z.of_nat (length arr)) (cu (2 ^ k ≫ buffer_scale_ b))); [lia |].
  rewrite <- Hlen, Nat2Z.id, firstn_all, drop_all, app_nil_r.
  eexists _, _. split; [reflexivity |].
  assert (Hkeep : forall p a, h !! p = Some a ->
            exists a', <[buf := mark_observed <$> arr]> h2 !! p = Some a'
                       /\ length a' = length a).
  { intros p a Hp. destruct (decide (p = buf)) as [-> | Hne].
    - rewrite lookup_insert_eq. eexists. split; [reflexivity |].
      rewrite length_fmap. congruence.
    - rewrite lookup_insert_ne by congruence.
      assert (Hp1 : pmin <> p).
      { intros E. assert (Hin : p ∈ dom h) by (apply elem_of_dom; eauto).
        rewrite <- E in Hin. exact (is_fresh (dom h) Hin). }
      assert (Hp2 : pmax <> p).
      { intros E. assert (Hin : p ∈ dom h1).
        { apply elem_of_dom. unfold h1. rewrite lookup_insert_ne by exact Hp1. eauto. }
        rewrite <- E in Hin. exact (is_fresh (dom h1) Hin). }
      unfold h2, h1. rewrite !lookup_insert_ne by assumption. eauto. }
  assert (Hidx : k - buffer_scale_ b = Z.of_nat (length (block_data_ b))) by lia.
  unfold switched. cbn.
  repeat match goal with |- _ /\ _ => split end; try reflexivity; try lia.
  - rewrite Hidx. apply at_app_last.
  - apply lookup_insert_eq.
  - unfold wf. cbn. split; [lia |]. split; [lia |]. split.
    + rewrite length_app. cbn [length]. lia.
    + intros s Hs. destruct (Z.eq_dec s (buffer_scale_ b)) as [-> | Hne].
      * exists buf. eexists. split; [rewrite Hidx; apply at_app_last |].
        split; [apply lookup_insert_eq |]. rewrite length_fmap. exact Hlen.
      * destruct (Hall s ltac:(lia)) as (p & a & Hp & Ha & Hla).
        destruct (Hkeep p a Ha) as (a' & Ha' & Hla').
        exists p, a'. split; [| split; [exact Ha' | lia]].
        rewrite at_app_l by lia. exact Hp.
Qed.

Lemma switchData_coarser (k : Z) (h : heap) (b : BlockMultiRes) (buf : ptr)
    (arr : list Data) :
  0 <= k < 31 -> wf k h b -> min_scale b = current_scale b ->
  length (block_min_data_ b) = length (block_data_ b) ->
  length (block_max_data_ b) = length (block_data_ b) ->
  buffer_coarser k h b buf arr -> ratified b ->
  exists h' b', switchData (2 ^ k) h b = Some (h', b', true)
                /\ switched k h b buf arr h' b'.
Proof.
  intros Hk Hwf Hmin Hlmin Hlmax
    (Hbs & Hbsk & Hbuf & Harr & Hlen & Hbufat & Hnodup
     & pmin & pmax & Hpmin & Hpmax & Hmm & Hminbd & Hmaxbd & Hlmin_live & Hlmax_live)
    Hrat.
  pose proof Hwf as (Hmin0 & Hcur & Hbdlen & Hall).
  destruct (Hall (current_scale b) ltac:(lia)) as (pfin & afin & Hpfin & Hafin & _).
  unfold switchData.
  rewrite (proj2 (switchData_test b) Hrat). rewrite Hbuf. cbn [mbind option_bind].
  destruct (Z.ltb_spec (buffer_scale_ b) (current_scale b)); [lia |].
  unfold deleteUpTo. rewrite (scale_asserted k (buffer_scale_ b)) by lia.
  destruct (Z.eqb_spec (min_scale b) (-1)); [lia |].
  destruct (Z.leb_spec (buffer_scale_ b) (min_scale b)); [lia |].
  cbn [orb]. rewrite log2_pow2 by lia. rewrite Hmin, Hpfin.
  cbn [mbind option_bind].
  rewrite (delete_array_live h pfin) by eauto. cbn [mbind option_bind].
  assert (Hne : forall l : list ptr, length l = length (block_data_ b) -> l <> []).
  { intros l Hl E. subst l. cbn in Hl. lia. }
  rewrite !pop_back_Some by (apply Hne; congruence).
  cbn [mbind option_bind].
  replace (buffer_scale_ b - (current_scale b + 1)) with 0 by lia.
  change (seqZ (current_scale b + 1) 0) with (@nil Z).
  cbn [deleteUpTo_loop mbind option_bind].
  rewrite Hlmin, Hlmax.
  set (L := length (block_data_ b)) in *.
  rewrite !at_take by lia.
  rewrite Hpmin, Hpmax, Hbufat. cbn [mbind option_bind].
  assert (Hpfin_in : pfin ∈ block_data_ b).
  { apply at_Some in Hpfin. apply list_elem_of_lookup.
    exists (Z.to_nat (k - current_scale b)). tauto. }
  assert (Hbuf_in : buf ∈ block_data_ b).
  { apply at_Some in Hbufat. apply list_elem_of_lookup.
    exists (Z.to_nat (k - buffer_scale_ b)). tauto. }
  assert (Hpfin_buf : pfin <> buf).
  { intros E. subst pfin. apply at_Some in Hpfin, Hbufat.
    pose proof (NoDup_lookup _ _ _ _ Hnodup (proj2 Hpfin) (proj2 Hbufat)). lia. }
  assert (Hpmin_fin : pfin <> pmin) by (intros E; subst; tauto).
  assert (Hpmax_fin : pfin <> pmax) by (intros E; subst; tauto).
  assert (Hpmin_buf : pmin <> buf) by (intros E; subst; tauto).
  assert (Hpmax_buf : pmax <> buf) by (intros E; subst; tauto).
  rewrite (delete_array_live _ pmin)
    by (rewrite lookup_delete_ne by assumption; assumption).
  cbn [mbind option_bind].
  rewrite !pop_back_Some
    by (intros E; apply (f_equal length) in E; rewrite length_take in E;
        cbn in E; lia).
  cbn [mbind option_bind].
  rewrite (delete_array_live _ pmax)
    by (rewrite !lookup_delete_ne by congruence; assumption).
  cbn [mbind option_bind].
  rewrite !lookup_delete_ne by congruence. rewrite Harr. cbn [mbind option_bind].
  destruct (Z.ltb_spec (Z.of_nat (length arr)) (cu (2 ^ k ≫ buffer_scale_ b))); [lia |].
  rewrite <- Hlen, Nat2Z.id, firstn_all, drop_all, app_nil_r.
  eexists _, _. split; [reflexivity |].
  unfold switched. cbn.
  repeat match goal with |- _ /\ _ => split end; try reflexivity; try lia.
  - rewrite at_take by lia. exact Hbufat.
  - apply lookup_insert_eq.
  - unfold wf. cbn. split; [lia |]. split; [lia |]. split.
    + rewrite length_take. lia.
    + intros s Hs. destruct (Hall s ltac:(lia)) as (p & a & Hp & Ha & Hla).
      rewrite at_take by lia.
      destruct (decide (p = buf)) as [-> | Hpb].
      * exists buf. eexists. split; [exact Hp |].
        split; [apply lookup_insert_eq |].
        rewrite length_fmap. congruence.
      * exists p, a. split; [exact Hp |]. split; [| exact Hla].
        assert (Hp_in : p ∈ block_data_ b).
        { apply at_Some in Hp. apply list_elem_of_lookup.
          exists (Z.to_nat (k - s)). tauto. }
        assert (Hp_fin : pfin <> p).
        { intros E. subst pfin. apply at_Some in Hpfin, Hp.
          pose proof (NoDup_lookup _ _ _ _ Hnodup (proj2 Hpfin) (proj2 Hp)). lia. }
        rewrite lookup_insert_ne by congruence.
        rewrite !lookup_delete_ne by (intros E; subst; tauto).
        exact Ha.
Qed.

(** X30: [switchData] on a block whose buffer is one scale below or above
    the current scale, the case for which its finer branch is written: it
    returns true exactly if [buffer_integr_count_ >= 20] and
    [buffer_observed_count_ * (1 << buffer_scale_)^3
       >= 0.9 * curr_observed_count_ * (1 << current_scale)^3].
    It then makes the buffer the finest array of the pyramid (appended for a
    finer scale, the pyramid cut back to it for a coarser one), marks every
    buffer voxel with positive weight as observed, makes the buffer scale
    the current scale, takes over the buffer counters and clears the buffer.
    Otherwise it returns false and changes nothing. *)
Theorem switchData_ratifies_buffer (k : Z) (h : heap) (b : BlockMultiRes)
    (buf : ptr) (arr : list Data) :
  0 <= k < 31 -> switch_ready k h b buf arr ->
  exists h' b' r,
    switchData (2 ^ k) h b = Some (h', b', r)
    /\ (r = true <-> ratified b)
    /\ (ratified b -> switched k h b buf arr h' b')
    /\ (~ ratified b -> r = false /\ h' = h /\ b' = b).
Proof.
  intros Hk (Hwf & Hmin & Hlmin & Hlmax & Hbuffer).
  destruct ((20 <=? buffer_integr_count_ b) && buffer_covers_current b)
    eqn:Htest.
  - apply switchData_test in Htest.
    assert (Hswitch : exists h' b',
               switchData (2 ^ k) h b = Some (h', b', true)
               /\ switched k h b buf arr h' b').
    { destruct Hbuffer as [Hfiner | Hcoarser].
      - apply switchData_finer; assumption.
      - apply switchData_coarser; assumption. }
    destruct Hswitch as (h' & b' & Hrun & Hpost).
    exists h', b', true. split; [exact Hrun |].
    split; [tauto |]. split; [intros _; exact Hpost | tauto].
  - exists h, b, false. unfold switchData. rewrite Htest.
    split; [reflexivity |].
    assert (Hnot : ~ ratified b).
    { intros Hrat. apply switchData_test in Hrat. congruence. }
    split; [split; [discriminate | tauto] |].
    split; [tauto | intros _; repeat split; reflexivity].
Qed.

End switch_facts.

(** The switch to the finer scale of the block that buffers scale 0 and the
    switch to the coarser scale of the block that buffers scale 1; one
    integration earlier the first block is left alone. *)
Lemma switchData_ratifies_buffer_witness :
  (exists h' b',
      block.switchData 2 fixtures.coarse_heap fixtures.coarse_block
      = Some (h', b', true)
      /\ block.current_scale b' = 0%Z
      /\ block.block_data_ b' = [1%positive; 2%positive]
      /\ block.curr_observed_count_ b' = 10%Z
      /\ (occupancy.observed ∘ occupancy.field <$> h' !!! 2%positive)
         = replicate 8 true)
  /\ (exists h' b',
      block.switchData 2 fixtures.fine_heap fixtures.fine_block
      = Some (h', b', true)
      /\ block.current_scale b' = 1%Z
      /\ block.block_data_ b' = [1%positive]
      /\ h' !! 1%positive = Some [fixtures.voxel (-1) 3 true])
  /\ block.switchData 2 fixtures.coarse_heap fixtures.coarse_block_early
     = Some (fixtures.coarse_heap, fixtures.coarse_block_early, false).
Proof.
  assert (Hk : (0 <= 1 < 31)%Z) by lia.
  split; [| split].
  - destruct (switchData_ratifies_buffer 1 fixtures.coarse_heap
                fixtures.coarse_block 2%positive
                (fixtures.coarse_heap !!! 2%positive) Hk)
      as (h' & b' & r & Hrun & Hr & Hpost & _).
    + split; [| split; [reflexivity | split; [reflexivity | split; [reflexivity |]]]].
      * split; [cbn; lia |]. split; [cbn; lia |]. split; [reflexivity |].
        intros s Hs. cbn in Hs. assert (s = 1%Z) as -> by lia.
        exists 1%positive. eexists. repeat split; reflexivity.
      * left. repeat split; try reflexivity; cbn; lia.
    + assert (Hrat : block.ratified fixtures.coarse_block).
      { split; [cbn; lia | vm_compute; discriminate]. }
      rewrite (proj2 Hr Hrat) in Hrun.
      destruct (Hpost Hrat)
        as (Hcur & _ & _ & Hfine & _ & _ & Hbuf & _ & _ & Hcount & _).
      exists h', b'. split; [exact Hrun |]. split; [exact Hcur |].
      split; [apply Hfine; cbn; lia |]. split; [rewrite Hcount; reflexivity |].
      rewrite (lookup_total_correct _ _ _ Hbuf). reflexivity.
  - destruct (switchData_ratifies_buffer 1 fixtures.fine_heap
                fixtures.fine_block 1%positive
                (fixtures.fine_heap !!! 1%positive) Hk)
      as (h' & b' & r & Hrun & Hr & Hpost & _).
    + split; [| split; [reflexivity | split; [reflexivity | split; [reflexivity |]]]].
      * split; [cbn; lia |]. split; [cbn; lia |]. split; [reflexivity |].
        intros s Hs. cbn in Hs.
        assert (Hcases : s = 0%Z \/ s = 1%Z) by lia.
        destruct Hcases as [-> | ->].
        -- exists 2%positive. eexists. repeat split; reflexivity.
        -- exists 1%positive. eexists. repeat split; reflexivity.
      * right. split; [reflexivity |]. split; [cbn; lia |].
        split; [reflexivity |]. split; [reflexivity |].
        split; [reflexivity |]. split; [reflexivity |].
        split; [refine (bool_decide_unpack _ _); vm_compute; exact I |].
        exists 3%positive, 4%positive.
        split; [reflexivity |]. split; [reflexivity |].
        split; [discriminate |].
        split; [refine (bool_decide_unpack _ _); vm_compute; exact I |].
        split; [refine (bool_decide_unpack _ _); vm_compute; exact I |].
        split; eexists; reflexivity.
    + assert (Hrat : block.ratified fixtures.fine_block).
      { split; [cbn; lia | vm_compute; discriminate]. }
      rewrite (proj2 Hr Hrat) in Hrun.
      destruct (Hpost Hrat)
        as (Hcur & _ & _ & _ & Hcoarse & _ & Hbuf & _).
      exists h', b'. split; [exact Hrun |]. split; [exact Hcur |].
      split; [apply Hcoarse; cbn; lia | exact Hbuf].
  - destruct (switchData_ratifies_buffer 1 fixtures.coarse_heap
                fixtures.coarse_block_early 2%positive
                (fixtures.coarse_heap !!! 2%positive) Hk)
      as (h' & b' & r & Hrun & _ & _ & Hnot).
    + split; [| split; [reflexivity | split; [reflexivity | split; [reflexivity |]]]].
      * split; [cbn; lia |]. split; [cbn; lia |]. split; [reflexivity |].
        intros s Hs. cbn in Hs. assert (s = 1%Z) as -> by lia.
        exists 1%positive. eexists. repeat split; reflexivity.
      * left. repeat split; try reflexivity; cbn; lia.
    + destruct Hnot as (-> & -> & ->); [| exact Hrun].
      intros [Hcount _]. cbn in Hcount. lia.
Defined.

(** C2 on a block whose buffer is more than one scale finer than its
    current scale, as [initBuffer] opens it for any scale and as
    [updateBlock] and [freeBlock] ask for when the free-space integration
    scale lies that far below: for this free block of side 8 at scale 3
    [freeBlock] recommends the free-space scale, here 0 or 1. After twenty
    integrations that observe every voxel of the buffer, the buffer passes
    the test of [switchData]. With the buffer at scale 0 the
    finer branch indexes the two-element [block_min_data_] at
    [max_scale - (buffer_scale_ + 1) = 2], out of bounds. With the buffer
    at scale 1 the index hits the entry just appended, the call returns
    true, and the pyramid is left with two arrays for the scales 3 to 1:
    the buffer sits where scale 2 belongs and the accessor of the new
    current scale reads past the end of [block_data_]. *)
Theorem switchData_skips_scales :
  (exists h0 b0 buf,
      scale_selection.freeBlock_recommended_scale 3 3 (-15) (-5) 0 3 0 = 0%Z
      /\ block.initBuffer 8 fixtures.top_heap fixtures.top_block 0
         = Some (h0, b0)
      /\ block.buffer_data_ b0 = Some buf /\ block.buffer_scale_ b0 = 0%Z
      /\ Nat.iter 512 (fun b => block.incrBufferObservedCount b true)
           (Nat.iter 20 (fun b => block.incrBufferIntegrCount b true) b0)
         = block.set_buffer_counts b0 20 512
      /\ block.ratified (block.set_buffer_counts b0 20 512)
      /\ length (block.block_min_data_ b0 ++ [buf]) = 2%nat
      /\ (block.max_scale 8 - (block.buffer_scale_ b0 + 1) = 2)%Z
      /\ block.switchData 8 h0 (block.set_buffer_counts b0 20 512) = None)
  /\ (exists h1 b1 buf h' b',
      scale_selection.freeBlock_recommended_scale 3 3 (-15) (-5) 1 3 0 = 1%Z
      /\ block.initBuffer 8 fixtures.top_heap fixtures.top_block 1
         = Some (h1, b1)
      /\ block.buffer_data_ b1 = Some buf /\ block.buffer_scale_ b1 = 1%Z
      /\ Nat.iter 64 (fun b => block.incrBufferObservedCount b true)
           (Nat.iter 20 (fun b => block.incrBufferIntegrCount b true) b1)
         = block.set_buffer_counts b1 20 64
      /\ block.ratified (block.set_buffer_counts b1 20 64)
      /\ block.switchData 8 h1 (block.set_buffer_counts b1 20 64)
         = Some (h', b', true)
      /\ block.current_scale b' = 1%Z
      /\ block.block_data_ b' = [1%positive; buf]
      /\ block.data 8 h' b' (0, 0, 0)%Z 1 = None
      /\ ~ block.wf 3 h' b').
Proof.
  split.
  - eexists _, _, _. split; [reflexivity |].
    split; [vm_compute; reflexivity |].
    split; [reflexivity |]. split; [reflexivity |].
    split; [vm_compute; reflexivity |].
    split; [split; [cbn; lia | vm_compute; discriminate] |].
    split; [reflexivity |]. split; [reflexivity |].
    vm_compute. reflexivity.
  - eexists _, _, _, _, _. split; [reflexivity |].
    split; [vm_compute; reflexivity |].
    split; [reflexivity |]. split; [reflexivity |].
    split; [vm_compute; reflexivity |].
    split; [split; [cbn; lia | vm_compute; discriminate] |].
    split; [vm_compute; reflexivity |].
    split; [reflexivity |]. split; [reflexivity |].
    split; [vm_compute; reflexivity |].
    intros (_ & _ & Hlen & _). cbn in Hlen. lia.
Qed.
(** ** Construction of the octree *)

Section octree_ctor_facts.
Import cxx octree.
Local Open Scope Z_scope.







End octree_ctor_facts.

(** ** Allocation of a child octant *)

Section allocate_facts.
Import cxx octree.
Local Open Scope Z_scope.

Variable BlockSize : Z.

Lemma getChild_in_range (o : Octant) (child_idx : Z) :
  length (children o) = 8%nat -> 0 <= child_idx < 8 ->
  exists c, getChild o child_idx = Some c.
Proof.
  intros Hlen Hidx. apply (at_in_range (children o) child_idx). lia.
Qed.

Lemma allocate_present (t : Octree) (parent_ptr : ptr) (parent : Octant)
    (child_idx : Z) (c : ptr) :
  memory_pool_ t !! parent_ptr = Some parent -> is_block parent = false ->
  getChild parent child_idx = Some (Some c) ->
  allocate BlockSize t parent_ptr child_idx = Some (c, t)
  /\ allocate_flag BlockSize t parent_ptr child_idx = Some (false, c, t).
Proof.
  intros Hp Hb Hc. unfold allocate, allocate_flag.
  rewrite Hp. cbn [mbind option_bind]. rewrite Hb, Hc. split; reflexivity.
Qed.

Lemma allocate_missing_sets_child (t : Octree) (parent_ptr : ptr)
    (parent : Octant) (child_idx : Z) :
  memory_pool_ t !! parent_ptr = Some parent -> is_block parent = false ->
  length (children parent) = 8%nat -> 0 <= child_idx < 8 ->
  exists c t' parent',
    allocate_missing BlockSize t parent_ptr parent child_idx = Some (c, t')
    /\ memory_pool_ t !! c = None
    /\ memory_pool_ t' !! parent_ptr = Some parent'
    /\ is_block parent' = false
    /\ getChild parent' child_idx = Some (Some c)
    /\ base.size (memory_pool_ t') = S (base.size (memory_pool_ t)).
Proof.
  intros Hp Hb Hlen Hidx. unfold allocate_missing.
  set (alloc := if size parent =? BlockSize ≪ 1
                then allocateBlock BlockSize (memory_pool_ t) parent_ptr parent child_idx
                else allocateNode (memory_pool_ t) parent_ptr parent child_idx).
  assert (Halloc : exists o,
             alloc = (fresh (dom (memory_pool_ t)),
                      <[fresh (dom (memory_pool_ t)) := o]> (memory_pool_ t))).
  { unfold alloc, allocateBlock, allocateNode, pool_new.
    destruct (size parent =? BlockSize ≪ 1); eexists; reflexivity. }
  destruct Halloc as (o & ->).
  set (c := fresh (dom (memory_pool_ t))).
  assert (Hfresh : memory_pool_ t !! c = None).
  { apply not_elem_of_dom. apply is_fresh. }
  assert (Hne : c <> parent_ptr) by congruence.
  unfold setChild. rewrite set_at_Some by lia.
  cbn [fmap option_fmap option_map mbind option_bind].
  eexists c, _, _. split; [reflexivity |]. cbn [memory_pool_].
  split; [exact Hfresh |]. split; [apply lookup_insert_eq |].
  split; [exact Hb |]. split.
  - unfold getChild, at_. cbn [children set_children].
    destruct (Z.ltb_spec child_idx 0); [lia |].
    apply list_lookup_insert_eq. lia.
  - rewrite map_size_insert_Some
      by (rewrite lookup_insert_ne by exact Hne; rewrite Hp; eauto).
    apply map_size_insert_None. exact Hfresh.
Qed.

(** C6: allocating a child that is already allocated returns the existing
    pointer and leaves the octree as it is, so a repeated call for the same
    parent and child index returns the pointer of the first call, finds the
    flag overload reporting "not newly allocated", and adds no octant: one
    call adds at most one octant and every further call none. *)
Theorem allocate_idempotent (t : Octree) (parent_ptr : ptr) (parent : Octant)
    (child_idx : Z) :
  memory_pool_ t !! parent_ptr = Some parent -> is_block parent = false ->
  length (children parent) = 8%nat -> 0 <= child_idx < 8 ->
  exists c t',
    allocate BlockSize t parent_ptr child_idx = Some (c, t')
    /\ (forall c0, getChild parent child_idx = Some (Some c0) ->
          c = c0 /\ t' = t
          /\ allocate_flag BlockSize t parent_ptr child_idx = Some (false, c0, t))
    /\ allocate BlockSize t' parent_ptr child_idx = Some (c, t')
    /\ allocate_flag BlockSize t' parent_ptr child_idx = Some (false, c, t')
    /\ (base.size (memory_pool_ t') <= S (base.size (memory_pool_ t)))%nat.
Proof.
  intros Hp Hb Hlen Hidx.
  destruct (getChild_in_range parent child_idx Hlen Hidx) as [[c0 |] Hc].
  - destruct (allocate_present t parent_ptr parent child_idx c0 Hp Hb Hc)
      as [Ha Hf].
    exists c0, t. split; [exact Ha |]. split.
    + intros c1 Hc1. rewrite Hc in Hc1. injection Hc1 as <-. auto.
    + split; [exact Ha |]. split; [exact Hf | lia].
  - destruct (allocate_missing_sets_child t parent_ptr parent child_idx
                Hp Hb Hlen Hidx)
      as (c & t' & parent' & Hmiss & _ & Hp' & Hb' & Hc' & Hsize).
    exists c, t'. split.
    + unfold allocate. rewrite Hp. cbn [mbind option_bind].
      rewrite Hb, Hc. cbn [mbind option_bind]. exact Hmiss.
    + split; [intros c1 Hc1; congruence |].
      destruct (allocate_present t' parent_ptr parent' child_idx c Hp' Hb' Hc')
        as [Ha Hf].
      split; [exact Ha |]. split; [exact Hf | lia].
Qed.

End allocate_facts.

(** Child 3 of the root of an empty octree of side 32, allocated twice. *)
Lemma allocate_idempotent_witness :
  exists c t',
    octree.allocate 8 fixtures.empty_tree 1%positive 3 = Some (c, t')
    /\ octree.allocate 8 t' 1%positive 3 = Some (c, t')
    /\ octree.allocate_flag 8 t' 1%positive 3 = Some (false, c, t')
    /\ (base.size (octree.memory_pool_ t') <= 2)%nat.
Proof.
  destruct (allocate_idempotent 8 fixtures.empty_tree 1%positive
              (fixtures.node None (0, 0, 0)%Z 32 octree.no_children) 3)
    as (c & t' & Hfirst & _ & Hagain & Hflag & Hsize).
  - reflexivity.
  - reflexivity.
  - reflexivity.
  - lia.
  - exists c, t'. repeat split; assumption.
Defined.

(** ** Propagation into a parent node *)

Section propagate_facts.
Import cxx occupancy octree propagator.
Local Open Scope Z_scope.

Lemma visit_children_live (p : pool) (cs : list (option ptr)) (acc : Aggregate) :
  visit_children p cs acc = live_children p cs ≫= λ kids, visit_kids kids acc.
Proof.
  revert acc. induction cs as [| [c |] cs IH]; intros acc; cbn.
  - reflexivity.
  - destruct (p !! c) as [child |]; cbn; [| reflexivity].
    destruct (visit_child acc child) as [acc' |] eqn:Hv; cbn.
    + rewrite IH. destruct (live_children p cs); cbn; [| reflexivity].
      rewrite Hv. reflexivity.
    + destruct (live_children p cs); cbn; [| reflexivity].
      rewrite Hv. reflexivity.
  - apply IH.
Qed.

Lemma live_children_length (p : pool) (cs : list (option ptr)) (kids : list Octant) :
  live_children p cs = Some kids ->
  (length kids <= length cs)%nat
  /\ (length kids = length cs <-> Forall is_Some cs).
Proof.
  revert kids. induction cs as [| [c |] cs IH]; intros kids; cbn.
  - intros [= <-]. cbn. split; [lia |]. split; [constructor | reflexivity].
  - destruct (p !! c) as [child |]; cbn; [| discriminate].
    destruct (live_children p cs) as [kids' |]; cbn; [| discriminate].
    intros [= <-]. destruct (IH kids' eq_refl) as [Hle Hiff]. cbn.
    split; [lia |]. split.
    + intros E. constructor; [eauto |]. apply Hiff. lia.
    + intros HF. inversion HF; subst. f_equal. apply Hiff. assumption.
  - intros Hk. destruct (IH kids Hk) as [Hle Hiff]. split; [lia |]. split.
    + intros E. lia.
    + intros HF. inversion HF as [| ? ? Hnone]; subst. destruct Hnone as [? [=]].
Qed.

(** The assertion of the loop body: the body goes through exactly for a
    child whose min and max data agree on [observed]. *)
Lemma visit_child_consistent (acc : Aggregate) (child : Octant) :
  is_Some (visit_child acc child) <-> child_consistent child.
Proof.
  unfold visit_child, child_consistent.
  destruct (observed (field (min_data child))),
    (observed (field (max_data child))); cbn; split;
    try reflexivity; try discriminate; eauto; intros [? [=]].
Qed.

Lemma visit_kids_consistent (kids : list Octant) (acc : Aggregate) :
  is_Some (visit_kids kids acc) <-> Forall child_consistent kids.
Proof.
  revert acc. induction kids as [| child kids IH]; intros acc; cbn.
  - split; [constructor | eauto].
  - rewrite Forall_cons, <- (visit_child_consistent acc child).
    destruct (visit_child acc child) as [acc' |]; cbn.
    + rewrite IH. split; [intros H; split; [eauto | exact H] | intros [_ H]; exact H].
    + split; [intros [? [=]] | intros [[? [=]] _]].
Qed.

Lemma observed_count_visit_child (acc acc' : Aggregate) (child : Octant) :
  visit_child acc child = Some acc' ->
  observed_count acc'
  = observed_count acc + (if observed (field (max_data child)) then 1 else 0).
Proof.
  unfold visit_child.
  repeat match goal with |- context [if ?b then _ else _] => destruct b end;
    intros [= <-]; cbn; lia.
Qed.

Lemma observed_count_visit_kids (kids : list Octant) (acc acc' : Aggregate) :
  visit_kids kids acc = Some acc' ->
  observed_count acc'
  = observed_count acc + Z.of_nat (length (filter child_observed kids)).
Proof.
  revert acc. induction kids as [| child kids IH]; intros acc; cbn [visit_kids].
  - intros [= <-]. cbn. lia.
  - destruct (visit_child acc child) as [acc1 |] eqn:H1; cbn [mbind option_bind];
      [| discriminate].
    intros Hrest. rewrite (IH _ Hrest), (observed_count_visit_child _ _ _ H1),
      filter_cons.
    destruct (decide (child_observed child)) as [E | E];
      unfold child_observed in E.
    + rewrite E. cbn [length]. lia.
    + destruct (observed (field (max_data child))); [congruence | lia].
Qed.

Lemma filter_all {A} (P : A -> Prop) `{!forall x, Decision (P x)} (l : list A) :
  length (filter P l) = length l <-> Forall P l.
Proof.
  induction l as [| x l IH].
  - split; [constructor | reflexivity].
  - rewrite filter_cons. pose proof (length_filter P l) as Hle.
    destruct (decide (P x)) as [HP | HP]; cbn [length].
    + split.
      * intros E. constructor; [exact HP | apply IH; lia].
      * intros HF. inversion HF; subst. f_equal. apply IH. assumption.
    + split; [lia |]. intros HF. inversion HF; subst. contradiction.
Qed.

Lemma max_part_visit_child (acc acc' : Aggregate) (child : Octant) :
  visit_child acc child = Some acc' ->
  let taken := Qltb 0 (weight (field (max_data child)))
               && Qltb (max_occupancy acc) (get_field (max_data child)) in
  max_data_count acc'
  = (if taken then max_data_count acc + 1 else max_data_count acc)
  /\ max_occupancy acc'
     = (if taken then get_field (max_data child) else max_occupancy acc).
Proof.
  unfold visit_child.
  destruct (Qltb 0 (weight (field (min_data child)))
            && Qltb (get_field (min_data child)) (min_occupancy acc));
    cbn [max_occupancy max_data_count];
    destruct (Qltb 0 (weight (field (max_data child)))
              && Qltb _ (get_field (max_data child)));
    destruct (negb _); try discriminate;
    destruct (observed (field (max_data child))); intros [= <-]; cbn;
    split; reflexivity.
Qed.

Lemma max_count_visit_child (acc acc' : Aggregate) (child : Octant) :
  max_invariant acc -> visit_child acc child = Some acc' ->
  max_invariant acc'
  /\ (0 < max_data_count acc' <-> 0 < max_data_count acc \/ child_weighted child).
Proof.
  intros (Hnn & Hlow & Hzero) Hrun.
  destruct (max_part_visit_child acc acc' child Hrun) as [Hc Ho].
  cbv zeta in Hc, Ho.
  unfold max_invariant, child_weighted. rewrite Hc, Ho.
  destruct (Qltb 0 (weight (field (max_data child)))) eqn:Hw; cbn [andb].
  - apply Qltb_lt in Hw.
    destruct (Qltb (max_occupancy acc) (get_field (max_data child))) eqn:Hg.
    + apply Qltb_lt in Hg. repeat split; try lia.
      * lra.
      * intros _. right. split; [exact Hw | lra].
    + apply Qltb_ge in Hg. repeat split; try assumption.
      * intros H. left. exact H.
      * intros [H | [_ H]]; [exact H |].
        destruct (Z.eq_dec (max_data_count acc) 0) as [E | E]; [| lia].
        specialize (Hzero E). lra.
  - repeat split; try assumption.
    + intros H. left. exact H.
    + intros [H | [H _]]; [exact H |].
      apply Qltb_lt in H. congruence.
Qed.

Lemma max_count_visit_kids (kids : list Octant) (acc acc' : Aggregate) :
  max_invariant acc -> visit_kids kids acc = Some acc' ->
  (0 < max_data_count acc'
   <-> 0 < max_data_count acc \/ Exists child_weighted kids).
Proof.
  revert acc. induction kids as [| child kids IH]; intros acc Hinv; cbn.
  - intros [= <-]. rewrite Exists_nil. tauto.
  - destruct (visit_child acc child) as [acc1 |] eqn:H1; cbn; [| discriminate].
    intros Hrest.
    destruct (max_count_visit_child acc acc1 child Hinv H1) as [Hinv' Hstep].
    rewrite (IH _ Hinv' Hrest), Hstep, Exists_cons. tauto.
Qed.

Lemma max_invariant_initial : max_invariant initial.
Proof.
  unfold max_invariant, initial. cbn [max_data_count max_occupancy].
  split; [lia |]. split; [apply Qle_refl | intros _; reflexivity].
Qed.

(** C5, as the code implements it: [propagate_to_parent_node] asserts that
    the min and max data of every child that is not null agree on
    [observed]. On a node whose children pass the assertion it returns, and
    the [observed] flag of the node's max data (the data it returns) is set
    exactly if it was set before, or all eight children are allocated and
    observed and at least one of them carries weight. A null child counts as
    not observed, and the flag is never reset. On a node with a child that
    fails the assertion the call is aborted. *)
Theorem propagate_to_parent_node_observed (p : pool) (n : ptr) (node : Octant)
    (ts : Z) (kids : list Octant) :
  p !! n = Some node -> is_block node = false ->
  length (children node) = 8%nat ->
  live_children p (children node) = Some kids ->
  (Forall child_consistent kids ->
   exists p' d,
     propagate_to_parent_node p n ts = Some (p', d)
     /\ max_data <$> p' !! n = Some d
     /\ (observed (field d) = true
         <-> observed (field (max_data node)) = true
             \/ (length kids = 8%nat /\ Forall child_observed kids
                 /\ Exists child_weighted kids))
     /\ (length kids = 8%nat <-> Forall is_Some (children node)))
  /\ (~ Forall child_consistent kids -> propagate_to_parent_node p n ts = None).
Proof.
  intros Hn Hb Hlen Hkids.
  destruct (live_children_length p (children node) kids Hkids) as [Hle Hall].
  rewrite Hlen in Hle, Hall.
  unfold propagate_to_parent_node. rewrite Hn. cbn [mbind option_bind].
  rewrite Hb, Hlen. cbn [orb negb Nat.eqb].
  rewrite visit_children_live, Hkids. cbn [mbind option_bind].
  pose proof (visit_kids_consistent kids initial) as Hcons.
  destruct (visit_kids kids initial) as [acc |] eqn:Hacc; cbn [mbind option_bind].
  - split; [| intros Hnot; exfalso; apply Hnot; apply Hcons; eauto].
    intros _. eexists _, _. split; [reflexivity |].
    split; [rewrite lookup_insert_eq; reflexivity |].
    split; [| exact Hall].
    unfold write_back.
    rewrite (observed_count_visit_kids kids initial acc Hacc).
    cbn [observed_count initial].
    pose proof (max_count_visit_kids kids initial acc max_invariant_initial Hacc)
      as Hcount.
    cbn [max_data_count initial] in Hcount.
    pose proof (length_filter child_observed kids) as Hfl.
    pose proof (filter_all child_observed kids) as Hfa.
    destruct (Z.ltb_spec 0 (max_data_count acc)) as [Hpos | Hzero].
    + cbn [field observed].
      destruct (Z.eqb_spec (0 + Z.of_nat (length (filter child_observed kids))) 8)
        as [E | E].
      * split; [| reflexivity]. intros _. right.
        assert (El : length (filter child_observed kids) = length kids) by lia.
        split; [lia |]. split; [apply Hfa; exact El |]. apply Hcount in Hpos.
        destruct Hpos; [lia | assumption].
      * split; [tauto |]. intros [H | (Hl & HF & _)]; [exact H |].
        apply Hfa in HF. lia.
    + split; [tauto |]. intros [H | (_ & _ & HE)]; [exact H |].
      assert (0 < max_data_count acc); [| lia].
      apply Hcount. right. exact HE.
  - split; [| reflexivity].
    intros HF. apply Hcons in HF. destruct HF as [? [=]].
Qed.

End propagate_facts.

(** The root of side 16 with eight observed blocks becomes observed. *)
Lemma propagate_to_parent_node_observed_witness :
  exists p' d,
    propagator.propagate_to_parent_node fixtures.free_pool 1%positive 7
    = Some (p', d)
    /\ occupancy.observed (occupancy.field d) = true.
Proof.
  destruct (propagate_to_parent_node_observed fixtures.free_pool 1%positive
              fixtures.free_root 7
              (snd <$> fixtures.free_blocks 1 2 (0, 0, 0)%Z))
    as [Hgood _]; try reflexivity.
  destruct Hgood as (p' & d & Hrun & _ & Hflag & _).
  { repeat constructor. }
  exists p', d. split; [exact Hrun |]. apply Hflag. right.
  split; [reflexivity |]. split.
  - repeat constructor.
  - apply Exists_cons_hd. split; reflexivity.
Defined.

(** C5 as stated fails: the only child of this root is observed, so every
    child that is not null is observed, and the root stays unobserved. *)
Lemma propagate_to_parent_node_lone_child :
  exists p' d kids,
    propagator.propagate_to_parent_node fixtures.lone_child_pool 1%positive 7
    = Some (p', d)
    /\ propagator.live_children fixtures.lone_child_pool
         (octree.children fixtures.lone_child_root) = Some kids
    /\ Forall propagator.child_observed kids
    /\ occupancy.observed (occupancy.field d) = false
    /\ ~ (occupancy.observed (occupancy.field d) = true
          <-> Forall propagator.child_observed kids).
Proof.
  eexists _, _, _. split; [reflexivity |]. split; [reflexivity |].
  assert (HF : Forall propagator.child_observed
                 [fixtures.free_block 1 (0, 0, 0)%Z]).
  { repeat constructor. }
  split; [exact HF |]. split; [reflexivity |].
  intros [_ H]. specialize (H HF). discriminate H.
Qed.

(** ** Pruning during the propagation to the root *)

Section prune_facts.
Import cxx occupancy octree propagator updater.
Local Open Scope Z_scope.

Lemma descendants_loop_frame (rec : pool -> ptr -> option (list ptr))
    (p p' : pool) (cs : list (option ptr)) (ds : list ptr) :
  reads_only_result rec ->
  descendants_loop rec p cs = Some ds ->
  (forall x, x ∈ ds -> shape <$> p' !! x = shape <$> p !! x) ->
  descendants_loop rec p' cs = Some ds.
Proof.
  intros Hrec. revert ds. induction cs as [| [c |] cs IH]; intros ds; cbn.
  - auto.
  - destruct (p !! c) as [child |] eqn:Hc; cbn; [| discriminate].
    destruct (if is_block child then Some [] else rec p c) as [below |] eqn:Hb;
      cbn; [| discriminate].
    destruct (descendants_loop rec p cs) as [rest |] eqn:Hr; cbn; [| discriminate].
    intros [= <-] Hagree.
    pose proof (Hagree c ltac:(apply elem_of_app; right; left)) as Hshape.
    rewrite Hc in Hshape.
    destruct (p' !! c) as [child' |]; cbn in Hshape; [| discriminate].
    injection Hshape as Hblock _. cbn. rewrite Hblock.
    assert (Hb' : (if is_block child then Some [] else rec p' c) = Some below).
    { destruct (is_block child); [exact Hb |].
      apply (Hrec p p' c below Hb). intros x [-> | Hx].
      - apply Hagree. apply elem_of_app. right. left.
      - apply Hagree. apply elem_of_app. left. exact Hx. }
    rewrite Hb'. cbn.
    rewrite (IH rest eq_refl); [reflexivity |].
    intros x Hx. apply Hagree. apply elem_of_app. right. right. exact Hx.
  - apply IH.
Qed.

Lemma descendants_frame (fuel : nat) : reads_only_result (descendants fuel).
Proof.
  induction fuel as [| fuel IH]; intros p p' n ds; cbn; [discriminate |].
  intros Hds Hagree. pose proof (Hagree n ltac:(left; reflexivity)) as Hshape.
  destruct (p !! n) as [o |]; cbn in *; [| discriminate].
  destruct (p' !! n) as [o' |]; cbn in Hshape; [| discriminate].
  injection Hshape as Hblock Hchildren. cbn. rewrite Hblock, Hchildren.
  destruct (is_block o || negb (length (children o) =? 8)%nat); [discriminate |].
  apply (descendants_loop_frame _ p p' _ _ IH Hds).
  intros x Hx. apply Hagree. right. exact Hx.
Qed.

Lemma deleteChildren_loop_spec (desc : pool -> ptr -> option (list ptr))
    (rec : pool -> ptr -> option pool) (cs : list (option ptr)) (p : pool)
    (ds : list ptr) :
  reads_only_result desc -> deletes_subtree desc rec ->
  descendants_loop desc p cs = Some ds -> NoDup ds ->
  exists p',
    deleteChildren_loop rec cs p = Some p'
    /\ forall x, p' !! x = if decide (x ∈ ds) then None else p !! x.
Proof.
  intros Hframe Hrec. revert p ds.
  induction cs as [| [c |] cs IH]; intros p ds; cbn.
  - intros [= <-] _. exists p. split; [reflexivity |].
    intros x. destruct (decide (x ∈ [])) as [Hx | _]; [| reflexivity].
    inversion Hx.
  - destruct (p !! c) as [child |] eqn:Hc; cbn; [| discriminate].
    destruct (if is_block child then Some [] else desc p c) as [below |] eqn:Hb;
      cbn; [| discriminate].
    destruct (descendants_loop desc p cs) as [rest |] eqn:Hr; cbn; [| discriminate].
    intros [= <-] Hnodup.
    apply NoDup_app in Hnodup as (Hnd_below & Hdisj & Hnd_rest).
    apply NoDup_cons in Hnd_rest as (Hc_rest & Hnd_rest).
    assert (Hc_below : c ∉ below).
    { intros Hin. apply (Hdisj c Hin). left. }
    (* the recursive call *)
    assert (Hp1 : exists p1,
               (if is_block child then Some p else rec p c) = Some p1
               /\ is_Some (p1 !! c)
               /\ forall x, x <> c ->
                    p1 !! x = if decide (x ∈ below) then None else p !! x).
    { destruct (is_block child).
      - injection Hb as <-. exists p. split; [reflexivity |].
        split; [eauto |]. intros x _.
        destruct (decide (x ∈ [])) as [Hx | _]; [inversion Hx | reflexivity].
      - destruct (Hrec p c below Hb) as (p1 & Hrun & Hdel).
        { apply NoDup_cons. split; assumption. }
        exists p1. split; [exact Hrun |]. split.
        + rewrite (Hdel c). rewrite decide_True by reflexivity.
          rewrite Hc. cbn. eauto.
        + intros x Hx. rewrite (Hdel x). rewrite decide_False by exact Hx.
          reflexivity. }
    destruct Hp1 as (p1 & -> & [o1 Ho1] & Hp1). cbn. rewrite Ho1. cbn.
    (* the rest of the loop *)
    assert (Hrest : descendants_loop desc (delete c p1) cs = Some rest).
    { apply (descendants_loop_frame desc p _ cs rest Hframe Hr).
      intros x Hx.
      assert (x <> c) by (intros ->; contradiction).
      rewrite lookup_delete_ne by congruence. rewrite Hp1 by assumption.
      rewrite decide_False; [reflexivity |].
      intros Hin. apply (Hdisj x Hin). right. exact Hx. }
    destruct (IH (delete c p1) rest Hrest Hnd_rest) as (p' & Hrun & Hlook).
    exists p'. split; [exact Hrun |]. intros x. rewrite Hlook.
    destruct (decide (x = c)) as [-> | Hxc].
    + rewrite decide_False by exact Hc_rest. rewrite lookup_delete_eq.
      rewrite decide_True; [reflexivity |]. apply elem_of_app. right. left.
    + rewrite lookup_delete_ne by congruence. rewrite Hp1 by exact Hxc.
      destruct (decide (x ∈ rest)) as [Hxr | Hxr].
      * rewrite decide_True; [reflexivity |]. apply elem_of_app. right. right. exact Hxr.
      * destruct (decide (x ∈ below)) as [Hxb | Hxb].
        -- rewrite decide_True; [reflexivity |]. apply elem_of_app. left. exact Hxb.
        -- rewrite decide_False; [reflexivity |].
           intros Hin. apply elem_of_app in Hin as [Hin | Hin]; [contradiction |].
           apply elem_of_cons in Hin as [Hin | Hin]; contradiction.
  - apply IH.
Qed.

Lemma deleteChildren_spec (fuel : nat) :
  deletes_subtree (descendants fuel) (deleteChildren fuel).
Proof.
  induction fuel as [| fuel IH]; intros p n ds; cbn; [discriminate |].
  destruct (p !! n) as [node |] eqn:Hn; cbn; [| discriminate].
  destruct (is_block node || negb (length (children node) =? 8)%nat);
    [discriminate |].
  intros Hds Hnodup. apply NoDup_cons in Hnodup as (Hn_ds & Hnodup).
  destruct (deleteChildren_loop_spec _ _ _ p ds (descendants_frame fuel) IH
              Hds Hnodup) as (p1 & -> & Hlook).
  cbn. rewrite (Hlook n). rewrite decide_False by exact Hn_ds.
  rewrite Hn. cbn. eexists. split; [reflexivity |].
  intros x. destruct (decide (x = n)) as [-> | Hx].
  - rewrite lookup_insert_eq, Hn. reflexivity.
  - rewrite lookup_insert_ne by congruence. apply Hlook.
Qed.


Lemma descendants_loop_mono (rec rec' : pool -> ptr -> option (list ptr))
    (p : pool) (cs : list (option ptr)) (ds : list ptr) :
  (forall c below, rec p c = Some below -> rec' p c = Some below) ->
  descendants_loop rec p cs = Some ds -> descendants_loop rec' p cs = Some ds.
Proof.
  intros Hrec. revert ds. induction cs as [| [c |] cs IH]; intros ds; cbn.
  - auto.
  - destruct (p !! c) as [child |]; cbn; [| discriminate].
    destruct (if is_block child then Some [] else rec p c) as [below |] eqn:Hb;
      cbn; [| discriminate].
    destruct (descendants_loop rec p cs) as [rest |]; cbn; [| discriminate].
    intros [= <-].
    assert (Hb' : (if is_block child then Some [] else rec' p c) = Some below).
    { destruct (is_block child); [exact Hb | apply Hrec; exact Hb]. }
    rewrite Hb'. cbn. rewrite (IH rest eq_refl). reflexivity.
  - apply IH.
Qed.

(** More fuel does not change the result. *)
Lemma descendants_more_fuel (fuel fuel' : nat) (p : pool) (n : ptr)
    (ds : list ptr) :
  (fuel <= fuel')%nat ->
  descendants fuel p n = Some ds -> descendants fuel' p n = Some ds.
Proof.
  revert fuel' n ds. induction fuel as [| fuel IH]; intros fuel' n ds Hle;
    cbn; [discriminate |].
  destruct fuel' as [| fuel']; [lia |]. cbn.
  destruct (p !! n) as [o |]; cbn; [| discriminate].
  destruct (is_block o || negb (length (children o) =? 8)%nat); [discriminate |].
  apply descendants_loop_mono. intros c below. apply IH. lia.
Qed.

(** [deleteChildren] returns on every tree, whatever fuel exceeds its
    height. *)
Lemma deleteChildren_total (fuel fuel' : nat) (p : pool) (n : ptr) :
  subtree_ok fuel p n -> (fuel <= fuel')%nat ->
  exists ds p',
    deleteChildren fuel' p n = Some p' /\ subtree_deleted p n ds p'.
Proof.
  intros (ds & Hds & Hnodup) Hle. exists ds.
  apply (deleteChildren_spec fuel' p n ds); [| exact Hnodup].
  apply (descendants_more_fuel fuel fuel'); assumption.
Qed.

Lemma descendants_loop_live (rec : pool -> ptr -> option (list ptr)) (p : pool)
    (cs : list (option ptr)) (ds : list ptr) :
  descendants_loop rec p cs = Some ds ->
  (exists kids, live_children p cs = Some kids)
  /\ forall c, Some c ∈ cs -> c ∈ ds.
Proof.
  revert ds. induction cs as [| [c |] cs IH]; intros ds; cbn.
  - intros _. split; [eauto |]. intros c Hc. inversion Hc.
  - destruct (p !! c) as [child |] eqn:Hc; cbn; [| discriminate].
    destruct (if is_block child then Some [] else rec p c) as [below |];
      cbn; [| discriminate].
    destruct (descendants_loop rec p cs) as [rest |] eqn:Hr; cbn; [| discriminate].
    intros [= <-]. destruct (IH rest eq_refl) as [[kids Hkids] Hin].
    split; [rewrite Hkids; cbn; eauto |].
    intros c' Hc'. apply elem_of_app. right.
    apply elem_of_cons in Hc' as [[= ->] | Hc']; [left |].
    right. apply Hin. exact Hc'.
  - intros Hds. destruct (IH ds Hds) as [Hkids Hin]. split; [exact Hkids |].
    intros c Hc. apply elem_of_cons in Hc as [[=] | Hc]. apply Hin. exact Hc.
Qed.

Lemma descendants_node (fuel : nat) (p : pool) (n : ptr) (node : Octant)
    (ds : list ptr) :
  p !! n = Some node -> descendants fuel p n = Some ds ->
  is_block node = false /\ length (children node) = 8%nat
  /\ (exists kids, live_children p (children node) = Some kids)
  /\ forall c, Some c ∈ children node -> c ∈ ds.
Proof.
  intros Hn. destruct fuel as [| fuel]; cbn; [discriminate |].
  rewrite Hn. cbn.
  destruct (is_block node) eqn:Hb; cbn [orb]; [discriminate |].
  destruct (Nat.eqb_spec (length (children node)) 8) as [Hlen | Hlen];
    cbn [negb]; [| discriminate].
  intros Hds. destruct (descendants_loop_live _ _ _ _ Hds) as [Hkids Hin].
  auto.
Qed.

(** *** What the calls of a visit do to the pool *)

Lemma below_trans (p : pool) (n y x : ptr) :
  below p n y -> below p y x -> below p n x.
Proof.
  intros Hny Hyx. induction Hyx as [o c Hy Hc | z o c _ IH Hz Hc].
  - exact (below_step p n y o c Hny Hy Hc).
  - exact (below_step p n z o c IH Hz Hc).
Qed.

(** A chain of child pointers of a pool is a chain of every pool that has
    all its child pointers. *)
Lemma below_mono (p q : pool) (n x : ptr) :
  (forall y o' c, q !! y = Some o' -> Some c ∈ children o' ->
     exists o, p !! y = Some o /\ Some c ∈ children o) ->
  below q n x -> below p n x.
Proof.
  intros Hlinks Hb. induction Hb as [o' c Hn Hc | y o' c _ IH Hy Hc].
  - destruct (Hlinks n o' c Hn Hc) as (o & Ho & Hco).
    exact (below_child p n o c Ho Hco).
  - destruct (Hlinks y o' c Hy Hc) as (o & Ho & Hco).
    exact (below_step p n y o c IH Ho Hco).
Qed.


(** The loop of [deleteChildren]: whatever recursive call has the effect of
    a pruning, the loop removes the children and, apart from them, only
    octants below them. *)
Lemma deleteChildren_loop_prunes (rec : pool -> ptr -> option pool)
    (cs : list (option ptr)) (p p' : pool) :
  (forall q n q', rec q n = Some q' -> prunes q n q') ->
  deleteChildren_loop rec cs p = Some p' ->
  (forall c, Some c ∈ cs -> p' !! c = None)
  /\ forall x,
       p' !! x = p !! x
       \/ (p' !! x = None /\ exists c, Some c ∈ cs /\ (x = c \/ below p c x)).
Proof.
  intros Hrec. revert p. induction cs as [| [c |] cs IH]; intros p; cbn.
  - intros [= <-]. split; [intros c Hc; inversion Hc | intros x; left; reflexivity].
  - destruct (p !! c) as [child |] eqn:Hc; cbn; [| discriminate].
    destruct (if is_block child then Some p else rec p c) as [p1 |] eqn:H1;
      cbn; [| discriminate].
    destruct (p1 !! c) as [child1 |] eqn:Hc1; cbn; [| discriminate].
    intros Hloop. destruct (IH _ Hloop) as [Hgone Hframe].
    (* the pool after the recursive call *)
    assert (Hp1 : forall x, x <> c ->
              p1 !! x = p !! x \/ (p1 !! x = None /\ below p c x)).
    { intros x Hx. destruct (is_block child).
      - injection H1 as <-. left. reflexivity.
      - destruct (Hrec p c p1 H1) as [_ Hrest]. exact (Hrest x Hx). }
    assert (Hlinks : forall y o' c0,
              delete c p1 !! y = Some o' -> Some c0 ∈ children o' ->
              exists o, p !! y = Some o /\ Some c0 ∈ children o).
    { intros y o' c0 Hy Hc0. destruct (decide (y = c)) as [-> | Hyc].
      - rewrite lookup_delete_eq in Hy. discriminate.
      - rewrite lookup_delete_ne in Hy by congruence.
        destruct (Hp1 y Hyc) as [E | [E _]]; rewrite E in Hy;
          [eauto | discriminate]. }
    split.
    + intros c0 Hc0. apply elem_of_cons in Hc0 as [[= ->] | Hc0];
        [| exact (Hgone c0 Hc0)].
      destruct (Hframe c) as [E | [E _]]; [| exact E].
      rewrite E. apply lookup_delete_eq.
    + intros x. destruct (Hframe x) as [E | (E & c0 & Hc0 & Hx)].
      * destruct (decide (x = c)) as [-> | Hxc].
        -- right. rewrite lookup_delete_eq in E. split; [exact E |].
           exists c. split; [left | left; reflexivity].
        -- rewrite lookup_delete_ne in E by congruence.
           destruct (Hp1 x Hxc) as [E1 | [E1 Hb]].
           ++ left. congruence.
           ++ right. split; [congruence |]. exists c.
              split; [left | right; exact Hb].
      * right. split; [exact E |]. exists c0. split; [right; exact Hc0 |].
        destruct Hx as [-> | Hb]; [left; reflexivity | right].
        exact (below_mono p _ c0 x Hlinks Hb).
  - intros Hloop. destruct (IH _ Hloop) as [Hgone Hframe]. split.
    + intros c Hc. apply elem_of_cons in Hc as [[=] | Hc]. exact (Hgone c Hc).
    + intros x. destruct (Hframe x) as [E | (E & c & Hc & Hx)]; [left; exact E |].
      right. split; [exact E |]. exists c. split; [right; exact Hc | exact Hx].
Qed.

(** A call of [deleteChildren] (type_util.hpp) that returns has the effect
    of a pruning. *)
Lemma deleteChildren_prunes (fuel : nat) (p : pool) (n : ptr) (p' : pool) :
  deleteChildren fuel p n = Some p' -> prunes p n p'.
Proof.
  revert p n p'. induction fuel as [| fuel IH]; intros p n p'; cbn;
    [discriminate |].
  destruct (p !! n) as [node |] eqn:Hn; cbn; [| discriminate].
  destruct (is_block node || negb (length (children node) =? 8)%nat);
    [discriminate |].
  destruct (deleteChildren_loop (deleteChildren fuel) (children node) p)
    as [p1 |] eqn:Hloop; cbn; [| discriminate].
  destruct (deleteChildren_loop_prunes _ _ _ _ IH Hloop) as [Hgone Hframe].
  destruct (p1 !! n) as [node1 |] eqn:Hn1; cbn; [| discriminate].
  intros [= <-].
  assert (node1 = node) as ->.
  { destruct (Hframe n) as [E | [E _]]; congruence. }
  split.
  - exists node. split; [exact Hn |]. split; [apply lookup_insert_eq |].
    intros c Hc. pose proof (Hgone c Hc) as Hcgone.
    rewrite lookup_insert_ne by congruence. exact Hcgone.
  - intros x Hx. rewrite lookup_insert_ne by congruence.
    destruct (Hframe x) as [E | (E & c & Hc & Hxc)]; [left; exact E |].
    right. split; [exact E |].
    pose proof (below_child p n node c Hn Hc) as Hnc.
    destruct Hxc as [-> | Hb]; [exact Hnc | exact (below_trans p n c x Hnc Hb)].
Qed.

Lemma propagate_to_parent_node_inv (p p1 : pool) (n : ptr) (ts : Z) (d : Data) :
  propagate_to_parent_node p n ts = Some (p1, d) ->
  exists node dmin,
    p !! n = Some node
    /\ p1 = <[n := set_aggregates node ts dmin d]> p.
Proof.
  unfold propagate_to_parent_node.
  destruct (p !! n) as [node |] eqn:Hn; cbn; [| discriminate].
  destruct (is_block node || negb (length (children node) =? 8)%nat);
    [discriminate |].
  destruct (visit_children p (children node) initial) as [acc |]; cbn;
    [| discriminate].
  intros [= <- <-]. eauto.
Qed.

(** [propagate_to_parent_node] has the effect of a propagation. *)
Lemma propagate_node_propagates (p : pool) (n : ptr) (max_scale frame : Z)
    (p' : pool) (d : Data) :
  propagate_node p n max_scale frame = Some (p', d) -> propagates frame p n p' d.
Proof. apply propagate_to_parent_node_inv. Qed.



(** *** The pass *)

Section pass.

Variable BlockSize : Z.
Variable round_float : Q -> Q.
Variable round_double : Q -> Q.
Variable propagation : pool -> ptr -> Z -> Z -> option (pool * Data).
Variable deletion : pool -> ptr -> option pool.

(** What the pass relies on: a propagation changes the aggregates and the
    timestamp of its node and nothing else, and a deletion that returns
    has removed the children of its node and otherwise only octants below
    it. *)
Hypothesis propagation_propagates :
  forall p n max_scale frame p' d,
    propagation p n max_scale frame = Some (p', d) -> propagates frame p n p' d.
Hypothesis deletion_prunes :
  forall p n p', deletion p n = Some p' -> prunes p n p'.


(** The cases of a visit that returns: the node is skipped, or the
    aggregates are propagated into it and its children are deleted exactly
    if the returned data passes the test. *)
Lemma propagateToRoot_visit_cases (frame : Z) (config : FieldConfig)
    (max_scale d : Z) (p p' : pool) (sets sets' : list (gset ptr)) (n : ptr) :
  propagateToRoot_visit round_float round_double propagation deletion
    frame config max_scale d (p, sets) n = Some (p', sets') ->
  exists node,
    p !! n = Some node
    /\ (((timestamp node = frame \/ parent_ptr node = None)
         /\ p' = p /\ sets' = sets)
        \/ (timestamp node <> frame
            /\ exists parent p1 node_data,
                 parent_ptr node = Some parent
                 /\ propagation p n max_scale frame = Some (p1, node_data)
                 /\ node_set_insert sets (d - 1) parent = Some sets'
                 /\ ((prune_test round_float round_double config node_data = true
                      /\ deletion p1 n = Some p')
                     \/ (prune_test round_float round_double config node_data
                         = false /\ p' = p1)))).
Proof.
  unfold propagateToRoot_visit. intros H.
  destruct (p !! n) as [node |] eqn:Hn; cbn [mbind option_bind] in H;
    [| discriminate].
  exists node. split; [reflexivity |].
  destruct (Z.eqb_spec (timestamp node) frame) as [Hts | Hts].
  { injection H as <- <-. left. auto. }
  destruct (parent_ptr node) as [parent |] eqn:Hpar.
  2:{ injection H as <- <-. left. auto. }
  right. split; [exact Hts |].
  destruct (propagation p n max_scale frame) as [[p1 node_data] |] eqn:Hprop;
    cbn [mbind option_bind] in H; [| discriminate].
  destruct (node_set_insert sets (d - 1) parent) as [sets1 |] eqn:Hins;
    cbn [mbind option_bind] in H; [| discriminate].
  exists parent, p1, node_data.
  destruct (prune_test round_float round_double config node_data) eqn:Htest.
  - destruct (deletion p1 n) as [p2 |] eqn:Hdel; cbn [mbind option_bind] in H;
      [| discriminate].
    injection H as <- <-. repeat split; try first [reflexivity | assumption].
    left. auto.
  - injection H as <- <-. repeat split; try first [reflexivity | assumption].
    right. auto.
Qed.

Section invariant.

Variable frame : Z.
Variable config : FieldConfig.
Variable p0 : pool.










End invariant.


End pass.

End prune_facts.



(* ===================================================================== *)
(** * Part III: further properties of the code                            *)
(* ===================================================================== *)

(** ** The TSDF voxel over several frames and between scales *)

Section tsdf_more_facts.
Import cxx cmath tsdf tsdf_propagation.

Lemma std_min_le_l (a b : Q) : (std_min a b <= a)%Q.
Proof. rewrite std_min_Qmin. apply Q.le_min_l. Qed.

Lemma std_min_le_r (a b : Q) : (std_min a b <= b)%Q.
Proof. rewrite std_min_Qmin. apply Q.le_min_r. Qed.

Lemma std_max_ge_l (a b : Q) : (a <= std_max a b)%Q.
Proof. rewrite std_max_Qmax. apply Q.le_max_l. Qed.

Lemma clamp_in_range (f a b : Q) : (a <= b)%Q -> (a <= clamp f a b <= b)%Q.
Proof.
  intros Hab. unfold clamp. split; [apply std_max_ge_l |].
  rewrite std_max_Qmax. apply Q.max_lub; [exact Hab | apply std_min_le_r].
Qed.

(** X1: [updateVoxel] keeps a voxel in range, whatever the measurement: a
    value in [[-1, 1]] stays in [[-1, 1]], and a weight in [[0, W_max]]
    never decreases and never exceeds [W_max]. *)
Theorem updateVoxel_keeps_range (max_weight : Q) (du : DataUnion)
    (sdf tau : Q) :
  (0 < tau)%Q ->
  (-1 <= tsdf (data du) <= 1)%Q ->
  (0 <= weight (data du) <= max_weight)%Q ->
  let d' := data (updateVoxel max_weight du sdf tau) in
  (-1 <= tsdf d' <= 1)%Q
  /\ (weight (data du) <= weight d' <= max_weight)%Q.
Proof.
  intros _ Ht Hw. cbv zeta. unfold updateVoxel.
  destruct (Qltb (- tau) sdf); cbn [data tsdf weight].
  - split; [apply clamp_in_range; lra |].
    split; [| apply std_min_le_r].
    rewrite std_min_Qmin. apply Q.min_glb; lra.
  - split; [exact Ht | lra].
Qed.

(** The voxel of value 1/2 and weight 3 under a measurement far behind the
    surface and under one far in front of it. *)
Lemma updateVoxel_keeps_range_witness :
  let du := samples.tsdf_voxel (1 # 2) 3 in
  ((-1 <= tsdf (data (updateVoxel 100 du (-5) (2 # 5))) <= 1)%Q
   /\ (3 <= weight (data (updateVoxel 100 du (-5) (2 # 5))) <= 100)%Q)
  /\ ((-1 <= tsdf (data (updateVoxel 100 du 7 (2 # 5))) <= 1)%Q
      /\ (3 <= weight (data (updateVoxel 100 du 7 (2 # 5))) <= 100)%Q).
Proof.
  intros du.
  split; apply (updateVoxel_keeps_range 100 du _ (2 # 5));
    solve [reflexivity | split; discriminate].
Defined.

Lemma updateVoxel_in_band (max_weight : Q) (du : DataUnion) (sdf tau : Q) :
  (- tau < sdf)%Q ->
  (weight (data (updateVoxel max_weight du sdf tau))
     == Qmin (weight (data du) + 1) max_weight)%Q
  /\ delta_weight (prop_data (updateVoxel max_weight du sdf tau))
     = (delta_weight (prop_data du) + 1)%Z.
Proof.
  intros Hsdf. unfold updateVoxel.
  rewrite (proj2 (Qltb_lt (- tau) sdf) Hsdf).
  cbn [data weight prop_data delta_weight].
  split; [apply std_min_Qmin | reflexivity].
Qed.

Lemma Qmin_step (w m n : Q) :
  (0 <= n)%Q -> (Qmin (Qmin (w + 1) m + n) m == Qmin (w + (1 + n)) m)%Q.
Proof.
  intros Hn.
  destruct (Q.min_spec (w + 1) m) as [[H1 E1] | [H1 E1]]; rewrite E1;
  destruct (Q.min_spec (w + (1 + n)) m) as [[H2 E2] | [H2 E2]]; rewrite E2.
  - rewrite Q.min_l; lra.
  - rewrite Q.min_r; lra.
  - rewrite Q.min_r; lra.
  - rewrite Q.min_r; lra.
Qed.

(** X3: [n] updates inside the band take the weight of a voxel from [w] to
    [min(w + n, W_max)], so the weight saturates at [W_max], while the
    counter [delta_weight] grows by [n] without a bound. *)
Theorem integrate_weight_saturates (max_weight tau : Q) (sdf_values : list Q)
    (du : DataUnion) :
  (0 < tau)%Q -> (0 <= weight (data du) <= max_weight)%Q ->
  Forall (fun sdf => (- tau < sdf)%Q) sdf_values ->
  let du' := integrate max_weight tau du sdf_values in
  (weight (data du')
     == Qmin (weight (data du) + inject_Z (Z.of_nat (length sdf_values)))
             max_weight)%Q
  /\ delta_weight (prop_data du')
     = (delta_weight (prop_data du) + Z.of_nat (length sdf_values))%Z.
Proof.
  intros _ Hw Hall. cbv zeta. unfold integrate.
  revert du Hw. induction Hall as [| sdf l Hsdf Hall IH]; intros du Hw.
  - cbn [foldl length]. change (Z.of_nat 0) with 0%Z. split; [| lia].
    unfold inject_Z. rewrite Q.min_l; lra.
  - cbn [foldl length].
    destruct (updateVoxel_in_band max_weight du sdf tau Hsdf) as [Hw1 Hd1].
    destruct (IH (updateVoxel max_weight du sdf tau)) as [Hw2 Hd2].
    { rewrite Hw1. split; [apply Q.min_glb; lra | apply Q.le_min_r]. }
    split.
    + rewrite Hw2, Hw1. rewrite Nat2Z.inj_succ, <- Z.add_1_l, inject_Z_plus.
      apply Qmin_step. change 0%Q with (inject_Z 0). rewrite <- Zle_Qle. lia.
    + rewrite Hd2, Hd1. lia.
Qed.

(** Three frames on a voxel of weight 3 with [W_max = 5]: the weight stops
    at 5 and the counter reaches 3. *)
Lemma integrate_weight_saturates_witness :
  let du' := integrate 5 (2 # 5) (samples.tsdf_voxel (1 # 2) 3)
               [1 # 10; 0 # 1; 3 # 1] in
  (weight (data du') == 5)%Q /\ delta_weight (prop_data du') = 3%Z.
Proof.
  intros du'.
  destruct (integrate_weight_saturates 5 (2 # 5) [1 # 10; 0 # 1; 3 # 1]
              (samples.tsdf_voxel (1 # 2) 3)) as [Hw Hd];
    [reflexivity | split; discriminate | repeat constructor |].
  split; [rewrite Hw; reflexivity | exact Hd].
Defined.

Lemma child_down_funct_weighted (max_weight : Q) (interp : option Q)
    (child parent : DataUnion) :
  ~ (weight (data child) == 0)%Q ->
  let delta := (tsdf (data parent) - delta_tsdf (prop_data parent))%Q in
  let child' := child_down_funct max_weight interp child parent in
  (tsdf (data child') == Qmax (tsdf (data child) + delta) (-1))%Q
  /\ (weight (data child')
      == Qmin (weight (data child) + inject_Z (delta_weight (prop_data parent)))
              max_weight)%Q
  /\ delta_weight (prop_data child') = delta_weight (prop_data parent)
  /\ delta_tsdf (prop_data child') = delta_tsdf (prop_data child).
Proof.
  intros Hw. cbv zeta. unfold child_down_funct.
  destruct (Qeq_bool (weight (data child)) 0) eqn:E.
  - apply Qeq_bool_iff in E. contradiction.
  - cbn. split; [apply std_max_Qmax |]. split; [| split; reflexivity].
    unfold fminf.
    fold (std_min (weight (data child)
                   + inject_Z (delta_weight (prop_data parent))) max_weight).
    apply std_min_Qmin.
Qed.

(** X4: the down-propagation hands a weighted child exactly what the parent
    gained since it last handed its value down. The child's value moves by
    the parent's change of value (never below -1) and its weight by the
    parent's [delta_weight] (never above [W_max]); after the parent has
    handed down ([parent_down_funct]) a second propagation changes neither
    value nor weight of a child in range. *)
Theorem child_down_funct_hands_down_the_change (max_weight : Q)
    (interp : option Q) (child parent : DataUnion) :
  ~ (weight (data child) == 0)%Q ->
  (-1 <= tsdf (data child))%Q -> (weight (data child) <= max_weight)%Q ->
  let child' := child_down_funct max_weight interp child parent in
  let again :=
    child_down_funct max_weight interp child (parent_down_funct parent) in
  (tsdf (data child')
   == Qmax (tsdf (data child)
            + (tsdf (data parent) - delta_tsdf (prop_data parent))) (-1))%Q
  /\ (weight (data child')
      == Qmin (weight (data child)
               + inject_Z (delta_weight (prop_data parent))) max_weight)%Q
  /\ (tsdf (data again) == tsdf (data child))%Q
  /\ (weight (data again) == weight (data child))%Q.
Proof.
  intros Hw Ht Hm. cbv zeta.
  destruct (child_down_funct_weighted max_weight interp child parent Hw)
    as (H1 & H2 & _).
  destruct (child_down_funct_weighted max_weight interp child
              (parent_down_funct parent) Hw) as (H3 & H4 & _).
  split; [exact H1 |]. split; [exact H2 |].
  rewrite H3, H4.
  cbn [parent_down_funct data tsdf prop_data delta_tsdf delta_weight].
  split.
  - rewrite Q.max_l; lra.
  - rewrite Q.min_l; [unfold inject_Z; lra | unfold inject_Z; lra].
Qed.

(** A child of value 1/2 and weight 3 under a parent whose value rose from
    0 to 1/4 over two frames. *)
Lemma child_down_funct_hands_down_the_change_witness :
  let child := samples.tsdf_voxel (1 # 2) 3 in
  let parent :=
    {| coord := (0, 0, 0)%Z; scale := 1%Z;
       data := {| tsdf := 1 # 4; weight := 2 |};
       prop_data := {| delta_tsdf := 0; delta_weight := 2%Z |} |} in
  (tsdf (data (child_down_funct 100 None child parent)) == 3 # 4)%Q
  /\ (weight (data (child_down_funct 100 None child parent)) == 5)%Q
  /\ (tsdf (data (child_down_funct 100 None child (parent_down_funct parent)))
      == 1 # 2)%Q
  /\ (weight (data (child_down_funct 100 None child
                      (parent_down_funct parent))) == 3)%Q.
Proof.
  intros child parent.
  destruct (child_down_funct_hands_down_the_change 100 None child parent)
    as (H1 & H2 & H3 & H4);
    [discriminate | discriminate | discriminate |].
  split; [rewrite H1; reflexivity |]. split; [rewrite H2; reflexivity |].
  split; [rewrite H3; reflexivity | rewrite H4; reflexivity].
Defined.

Lemma accumulate_children_spec (children : list DataUnion) (init : Data)
    (count : Z) :
  let acc :=
    foldl (fun acc child_data_union =>
             let '(data_tmp, n) := child_up_funct child_data_union acc.1 in
             (data_tmp, (acc.2 + n)%Z))
          (init, count) children in
  let live := List.filter weighted children in
  acc.2 = (count + Z.of_nat (length live))%Z
  /\ (tsdf acc.1 == tsdf init + sum_of (map (fun c => tsdf (data c)) live))%Q
  /\ (weight acc.1
      == weight init + sum_of (map (fun c => weight (data c)) live))%Q.
Proof.
  cbv zeta. revert init count.
  induction children as [| c cs IH]; intros init count.
  - cbn. split; [lia |]. split; lra.
  - cbn [foldl List.filter fst snd].
    assert (E : (let '(data_tmp, n) := child_up_funct c init in
                 (data_tmp, (count + n)%Z))
                = if weighted c
                  then ({| tsdf := tsdf init + tsdf (data c);
                           weight := weight init + weight (data c) |},
                        (count + 1)%Z)
                  else (init, (count + 0)%Z)).
    { unfold child_up_funct, weighted.
      destruct (negb (Qeq_bool (weight (data c)) 0)); reflexivity. }
    rewrite E. clear E. destruct (weighted c).
    + destruct (IH {| tsdf := tsdf init + tsdf (data c);
                      weight := weight init + weight (data c) |}
                   (count + 1)%Z) as (H1 & H2 & H3).
      rewrite H1, H2, H3. cbn [length map sum_of foldr tsdf weight].
      fold (sum_of (map (fun c => tsdf (data c)) (List.filter weighted cs))).
      fold (sum_of (map (fun c => weight (data c)) (List.filter weighted cs))).
      split; [lia |]. split; lra.
    + destruct (IH init (count + 0)%Z) as (H1 & H2 & H3).
      rewrite H1, H2, H3. split; [lia |]. split; reflexivity.
Qed.

Lemma ceil_bounds (x : Q) : (x <= ceil x < x + 1)%Q.
Proof.
  unfold ceil. split; [apply Qle_ceiling |].
  pose proof (Qceiling_lt x) as H.
  unfold Z.sub in H. rewrite inject_Z_plus in H.
  assert (E : (inject_Z (- (1)) == - (1))%Q) by reflexivity. rewrite E in H.
  generalize dependent (inject_Z (Qceiling x)). intros c H. lra.
Qed.

(** X5: the up-propagation of one parent voxel of a TSDF block, with
    [child_up_funct] run over the children on a [data_tmp] that starts at
    zero and [parent_up_funct] run on the outcome. The count is the number
    of children with a weight other than 0. If there is none, the parent
    gets the default data. Otherwise the parent's value is the sum of the
    values of the weighted children divided by their number, its weight
    is the mean of their weights rounded up to a whole number, [delta_tsdf]
    is the new value and [delta_weight] is 0. *)
Theorem parent_up_funct_mean (dflt : Data) (dflt_prop : PropData)
    (parent : DataUnion) (children : list DataUnion) :
  let live := List.filter weighted children in
  let n := Z.of_nat (length live) in
  let sum_tsdf := sum_of (map (fun c => tsdf (data c)) live) in
  let sum_weight := sum_of (map (fun c => weight (data c)) live) in
  let acc := accumulate_children {| tsdf := 0; weight := 0 |} children in
  let parent' := parent_up_funct dflt dflt_prop parent acc.1 acc.2 in
  acc.2 = n
  /\ (n = 0%Z -> data parent' = dflt /\ prop_data parent' = dflt_prop)
  /\ ((0 < n)%Z ->
      (tsdf (data parent') == sum_tsdf / inject_Z n)%Q
      /\ (exists z : Z,
            weight (data parent') = inject_Z z
            /\ (sum_weight / inject_Z n <= inject_Z z
                < sum_weight / inject_Z n + 1)%Q)
      /\ delta_tsdf (prop_data parent') = tsdf (data parent')
      /\ delta_weight (prop_data parent') = 0%Z).
Proof.
  cbv zeta. unfold accumulate_children.
  destruct (accumulate_children_spec children {| tsdf := 0; weight := 0 |} 0)
    as (Hn & Ht & Hw).
  cbn [tsdf weight] in Ht, Hw. rewrite Z.add_0_l in Hn.
  split; [exact Hn |]. rewrite Hn. unfold parent_up_funct. split.
  - intros ->. cbn. split; reflexivity.
  - intros Hpos.
    destruct (Z.eqb_spec (Z.of_nat (length (List.filter weighted children)))
                0) as [E | _]; [lia |].
    cbn [negb data prop_data tsdf weight delta_tsdf delta_weight].
    assert (Hq : ~ (inject_Z (Z.of_nat
                      (length (List.filter weighted children))) == 0)%Q).
    { change 0%Q with (inject_Z 0). rewrite inject_Z_injective. lia. }
    split; [rewrite Ht; field; exact Hq |].
    split; [| split; reflexivity].
    eexists. split; [reflexivity |].
    match goal with |- (?m <= inject_Z (Qceiling ?x) < _)%Q =>
      assert (Hx : (x == m)%Q) by (rewrite Hw; field; exact Hq);
      pose proof (ceil_bounds x) as Hc end.
    unfold ceil in Hc. rewrite <- Hx. exact Hc.
Qed.

(** Three weighted children with the values 1/2, 1/4 and 0 and the weights
    3, 1 and 1, and one child without weight: the count is 3 and the
    parent gets the value 1/4 and the weight 2. Four children without
    weight: the parent gets the default data. *)
Lemma parent_up_funct_mean_witness :
  let dflt := {| tsdf := 1; weight := 0 |} in
  let dflt_prop := {| delta_tsdf := 0; delta_weight := 0%Z |} in
  let children :=
    [samples.tsdf_voxel (1 # 2) 3; samples.tsdf_voxel (1 # 4) 1;
     samples.tsdf_voxel 0 1; samples.tsdf_voxel (3 # 4) 0] in
  let acc := accumulate_children {| tsdf := 0; weight := 0 |} children in
  let parent' :=
    parent_up_funct dflt dflt_prop (samples.tsdf_voxel 1 0) acc.1 acc.2 in
  let none := accumulate_children {| tsdf := 0; weight := 0 |}
                (replicate 4 (samples.tsdf_voxel (3 # 4) 0)) in
  (acc.2 = 3%Z
   /\ (tsdf (data parent') == 1 # 4)%Q
   /\ weight (data parent') = 2%Q
   /\ delta_weight (prop_data parent') = 0%Z)
  /\ data (parent_up_funct dflt dflt_prop (samples.tsdf_voxel (1 # 2) 3)
             none.1 none.2) = dflt.
Proof.
  intros dflt dflt_prop children acc parent' none. split.
  - destruct (parent_up_funct_mean dflt dflt_prop (samples.tsdf_voxel 1 0)
                children) as (Hn & _ & H).
    destruct H as (Ht & _ & _ & Hd); [reflexivity |].
    split; [exact Hn |].
    split; [apply (Qeq_trans _ _ _ Ht); reflexivity |].
    split; [reflexivity | exact Hd].
  - destruct (parent_up_funct_mean dflt dflt_prop
                (samples.tsdf_voxel (1 # 2) 3)
                (replicate 4 (samples.tsdf_voxel (3 # 4) 0)))
      as (_ & H & _).
    exact (proj1 (H eq_refl)).
Defined.

End tsdf_more_facts.

(** ** Reading and writing the voxels of a block *)

Section block_access_facts.
Import cxx block block_access.
Local Open Scope Z_scope.

(** X6: in a TSDF block, which keeps all scales in one flat array, every
    voxel of the block at every scale of the block has an index inside the
    array, and two of them have the same index only if they name the same
    cell of the same scale: no two scales and no two cells of a scale share
    an entry. *)
Theorem t_getVoxelIdx_injective (k : Z) (b : BlockMultiResTSDF)
    (v v' : Vector3i) (s s' : Z) :
  0 <= s <= k -> 0 <= s' <= k ->
  inside_block (2 ^ k) (t_coord b) v -> inside_block (2 ^ k) (t_coord b) v' ->
  (exists idx, t_getVoxelIdx (2 ^ k) b v s = Some idx
               /\ 0 <= idx < scale_offset (2 ^ k) (S (Z.to_nat k)))
  /\ (t_getVoxelIdx (2 ^ k) b v s = t_getVoxelIdx (2 ^ k) b v' s'
      <-> s = s' /\ cell (t_coord b) s v = cell (t_coord b) s' v').
Proof.
  intros Hs Hs' Hin Hin'.
  split; [apply t_getVoxelIdx_in_array; assumption |].
  apply t_getVoxelIdx_same_cell; assumption.
Qed.

(** In the block of side 2 at [(8, 0, 0)] the voxel [(9, 1, 0)] has index 3
    at scale 0, and the single cell of scale 1 has another index. *)
Lemma t_getVoxelIdx_injective_witness :
  t_getVoxelIdx 2 fixtures.tsdf_block (9, 1, 0) 0 = Some 3
  /\ t_getVoxelIdx 2 fixtures.tsdf_block (9, 1, 0) 0
     <> t_getVoxelIdx 2 fixtures.tsdf_block (9, 1, 0) 1.
Proof.
  destruct (t_getVoxelIdx_injective 1 fixtures.tsdf_block (9, 1, 0) (9, 1, 0)
              0 1) as [_ Hiff];
    [lia | lia | cbn; lia | cbn; lia |].
  split; [reflexivity |].
  intros E. apply Hiff in E as [E _]. discriminate E.
Defined.

(** X7: writing a voxel of a TSDF block at a scale and reading it back
    gives the written data, and the write is seen at no other cell of that
    scale and at no cell of another scale: a write at one scale does not
    reach the coarser or finer copies of the voxel. *)
Theorem t_set_data_round_trip (k : Z) (b : BlockMultiResTSDF)
    (v : Vector3i) (s : Z) (x : tsdf.Data) :
  t_wf k b -> 0 <= k -> 0 <= s <= k -> inside_block (2 ^ k) (t_coord b) v ->
  exists b',
    t_set_data (2 ^ k) b v s x = Some b'
    /\ t_data_at (2 ^ k) b' v s = Some x
    /\ forall v' s',
         0 <= s' <= k -> inside_block (2 ^ k) (t_coord b) v' ->
         ~ (s = s' /\ cell (t_coord b) s v = cell (t_coord b) s' v') ->
         t_data_at (2 ^ k) b' v' s' = t_data_at (2 ^ k) b v' s'.
Proof.
  intros (Hcur & Hlen) Hk Hs Hin.
  destruct (t_getVoxelIdx_in_array k b v s Hs Hin) as (i & Hi & Hrange).
  unfold t_set_data. rewrite Hi. cbn [mbind option_bind].
  destruct (set_at (t_block_data_ b) i x) as [bd |] eqn:Hset.
  2:{ unfold set_at in Hset. destruct (Z.ltb_spec i 0); [lia |].
      destruct (Z.leb_spec (Z.of_nat (length (t_block_data_ b))) i); [lia |].
      discriminate. }
  cbn [mbind option_bind]. eexists. split; [reflexivity |].
  set (b' := {| t_coord := t_coord b; t_current_scale := t_current_scale b;
                t_block_data_ := bd;
                t_block_past_data_ := t_block_past_data_ b |}).
  assert (Hidx : forall v' s',
             t_getVoxelIdx (2 ^ k) b' v' s' = t_getVoxelIdx (2 ^ k) b v' s')
    by reflexivity.
  split.
  - unfold t_data_at. rewrite Hidx, Hi. cbn [mbind option_bind].
    unfold t_data_idx. cbn [t_block_data_ b'].
    eapply at_set_at_eq; exact Hset.
  - intros v' s' Hs' Hin' Hne. unfold t_data_at. rewrite Hidx.
    pose proof (t_getVoxelIdx_same_cell k b v v' s s' Hs Hs' Hin Hin')
      as Hinj.
    destruct (t_getVoxelIdx (2 ^ k) b v' s') as [i' |] eqn:Hi';
      [| reflexivity].
    cbn [mbind option_bind]. unfold t_data_idx. cbn [t_block_data_ b'].
    eapply at_set_at_ne; [exact Hset |]. intros ->. apply Hne, Hinj.
    rewrite Hi. reflexivity.
Qed.

(** Writing the voxel [(9, 1, 0)] of the block of side 2 at scale 0: the
    voxel reads back, and the cell of scale 1 above it keeps its data. *)
Lemma t_set_data_round_trip_witness :
  let x := {| tsdf.tsdf := 1; tsdf.weight := 7 |} in
  exists b',
    t_set_data 2 fixtures.tsdf_block (9, 1, 0) 0 x = Some b'
    /\ t_data_at 2 b' (9, 1, 0) 0 = Some x
    /\ t_data_at 2 b' (9, 1, 0) 1
       = t_data_at 2 fixtures.tsdf_block (9, 1, 0) 1.
Proof.
  intros x.
  destruct (t_set_data_round_trip 1 fixtures.tsdf_block (9, 1, 0) 0 x)
    as (b' & Hset & Hget & Hother);
    [split; [cbn; lia | reflexivity] | lia | lia | cbn; lia |].
  exists b'. split; [exact Hset |]. split; [exact Hget |].
  apply Hother; [lia | cbn; lia |]. intros [E _]. discriminate E.
Defined.

(** X8: in an occupancy block, which keeps one array per scale, every voxel
    of the block has an index inside the array of the scale, and two voxels
    have the same index at a scale exactly if they lie in the same cell of
    that scale. *)
Theorem getVoxelIdx_injective (k : Z) (b : BlockMultiRes) (v v' : Vector3i)
    (s : Z) :
  0 <= s <= k ->
  inside_block (2 ^ k) (coord b) v -> inside_block (2 ^ k) (coord b) v' ->
  (exists idx, getVoxelIdx (2 ^ k) b v s = Some idx
               /\ 0 <= idx < cu (2 ^ k ≫ s))
  /\ (getVoxelIdx (2 ^ k) b v s = getVoxelIdx (2 ^ k) b v' s
      <-> cell (coord b) s v = cell (coord b) s v').
Proof.
  intros Hs Hin Hin'. split; [apply getVoxelIdx_in_grid; assumption |].
  unfold getVoxelIdx. rewrite log2_pow2 by lia.
  destruct (Z.leb_spec 0 s); [| lia]. destruct (Z.leb_spec s k); [| lia].
  cbn [andb].
  pose proof (cell_in_grid k s (coord b) v Hs Hin) as G.
  pose proof (cell_in_grid k s (coord b) v' Hs Hin') as G'.
  unfold cell in *.
  destruct (vquot (vsub v (coord b)) (1 ≪ s)) as [[ox oy] oz].
  destruct (vquot (vsub v' (coord b)) (1 ≪ s)) as [[ox' oy'] oz'].
  destruct G as (Gx & Gy & Gz), G' as (Gx' & Gy' & Gz').
  split.
  - intros [= E].
    destruct (radix_injective (2 ^ k ≫ s) ox oy oz ox' oy' oz')
      as (-> & -> & ->); try assumption; reflexivity.
  - intros [= -> -> ->]. reflexivity.
Qed.

(** In the occupancy block of side 2 at [(8, 0, 0)] the voxels [(8, 1, 0)]
    and [(9, 1, 1)] have different indices at scale 0 and share the single
    cell of scale 1. *)
Lemma getVoxelIdx_injective_witness :
  getVoxelIdx 2 fixtures.fine_block (8, 1, 0) 0
  <> getVoxelIdx 2 fixtures.fine_block (9, 1, 1) 0
  /\ getVoxelIdx 2 fixtures.fine_block (8, 1, 0) 1
     = getVoxelIdx 2 fixtures.fine_block (9, 1, 1) 1.
Proof.
  split.
  - destruct (getVoxelIdx_injective 1 fixtures.fine_block (8, 1, 0) (9, 1, 1)
                0) as [_ Hiff]; [lia | cbn; lia | cbn; lia |].
    intros E. apply Hiff in E. discriminate E.
  - apply (getVoxelIdx_injective 1 fixtures.fine_block (8, 1, 0) (9, 1, 1) 1);
      [lia | cbn; lia | cbn; lia | reflexivity].
Defined.

End block_access_facts.

Section single_res_facts.
Import cxx block single_res.
Local Open Scope Z_scope.
Context {DataType : Type}.

Lemma s_voxel_idx_inside (B : Z) (b : @BlockSingleRes DataType)
    (v : Vector3i) :
  inside_block B (s_coord b) v -> 0 <= s_voxel_idx B (sq B) b v < cu B.
Proof.
  unfold s_voxel_idx. destruct (s_coord b) as [[cx cy] cz], v as [[vx vy] vz].
  cbn. intros (Hx & Hy & Hz). apply linear_index_bound; lia.
Qed.

Lemma s_voxel_idx_injective (B : Z) (b : @BlockSingleRes DataType)
    (v v' : Vector3i) :
  inside_block B (s_coord b) v -> inside_block B (s_coord b) v' ->
  s_voxel_idx B (sq B) b v = s_voxel_idx B (sq B) b v' -> v = v'.
Proof.
  unfold s_voxel_idx.
  destruct (s_coord b) as [[cx cy] cz], v as [[vx vy] vz],
    v' as [[vx' vy'] vz'].
  cbn. intros (Hx & Hy & Hz) (Hx' & Hy' & Hz') E.
  destruct (radix_injective B (vx - cx) (vy - cy) (vz - cz)
              (vx' - cx) (vy' - cy) (vz' - cz)) as (E1 & E2 & E3);
    try lia. f_equal; [f_equal |]; lia.
Qed.

(** X9: in a single-resolution block of side [size] whose array has one
    entry per voxel and whose [size_sq] is the square of [size], writing a
    voxel of the block succeeds, the voxel reads back the written data and
    every other voxel of the block reads what it read before. *)
Theorem s_set_data_round_trip (size size_sq : Z)
    (b : @BlockSingleRes DataType) (v : Vector3i) (x : DataType) :
  size_sq = sq size ->
  Z.of_nat (length (s_block_data_ b)) = cu size ->
  inside_block size (s_coord b) v ->
  exists b',
    s_set_data size size_sq b v x = Some b'
    /\ s_data size size_sq b' v = Some x
    /\ forall v', inside_block size (s_coord b) v' -> v' <> v ->
                  s_data size size_sq b' v' = s_data size size_sq b v'.
Proof.
  intros -> Hlen Hin. rename size into B.
  pose proof (s_voxel_idx_inside B b v Hin) as Hi.
  unfold s_set_data.
  destruct (Z.ltb_spec (s_voxel_idx B (sq B) b v) 0); [lia |].
  destruct (Z.leb_spec (Z.of_nat (length (s_block_data_ b)))
              (s_voxel_idx B (sq B) b v)); [lia |].
  cbn [orb]. eexists. split; [reflexivity |].
  set (b' := {| s_coord := s_coord b; s_block_data_ := _ |}).
  assert (Hidx : forall v',
             s_voxel_idx B (sq B) b' v' = s_voxel_idx B (sq B) b v')
    by reflexivity.
  assert (Hlen' : length (s_block_data_ b') = length (s_block_data_ b)).
  { cbn [b' s_block_data_]. apply length_insert. }
  split.
  - unfold s_data, s_data_idx. rewrite Hidx, Hlen'.
    destruct (Z.ltb_spec (s_voxel_idx B (sq B) b v) 0); [lia |].
    destruct (Z.leb_spec (Z.of_nat (length (s_block_data_ b)))
                (s_voxel_idx B (sq B) b v)); [lia |].
    cbn [orb b' s_block_data_]. apply list_lookup_insert_eq. lia.
  - intros v' Hin' Hne.
    pose proof (s_voxel_idx_inside B b v' Hin') as Hi'.
    unfold s_data, s_data_idx. rewrite Hidx, Hlen'.
    destruct (Z.ltb_spec (s_voxel_idx B (sq B) b v') 0); [lia |].
    destruct (Z.leb_spec (Z.of_nat (length (s_block_data_ b)))
                (s_voxel_idx B (sq B) b v')); [lia |].
    cbn [orb b' s_block_data_].
    apply list_lookup_insert_ne.
    intros E. apply Hne. apply (s_voxel_idx_injective B b); [assumption .. |].
    lia.
Qed.

End single_res_facts.

(** A block of side 2 at [(4, 0, 2)] whose eight voxels hold their own
    index: the voxel [(5, 1, 2)] takes the written value, its neighbour
    [(4, 1, 2)] keeps the index 2. *)
Lemma s_set_data_round_trip_witness :
  let b := {| single_res.s_coord := (4, 0, 2)%Z;
              single_res.s_block_data_ := seqZ 0 8 |} in
  exists b',
    single_res.s_set_data 2 4 b (5, 1, 2)%Z 100%Z = Some b'
    /\ single_res.s_data 2 4 b' (5, 1, 2)%Z = Some 100%Z
    /\ single_res.s_data 2 4 b' (4, 1, 2)%Z = Some 2%Z.
Proof.
  intros b.
  destruct (s_set_data_round_trip 2 4 b (5, 1, 2)%Z 100%Z)
    as (b' & Hset & Hget & Hother);
    [reflexivity | reflexivity | cbn; lia |].
  exists b'. split; [exact Hset |]. split; [exact Hget |].
  rewrite (Hother (4, 1, 2)%Z); [reflexivity | cbn; lia | discriminate].
Defined.

(** ** The storage of an occupancy block: construction and allocation *)

(** The pyramids of a concrete block, scale by scale. *)
Ltac concrete_scales i H :=
  destruct i as [| i];
  [ cbn in H; destruct H as [H | [H | H]]; try discriminate H;
    injection H as <-; eexists; split; reflexivity
  | first [ solve [exfalso; cbn in H; destruct H as [H | [H | H]];
                   discriminate H]
          | concrete_scales i H ] ].

Ltac concrete_pyramid :=
  unfold block_alloc.pyramid;
  split; [reflexivity |]; split; [reflexivity |]; split; [cbn; lia |];
  split; [refine (bool_decide_unpack _ _); vm_compute; exact I |];
  split; [reflexivity |]; split; [reflexivity |];
  let i := fresh "i" in let p := fresh "p" in let H := fresh "H" in
  intros i p H; concrete_scales i H.

Ltac concrete_pyramid_inv :=
  split; [cbn; lia | concrete_pyramid].

Section block_alloc_facts.
Import cxx occupancy block block_alloc updater.
Local Open Scope Z_scope.

Lemma new_array_fresh (h : heap) (n : Z) :
  h !! (new_array h n).1 = None
  /\ (new_array h n).2
     = <[(new_array h n).1 := replicate (Z.to_nat n) default_data]> h.
Proof.
  unfold new_array. cbn. split; [| reflexivity].
  apply not_elem_of_dom, is_fresh.
Qed.

Lemma initialiseData_live (init_values : Data -> Z -> list Data) (h : heap)
    (b : BlockMultiRes) (p : ptr) (n : Z) (arr : list Data) :
  h !! p = Some arr -> Z.of_nat (length arr) = n ->
  initialiseData init_values h b p n
  = Some (<[p := init_values (init_data_ b) n]> h).
Proof.
  intros Hp Hn. unfold initialiseData. rewrite Hp. cbn [mbind option_bind].
  destruct (Z.ltb_spec (Z.of_nat (length arr)) n); [lia |].
  rewrite drop_ge by lia. rewrite app_nil_r. reflexivity.
Qed.

Lemma copy_array_live (h : heap) (src dst : ptr) (n : Z) (a d : list Data) :
  h !! src = Some a -> h !! dst = Some d ->
  Z.of_nat (length a) = n -> Z.of_nat (length d) = n ->
  copy_array h src n dst = Some (<[dst := a]> h).
Proof.
  intros Ha Hd Hla Hld. unfold copy_array. rewrite Ha, Hd.
  cbn [mbind option_bind].
  destruct (Z.ltb_spec (Z.of_nat (length a)) n); [lia |].
  destruct (Z.ltb_spec (Z.of_nat (length d)) n); [lia |]. cbn [orb].
  rewrite take_ge, drop_ge by lia. rewrite app_nil_r. reflexivity.
Qed.

Lemma length_replicate_Z {A} (n : Z) (x : A) :
  0 <= n -> Z.of_nat (length (replicate (Z.to_nat n) x)) = n.
Proof. intros Hn. rewrite length_replicate. lia. Qed.

Lemma elem_of_take_l {A} (l : list A) (n : nat) (x : A) :
  x ∈ take n l -> x ∈ l.
Proof.
  intros Hin. rewrite <- (take_drop n l). apply elem_of_app. left. exact Hin.
Qed.

(** Every array of a pyramid is live. *)
Lemma pyramid_live (k : Z) (h : heap) (bd bmin bmax : list ptr) (m : nat)
    (p : ptr) :
  pyramid k h bd bmin bmax m ->
  p ∈ bd ++ bmin ++ bmax -> is_Some (h !! p).
Proof.
  intros (_ & _ & _ & _ & _ & _ & Hlive) Hin.
  rewrite !elem_of_app in Hin.
  destruct Hin as [Hin | [Hin | Hin]]; apply list_elem_of_lookup in Hin as [i Hi];
    destruct (Hlive i p) as (arr & Harr & _); eauto.
Qed.

Lemma pyramid_fresh (k : Z) (h : heap) (bd bmin bmax : list ptr) (m : nat)
    (p : ptr) :
  pyramid k h bd bmin bmax m -> h !! p = None -> p ∉ bd ++ bmin ++ bmax.
Proof.
  intros Hpyr Hnone Hin.
  destruct (pyramid_live k h bd bmin bmax m p Hpyr Hin) as [arr Harr].
  congruence.
Qed.

(** A new scale with a min and a max array of its own. *)
Lemma pyramid_push_separate (k : Z) (h h' : heap) (bd bmin bmax : list ptr)
    (pd pmin pmax : ptr) (ad amin amax : list Data) :
  pyramid k h bd bmin bmax (length bd) ->
  Z.of_nat (length bd) <= k ->
  h !! pd = None -> h !! pmin = None -> h !! pmax = None ->
  pd <> pmin -> pd <> pmax -> pmin <> pmax ->
  (forall q arr, h !! q = Some arr -> h' !! q = Some arr) ->
  h' !! pd = Some ad -> h' !! pmin = Some amin -> h' !! pmax = Some amax ->
  Z.of_nat (length ad) = cu (2 ^ k ≫ (k - Z.of_nat (length bd))) ->
  Z.of_nat (length amin) = cu (2 ^ k ≫ (k - Z.of_nat (length bd))) ->
  Z.of_nat (length amax) = cu (2 ^ k ≫ (k - Z.of_nat (length bd))) ->
  pyramid k h' (bd ++ [pd]) (bmin ++ [pmin]) (bmax ++ [pmax]) (S (length bd)).
Proof.
  intros Hpyr Hk Hd Hmin Hmax Hdm Hdx Hmx Hext Had Hamin Hamax Hld Hlmin Hlmax.
  pose proof (pyramid_fresh _ _ _ _ _ _ pd Hpyr Hd) as Fd.
  pose proof (pyramid_fresh _ _ _ _ _ _ pmin Hpyr Hmin) as Fmin.
  pose proof (pyramid_fresh _ _ _ _ _ _ pmax Hpyr Hmax) as Fmax.
  destruct Hpyr as (Lmin & Lmax & Lk & Hnd & Dmin & Dmax & Hlive).
  unfold pyramid. rewrite !length_app. cbn [length].
  split; [lia |]. split; [lia |]. split; [lia |].
  rewrite !take_ge in Hnd by lia.
  rewrite !take_ge by (rewrite length_app; cbn; lia).
  rewrite !drop_ge by (rewrite length_app; cbn; lia).
  split; [| split; [reflexivity | split; [reflexivity |]]].
  - assert (P : (bd ++ [pd]) ++ (bmin ++ [pmin]) ++ (bmax ++ [pmax])
                ≡ₚ pd :: pmin :: pmax :: (bd ++ bmin ++ bmax))
      by solve_Permutation.
    rewrite P. rewrite !NoDup_cons, !elem_of_cons.
    split; [| split; [| split; [| exact Hnd]]]; intuition congruence.
  - intros i p Hi.
    destruct (decide (i < length bd)%nat) as [Hlt | Hge].
    + rewrite !lookup_app_l in Hi by lia.
      destruct (Hlive i p Hi) as (arr & Harr & Hlen).
      exists arr. split; [apply Hext; exact Harr | exact Hlen].
    + destruct (decide (i = length bd)) as [-> | Hne].
      * rewrite lookup_app_r in Hi by lia.
        rewrite (lookup_app_r bmin) in Hi by lia.
        rewrite (lookup_app_r bmax) in Hi by lia.
        rewrite Lmin, Lmax, Nat.sub_diag in Hi. cbn in Hi.
        destruct Hi as [[= <-] | [[= <-] | [= <-]]]; eauto.
      * exfalso. destruct Hi as [Hi | [Hi | Hi]];
          apply lookup_lt_Some in Hi; rewrite length_app in Hi; cbn in Hi; lia.
Qed.

(** A new finest scale, shared by the three pyramids. *)
Lemma pyramid_push_shared (k : Z) (h h' : heap) (bd bmin bmax : list ptr)
    (pd : ptr) (ad : list Data) :
  pyramid k h bd bmin bmax (length bd) ->
  Z.of_nat (length bd) <= k ->
  h !! pd = None ->
  (forall q arr, h !! q = Some arr -> h' !! q = Some arr) ->
  h' !! pd = Some ad ->
  Z.of_nat (length ad) = cu (2 ^ k ≫ (k - Z.of_nat (length bd))) ->
  pyramid k h' (bd ++ [pd]) (bmin ++ [pd]) (bmax ++ [pd]) (length bd).
Proof.
  intros Hpyr Hk Hd Hext Had Hld.
  pose proof (pyramid_fresh _ _ _ _ _ _ pd Hpyr Hd) as Fd.
  destruct Hpyr as (Lmin & Lmax & Lk & Hnd & Dmin & Dmax & Hlive).
  unfold pyramid. rewrite !length_app. cbn [length].
  split; [lia |]. split; [lia |]. split; [lia |].
  rewrite !take_ge in Hnd by lia.
  rewrite !take_app_le by lia. rewrite !take_ge by lia.
  rewrite !drop_app_le by lia. rewrite !drop_ge by lia. cbn [app].
  split; [| split; [reflexivity | split; [reflexivity |]]].
  - assert (P : (bd ++ [pd]) ++ bmin ++ bmax ≡ₚ pd :: (bd ++ bmin ++ bmax))
      by solve_Permutation.
    rewrite P. apply NoDup_cons. split; assumption.
  - intros i p Hi.
    destruct (decide (i < length bd)%nat) as [Hlt | Hge].
    + rewrite !lookup_app_l in Hi by lia.
      destruct (Hlive i p Hi) as (arr & Harr & Hlen).
      exists arr. split; [apply Hext; exact Harr | exact Hlen].
    + destruct (decide (i = length bd)) as [-> | Hne].
      * rewrite lookup_app_r in Hi by lia.
        rewrite (lookup_app_r bmin) in Hi by lia.
        rewrite (lookup_app_r bmax) in Hi by lia.
        rewrite Lmin, Lmax, Nat.sub_diag in Hi. cbn in Hi.
        destruct Hi as [[= <-] | [[= <-] | [= <-]]]; eauto.
      * exfalso. destruct Hi as [Hi | [Hi | Hi]];
          apply lookup_lt_Some in Hi; rewrite length_app in Hi; cbn in Hi; lia.
Qed.

(** The shared finest scale gets a min and a max array of its own. *)
Lemma pyramid_unshare (k : Z) (h h' : heap) (bd bmin bmax : list ptr)
    (pmin pmax : ptr) (amin amax : list Data) :
  (0 < length bd)%nat ->
  pyramid k h bd bmin bmax (length bd - 1) ->
  h !! pmin = None -> h !! pmax = None -> pmin <> pmax ->
  (forall q arr, h !! q = Some arr -> h' !! q = Some arr) ->
  h' !! pmin = Some amin -> h' !! pmax = Some amax ->
  Z.of_nat (length amin) = cu (2 ^ k ≫ (k - (Z.of_nat (length bd) - 1))) ->
  Z.of_nat (length amax) = cu (2 ^ k ≫ (k - (Z.of_nat (length bd) - 1))) ->
  pyramid k h' bd (take (length bd - 1) bmin ++ [pmin])
    (take (length bd - 1) bmax ++ [pmax]) (length bd).
Proof.
  intros Hpos Hpyr Hmin Hmax Hmx Hext Hamin Hamax Hlmin Hlmax.
  pose proof (pyramid_fresh _ _ _ _ _ _ pmin Hpyr Hmin) as Fmin.
  pose proof (pyramid_fresh _ _ _ _ _ _ pmax Hpyr Hmax) as Fmax.
  destruct Hpyr as (Lmin & Lmax & Lk & Hnd & Dmin & Dmax & Hlive).
  assert (Ltmin : length (take (length bd - 1) bmin ++ [pmin]) = length bd).
  { rewrite length_app, length_take. cbn. lia. }
  assert (Ltmax : length (take (length bd - 1) bmax ++ [pmax]) = length bd).
  { rewrite length_app, length_take. cbn. lia. }
  unfold pyramid. rewrite Ltmin, Ltmax.
  split; [reflexivity |]. split; [reflexivity |]. split; [exact Lk |].
  rewrite !drop_ge by lia.
  rewrite (take_ge (_ ++ [pmin])), (take_ge (_ ++ [pmax])) by lia.
  split; [| split; [reflexivity | split; [reflexivity |]]].
  - assert (P : bd ++ (take (length bd - 1) bmin ++ [pmin])
                   ++ (take (length bd - 1) bmax ++ [pmax])
                ≡ₚ pmin :: pmax
                   :: (bd ++ take (length bd - 1) bmin ++ take (length bd - 1) bmax))
      by solve_Permutation.
    rewrite P.
    assert (Hsub : forall q, q ∈ bd ++ take (length bd - 1) bmin
                                  ++ take (length bd - 1) bmax ->
                             q ∈ bd ++ bmin ++ bmax).
    { intros q. rewrite !elem_of_app.
      intros [? | [? | ?]]; eauto using elem_of_take_l. }
    repeat (apply NoDup_cons; split); try exact Hnd.
    + rewrite elem_of_cons. intros [? | ?]; [congruence |]. apply Fmin, Hsub. assumption.
    + intros ?. apply Fmax, Hsub. assumption.
  - intros i p Hi.
    destruct (decide (i < length bd - 1)%nat) as [Hlt | Hge].
    + rewrite !lookup_app_l in Hi by (rewrite length_take; lia).
      rewrite !lookup_take_lt in Hi by lia.
      destruct (Hlive i p Hi) as (arr & Harr & Hlen).
      exists arr. split; [apply Hext; exact Harr | exact Hlen].
    + destruct Hi as [Hi | Hi].
      { destruct (Hlive i p (or_introl Hi)) as (arr & Harr & Hlen).
        exists arr. split; [apply Hext; exact Harr | exact Hlen]. }
      assert (i = (length bd - 1)%nat) as ->.
      { destruct Hi as [Hi | Hi]; apply lookup_lt_Some in Hi; lia. }
      rewrite !lookup_app_r in Hi by (rewrite length_take; lia).
      rewrite !length_take in Hi.
      replace (length bd - 1 - (length bd - 1) `min` length bmin)%nat with 0%nat in Hi by lia.
      replace (length bd - 1 - (length bd - 1) `min` length bmax)%nat with 0%nat in Hi by lia.
      cbn in Hi. replace (k - Z.of_nat (length bd - 1)) with (k - (Z.of_nat (length bd) - 1)) by lia.
      destruct Hi as [[= <-] | [= <-]]; eauto.
Qed.

Section allocate_down.

Variable init_values : Data -> Z -> list Data.
Hypothesis Hfill :
  forall d n, 0 <= n -> Z.of_nat (length (init_values d n)) = n.
Variables (k : Z) (b : BlockMultiRes) (new_min_scale : Z).
Hypothesis Hk : 0 <= k < 31.
Hypothesis Hnew : 0 <= new_min_scale <= k.

Lemma new_array_inv (h h1 : heap) (n : Z) (p : ptr) :
  new_array h n = (p, h1) ->
  h !! p = None /\ h1 = <[p := replicate (Z.to_nat n) default_data]> h.
Proof.
  intros E. pose proof (new_array_fresh h n) as [F I].
  rewrite E in F, I. cbn in F, I. split; assumption.
Qed.

Lemma allocateDownTo_step_separate (h : heap) (bd bmin bmax : list ptr)
    (scale : Z) :
  pyramid k h bd bmin bmax (length bd) ->
  scale = k - Z.of_nat (length bd) -> new_min_scale < scale ->
  exists h' pd pmin pmax,
    allocateDownTo_step (2 ^ k) init_values b new_min_scale (h, bd, bmin, bmax) scale
    = Some (h', bd ++ [pd], bmin ++ [pmin], bmax ++ [pmax])
    /\ pyramid k h' (bd ++ [pd]) (bmin ++ [pmin]) (bmax ++ [pmax])
         (S (length bd))
    /\ h ⊆ h'
    /\ (forall q, is_Some (h' !! q) ->
                  is_Some (h !! q) \/ q = pd \/ q = pmin \/ q = pmax)
    /\ (h !! pd = None /\ h !! pmin = None /\ h !! pmax = None)
    /\ let a := init_values (init_data_ b) (cu (2 ^ k ≫ scale)) in
       h' !! pd = Some a /\ h' !! pmin = Some a /\ h' !! pmax = Some a.
Proof.
  intros Hpyr Hscale Hlt. unfold allocateDownTo_step.
  destruct (Z.eqb_spec scale new_min_scale) as [| _]; [lia |].
  set (n := cu (2 ^ k ≫ scale)).
  assert (Hn : 0 <= n) by (apply cu_shiftr_nonneg; lia).
  destruct (new_array h n) as [pd h1] eqn:E1.
  destruct (new_array h1 n) as [pmin h2] eqn:E2.
  destruct (new_array h2 n) as [pmax h3] eqn:E3.
  apply new_array_inv in E1 as [F1 ->], E2 as [F2 ->], E3 as [F3 ->].
  apply lookup_insert_None in F2 as [F2 N21].
  apply lookup_insert_None in F3 as [F3 N32].
  apply lookup_insert_None in F3 as [F3 N31].
  set (D := replicate (Z.to_nat n) default_data) in *.
  set (A := init_values (init_data_ b) n).
  assert (LD : Z.of_nat (length D) = n) by (apply length_replicate_Z; exact Hn).
  assert (LA : Z.of_nat (length A) = n) by (apply Hfill; exact Hn).
  rewrite (initialiseData_live init_values _ b pd n D); [| | exact LD].
  2:{ rewrite !lookup_insert_ne by congruence. apply lookup_insert_eq. }
  cbn [mbind option_bind].
  rewrite (copy_array_live _ pd pmin n A D); [| | | exact LA | exact LD].
  2:{ apply lookup_insert_eq. }
  2:{ rewrite !lookup_insert_ne by congruence. apply lookup_insert_eq. }
  cbn [mbind option_bind].
  rewrite (copy_array_live _ pd pmax n A D); [| | | exact LA | exact LD].
  2:{ rewrite lookup_insert_ne by congruence. apply lookup_insert_eq. }
  2:{ rewrite !lookup_insert_ne by congruence. apply lookup_insert_eq. }
  cbn [mbind option_bind].
  set (h' := <[pmax := A]> _).
  assert (Hd : h' !! pd = Some A).
  { unfold h'. rewrite !lookup_insert_ne by congruence. apply lookup_insert_eq. }
  assert (Hmin : h' !! pmin = Some A).
  { unfold h'. rewrite lookup_insert_ne by congruence. apply lookup_insert_eq. }
  assert (Hmax : h' !! pmax = Some A) by apply lookup_insert_eq.
  assert (Hext : h ⊆ h').
  { apply map_subseteq_spec. intros q arr Hq. unfold h'.
    rewrite !lookup_insert_ne by congruence. exact Hq. }
  exists h', pd, pmin, pmax. split; [reflexivity |].
  split; [| split; [exact Hext | split; [| split; [auto |]]]].
  - apply (pyramid_push_separate k h h' bd bmin bmax pd pmin pmax A A A);
      try assumption; try congruence; try lia.
    + intros q arr Hq. exact (lookup_weaken _ _ _ _ Hq Hext).
    + rewrite <- Hscale. exact LA.
    + rewrite <- Hscale. exact LA.
    + rewrite <- Hscale. exact LA.
  - intros q Hq. unfold h' in Hq.
    destruct (decide (q = pmax)) as [-> | ?]; [auto |].
    destruct (decide (q = pmin)) as [-> | ?]; [auto |].
    destruct (decide (q = pd)) as [-> | ?]; [auto |].
    rewrite !lookup_insert_ne in Hq by congruence. auto.
  - cbv zeta. fold n. fold A. auto.
Qed.


Lemma allocateDownTo_step_shared (h : heap) (bd bmin bmax : list ptr) :
  pyramid k h bd bmin bmax (length bd) ->
  new_min_scale = k - Z.of_nat (length bd) ->
  exists h' pd,
    allocateDownTo_step (2 ^ k) init_values b new_min_scale (h, bd, bmin, bmax)
      new_min_scale
    = Some (h', bd ++ [pd], bmin ++ [pd], bmax ++ [pd])
    /\ pyramid k h' (bd ++ [pd]) (bmin ++ [pd]) (bmax ++ [pd]) (length bd)
    /\ h ⊆ h'
    /\ (forall q, is_Some (h' !! q) -> is_Some (h !! q) \/ q = pd)
    /\ h !! pd = None
    /\ h' !! pd = Some (init_values (init_data_ b)
                          (cu (2 ^ k ≫ new_min_scale))).
Proof.
  intros Hpyr Hscale. unfold allocateDownTo_step.
  rewrite Z.eqb_refl.
  set (n := cu (2 ^ k ≫ new_min_scale)).
  assert (Hn : 0 <= n) by (apply cu_shiftr_nonneg; lia).
  destruct (new_array h n) as [pd h1] eqn:E1.
  apply new_array_inv in E1 as [F1 ->].
  set (D := replicate (Z.to_nat n) default_data) in *.
  set (A := init_values (init_data_ b) n).
  assert (LD : Z.of_nat (length D) = n) by (apply length_replicate_Z; exact Hn).
  assert (LA : Z.of_nat (length A) = n) by (apply Hfill; exact Hn).
  rewrite (initialiseData_live init_values _ b pd n D); [| apply lookup_insert_eq | exact LD].
  cbn [mbind option_bind]. rewrite insert_insert_eq.
  set (h' := <[pd := A]> h).
  assert (Hd : h' !! pd = Some A) by apply lookup_insert_eq.
  assert (Hext : h ⊆ h') by (apply insert_subseteq; exact F1).
  exists h', pd. split; [reflexivity |].
  split; [| split; [exact Hext | split; [| split; [exact F1 | exact Hd]]]].
  - apply (pyramid_push_shared k h h' bd bmin bmax pd A); try assumption; try lia.
    + intros q arr Hq. exact (lookup_weaken _ _ _ _ Hq Hext).
    + rewrite <- Hscale. exact LA.
  - intros q Hq. unfold h' in Hq.
    destruct (decide (q = pd)) as [-> | ?]; [auto |].
    rewrite lookup_insert_ne in Hq by congruence. auto.
Qed.

Lemma initialised_weaken (h h' : heap) (bd bmin bmax : list ptr) (from : nat) :
  initialised init_values k b h bd bmin bmax from -> h ⊆ h' ->
  initialised init_values k b h' bd bmin bmax from.
Proof.
  intros Hinit Hext i p Hi Hp. eapply lookup_weaken; [| exact Hext].
  apply (Hinit i p Hi Hp).
Qed.

(** The loop of [allocateDownTo] over the [c] scales that are still
    missing. *)
Lemma allocateDownTo_loop (c : nat) :
  forall (h : heap) (bd bmin bmax : list ptr) (from : nat),
    (1 <= c)%nat ->
    pyramid k h bd bmin bmax (length bd) ->
    Z.of_nat (length bd) = k - new_min_scale - Z.of_nat c + 1 ->
    initialised init_values k b h bd bmin bmax from ->
    exists h' bd' bmin' bmax',
      foldM (allocateDownTo_step (2 ^ k) init_values b new_min_scale)
        (reverse (seqZ new_min_scale (Z.of_nat c))) (h, bd, bmin, bmax)
      = Some (h', bd', bmin', bmax')
      /\ pyramid k h' bd' bmin' bmax' (length bd' - 1)
      /\ Z.of_nat (length bd') = k - new_min_scale + 1
      /\ bd `prefix_of` bd' /\ bmin `prefix_of` bmin' /\ bmax `prefix_of` bmax'
      /\ h ⊆ h'
      /\ (forall q, is_Some (h' !! q) ->
                    is_Some (h !! q) \/ q ∈ bd' ++ bmin' ++ bmax')
      /\ (forall q, q ∈ bd' ++ bmin' ++ bmax' ->
                    q ∈ bd ++ bmin ++ bmax \/ h !! q = None)
      /\ initialised init_values k b h' bd' bmin' bmax' from.
Proof.
  induction c as [| c IH]; intros h bd bmin bmax from Hc Hpyr Hlen Hinit; [lia |].
  rewrite seqZ_S, reverse_snoc. cbn [foldM].
  destruct (decide (c = 0)%nat) as [-> | Hc0].
  - replace (new_min_scale + Z.of_nat 0) with new_min_scale by lia.
    destruct (allocateDownTo_step_shared h bd bmin bmax Hpyr ltac:(lia))
      as (h' & pd & -> & Hpyr' & Hext & Hdom & Hfr & Hd).
    cbn. exists h', (bd ++ [pd]), (bmin ++ [pd]), (bmax ++ [pd]).
    split; [reflexivity |].
    rewrite length_app. cbn [length].
    replace (length bd + 1 - 1)%nat with (length bd) by lia.
    split; [exact Hpyr' |]. split; [lia |].
    split; [apply prefix_app_r; reflexivity |].
    split; [apply prefix_app_r; reflexivity |].
    split; [apply prefix_app_r; reflexivity |].
    split; [exact Hext |].
    split.
    { intros q Hq. destruct (Hdom q Hq) as [? | ->]; [auto |].
      right. rewrite !elem_of_app, list_elem_of_singleton. auto. }
    split.
    { intros q. rewrite !elem_of_app, !list_elem_of_singleton.
      intros [[? | ->] | [[? | ->] | [? | ->]]]; auto. }
    destruct Hpyr as (Lmin & Lmax & _).
    intros i p Hi Hp.
    destruct (decide (i < length bd)%nat) as [Hlt | Hge].
    + rewrite !lookup_app_l in Hp by lia.
      eapply lookup_weaken; [| exact Hext]. apply (Hinit i p Hi Hp).
    + assert (i = length bd) as ->.
      { destruct Hp as [Hp | [Hp | Hp]]; apply lookup_lt_Some in Hp;
          rewrite length_app in Hp; cbn in Hp; lia. }
      rewrite lookup_app_r in Hp by lia.
      rewrite (lookup_app_r bmin) in Hp by lia.
      rewrite (lookup_app_r bmax) in Hp by lia.
      rewrite Lmin, Lmax, Nat.sub_diag in Hp. cbn in Hp.
      replace (k - Z.of_nat (length bd)) with new_min_scale by lia.
      destruct Hp as [[= <-] | [[= <-] | [= <-]]]; exact Hd.
  - destruct (allocateDownTo_step_separate h bd bmin bmax
                (new_min_scale + Z.of_nat c) Hpyr ltac:(lia) ltac:(lia))
      as (h1 & pd & pmin & pmax & -> & Hpyr1 & Hext1 & Hdom1 & (Fd & Fmin & Fmax)
          & Hd & Hmin & Hmax).
    cbn [mbind option_bind].
    assert (Hinit1 : initialised init_values k b h1 (bd ++ [pd]) (bmin ++ [pmin]) (bmax ++ [pmax]) from).
    { destruct Hpyr as (Lmin & Lmax & _).
      intros i p Hi Hp.
      destruct (decide (i < length bd)%nat) as [Hlt | Hge].
      + rewrite !lookup_app_l in Hp by lia.
        eapply lookup_weaken; [| exact Hext1]. apply (Hinit i p Hi Hp).
      + assert (i = length bd) as ->.
        { destruct Hp as [Hp | [Hp | Hp]]; apply lookup_lt_Some in Hp;
            rewrite length_app in Hp; cbn in Hp; lia. }
        rewrite lookup_app_r in Hp by lia.
        rewrite (lookup_app_r bmin) in Hp by lia.
        rewrite (lookup_app_r bmax) in Hp by lia.
        rewrite Lmin, Lmax, Nat.sub_diag in Hp. cbn in Hp.
        replace (k - Z.of_nat (length bd)) with (new_min_scale + Z.of_nat c) by lia.
        destruct Hp as [[= <-] | [[= <-] | [= <-]]]; assumption. }
    assert (Hl1 : length (bd ++ [pd]) = S (length bd))
      by (rewrite length_app; cbn; lia).
    rewrite <- Hl1 in Hpyr1.
    destruct (IH h1 (bd ++ [pd]) (bmin ++ [pmin]) (bmax ++ [pmax]) from
                ltac:(lia) Hpyr1 ltac:(lia) Hinit1)
      as (h' & bd' & bmin' & bmax' & Hfold & Hpyr' & Hlen' & Pd & Pmin & Pmax
          & Hext' & Hdom' & Hfr' & Hinit').
    exists h', bd', bmin', bmax'. split; [exact Hfold |].
    split; [exact Hpyr' |]. split; [exact Hlen' |].
    split; [etrans; [apply prefix_app_r; reflexivity | exact Pd] |].
    split; [etrans; [apply prefix_app_r; reflexivity | exact Pmin] |].
    split; [etrans; [apply prefix_app_r; reflexivity | exact Pmax] |].
    split; [etrans; eassumption |]. split; [| split; [| exact Hinit']].
    2:{ intros q Hq. destruct (Hfr' q Hq) as [Hq1 | Hq1].
        - rewrite !elem_of_app, !list_elem_of_singleton in Hq1.
          rewrite !elem_of_app.
          destruct Hq1 as [[? | ->] | [[? | ->] | [? | ->]]]; auto.
        - right. destruct (h !! q) as [a |] eqn:Ha; [| reflexivity].
          rewrite (lookup_weaken _ _ _ _ Ha Hext1) in Hq1. discriminate. }
    intros q Hq. destruct (Hdom' q Hq) as [Hq1 | ?]; [| auto].
    destruct (Hdom1 q Hq1) as [? | Hq2]; [auto |]. right.
    rewrite !elem_of_app.
    destruct Hq2 as [-> | [-> | ->]].
    + left. apply (elem_of_prefix _ _ _ (proj2 (elem_of_app _ _ _) (or_intror (list_elem_of_here _ _))) Pd).
    + right. left. apply (elem_of_prefix _ _ _ (proj2 (elem_of_app _ _ _) (or_intror (list_elem_of_here _ _))) Pmin).
    + right. right. apply (elem_of_prefix _ _ _ (proj2 (elem_of_app _ _ _) (or_intror (list_elem_of_here _ _))) Pmax).
Qed.

End allocate_down.

Lemma finer_than_allocated_pyramid (k : Z) (b : BlockMultiRes) (s : Z) :
  0 <= k < 31 -> (0 < length (block_data_ b))%nat ->
  Z.of_nat (length (block_data_ b)) <= k + 1 ->
  finest_allocated k b <= s <= k ->
  finer_than_allocated (2 ^ k) b s = false.
Proof.
  intros Hk Hpos Hlen Hs. unfold finest_allocated in Hs.
  unfold finer_than_allocated, to_size_t. rewrite log2_pow2 by lia.
  rewrite (Z.mod_small k), (Z.mod_small (_ - 1)), (Z.mod_small s), Z.mod_small
    by lia.
  apply Z.ltb_ge. lia.
Qed.

Lemma allocateDownTo_spec (init_values : Data -> Z -> list Data) (k : Z)
    (h : heap) (b : BlockMultiRes) (new_min_scale : Z) :
  (forall d n, 0 <= n -> Z.of_nat (length (init_values d n)) = n) ->
  0 <= k < 31 -> pyramid_inv k h b -> 0 <= new_min_scale <= k ->
  (finest_allocated k b <= new_min_scale ->
   allocateDownTo (2 ^ k) init_values h b new_min_scale = Some (h, b))
  /\ (new_min_scale < finest_allocated k b ->
      exists h' b',
        allocateDownTo (2 ^ k) init_values h b new_min_scale = Some (h', b')
        /\ pyramid_inv k h' b'
        /\ finest_allocated k b' = new_min_scale
        /\ min_scale b' = new_min_scale /\ current_scale b' = new_min_scale
        /\ curr_data_ b' = last (block_data_ b')
        /\ buffer_data_ b' = buffer_data_ b
        /\ block_data_ b `prefix_of` block_data_ b'
        /\ h ⊆ h'
        /\ (forall q, is_Some (h' !! q) ->
                      is_Some (h !! q)
                      \/ q ∈ block_data_ b' ++ block_min_data_ b'
                              ++ block_max_data_ b')
        /\ (forall q, q ∈ block_data_ b' ++ block_min_data_ b'
                           ++ block_max_data_ b' ->
                      q ∈ block_data_ b ++ block_min_data_ b
                          ++ block_max_data_ b
                      \/ h !! q = None)
        /\ initialised init_values k b h' (block_data_ b') (block_min_data_ b')
             (block_max_data_ b') (length (block_data_ b))
        /\ exists pmin pmax,
             block_min_data_ b' !! (length (block_data_ b) - 1)%nat = Some pmin
             /\ block_max_data_ b' !! (length (block_data_ b) - 1)%nat = Some pmax
             /\ h !! pmin = None /\ h !! pmax = None
             /\ forall p, last (block_data_ b) = Some p ->
                  h' !! pmin = h !! p /\ h' !! pmax = h !! p).
Proof.
  intros Hfill Hk (Hpos & Hpyr) Hnew.
  pose proof Hpyr as (Lmin & Lmax & Lk & Hnd & Dmin & Dmax & Hlive).
  unfold allocateDownTo. rewrite log2_pow2 by lia.
  destruct (Z.leb_spec 0 new_min_scale); [| lia].
  destruct (Z.leb_spec new_min_scale k); [| lia]. cbn [andb].
  split.
  - intros Hfin. rewrite finer_than_allocated_pyramid; auto with lia.
  - intros Hfin. unfold finest_allocated in Hfin |- *.
    rewrite finer_than_allocated_true; [| lia | | lia].
    2:{ intros E. rewrite E in Hpos. cbn in Hpos. lia. }
    set (L := length (block_data_ b)) in *.
    rewrite !pop_back_Some by (intros E; rewrite E in *; cbn in *; lia).
    cbn [mbind option_bind]. rewrite Lmin, Lmax.
    unfold to_size_t. rewrite Z.mod_small by lia.
    destruct (Z.leb_spec 32 (k - (Z.of_nat L - 1))); [lia |].
    set (n := cu (2 ^ k ≫ (k - (Z.of_nat L - 1)))).
    assert (Hn : 0 <= n) by (apply cu_shiftr_nonneg; lia).
    destruct (new_array h n) as [pmin h1] eqn:E1.
    destruct (new_array h1 n) as [pmax h2] eqn:E2.
    apply new_array_inv in E1 as [F1 ->], E2 as [F2 ->].
    apply lookup_insert_None in F2 as [F2 N21].
    set (D := replicate (Z.to_nat n) default_data) in *.
    assert (LD : Z.of_nat (length D) = n) by (apply length_replicate_Z; exact Hn).
    destruct (lookup_lt_is_Some_2 (block_data_ b) (L - 1)%nat ltac:(lia))
      as [pd Hpd].
    destruct (Hlive (L - 1)%nat pd (or_introl Hpd)) as (arr & Harr & Hlarr).
    replace (k - Z.of_nat (L - 1)) with (k - (Z.of_nat L - 1)) in Hlarr by lia.
    fold n in Hlarr.
    assert (Hat : at_ (block_data_ b) (Z.of_nat L - 1) = Some pd).
    { unfold at_. destruct (Z.ltb_spec (Z.of_nat L - 1) 0); [lia |].
      replace (Z.to_nat (Z.of_nat L - 1)) with (L - 1)%nat by lia. exact Hpd. }
    rewrite Hat. cbn [mbind option_bind].
    assert (Npd1 : pd <> pmin) by congruence.
    assert (Npd2 : pd <> pmax) by congruence.
    rewrite (copy_array_live _ pd pmin n arr D); [| | | exact Hlarr | exact LD].
    2:{ rewrite !lookup_insert_ne by congruence. exact Harr. }
    2:{ rewrite lookup_insert_ne by congruence. apply lookup_insert_eq. }
    cbn [mbind option_bind].
    rewrite (copy_array_live _ pd pmax n arr D); [| | | exact Hlarr | exact LD].
    2:{ rewrite !lookup_insert_ne by congruence. exact Harr. }
    2:{ rewrite lookup_insert_ne by congruence. apply lookup_insert_eq. }
    cbn [mbind option_bind].
    set (h3 := <[pmax := arr]> _).
    assert (Hmin3 : h3 !! pmin = Some arr).
    { unfold h3. rewrite lookup_insert_ne by congruence. apply lookup_insert_eq. }
    assert (Hmax3 : h3 !! pmax = Some arr) by apply lookup_insert_eq.
    assert (Hext3 : h ⊆ h3).
    { apply map_subseteq_spec. intros q a Hq. unfold h3.
      rewrite !lookup_insert_ne by congruence. exact Hq. }
    pose proof (pyramid_unshare k h h3 (block_data_ b) (block_min_data_ b)
                  (block_max_data_ b) pmin pmax arr arr Hpos Hpyr F1 F2
                  ltac:(congruence)
                  (fun q a Hq => lookup_weaken _ _ _ _ Hq Hext3)
                  Hmin3 Hmax3 Hlarr Hlarr) as Hpyr3.
    fold L in Hpyr3.
    set (bmin0 := take (L - 1) (block_min_data_ b) ++ [pmin]) in *.
    set (bmax0 := take (L - 1) (block_max_data_ b) ++ [pmax]) in *.
    assert (Hinit3 : initialised init_values k b h3 (block_data_ b) bmin0 bmax0 L).
    { intros i p Hi Hp. exfalso.
      destruct Hpyr3 as (Lmin3 & Lmax3 & _).
      destruct Hp as [Hp | [Hp | Hp]]; apply lookup_lt_Some in Hp; lia. }
    replace (k - Z.of_nat L - new_min_scale + 1)
      with (Z.of_nat (Z.to_nat (k - Z.of_nat L - new_min_scale + 1))) by lia.
    destruct (allocateDownTo_loop init_values Hfill k b new_min_scale Hk Hnew
                (Z.to_nat (k - Z.of_nat L - new_min_scale + 1))
                h3 (block_data_ b) bmin0 bmax0 L ltac:(lia) Hpyr3 ltac:(lia)
                Hinit3)
      as (h' & bd' & bmin' & bmax' & -> & Hpyr' & Hlen' & Pd & Pmin & Pmax
          & Hext' & Hdom' & Hfr' & Hinit').
    cbn [mbind option_bind].
    assert (Hcur : at_ bd' (k - new_min_scale) = last bd').
    { unfold at_. destruct (Z.ltb_spec (k - new_min_scale) 0); [lia |].
      rewrite last_lookup. f_equal. lia. }
    rewrite Hcur.
    destruct (last bd') as [pc |] eqn:Hlast.
    2:{ apply last_None in Hlast. subst bd'. cbn in Hlen'. lia. }
    cbn [mbind option_bind]. eexists _, _. split; [reflexivity |].
    unfold pyramid_inv.
    cbn [block_data_ block_min_data_ block_max_data_ min_scale current_scale
         curr_data_ buffer_data_].
    split; [split; [lia | exact Hpyr'] |].
    split; [lia |]. split; [reflexivity |]. split; [reflexivity |].
    split; [symmetry; exact Hlast |]. split; [reflexivity |].
    split; [exact Pd |].
    assert (Hi0 : bmin0 !! (L - 1)%nat = Some pmin).
    { unfold bmin0. rewrite lookup_app_r by (rewrite length_take; lia).
      rewrite length_take. replace (L - 1 - (L - 1) `min` length (block_min_data_ b))%nat
        with 0%nat by lia. reflexivity. }
    assert (Hi1 : bmax0 !! (L - 1)%nat = Some pmax).
    { unfold bmax0. rewrite lookup_app_r by (rewrite length_take; lia).
      rewrite length_take. replace (L - 1 - (L - 1) `min` length (block_max_data_ b))%nat
        with 0%nat by lia. reflexivity. }
    split; [etrans; eassumption |].
    split.
    { intros q Hq. destruct (Hdom' q Hq) as [Hq3 | ?]; [| auto].
      unfold h3 in Hq3.
      destruct (decide (q = pmax)) as [-> | ?].
      { right. rewrite !elem_of_app. right. right.
        exact (list_elem_of_lookup_2 _ _ _ (prefix_lookup_Some _ _ _ _ Hi1 Pmax)). }
      destruct (decide (q = pmin)) as [-> | ?].
      { right. rewrite !elem_of_app. right. left.
        exact (list_elem_of_lookup_2 _ _ _ (prefix_lookup_Some _ _ _ _ Hi0 Pmin)). }
      rewrite !lookup_insert_ne in Hq3 by congruence. auto. }
    split.
    { intros q Hq. destruct (Hfr' q Hq) as [Hq1 | Hq1].
      - unfold bmin0, bmax0 in Hq1. rewrite !elem_of_app in Hq1.
        rewrite !elem_of_app. rewrite !list_elem_of_singleton in Hq1.
        destruct Hq1 as [? | [[? | ->] | [? | ->]]];
          eauto using elem_of_take_l.
      - right. destruct (h !! q) as [a |] eqn:Ha; [| reflexivity].
        rewrite (lookup_weaken _ _ _ _ Ha Hext3) in Hq1. discriminate. }
    split; [exact Hinit' |].
    exists pmin, pmax.
    split; [exact (prefix_lookup_Some _ _ _ _ Hi0 Pmin) |].
    split; [exact (prefix_lookup_Some _ _ _ _ Hi1 Pmax) |].
    split; [exact F1 |]. split; [exact F2 |].
    intros p Hp. rewrite last_lookup in Hp.
    replace (Init.Nat.pred (length (block_data_ b))) with (L - 1)%nat in Hp
      by (unfold L; lia).
    rewrite Hpd in Hp. injection Hp as <-. rewrite Harr.
    split; eapply lookup_weaken; eauto.
Qed.

(** X10: [allocateDownTo] on a block whose pyramids are well formed. A
    scale that is already allocated changes nothing. A finer scale extends
    the three pyramids down to it and keeps them well formed: that scale
    becomes the finest allocated scale, [min_scale] and [current_scale],
    and [curr_data_] its mean array; the buffer is not touched. No array
    that was live is lost or changed, every array that became live belongs
    to the pyramids, and every array added to the pyramids is new. The new
    scales hold what [initialiseData] stores, and the old finest scale gets
    a min and a max array that are copies of its mean array. *)
Theorem allocateDownTo_extends_pyramid
    (init_values : Data -> Z -> list Data) (k : Z) (h : heap)
    (b : BlockMultiRes) (new_min_scale : Z) :
  (forall d n, 0 <= n -> Z.of_nat (length (init_values d n)) = n) ->
  0 <= k < 31 -> pyramid_inv k h b -> 0 <= new_min_scale <= k ->
  (finest_allocated k b <= new_min_scale ->
   allocateDownTo (2 ^ k) init_values h b new_min_scale = Some (h, b))
  /\ (new_min_scale < finest_allocated k b ->
      exists h' b',
        allocateDownTo (2 ^ k) init_values h b new_min_scale = Some (h', b')
        /\ pyramid_inv k h' b'
        /\ finest_allocated k b' = new_min_scale
        /\ min_scale b' = new_min_scale /\ current_scale b' = new_min_scale
        /\ curr_data_ b' = last (block_data_ b')
        /\ buffer_data_ b' = buffer_data_ b
        /\ block_data_ b `prefix_of` block_data_ b'
        /\ h ⊆ h'
        /\ (forall q, is_Some (h' !! q) ->
                      is_Some (h !! q)
                      \/ q ∈ block_data_ b' ++ block_min_data_ b'
                              ++ block_max_data_ b')
        /\ (forall q, q ∈ block_data_ b' ++ block_min_data_ b'
                           ++ block_max_data_ b' ->
                      q ∈ block_data_ b ++ block_min_data_ b
                          ++ block_max_data_ b
                      \/ h !! q = None)
        /\ initialised init_values k b h' (block_data_ b') (block_min_data_ b')
             (block_max_data_ b') (length (block_data_ b))
        /\ exists pmin pmax,
             block_min_data_ b' !! (length (block_data_ b) - 1)%nat = Some pmin
             /\ block_max_data_ b' !! (length (block_data_ b) - 1)%nat = Some pmax
             /\ h !! pmin = None /\ h !! pmax = None
             /\ forall p, last (block_data_ b) = Some p ->
                  h' !! pmin = h !! p /\ h' !! pmax = h !! p).
Proof. exact (allocateDownTo_spec init_values k h b new_min_scale). Qed.

Lemma BlockMultiRes_ctor_spec (init_values : Data -> Z -> list Data) (k : Z)
    (h : heap) (members : BlockMultiRes) (init_data : Data) :
  Z.of_nat (length (init_values init_data 1)) = 1 -> 0 <= k ->
  exists h' b p,
    BlockMultiRes_ctor init_values h members init_data = Some (h', b)
    /\ h !! p = None /\ h' = <[p := init_values init_data 1]> h
    /\ block_data_ b = [p] /\ block_min_data_ b = [p]
    /\ block_max_data_ b = [p] /\ curr_data_ b = Some p
    /\ init_data_ b = init_data
    /\ buffer_data_ b = buffer_data_ members
    /\ min_scale b = min_scale members
    /\ pyramid_inv k h' b /\ finest_allocated k b = k.
Proof.
  intros Hfill Hk. unfold BlockMultiRes_ctor.
  destruct (new_array h 1) as [p h1] eqn:E1.
  apply new_array_inv in E1 as [F1 ->].
  rewrite (initialiseData_live init_values _ _ p 1 [default_data]);
    [| apply lookup_insert_eq | reflexivity].
  cbn [mbind option_bind init_data_]. rewrite insert_insert_eq.
  eexists _, _, p. split; [reflexivity |].
  cbn [block_data_ block_min_data_ block_max_data_ curr_data_ buffer_data_
       init_data_ min_scale app].
  do 9 (split; [reflexivity || exact F1 |]).
  unfold pyramid_inv, finest_allocated, pyramid.
  cbn [block_data_ block_min_data_ block_max_data_ length Nat.sub take drop
       app].
  split; [| lia]. split; [lia |].
  split; [reflexivity |]. split; [reflexivity |]. split; [lia |].
  split; [apply NoDup_singleton |]. split; [reflexivity |].
  split; [reflexivity |].
  intros i q Hi.
  assert (i = 0%nat /\ q = p) as [-> ->].
  { destruct Hi as [Hi | [Hi | Hi]];
      apply list_lookup_singleton_Some in Hi as [-> ->]; auto. }
  exists (init_values init_data 1). split; [apply lookup_insert_eq |].
  rewrite Z.sub_0_r, Z.shiftr_div_pow2, Z.div_same by lia. exact Hfill.
Qed.

(** X11: the constructor of an occupancy block allocates exactly one new
    array, the single voxel of the coarsest scale as [initialiseData]
    leaves it, and makes it the only entry of the mean, the min and the max
    pyramid and the current data. The pyramids are well formed and the
    coarsest scale is the finest allocated one. *)
Theorem BlockMultiRes_ctor_pyramid (init_values : Data -> Z -> list Data)
    (k : Z) (h : heap) (members : BlockMultiRes) (init_data : Data) :
  Z.of_nat (length (init_values init_data 1)) = 1 -> 0 <= k ->
  exists h' b p,
    BlockMultiRes_ctor init_values h members init_data = Some (h', b)
    /\ h !! p = None /\ h' = <[p := init_values init_data 1]> h
    /\ block_data_ b = [p] /\ block_min_data_ b = [p]
    /\ block_max_data_ b = [p] /\ curr_data_ b = Some p
    /\ init_data_ b = init_data
    /\ buffer_data_ b = buffer_data_ members
    /\ min_scale b = min_scale members
    /\ pyramid_inv k h' b /\ finest_allocated k b = k.
Proof. exact (BlockMultiRes_ctor_spec init_values k h members init_data). Qed.

Lemma fill_length (d : Data) (n : Z) :
  0 <= n -> Z.of_nat (length (samples.fill d n)) = n.
Proof. intros Hn. unfold samples.fill. rewrite length_replicate. lia. Qed.

(** The constructor on an empty heap. *)
Lemma BlockMultiRes_ctor_pyramid_witness :
  exists h' b p,
    BlockMultiRes_ctor samples.fill ∅ samples.new_members
      (fixtures.voxel (-1) 3 true) = Some (h', b)
    /\ h' = {[p := [fixtures.voxel (-1) 3 true]]}
    /\ block_data_ b = [p] /\ block_min_data_ b = [p]
    /\ block_max_data_ b = [p]
    /\ pyramid_inv 1 h' b.
Proof.
  destruct (BlockMultiRes_ctor_pyramid samples.fill 1 ∅ samples.new_members
              (fixtures.voxel (-1) 3 true))
    as (h' & b & p & Hc & _ & Hh & Hd & Hmin & Hmax & _ & _ & _ & _ & Hinv & _);
    [reflexivity | lia |].
  exists h', b, p. split; [exact Hc |]. split; [exact Hh |]. auto.
Defined.

(** The block of side 2 that holds only its coarsest scale, allocated down
    to scale 0. *)
Lemma allocateDownTo_extends_pyramid_witness :
  exists h' b',
    allocateDownTo 2 samples.fill fixtures.coarse_heap fixtures.coarse_block 0
    = Some (h', b')
    /\ pyramid_inv 1 h' b' /\ finest_allocated 1 b' = 0
    /\ min_scale b' = 0 /\ current_scale b' = 0
    /\ fixtures.coarse_heap ⊆ h'.
Proof.
  destruct (allocateDownTo_extends_pyramid samples.fill 1 fixtures.coarse_heap
              fixtures.coarse_block 0) as [_ Halloc];
    [exact fill_length | lia | concrete_pyramid_inv | lia |].
  destruct Halloc as (h' & b' & Ha & Hinv & Hfin & Hmin & Hcur & _ & _ & _
                      & Hext & _); [unfold finest_allocated; cbn; lia |].
  exists h', b'. auto 10.
Defined.

End block_alloc_facts.

(** ** The storage of an occupancy block: deletion and destruction *)

Section block_free_facts.
Import cxx occupancy block block_alloc updater.
Local Open Scope Z_scope.

Lemma frees_nil (h : heap) : frees h [] h.
Proof. intros q. rewrite decide_False; [reflexivity | apply not_elem_of_nil]. Qed.

Lemma frees_delete (h : heap) (p : ptr) : frees h [p] (delete p h).
Proof.
  intros q. destruct (decide (q ∈ [p])) as [Hin | Hn].
  - apply list_elem_of_singleton in Hin as ->. apply lookup_delete_eq.
  - rewrite lookup_delete_ne; [reflexivity |]. intros ->. apply Hn. left.
Qed.

Lemma frees_trans (h h1 h2 : heap) (f1 f2 : list ptr) :
  frees h f1 h1 -> frees h1 f2 h2 -> frees h (f1 ++ f2) h2.
Proof.
  intros H1 H2 q. rewrite (H2 q), (H1 q).
  destruct (decide (q ∈ f2)), (decide (q ∈ f1)), (decide (q ∈ f1 ++ f2)) as [Hin | Hn];
    try reflexivity; try (exfalso; apply Hn; apply elem_of_app; auto; fail).
  apply elem_of_app in Hin as [? | ?]; contradiction.
Qed.

Lemma frees_equiv (h h' : heap) (f f' : list ptr) :
  (forall q, q ∈ f <-> q ∈ f') -> frees h f h' -> frees h f' h'.
Proof.
  intros E H q. rewrite (H q).
  destruct (decide (q ∈ f)) as [Hin | Hn], (decide (q ∈ f')) as [Hin' | Hn'];
    try reflexivity.
  - exfalso. apply Hn', E, Hin.
  - exfalso. apply Hn, E, Hin'.
Qed.

Lemma at_last {A} (v : list A) (i : Z) :
  i = Z.of_nat (length v) - 1 -> at_ v i = last v.
Proof.
  intros ->. unfold at_. rewrite last_lookup.
  destruct (Z.ltb_spec (Z.of_nat (length v) - 1) 0).
  - destruct v; [reflexivity | cbn in *; lia].
  - f_equal. lia.
Qed.

Lemma take_last_app {A} (v : list A) (x : A) :
  last v = Some x -> v = take (length v - 1) v ++ [x].
Proof.
  intros Hl.
  destruct v as [| y v] using rev_ind; [discriminate |].
  rewrite last_snoc in Hl. injection Hl as ->.
  rewrite length_app. cbn [length].
  rewrite take_app_le by lia. rewrite take_ge by lia. reflexivity.
Qed.

(** Dropping the last scale of a pyramid whose scales all have a min and a
    max array of their own. *)
Lemma pyramid_pop (k : Z) (h : heap) (bd bmin bmax : list ptr) :
  (0 < length bd)%nat ->
  pyramid k h bd bmin bmax (length bd) ->
  exists pd pmin pmax,
    last bd = Some pd /\ last bmin = Some pmin /\ last bmax = Some pmax
    /\ is_Some (h !! pd) /\ is_Some (delete pd h !! pmin)
    /\ is_Some (delete pmin (delete pd h) !! pmax)
    /\ pyramid k (delete pmax (delete pmin (delete pd h)))
         (take (length bd - 1) bd) (take (length bd - 1) bmin)
         (take (length bd - 1) bmax) (length bd - 1).
Proof.
  intros Hpos Hpyr.
  pose proof Hpyr as (Lmin & Lmax & Lk & Hnd & Dmin & Dmax & Hlive).
  destruct (last bd) as [pd |] eqn:Hd.
  2:{ apply last_None in Hd. subst bd. cbn in Hpos. lia. }
  destruct (last bmin) as [pmin |] eqn:Hmin.
  2:{ apply last_None in Hmin. subst bmin. cbn in Lmin. lia. }
  destruct (last bmax) as [pmax |] eqn:Hmax.
  2:{ apply last_None in Hmax. subst bmax. cbn in Lmax. lia. }
  exists pd, pmin, pmax. do 3 (split; [reflexivity |]).
  pose proof (take_last_app _ _ Hd) as Ed.
  pose proof (take_last_app _ _ Hmin) as Emin.
  pose proof (take_last_app _ _ Hmax) as Emax.
  rewrite Lmin in Emin. rewrite Lmax in Emax.
  set (m := (length bd - 1)%nat) in *.
  set (bd1 := take m bd) in *. set (bmin1 := take m bmin) in *.
  set (bmax1 := take m bmax) in *.
  rewrite !take_ge in Hnd by lia.
  assert (P : bd ++ bmin ++ bmax ≡ₚ pd :: pmin :: pmax :: (bd1 ++ bmin1 ++ bmax1)).
  { rewrite Ed, Emin, Emax. solve_Permutation. }
  rewrite P in Hnd.
  apply NoDup_cons in Hnd as [Nd Hnd]. apply NoDup_cons in Hnd as [Nmin Hnd].
  apply NoDup_cons in Hnd as [Nmax Hnd].
  rewrite !not_elem_of_cons in Nd. destruct Nd as (Ndm & Ndx & Nd).
  rewrite not_elem_of_cons in Nmin. destruct Nmin as (Nmx & Nmin).
  assert (Ld : is_Some (h !! pd)).
  { rewrite last_lookup in Hd. destruct (Hlive _ _ (or_introl Hd)) as (a & Ha & _). eauto. }
  assert (Lm : is_Some (h !! pmin)).
  { rewrite last_lookup in Hmin.
    destruct (Hlive _ _ (or_intror (or_introl Hmin))) as (a & Ha & _). eauto. }
  assert (Lx : is_Some (h !! pmax)).
  { rewrite last_lookup in Hmax.
    destruct (Hlive _ _ (or_intror (or_intror Hmax))) as (a & Ha & _). eauto. }
  split; [exact Ld |].
  split; [rewrite lookup_delete_ne by congruence; exact Lm |].
  split; [rewrite !lookup_delete_ne by congruence; exact Lx |].
  assert (Lb1 : length bd1 = m) by (unfold bd1; rewrite length_take; lia).
  unfold pyramid. rewrite Lb1.
  split; [unfold bmin1; rewrite length_take; lia |].
  split; [unfold bmax1; rewrite length_take; lia |].
  split; [lia |].
  rewrite !take_ge by (unfold bmin1, bmax1; rewrite length_take; lia).
  rewrite !drop_ge by (unfold bd1, bmin1, bmax1; rewrite length_take; lia).
  split; [exact Hnd |]. split; [reflexivity |]. split; [reflexivity |].
  intros i p Hi.
  assert (Hi' : bd !! i = Some p \/ bmin !! i = Some p \/ bmax !! i = Some p).
  { unfold bd1, bmin1, bmax1 in Hi.
    destruct Hi as [Hi | [Hi | Hi]]; apply lookup_take_Some in Hi as [Hi _]; auto. }
  assert (Hin : p ∈ bd1 ++ bmin1 ++ bmax1).
  { rewrite !elem_of_app.
    destruct Hi as [Hi | [Hi | Hi]]; apply list_elem_of_lookup_2 in Hi; auto. }
  destruct (Hlive i p Hi') as (arr & Harr & Hlen).
  exists arr. split; [| exact Hlen].
  rewrite !lookup_delete_ne; [exact Harr | ..]; intros ->; contradiction.
Qed.

Lemma frees_three (h : heap) (pd pmin pmax : ptr) :
  frees h [pd; pmin; pmax] (delete pmax (delete pmin (delete pd h))).
Proof.
  apply (frees_trans _ (delete pd h) _ [pd] [pmin; pmax]); [apply frees_delete |].
  apply (frees_trans _ (delete pmin (delete pd h)) _ [pmin] [pmax]);
    apply frees_delete.
Qed.

Lemma drop_last {A} (v : list A) (x : A) :
  last v = Some x -> drop (length v - 1) v = [x].
Proof.
  intros Hl. rewrite (take_last_app v x Hl) at 2.
  rewrite drop_app_length'; [reflexivity |].
  rewrite length_take. destruct v; [discriminate | cbn; lia].
Qed.

Lemma deleteUpTo_step_spec (k : Z) (h : heap) (bd bmin bmax : list ptr)
    (scale : Z) :
  0 <= k -> (0 < length bd)%nat ->
  pyramid k h bd bmin bmax (length bd) ->
  Z.of_nat (length bd) = k - scale + 1 ->
  let m := (length bd - 1)%nat in
  exists h',
    deleteUpTo_step (2 ^ k) scale (h, bd, bmin, bmax)
    = Some (h', take m bd, take m bmin, take m bmax)
    /\ pyramid k h' (take m bd) (take m bmin) (take m bmax) m
    /\ frees h (drop m bd ++ drop m bmin ++ drop m bmax) h'.
Proof.
  intros Hk Hpos Hpyr Hlen m.
  pose proof Hpyr as (Lmin & Lmax & _).
  destruct (pyramid_pop k h bd bmin bmax Hpos Hpyr)
    as (pd & pmin & pmax & Hd & Hmin & Hmax & Ld & Lm & Lx & Hpyr').
  unfold deleteUpTo_step. rewrite log2_pow2 by lia.
  rewrite (at_last bd), (at_last bmin), (at_last bmax) by lia.
  rewrite Hd. cbn [mbind option_bind].
  rewrite (delete_array_live h pd Ld). cbn [mbind option_bind].
  rewrite pop_back_Some by (intros ->; discriminate). cbn [mbind option_bind].
  rewrite Hmin. cbn [mbind option_bind].
  rewrite (delete_array_live _ pmin Lm). cbn [mbind option_bind].
  rewrite pop_back_Some by (intros ->; discriminate). cbn [mbind option_bind].
  rewrite Hmax. cbn [mbind option_bind].
  rewrite (delete_array_live _ pmax Lx). cbn [mbind option_bind].
  rewrite pop_back_Some by (intros ->; discriminate). cbn [mbind option_bind].
  rewrite Lmin, Lmax. fold m. eexists. split; [reflexivity |].
  split; [exact Hpyr' |].
  unfold m. rewrite (drop_last bd pd Hd).
  rewrite <- Lmin at 1. rewrite (drop_last bmin pmin Hmin).
  rewrite <- Lmax at 1. rewrite (drop_last bmax pmax Hmax).
  apply frees_three.
Qed.

Lemma deleteUpTo_loop_spec (k : Z) (c : nat) :
  forall (a : Z) (h : heap) (bd bmin bmax : list ptr),
    0 <= k -> pyramid k h bd bmin bmax (length bd) ->
    Z.of_nat (length bd) = k - a + 1 -> a + Z.of_nat c <= k ->
    let m := (length bd - c)%nat in
    exists h',
      deleteUpTo_loop (2 ^ k) (seqZ a (Z.of_nat c)) (h, bd, bmin, bmax)
      = Some (h', take m bd, take m bmin, take m bmax)
      /\ pyramid k h' (take m bd) (take m bmin) (take m bmax) m
      /\ frees h (drop m bd ++ drop m bmin ++ drop m bmax) h'.
Proof.
  induction c as [| c IH]; intros a h bd bmin bmax Hk Hpyr Hlen Hc m.
  - pose proof Hpyr as (Lmin & Lmax & _).
    unfold m. rewrite Nat.sub_0_r. cbn.
    rewrite !take_ge, !drop_ge by lia. exists h.
    split; [reflexivity |]. split; [exact Hpyr | apply frees_nil].
  - pose proof Hpyr as (Lmin & Lmax & _).
    rewrite seqZ_cons by lia.
    replace (Z.pred (Z.of_nat (S c))) with (Z.of_nat c) by lia.
    cbn [deleteUpTo_loop].
    destruct (deleteUpTo_step_spec k h bd bmin bmax a Hk ltac:(lia) Hpyr Hlen)
      as (h1 & -> & Hpyr1 & Hfree1).
    cbn [mbind option_bind].
    set (m1 := (length bd - 1)%nat) in *.
    assert (Lb1 : length (take m1 bd) = m1) by (rewrite length_take; lia).
    rewrite <- Lb1 in Hpyr1 at 4.
    destruct (IH (Z.succ a) h1 (take m1 bd) (take m1 bmin) (take m1 bmax) Hk
                Hpyr1 ltac:(lia) ltac:(lia)) as (h' & Hloop & Hpyr' & Hfree').
    rewrite Lb1 in Hloop, Hpyr', Hfree'.
    replace (m1 - c)%nat with m in Hloop, Hpyr', Hfree' by lia.
    rewrite !take_take in Hloop, Hpyr'.
    replace (m `min` m1)%nat with m in Hloop, Hpyr' by lia.
    exists h'. split; [exact Hloop |]. split; [exact Hpyr' |].
    eapply frees_equiv; [| exact (frees_trans _ _ _ _ _ Hfree1 Hfree')].
    assert (Ed : forall l : list ptr, length l = length bd ->
                   drop m l = drop m (take m1 l) ++ drop m1 l).
    { intros l Hl. rewrite <- (take_drop m1 l) at 1.
      apply drop_app_le. rewrite length_take. lia. }
    intros q. rewrite (Ed bd), (Ed bmin), (Ed bmax) by lia.
    rewrite !elem_of_app. tauto.
Qed.

(** Dropping the shared finest scale. *)
Lemma pyramid_pop_shared (k : Z) (h : heap) (bd bmin bmax : list ptr) :
  (0 < length bd)%nat ->
  pyramid k h bd bmin bmax (length bd - 1) ->
  exists pd,
    last bd = Some pd /\ last bmin = Some pd /\ last bmax = Some pd
    /\ is_Some (h !! pd)
    /\ pyramid k (delete pd h)
         (take (length bd - 1) bd) (take (length bd - 1) bmin)
         (take (length bd - 1) bmax) (length bd - 1).
Proof.
  intros Hpos Hpyr.
  pose proof Hpyr as (Lmin & Lmax & Lk & Hnd & Dmin & Dmax & Hlive).
  destruct (last bd) as [pd |] eqn:Hd.
  2:{ apply last_None in Hd. subst bd. cbn in Hpos. lia. }
  pose proof (drop_last bd pd Hd) as Dd.
  rewrite Dd in Dmin, Dmax.
  assert (Hmin : last bmin = Some pd).
  { rewrite <- (take_drop (length bd - 1) bmin), Dmin. apply last_snoc. }
  assert (Hmax : last bmax = Some pd).
  { rewrite <- (take_drop (length bd - 1) bmax), Dmax. apply last_snoc. }
  exists pd. do 3 (split; [reflexivity || assumption |]).
  pose proof (take_last_app _ _ Hd) as Ed.
  set (m := (length bd - 1)%nat) in *.
  set (bd1 := take m bd) in *. set (bmin1 := take m bmin) in *.
  set (bmax1 := take m bmax) in *.
  assert (P : bd ++ bmin1 ++ bmax1 ≡ₚ pd :: (bd1 ++ bmin1 ++ bmax1)).
  { rewrite Ed. solve_Permutation. }
  rewrite P in Hnd. apply NoDup_cons in Hnd as [Nd Hnd].
  assert (Ld : is_Some (h !! pd)).
  { rewrite last_lookup in Hd. destruct (Hlive _ _ (or_introl Hd)) as (a & Ha & _). eauto. }
  split; [exact Ld |].
  assert (Lb1 : length bd1 = m) by (unfold bd1; rewrite length_take; lia).
  unfold pyramid. rewrite Lb1.
  split; [unfold bmin1; rewrite length_take; lia |].
  split; [unfold bmax1; rewrite length_take; lia |].
  split; [lia |].
  rewrite !take_ge by (unfold bmin1, bmax1; rewrite length_take; lia).
  rewrite !drop_ge by (unfold bd1, bmin1, bmax1; rewrite length_take; lia).
  split; [exact Hnd |]. split; [reflexivity |]. split; [reflexivity |].
  intros i p Hi.
  assert (Hi' : bd !! i = Some p \/ bmin !! i = Some p \/ bmax !! i = Some p).
  { unfold bd1, bmin1, bmax1 in Hi.
    destruct Hi as [Hi | [Hi | Hi]]; apply lookup_take_Some in Hi as [Hi _]; auto. }
  assert (Hin : p ∈ bd1 ++ bmin1 ++ bmax1).
  { rewrite !elem_of_app.
    destruct Hi as [Hi | [Hi | Hi]]; apply list_elem_of_lookup_2 in Hi; auto. }
  destruct (Hlive i p Hi') as (arr & Harr & Hlen).
  exists arr. split; [| exact Hlen].
  rewrite lookup_delete_ne; [exact Harr |]. intros ->. contradiction.
Qed.

(** The finest scale gives up its min and max arrays and shares the mean
    array. *)
Lemma pyramid_reshare (k : Z) (h : heap) (bd bmin bmax : list ptr) :
  (0 < length bd)%nat ->
  pyramid k h bd bmin bmax (length bd) ->
  exists pd pmin pmax,
    last bd = Some pd /\ last bmin = Some pmin /\ last bmax = Some pmax
    /\ is_Some (h !! pmin) /\ is_Some (delete pmin h !! pmax)
    /\ pyramid k (delete pmax (delete pmin h)) bd
         (take (length bd - 1) bmin ++ [pd])
         (take (length bd - 1) bmax ++ [pd]) (length bd - 1).
Proof.
  intros Hpos Hpyr.
  pose proof Hpyr as (Lmin & Lmax & Lk & Hnd & Dmin & Dmax & Hlive).
  destruct (last bd) as [pd |] eqn:Hd.
  2:{ apply last_None in Hd. subst bd. cbn in Hpos. lia. }
  destruct (last bmin) as [pmin |] eqn:Hmin.
  2:{ apply last_None in Hmin. subst bmin. cbn in Lmin. lia. }
  destruct (last bmax) as [pmax |] eqn:Hmax.
  2:{ apply last_None in Hmax. subst bmax. cbn in Lmax. lia. }
  exists pd, pmin, pmax. do 3 (split; [reflexivity |]).
  pose proof (take_last_app _ _ Hmin) as Emin.
  pose proof (take_last_app _ _ Hmax) as Emax.
  rewrite Lmin in Emin. rewrite Lmax in Emax.
  set (m := (length bd - 1)%nat) in *.
  set (bmin1 := take m bmin) in *. set (bmax1 := take m bmax) in *.
  rewrite !take_ge in Hnd by lia.
  assert (P : bd ++ bmin ++ bmax ≡ₚ pmin :: pmax :: (bd ++ bmin1 ++ bmax1)).
  { rewrite Emin, Emax. solve_Permutation. }
  rewrite P in Hnd.
  apply NoDup_cons in Hnd as [Nmin Hnd]. apply NoDup_cons in Hnd as [Nmax Hnd].
  rewrite not_elem_of_cons in Nmin. destruct Nmin as (Nmx & Nmin).
  assert (Lm : is_Some (h !! pmin)).
  { rewrite last_lookup in Hmin.
    destruct (Hlive _ _ (or_intror (or_introl Hmin))) as (a & Ha & _). eauto. }
  assert (Lx : is_Some (h !! pmax)).
  { rewrite last_lookup in Hmax.
    destruct (Hlive _ _ (or_intror (or_intror Hmax))) as (a & Ha & _). eauto. }
  split; [exact Lm |].
  split; [rewrite lookup_delete_ne by congruence; exact Lx |].
  assert (Lb1 : length bmin1 = m) by (unfold bmin1; rewrite length_take; lia).
  assert (Lb2 : length bmax1 = m) by (unfold bmax1; rewrite length_take; lia).
  unfold pyramid. rewrite !length_app, Lb1, Lb2. cbn [length].
  split; [lia |]. split; [lia |]. split; [lia |].
  rewrite !take_app_le by lia. rewrite !take_ge by lia.
  rewrite !drop_app_le by lia. rewrite !(drop_ge bmin1), !(drop_ge bmax1) by lia.
  cbn [app]. unfold m. rewrite (drop_last bd pd Hd). fold m.
  split; [exact Hnd |]. split; [reflexivity |]. split; [reflexivity |].
  intros i p Hi.
  assert (Hin : p ∈ bd ++ bmin1 ++ bmax1).
  { rewrite !elem_of_app. rewrite last_lookup in Hd.
    destruct Hi as [Hi | [Hi | Hi]].
    - apply list_elem_of_lookup_2 in Hi; auto.
    - apply lookup_app_Some in Hi as [Hi | [_ Hi]].
      + apply list_elem_of_lookup_2 in Hi; auto.
      + apply list_lookup_singleton_Some in Hi as [_ <-].
        left. apply list_elem_of_lookup_2 in Hd. exact Hd.
    - apply lookup_app_Some in Hi as [Hi | [_ Hi]].
      + apply list_elem_of_lookup_2 in Hi; auto.
      + apply list_lookup_singleton_Some in Hi as [_ <-].
        left. apply list_elem_of_lookup_2 in Hd. exact Hd. }
  assert (Hi' : bd !! i = Some p \/ bmin !! i = Some p \/ bmax !! i = Some p).
  { rewrite last_lookup in Hd.
    destruct Hi as [Hi | [Hi | Hi]]; [auto | |].
    - apply lookup_app_Some in Hi as [Hi | [Hge Hi]].
      + apply lookup_take_Some in Hi as [Hi _]; auto.
      + apply list_lookup_singleton_Some in Hi as [Hi <-]. left.
        rewrite Lb1 in Hi, Hge. replace i with (Init.Nat.pred (length bd)) by lia.
        exact Hd.
    - apply lookup_app_Some in Hi as [Hi | [Hge Hi]].
      + apply lookup_take_Some in Hi as [Hi _]; auto.
      + apply list_lookup_singleton_Some in Hi as [Hi <-]. left.
        rewrite Lb2 in Hi, Hge. replace i with (Init.Nat.pred (length bd)) by lia.
        exact Hd. }
  destruct (Hlive i p Hi') as (arr & Harr & Hlen).
  exists arr. split; [| exact Hlen].
  rewrite !lookup_delete_ne; [exact Harr | ..]; intros ->; contradiction.
Qed.

Lemma deleteUpTo_spec (k : Z) (h : heap) (b : BlockMultiRes)
    (new_min_scale : Z) :
  0 <= k < 31 -> pyramid_inv k h b -> min_scale b = finest_allocated k b ->
  0 <= new_min_scale <= k ->
  (new_min_scale <= min_scale b ->
   deleteUpTo (2 ^ k) h b new_min_scale = Some (h, b))
  /\ (min_scale b < new_min_scale ->
      let n := Z.to_nat (k - new_min_scale + 1) in
      exists h' b',
        deleteUpTo (2 ^ k) h b new_min_scale = Some (h', b')
        /\ pyramid_inv k h' b'
        /\ block_data_ b' = take n (block_data_ b)
        /\ block_min_data_ b'
           = take (n - 1) (block_min_data_ b) ++ drop (n - 1) (block_data_ b')
        /\ block_max_data_ b'
           = take (n - 1) (block_max_data_ b) ++ drop (n - 1) (block_data_ b')
        /\ min_scale b' = new_min_scale
        /\ finest_allocated k b' = new_min_scale
        /\ current_scale b' = current_scale b
        /\ buffer_data_ b' = buffer_data_ b
        /\ forall q,
             h' !! q
             = if decide (q ∈ drop n (block_data_ b)
                              ++ drop (n - 1) (block_min_data_ b)
                              ++ drop (n - 1) (block_max_data_ b))
               then None else h !! q).
Proof.
  intros Hk (Hpos & Hpyr) Hmin Hrange.
  pose proof Hpyr as (Lmin & Lmax & Lk & _).
  unfold finest_allocated in Hmin. unfold deleteUpTo.
  rewrite (scale_asserted k new_min_scale) by lia.
  split.
  - intros Hle. destruct (Z.leb_spec new_min_scale (min_scale b)); [| lia].
    rewrite orb_true_r. reflexivity.
  - intros Hlt. set (n := Z.to_nat (k - new_min_scale + 1)).
    destruct (Z.eqb_spec (min_scale b) (-1)); [lia |].
    destruct (Z.leb_spec new_min_scale (min_scale b)); [lia |]. cbn [orb].
    rewrite log2_pow2 by lia.
    set (L := length (block_data_ b)) in *.
    destruct (pyramid_pop_shared k h _ _ _ Hpos Hpyr)
      as (pd & Hd & Hdmin & Hdmax & Ld & Hpyr1).
    fold L in Hpyr1.
    rewrite (at_last (block_data_ b)) by (fold L; lia).
    rewrite Hd. cbn [mbind option_bind].
    rewrite (delete_array_live h pd Ld). cbn [mbind option_bind].
    rewrite !pop_back_Some by (intros E; rewrite E in *; discriminate).
    cbn [mbind option_bind]. rewrite Lmin, Lmax. fold L.
    set (bd1 := take (L - 1) (block_data_ b)) in *.
    set (bmin1 := take (L - 1) (block_min_data_ b)) in *.
    set (bmax1 := take (L - 1) (block_max_data_ b)) in *.
    assert (Lb1 : length bd1 = (L - 1)%nat) by (unfold bd1; rewrite length_take; lia).
    rewrite <- Lb1 in Hpyr1 at 1.
    replace (new_min_scale - (min_scale b + 1))
      with (Z.of_nat (Z.to_nat (new_min_scale - (min_scale b + 1)))) by lia.
    destruct (deleteUpTo_loop_spec k (Z.to_nat (new_min_scale - (min_scale b + 1)))
                (min_scale b + 1) (delete pd h) bd1 bmin1 bmax1 ltac:(lia)
                Hpyr1 ltac:(lia) ltac:(lia)) as (h2 & -> & Hpyr2 & Hfree2).
    cbn [mbind option_bind].
    replace (length bd1 - Z.to_nat (new_min_scale - (min_scale b + 1)))%nat
      with n in * by lia.
    set (bd2 := take n bd1) in *. set (bmin2 := take n bmin1) in *.
    set (bmax2 := take n bmax1) in *.
    assert (Lb2 : length bd2 = n) by (unfold bd2; rewrite length_take; lia).
    rewrite <- Lb2 in Hpyr2 at 1.
    pose proof Hpyr2 as (Lmin2 & Lmax2 & _).
    destruct (pyramid_reshare k h2 bd2 bmin2 bmax2 ltac:(lia) Hpyr2)
      as (pd2 & pmin2 & pmax2 & Hd2 & Hmin2 & Hmax2 & Lm2 & Lx2 & Hpyr3).
    rewrite (at_last bmin2) by lia. rewrite Hmin2. cbn [mbind option_bind].
    rewrite (delete_array_live h2 pmin2 Lm2). cbn [mbind option_bind].
    rewrite (pop_back_Some bmin2) by (intros E; rewrite E in *; discriminate).
    cbn [mbind option_bind].
    rewrite (at_last bd2) by lia. rewrite Hd2. cbn [mbind option_bind].
    rewrite (at_last bmax2) by lia.
    rewrite Hmax2. cbn [mbind option_bind].
    rewrite (delete_array_live _ pmax2 Lx2). cbn [mbind option_bind].
    rewrite (pop_back_Some bmax2) by (intros E; rewrite E in *; discriminate).
    cbn [mbind option_bind].
    eexists _, _. split; [reflexivity |].
    unfold pyramid_inv, finest_allocated.
    cbn [set_pyramid block_data_ block_min_data_ block_max_data_ min_scale
         current_scale buffer_data_].
    rewrite Lmin2, Lmax2, Lb2 in *.
    split; [split; [lia | exact Hpyr3] |].
    split; [unfold bd2, bd1; rewrite take_take; f_equal; lia |].
    pose proof (drop_last _ _ Hd2) as Dl2. rewrite Lb2 in Dl2. rewrite Dl2.
    split; [unfold bmin2, bmin1; rewrite !take_take; do 2 f_equal; lia |].
    split; [unfold bmax2, bmax1; rewrite !take_take; do 2 f_equal; lia |].
    split; [reflexivity |]. split; [lia |]. split; [reflexivity |].
    split; [reflexivity |].
    (* the heap *)
    assert (F : frees h ([pd] ++ (drop n bd1 ++ drop n bmin1 ++ drop n bmax1)
                          ++ [pmin2; pmax2])
                  (delete pmax2 (delete pmin2 h2))).
    { eapply frees_trans; [apply frees_delete |].
      eapply frees_trans; [exact Hfree2 |].
      apply (frees_trans _ (delete pmin2 h2) _ [pmin2] [pmax2]); apply frees_delete. }
    eapply frees_equiv; [| exact F].
    clear F Hfree2 Hpyr3 Hpyr2 Hpyr1 Hpyr.
    assert (Ed : forall l : list ptr, length l = L -> forall m, (m <= L - 1)%nat ->
                   drop m l = drop m (take (L - 1) l) ++ drop (L - 1) l).
    { intros l Hl m Hm. rewrite <- (take_drop (L - 1) l) at 1.
      apply drop_app_le. rewrite length_take. lia. }
    assert (En : forall l : list ptr, length l = L -> forall x,
                   last (take n (take (L - 1) l)) = Some x ->
                   drop (n - 1) l = x :: drop n l).
    { intros l Hl x Hx. rewrite last_lookup, length_take, length_take in Hx.
      rewrite lookup_take_lt in Hx by lia. rewrite lookup_take_lt in Hx by lia.
      replace (Init.Nat.pred (n `min` ((L - 1) `min` length l))) with (n - 1)%nat in Hx by lia.
      rewrite (drop_S l x (n - 1)) by exact Hx. do 2 f_equal. lia. }
    intros q.
    rewrite (En (block_min_data_ b) Lmin pmin2 Hmin2).
    rewrite (En (block_max_data_ b) Lmax pmax2 Hmax2).
    rewrite (Ed (block_data_ b) eq_refl n), (Ed (block_min_data_ b) Lmin n),
      (Ed (block_max_data_ b) Lmax n) by lia.
    pose proof (drop_last _ _ Hd) as D1. fold L in D1.
    pose proof (drop_last _ _ Hdmin) as D2. rewrite Lmin in D2.
    pose proof (drop_last _ _ Hdmax) as D3. rewrite Lmax in D3.
    rewrite D1, D2, D3. fold bd1 bmin1 bmax1.
    rewrite !elem_of_app, !elem_of_cons, !elem_of_app, !elem_of_cons.
    rewrite !elem_of_nil. tauto.
Qed.

(** X12: [deleteUpTo] on a block whose pyramids are well formed and reach
    down to [min_scale]. A scale that is not coarser than [min_scale]
    changes nothing. A coarser scale of the block truncates the three
    pyramids to it and keeps them well formed: the scale becomes
    [min_scale] and the finest allocated scale and shares one array among
    the three pyramids again. The heap loses exactly the mean arrays of the
    finer scales and the min and max arrays of the new finest scale and of
    the finer scales, each freed once; every other array is as it was. The
    current scale and the buffer are not touched. *)
Theorem deleteUpTo_frees_finer_scales (k : Z) (h : heap) (b : BlockMultiRes)
    (new_min_scale : Z) :
  0 <= k < 31 -> pyramid_inv k h b -> min_scale b = finest_allocated k b ->
  0 <= new_min_scale <= k ->
  (new_min_scale <= min_scale b ->
   deleteUpTo (2 ^ k) h b new_min_scale = Some (h, b))
  /\ (min_scale b < new_min_scale ->
      let n := Z.to_nat (k - new_min_scale + 1) in
      exists h' b',
        deleteUpTo (2 ^ k) h b new_min_scale = Some (h', b')
        /\ pyramid_inv k h' b'
        /\ block_data_ b' = take n (block_data_ b)
        /\ block_min_data_ b'
           = take (n - 1) (block_min_data_ b) ++ drop (n - 1) (block_data_ b')
        /\ block_max_data_ b'
           = take (n - 1) (block_max_data_ b) ++ drop (n - 1) (block_data_ b')
        /\ min_scale b' = new_min_scale
        /\ finest_allocated k b' = new_min_scale
        /\ current_scale b' = current_scale b
        /\ buffer_data_ b' = buffer_data_ b
        /\ forall q,
             h' !! q
             = if decide (q ∈ drop n (block_data_ b)
                              ++ drop (n - 1) (block_min_data_ b)
                              ++ drop (n - 1) (block_max_data_ b))
               then None else h !! q).
Proof.
  intros Hk Hinv Hmin Hnew.
  destruct (deleteUpTo_spec k h b new_min_scale Hk Hinv Hmin Hnew)
    as [Hnop Hdel].
  split; [exact Hnop |]. intros Hlt. apply Hdel. lia.
Qed.

(** The block of side 2 that is allocated down to scale 0, deleted up to
    scale 1: the arrays 2, 3 and 4 are freed and the array 1 is shared. *)
Lemma deleteUpTo_frees_finer_scales_witness :
  exists h' b',
    deleteUpTo 2 fixtures.fine_heap fixtures.fine_block 1 = Some (h', b')
    /\ block_data_ b' = [1%positive] /\ block_min_data_ b' = [1%positive]
    /\ block_max_data_ b' = [1%positive] /\ min_scale b' = 1
    /\ h' !! 1%positive = fixtures.fine_heap !! 1%positive
    /\ h' !! 2%positive = None /\ h' !! 3%positive = None
    /\ h' !! 4%positive = None.
Proof.
  destruct (deleteUpTo_frees_finer_scales 1 fixtures.fine_heap
              fixtures.fine_block 1) as [_ Hdel];
    [lia | concrete_pyramid_inv | reflexivity | lia |].
  destruct Hdel as (h' & b' & Hd & _ & Ed & Emin & Emax & Hms & _ & _ & _ & Hh);
    [cbn; lia |].
  exists h', b'. split; [exact Hd |].
  split; [rewrite Ed; reflexivity |].
  split; [rewrite Emin, Ed; reflexivity |].
  split; [rewrite Emax, Ed; reflexivity |].
  split; [exact Hms |].
  repeat split; rewrite Hh; reflexivity.
Defined.

Lemma elem_of_drop_l {A} (l : list A) (n : nat) (x : A) :
  x ∈ drop n l -> x ∈ l.
Proof.
  intros Hin. rewrite <- (take_drop n l). apply elem_of_app. right. exact Hin.
Qed.

Lemma elem_of_take_drop {A} (l : list A) (n : nat) (x : A) :
  x ∈ l <-> x ∈ take n l \/ x ∈ drop n l.
Proof. rewrite <- (take_drop n l) at 1. apply elem_of_app. Qed.

Lemma delete_arrays_frees (arrays : list ptr) :
  forall h : heap,
    NoDup arrays -> (forall p, p ∈ arrays -> is_Some (h !! p)) ->
    exists h', delete_arrays h arrays = Some h' /\ frees h arrays h'.
Proof.
  induction arrays as [| p rest IH]; intros h Hnd Hlive; cbn [delete_arrays].
  - exists h. split; [reflexivity | apply frees_nil].
  - apply NoDup_cons in Hnd as [Hp Hnd].
    rewrite (delete_array_live h p) by (apply Hlive; left).
    cbn [mbind option_bind].
    destruct (IH (delete p h) Hnd) as (h' & -> & Hfree).
    { intros q Hq. rewrite lookup_delete_ne; [apply Hlive; right; exact Hq |].
      intros ->. contradiction. }
    exists h'. split; [reflexivity |].
    exact (frees_trans h (delete p h) h' [p] rest (frees_delete h p) Hfree).
Qed.

Lemma BlockMultiRes_dtor_spec (k : Z) (h : heap) (b : BlockMultiRes) :
  pyramid_inv k h b ->
  (forall p, p ∈ separate_buffer b ->
     is_Some (h !! p)
     /\ p ∉ block_data_ b ++ block_min_data_ b ++ block_max_data_ b) ->
  exists h',
    BlockMultiRes_dtor h b = Some h'
    /\ forall q,
         h' !! q
         = if decide (q ∈ block_data_ b ++ block_min_data_ b
                          ++ block_max_data_ b ++ separate_buffer b)
           then None else h !! q.
Proof.
  intros (Hpos & Hpyr) Hbuf.
  pose proof Hpyr as (Lmin & Lmax & Lk & Hnd & Dmin & Dmax & Hlive).
  set (bd := block_data_ b) in *. set (bmin := block_min_data_ b) in *.
  set (bmax := block_max_data_ b) in *. set (m := (length bd - 1)%nat) in *.
  apply NoDup_app in Hnd as (Nd & Ndx & Hnd).
  apply NoDup_app in Hnd as (Nmin & Nmx & Nmax).
  assert (Hl : forall q, q ∈ bd ++ bmin ++ bmax -> is_Some (h !! q)).
  { intros q Hq. exact (pyramid_live k h bd bmin bmax m q Hpyr Hq). }
  unfold BlockMultiRes_dtor, pop_back_if_any. fold bd bmin bmax.
  rewrite Lmin, Lmax. fold m.
  destruct (delete_arrays_frees bd h Nd) as (h1 & -> & F1).
  { intros q Hq. apply Hl. rewrite elem_of_app. auto. }
  cbn [mbind option_bind].
  destruct (delete_arrays_frees (take m bmin) h1 Nmin) as (h2 & -> & F2).
  { intros q Hq. rewrite (F1 q). rewrite decide_False.
    - apply Hl. rewrite !elem_of_app. eauto using elem_of_take_l.
    - intros Hd. apply (Ndx q Hd). rewrite elem_of_app. auto. }
  cbn [mbind option_bind].
  destruct (delete_arrays_frees (take m bmax) h2 Nmax) as (h3 & -> & F3).
  { intros q Hq. rewrite (F2 q).
    rewrite decide_False by (intros Hm; exact (Nmx q Hm Hq)).
    rewrite (F1 q). rewrite decide_False.
    - apply Hl. rewrite !elem_of_app. eauto using elem_of_take_l.
    - intros Hd. apply (Ndx q Hd). rewrite elem_of_app. auto. }
  cbn [mbind option_bind].
  assert (F : frees h (bd ++ take m bmin ++ take m bmax) h3).
  { exact (frees_trans _ _ _ _ _ F1 (frees_trans _ _ _ _ _ F2 F3)). }
  assert (Eq : forall q, q ∈ bd ++ take m bmin ++ take m bmax
                         <-> q ∈ bd ++ bmin ++ bmax).
  { intros q. rewrite <- (take_drop m bmin) at 2.
    rewrite <- (take_drop m bmax) at 2. rewrite Dmin, Dmax.
    rewrite !elem_of_app. split; [tauto |].
    intros [? | [[? | Hd] | [? | Hd]]]; auto; left; exact (elem_of_drop_l _ _ _ Hd). }
  apply (frees_equiv _ _ _ _ Eq) in F.
  unfold separate_buffer in *.
  destruct (buffer_data_ b) as [p |].
  - destruct (buffer_scale_ b <? min_scale b).
    + destruct (Hbuf p ltac:(left)) as [Lp Np].
      rewrite delete_array_live by (rewrite (F p), decide_False by exact Np; exact Lp).
      eexists. split; [reflexivity |].
      eapply frees_equiv; [| exact (frees_trans _ _ _ _ _ F (frees_delete h3 p))].
      intros q. rewrite !elem_of_app. tauto.
    + exists h3. split; [reflexivity |].
      eapply frees_equiv; [| exact F]. intros q. rewrite !elem_of_app, elem_of_nil. tauto.
  - exists h3. split; [reflexivity |].
    eapply frees_equiv; [| exact F]. intros q. rewrite !elem_of_app, elem_of_nil. tauto.
Qed.

(** X13: the destructor of a block whose pyramids are well formed, and
    whose buffer, if it is an array of its own, is live and not part of the
    pyramids, returns, and frees every array of the block exactly once: the
    heap afterwards is the heap before without the arrays of the three
    pyramids and without that buffer. The array that the pyramids share at
    the finest scale is not freed twice. *)
Theorem BlockMultiRes_dtor_frees (k : Z) (h : heap) (b : BlockMultiRes) :
  pyramid_inv k h b ->
  (forall p, p ∈ separate_buffer b ->
     is_Some (h !! p)
     /\ p ∉ block_data_ b ++ block_min_data_ b ++ block_max_data_ b) ->
  exists h',
    BlockMultiRes_dtor h b = Some h'
    /\ forall q,
         h' !! q
         = if decide (q ∈ block_data_ b ++ block_min_data_ b
                          ++ block_max_data_ b ++ separate_buffer b)
           then None else h !! q.
Proof. exact (BlockMultiRes_dtor_spec k h b). Qed.

(** The block of side 2 that buffers the finer scale 0 in an array of its
    own: the destructor frees the shared array 1 once and the buffer 2. *)
Lemma BlockMultiRes_dtor_frees_witness :
  exists h',
    BlockMultiRes_dtor fixtures.coarse_heap fixtures.coarse_block = Some h'
    /\ h' !! 1%positive = None /\ h' !! 2%positive = None.
Proof.
  destruct (BlockMultiRes_dtor_frees 1 fixtures.coarse_heap
              fixtures.coarse_block) as (h' & Hd & Hh);
    [concrete_pyramid_inv | |].
  - intros p Hp. apply list_elem_of_singleton in Hp as ->.
    split; [eexists; reflexivity |].
    refine (bool_decide_unpack _ _). vm_compute. exact I.
  - exists h'. split; [exact Hd |]. split; rewrite Hh; reflexivity.
Defined.

Lemma heap_restored (h h2 h4 : heap) (arrays : list ptr) :
  h ⊆ h2 ->
  (forall q, is_Some (h2 !! q) -> is_Some (h !! q) \/ q ∈ arrays) ->
  (forall q, q ∈ arrays -> h !! q = None) ->
  frees h2 arrays h4 -> h4 = h.
Proof.
  intros Hext Hdom Hfresh Hfree. apply map_eq. intros q. rewrite (Hfree q).
  destruct (decide (q ∈ arrays)) as [Hin | Hn].
  - symmetry. apply Hfresh, Hin.
  - destruct (h2 !! q) as [a |] eqn:H2.
    + destruct (Hdom q ltac:(eauto)) as [[a' Ha'] | ?]; [| contradiction].
      rewrite Ha'. rewrite (lookup_weaken _ _ _ _ Ha' Hext) in H2. congruence.
    + destruct (h !! q) as [a |] eqn:Ha; [| reflexivity].
      rewrite (lookup_weaken _ _ _ _ Ha Hext) in H2. discriminate.
Qed.

(** X14: the whole life of the storage of a block returns the heap as it
    found it. Constructing a block that starts without a buffer and with
    [min_scale = -1], allocating it down to a scale [s], deleting it up to
    a coarser scale [s'] and destroying it succeeds at every step and ends
    in exactly the heap it started from: nothing leaks, nothing is freed
    twice and no array of another owner is touched. *)
Theorem block_lifecycle_restores_heap (init_values : Data -> Z -> list Data)
    (k : Z) (h : heap) (members : BlockMultiRes) (init_data : Data)
    (s s' : Z) :
  (forall d n, 0 <= n -> Z.of_nat (length (init_values d n)) = n) ->
  buffer_data_ members = None -> min_scale members = -1 ->
  0 <= k < 31 -> 0 <= s <= s' -> s' <= k ->
  exists h1 b1 h2 b2 h3 b3,
    BlockMultiRes_ctor init_values h members init_data = Some (h1, b1)
    /\ allocateDownTo (2 ^ k) init_values h1 b1 s = Some (h2, b2)
    /\ deleteUpTo (2 ^ k) h2 b2 s' = Some (h3, b3)
    /\ BlockMultiRes_dtor h3 b3 = Some h.
Proof.
  intros Hfill Hbuf0 Hms0 Hk Hs Hs'.
  destruct (BlockMultiRes_ctor_spec init_values k h members init_data
              (Hfill _ 1 ltac:(lia)) ltac:(lia))
    as (h1 & b1 & p & Hctor & Fp & -> & Ed1 & Emin1 & Emax1 & _ & _ & Hbuf1
        & Hms1 & Hinv1 & Hfin1).
  rewrite Hbuf0 in Hbuf1. rewrite Hms0 in Hms1.
  set (d0 := init_values init_data 1) in *.
  exists (<[p := d0]> h), b1.
  assert (Hext1 : h ⊆ <[p := d0]> h) by (apply insert_subseteq; exact Fp).
  destruct (allocateDownTo_spec init_values k _ b1 s Hfill Hk Hinv1 ltac:(lia))
    as [Hnop Halloc].
  assert (Hdtor : forall h2 h3 b3 arrays,
            <[p := d0]> h ⊆ h2 ->
            (forall q, is_Some (h2 !! q) ->
                       is_Some ((<[p := d0]> h) !! q) \/ q ∈ arrays) ->
            (forall q, q ∈ arrays -> q = p \/ (<[p := d0]> h) !! q = None) ->
            p ∈ arrays ->
            pyramid_inv k h3 b3 -> buffer_data_ b3 = None ->
            (forall F, frees h3 (block_data_ b3 ++ block_min_data_ b3
                                  ++ block_max_data_ b3) F ->
                       frees h2 arrays F) ->
            BlockMultiRes_dtor h3 b3 = Some h).
  { intros h2 h3 b3 arrays Hext Hdom Hfresh Hp Hinv3 Hbuf3 Hfrees.
    destruct (BlockMultiRes_dtor_spec k h3 b3 Hinv3) as (h4 & Hd & Hfree4).
    { unfold separate_buffer. rewrite Hbuf3. intros q Hq.
      apply elem_of_nil in Hq. contradiction. }
    rewrite Hd. f_equal.
    apply (heap_restored h h2 h4 arrays).
    - etrans; eassumption.
    - intros q Hq. destruct (Hdom q Hq) as [Hq1 | ?]; [| auto].
      destruct (decide (q = p)) as [-> | ?]; [auto |].
      rewrite lookup_insert_ne in Hq1 by congruence. auto.
    - intros q Hq. destruct (Hfresh q Hq) as [-> | Hn]; [exact Fp |].
      apply lookup_insert_None in Hn as [Hn _]. exact Hn.
    - apply Hfrees. intros q. rewrite (Hfree4 q).
      unfold separate_buffer. rewrite Hbuf3, !app_nil_r. reflexivity. }
  destruct (decide (s = k)) as [-> | Hsk].
  - (* nothing to allocate, nothing to delete *)
    exists (<[p := d0]> h), b1, (<[p := d0]> h), b1.
    split; [exact Hctor |]. split; [apply Hnop; lia |].
    split.
    { unfold deleteUpTo. rewrite (scale_asserted k s') by lia.
      rewrite Hms1. reflexivity. }
    apply (Hdtor (<[p := d0]> h) (<[p := d0]> h) b1 [p]);
      try assumption.
    + reflexivity.
    + auto.
    + intros q Hq. apply list_elem_of_singleton in Hq. auto.
    + left.
    + intros F HF. eapply frees_equiv; [| exact HF].
      intros q. rewrite Ed1, Emin1, Emax1, !elem_of_app. tauto.
  - destruct (Halloc ltac:(lia))
      as (h2 & b2 & Ha & Hinv2 & Hfin2 & Hms2 & _ & _ & Hbuf2 & Pd & Hext2
          & Hdom2 & Hfr2 & _).
    exists h2, b2.
    destruct (deleteUpTo_spec k h2 b2 s' Hk Hinv2 ltac:(lia) ltac:(lia))
      as [Hnop' Hdel].
    set (arrays := block_data_ b2 ++ block_min_data_ b2 ++ block_max_data_ b2).
    assert (Hp2 : p ∈ arrays).
    { unfold arrays. rewrite elem_of_app. left.
      apply (elem_of_prefix (block_data_ b1) _ p); [| exact Pd].
      rewrite Ed1. left. }
    assert (Hfresh2 : forall q, q ∈ arrays ->
                        q = p \/ (<[p := d0]> h) !! q = None).
    { intros q Hq. destruct (Hfr2 q Hq) as [Hq1 | ?]; [| auto]. left.
      rewrite Ed1, Emin1, Emax1, !elem_of_app, !list_elem_of_singleton in Hq1.
      tauto. }
    destruct (decide (s' = s)) as [-> | Hss].
    + exists h2, b2. split; [exact Hctor |]. split; [exact Ha |].
      split; [apply Hnop'; lia |].
      apply (Hdtor h2 h2 b2 arrays); try assumption.
      * congruence.
      * auto.
    + destruct (Hdel ltac:(lia))
        as (h3 & b3 & Hd & Hinv3 & Ed3 & Emin3 & Emax3 & _ & _ & _ & Hbuf3
            & Hfree3).
      exists h3, b3. split; [exact Hctor |]. split; [exact Ha |].
      split; [exact Hd |].
      apply (Hdtor h2 h3 b3 arrays); try assumption.
      * congruence.
      * intros F HF.
        eapply frees_equiv; [| exact (frees_trans _ _ _ _ _ Hfree3 HF)].
        intros q. rewrite Emin3, Emax3, Ed3. unfold arrays.
        set (n := Z.to_nat (k - s' + 1)).
        rewrite !elem_of_app.
        rewrite (elem_of_take_drop (block_data_ b2) n q).
        rewrite (elem_of_take_drop (block_min_data_ b2) (n - 1) q).
        rewrite (elem_of_take_drop (block_max_data_ b2) (n - 1) q).
        split; [| tauto].
        intros [[? | [? | ?]] | [? | [[? | Hx] | [? | Hx]]]]; auto;
          left; left; exact (elem_of_drop_l _ _ _ Hx).
Qed.

(** A block of side 2 on the empty heap: constructed, allocated down to
    scale 0, deleted up to scale 1 and destroyed. *)
Lemma block_lifecycle_restores_heap_witness :
  exists h1 b1 h2 b2 h3 b3,
    BlockMultiRes_ctor samples.fill ∅ samples.new_members
      (fixtures.voxel (-1) 3 true) = Some (h1, b1)
    /\ allocateDownTo 2 samples.fill h1 b1 0 = Some (h2, b2)
    /\ deleteUpTo 2 h2 b2 1 = Some (h3, b3)
    /\ BlockMultiRes_dtor h3 b3 = Some ∅.
Proof.
  apply (block_lifecycle_restores_heap samples.fill 1 ∅ samples.new_members
           (fixtures.voxel (-1) 3 true) 0 1);
    [exact fill_length | reflexivity | reflexivity | lia | lia | lia].
Defined.

End block_free_facts.

(** ** The storage of an occupancy block: the buffer and the scale switch *)

Section block_buffer_facts.
Import cxx occupancy block block_alloc updater.
Local Open Scope Z_scope.

Lemma pyramid_inv_wf (k : Z) (h : heap) (b : BlockMultiRes) :
  pyramid_inv k h b -> min_scale b = finest_allocated k b ->
  min_scale b <= current_scale b <= k -> wf k h b.
Proof.
  intros (Hpos & Lmin & Lmax & Lk & Hnd & Dmin & Dmax & Hlive) Hmin Hcur.
  unfold finest_allocated in Hmin. unfold wf, pyramid_allocated.
  split; [lia |]. split; [exact Hcur |]. split; [lia |].
  intros s Hs.
  destruct (lookup_lt_is_Some_2 (block_data_ b) (Z.to_nat (k - s)) ltac:(lia))
    as [p Hp].
  destruct (Hlive _ p (or_introl Hp)) as (arr & Harr & Hlen).
  exists p, arr. split; [| split; [exact Harr |]].
  - unfold at_. destruct (Z.ltb_spec (k - s) 0); [lia | exact Hp].
  - rewrite Hlen. do 3 f_equal. lia.
Qed.

Lemma pyramid_weaken (k : Z) (h h' : heap) (bd bmin bmax : list ptr) (m : nat) :
  pyramid k h bd bmin bmax m -> h ⊆ h' -> pyramid k h' bd bmin bmax m.
Proof.
  intros (Lmin & Lmax & Lk & Hnd & Dmin & Dmax & Hlive) Hext.
  repeat (split; [assumption |]). intros i p Hi.
  destruct (Hlive i p Hi) as (arr & Harr & Hlen).
  exists arr. split; [exact (lookup_weaken _ _ _ _ Harr Hext) | exact Hlen].
Qed.

(** X15: [initBuffer] on a block at rest, for the scale next to the
    current one, opens the buffer that [switchData] expects. One scale
    down the buffer is a new array of its own with one entry per voxel of
    that scale, and nothing else on the heap changes; one scale up the
    buffer is the mean array that the block already holds for that scale,
    and the heap does not change at all. In both cases the pyramids stay
    well formed and the two buffer counters start at 0. *)
Theorem initBuffer_switch_ready (k : Z) (h : heap) (b : BlockMultiRes)
    (buffer_scale : Z) :
  0 <= k < 31 -> settled k h b ->
  0 <= buffer_scale <= k ->
  buffer_scale = current_scale b - 1 \/ buffer_scale = current_scale b + 1 ->
  exists h' b' buf arr,
    initBuffer (2 ^ k) h b buffer_scale = Some (h', b')
    /\ switch_ready k h' b' buf arr
    /\ buffering k h' b' buf
    /\ buffer_scale_ b' = buffer_scale
    /\ buffer_integr_count_ b' = 0 /\ buffer_observed_count_ b' = 0
    /\ (buffer_scale < current_scale b ->
        h !! buf = None /\ h' = <[buf := arr]> h)
    /\ (current_scale b < buffer_scale -> h' = h).
Proof.
  intros Hk (Hinv & Hmin & Hcur & Hbuf & Hbs) Hrange Hstep.
  pose proof Hinv as (Hpos & Hpyr).
  pose proof Hpyr as (Lmin & Lmax & Lk & Hnd & Dmin & Dmax & Hlive).
  assert (Hmc : min_scale b <= current_scale b <= k).
  { unfold finest_allocated in Hmin. lia. }
  pose proof (pyramid_inv_wf k h b Hinv Hmin Hmc) as Hwf.
  unfold finest_allocated in Hmin.
  unfold initBuffer, resetBuffer. rewrite log2_pow2 by lia.
  destruct (Z.leb_spec 0 buffer_scale); [| lia].
  destruct (Z.leb_spec buffer_scale k); [| lia]. cbn [andb].
  rewrite Hbs, Hbuf.
  destruct (Z.ltb_spec (-1) (current_scale b)); [| lia].
  cbn [mbind option_bind current_scale block_data_ resetBufferCount set_buffer
       set_buffer_counts].
  destruct (Z.ltb_spec buffer_scale (current_scale b)) as [Hlt | Hge].
  - (* finer: a fresh array *)
    destruct (new_array h (cu (2 ^ k ≫ buffer_scale))) as [buf h'] eqn:E.
    apply new_array_inv in E as [Hfresh ->].
    set (arr := replicate (Z.to_nat (cu (2 ^ k ≫ buffer_scale))) default_data).
    assert (Hext : h ⊆ <[buf := arr]> h) by (apply insert_subseteq; exact Hfresh).
    assert (Hinv' : pyramid k (<[buf := arr]> h) (block_data_ b)
                      (block_min_data_ b) (block_max_data_ b)
                      (length (block_data_ b) - 1))
      by (exact (pyramid_weaken _ _ _ _ _ _ _ Hpyr Hext)).
    eexists _, _, buf, arr. split; [reflexivity |].
    unfold pyramid_inv.
    cbn [block_data_ block_min_data_ block_max_data_ min_scale current_scale
         set_buffer set_buffer_counts resetBufferCount].
    assert (Larr : Z.of_nat (length arr) = cu (2 ^ k ≫ buffer_scale)).
    { apply length_replicate_Z. apply cu_shiftr_nonneg. lia. }
    split; [| split].
    2:{ unfold buffering, pyramid_inv, finest_allocated.
        cbn [block_data_ block_min_data_ block_max_data_ min_scale
             current_scale buffer_data_ buffer_scale_ set_buffer
             set_buffer_counts resetBufferCount].
        split; [split; [exact Hpos | exact Hinv'] |].
        split; [exact Hmin |]. split; [exact Hcur |].
        split; [reflexivity |]. left.
        split; [lia |]. split; [lia |].
        split; [exists arr; split; [apply lookup_insert_eq | exact Larr] |].
        exact (pyramid_fresh _ _ _ _ _ _ buf Hpyr Hfresh). }
    2:{ cbn. split; [reflexivity |]. split; [reflexivity |].
        split; [reflexivity |]. split; [auto | intros; lia]. }
    unfold switch_ready, pyramid_inv.
    cbn [block_data_ block_min_data_ block_max_data_ min_scale current_scale
         set_buffer set_buffer_counts resetBufferCount].
    split.
    { apply pyramid_inv_wf; [split; [exact Hpos | exact Hinv'] | exact Hmin
                             | exact Hmc]. }
    split; [lia |]. split; [exact Lmin |]. split; [exact Lmax |].
    left. unfold buffer_finer. cbn.
    split; [lia |]. split; [lia |]. split; [reflexivity |].
    split; [apply lookup_insert_eq |].
    apply length_replicate_Z. apply cu_shiftr_nonneg. lia.
  - (* coarser: the mean array of that scale *)
    assert (Hbsc : buffer_scale = current_scale b + 1) by lia. subst buffer_scale.
    set (L := length (block_data_ b)) in *.
    assert (HL : (2 <= L)%nat) by lia.
    destruct (lookup_lt_is_Some_2 (block_data_ b) (L - 2)%nat ltac:(lia))
      as [buf Hb].
    destruct (lookup_lt_is_Some_2 (block_min_data_ b) (L - 2)%nat ltac:(lia))
      as [pmin Hpmin].
    destruct (lookup_lt_is_Some_2 (block_max_data_ b) (L - 2)%nat ltac:(lia))
      as [pmax Hpmax].
    assert (Hidx : Z.to_nat (k - (current_scale b + 1)) = (L - 2)%nat) by lia.
    assert (Hat : forall l : list ptr,
              at_ l (k - (current_scale b + 1)) = l !! (L - 2)%nat).
    { intros l. unfold at_.
      destruct (Z.ltb_spec (k - (current_scale b + 1)) 0); [lia |].
      rewrite Hidx. reflexivity. }
    rewrite Hat, Hb. cbn [mbind option_bind].
    destruct (Hlive _ buf (or_introl Hb)) as (arr & Harr & Hlarr).
    eexists _, _, buf, arr. split; [reflexivity |].
    unfold pyramid_inv.
    cbn [block_data_ block_min_data_ block_max_data_ min_scale current_scale
         set_buffer set_buffer_counts resetBufferCount].
    split; [| split].
    2:{ unfold buffering, pyramid_inv, finest_allocated.
        cbn [block_data_ block_min_data_ block_max_data_ min_scale
             current_scale buffer_data_ buffer_scale_ set_buffer
             set_buffer_counts resetBufferCount].
        split; [exact Hinv |].
        split; [exact Hmin |]. split; [exact Hcur |].
        split; [reflexivity |]. right.
        split; [reflexivity |]. split; [lia |]. rewrite Hat. exact Hb. }
    2:{ cbn. split; [reflexivity |]. split; [reflexivity |].
        split; [reflexivity |]. split; [intros; lia | reflexivity]. }
    unfold switch_ready, pyramid_inv.
    cbn [block_data_ block_min_data_ block_max_data_ min_scale current_scale
         set_buffer set_buffer_counts resetBufferCount].
    split; [exact Hwf |].
    split; [lia |]. split; [exact Lmin |]. split; [exact Lmax |].
    right. unfold buffer_coarser.
    cbn [buffer_scale_ current_scale buffer_data_ block_data_ block_min_data_
         block_max_data_ set_buffer set_buffer_counts resetBufferCount].
    split; [reflexivity |]. split; [lia |]. split; [reflexivity |].
    split; [exact Harr |].
    split; [rewrite Hlarr; do 3 f_equal; lia |].
    rewrite !Hat. split; [exact Hb |].
    apply NoDup_app in Hnd as (Nd & Ndx & Hnd).
    apply NoDup_app in Hnd as (Nmin & Nmx & Nmax).
    split; [exact Nd |].
    assert (Tmin : pmin ∈ take (L - 1) (block_min_data_ b)).
    { apply (list_elem_of_lookup_2 _ (L - 2)%nat).
      rewrite lookup_take_lt by lia. exact Hpmin. }
    assert (Tmax : pmax ∈ take (L - 1) (block_max_data_ b)).
    { apply (list_elem_of_lookup_2 _ (L - 2)%nat).
      rewrite lookup_take_lt by lia. exact Hpmax. }
    exists pmin, pmax. split; [exact Hpmin |]. split; [exact Hpmax |].
    split; [intros ->; exact (Nmx _ Tmin Tmax) |].
    split; [intros Hin; apply (Ndx _ Hin); apply elem_of_app; auto |].
    split; [intros Hin; apply (Ndx _ Hin); apply elem_of_app; auto |].
    split.
    + destruct (Hlive _ pmin (or_intror (or_introl Hpmin))) as (a & Ha & _). eauto.
    + destruct (Hlive _ pmax (or_intror (or_intror Hpmax))) as (a & Ha & _). eauto.
Qed.

(** The two blocks of side 2 at rest: the coarse one opens a new array for
    scale 0, the fine one takes its own mean array of scale 1 as buffer. *)
Lemma initBuffer_switch_ready_witness :
  (exists h' b' buf arr,
      initBuffer 2 fixtures.coarse_heap samples.coarse_block_at_rest 0
      = Some (h', b')
      /\ buffering 1 h' b' buf
      /\ fixtures.coarse_heap !! buf = None
      /\ h' = <[buf := arr]> fixtures.coarse_heap)
  /\ (exists b',
        initBuffer 2 fixtures.fine_heap samples.fine_block_at_rest 1
        = Some (fixtures.fine_heap, b')
        /\ buffer_data_ b' = Some 1%positive).
Proof.
  assert (Hk : 0 <= 1 < 31) by lia.
  split.
  - destruct (initBuffer_switch_ready 1 fixtures.coarse_heap
                samples.coarse_block_at_rest 0 Hk)
      as (h' & b' & buf & arr & Hi & _ & Hb & _ & _ & _ & Hfiner & _).
    + split; [concrete_pyramid_inv |]. repeat split; reflexivity.
    + lia.
    + left. reflexivity.
    + destruct Hfiner as [Hfresh Hh]; [cbn; lia |].
      exists h', b', buf, arr. auto.
  - destruct (initBuffer_switch_ready 1 fixtures.fine_heap
                samples.fine_block_at_rest 1 Hk)
      as (h' & b' & buf & arr & Hi & _ & Hb & _ & _ & _ & _ & Hcoarser).
    + split; [concrete_pyramid_inv |]. repeat split; reflexivity.
    + lia.
    + right. reflexivity.
    + rewrite (Hcoarser ltac:(cbn; lia)) in Hi. exists b'.
      split; [exact Hi |]. vm_compute in Hi. injection Hi as <-. reflexivity.
Defined.

(** X16: a buffer that is opened and then given up leaves no trace.
    [initBuffer] on a block at rest, for any scale of the block, followed
    by [resetBuffer] returns the heap as it was, with the array of a finer
    buffer freed again, and the block as it was, but for its two buffer
    counters, which are 0. *)
Theorem resetBuffer_undoes_initBuffer (k : Z) (h : heap) (b : BlockMultiRes)
    (buffer_scale : Z) :
  0 <= k < 31 -> settled k h b -> 0 <= buffer_scale <= k ->
  exists h' b',
    initBuffer (2 ^ k) h b buffer_scale = Some (h', b')
    /\ resetBuffer h' b' = Some (h, resetBufferCount b).
Proof.
  intros Hk (Hinv & Hmin & Hcur & Hbuf & Hbs) Hrange.
  pose proof Hinv as (Hpos & Hpyr).
  pose proof Hpyr as (Lmin & Lmax & Lk & Hnd & Dmin & Dmax & Hlive).
  unfold finest_allocated in Hmin.
  assert (Hreset : resetBufferCount (set_buffer b None (-1))
                   = resetBufferCount b).
  { destruct b. cbn in Hbuf, Hbs. subst. reflexivity. }
  unfold initBuffer. rewrite log2_pow2 by lia.
  destruct (Z.leb_spec 0 buffer_scale); [| lia].
  destruct (Z.leb_spec buffer_scale k); [| lia]. cbn [andb].
  unfold resetBuffer at 1. rewrite Hbs, Hbuf.
  destruct (Z.ltb_spec (-1) (current_scale b)); [| lia].
  cbn [mbind option_bind current_scale block_data_ resetBufferCount set_buffer
       set_buffer_counts].
  destruct (Z.ltb_spec buffer_scale (current_scale b)) as [Hlt | Hge].
  - destruct (new_array h (cu (2 ^ k ≫ buffer_scale))) as [buf h'] eqn:E.
    apply new_array_inv in E as [Hfresh ->].
    eexists _, _. split; [reflexivity |].
    unfold resetBuffer.
    cbn [buffer_scale_ current_scale buffer_data_ set_buffer set_buffer_counts
         resetBufferCount].
    destruct (Z.ltb_spec buffer_scale (current_scale b)); [| lia].
    unfold delete_array. rewrite lookup_insert_eq. cbn [mbind option_bind].
    rewrite delete_insert_id by exact Hfresh.
    f_equal. f_equal. destruct b. cbn in Hbuf, Hbs. subst. reflexivity.
  - destruct (lookup_lt_is_Some_2 (block_data_ b)
                (Z.to_nat (k - buffer_scale)) ltac:(lia)) as [buf Hb].
    unfold at_. destruct (Z.ltb_spec (k - buffer_scale) 0); [lia |].
    rewrite Hb. cbn [mbind option_bind].
    eexists _, _. split; [reflexivity |].
    unfold resetBuffer.
    cbn [buffer_scale_ current_scale buffer_data_ set_buffer set_buffer_counts
         resetBufferCount].
    destruct (Z.ltb_spec buffer_scale (current_scale b)); [lia |].
    cbn [mbind option_bind].
    f_equal. f_equal. destruct b. cbn in Hbuf, Hbs. subst. reflexivity.
Qed.

(** The coarse block of side 2 at rest opens a buffer for scale 0 and gives
    it up again. *)
Lemma resetBuffer_undoes_initBuffer_witness :
  exists h' b',
    initBuffer 2 fixtures.coarse_heap samples.coarse_block_at_rest 0
    = Some (h', b')
    /\ resetBuffer h' b'
       = Some (fixtures.coarse_heap, samples.coarse_block_at_rest).
Proof.
  apply (resetBuffer_undoes_initBuffer 1 fixtures.coarse_heap
           samples.coarse_block_at_rest 0); [lia | | lia].
  split; [concrete_pyramid_inv |]. repeat split; reflexivity.
Defined.

(** A live array that is not part of the pyramids becomes the new finest
    scale, shared by the three pyramids. *)
Lemma pyramid_push_shared_live (k : Z) (h h' : heap) (bd bmin bmax : list ptr)
    (pd : ptr) (ad : list Data) :
  pyramid k h bd bmin bmax (length bd) ->
  Z.of_nat (length bd) <= k ->
  pd ∉ bd ++ bmin ++ bmax ->
  (forall q, q <> pd -> h' !! q = h !! q) ->
  h' !! pd = Some ad ->
  Z.of_nat (length ad) = cu (2 ^ k ≫ (k - Z.of_nat (length bd))) ->
  pyramid k h' (bd ++ [pd]) (bmin ++ [pd]) (bmax ++ [pd]) (length bd).
Proof.
  intros Hpyr Hk Fd Hext Had Hld.
  destruct Hpyr as (Lmin & Lmax & Lk & Hnd & Dmin & Dmax & Hlive).
  unfold pyramid. rewrite !length_app. cbn [length].
  split; [lia |]. split; [lia |]. split; [lia |].
  rewrite !take_ge in Hnd by lia.
  rewrite !take_app_le by lia. rewrite !take_ge by lia.
  rewrite !drop_app_le by lia. rewrite !drop_ge by lia. cbn [app].
  split; [| split; [reflexivity | split; [reflexivity |]]].
  - assert (P : (bd ++ [pd]) ++ bmin ++ bmax ≡ₚ pd :: (bd ++ bmin ++ bmax))
      by solve_Permutation.
    rewrite P. apply NoDup_cons. split; assumption.
  - intros i p Hi.
    destruct (decide (i < length bd)%nat) as [Hlt | Hge].
    + rewrite !lookup_app_l in Hi by lia.
      destruct (Hlive i p Hi) as (arr & Harr & Hlen).
      exists arr. split; [| exact Hlen]. rewrite Hext; [exact Harr |].
      intros ->. apply Fd. rewrite !elem_of_app.
      destruct Hi as [Hi | [Hi | Hi]]; apply list_elem_of_lookup_2 in Hi; auto.
    + destruct (decide (i = length bd)) as [-> | Hne].
      * rewrite lookup_app_r in Hi by lia.
        rewrite (lookup_app_r bmin) in Hi by lia.
        rewrite (lookup_app_r bmax) in Hi by lia.
        rewrite Lmin, Lmax, Nat.sub_diag in Hi. cbn in Hi.
        destruct Hi as [[= <-] | [[= <-] | [= <-]]]; eauto.
      * exfalso. destruct Hi as [Hi | [Hi | Hi]];
          apply lookup_lt_Some in Hi; rewrite length_app in Hi; cbn in Hi; lia.
Qed.

(** Writing the voxels of one array leaves the pyramids in order. *)
Lemma pyramid_update (k : Z) (h : heap) (bd bmin bmax : list ptr) (m : nat)
    (p : ptr) (arr arr' : list Data) :
  pyramid k h bd bmin bmax m -> h !! p = Some arr ->
  length arr' = length arr ->
  pyramid k (<[p := arr']> h) bd bmin bmax m.
Proof.
  intros (Lmin & Lmax & Lk & Hnd & Dmin & Dmax & Hlive) Hp Hlen.
  repeat (split; [assumption |]). intros i q Hi.
  destruct (Hlive i q Hi) as (a & Ha & Hla).
  destruct (decide (q = p)) as [-> | Hq].
  - exists arr'. rewrite lookup_insert_eq. split; [reflexivity |].
    rewrite Hp in Ha. injection Ha as <-. lia.
  - exists a. rewrite lookup_insert_ne by congruence. auto.
Qed.

Lemma insert_last_app {A} (l : list A) (x y : A) :
  (0 < length l)%nat ->
  <[(length l - 1)%nat := x]> (l ++ [y]) = (take (length l - 1) l ++ [x]) ++ [y].
Proof.
  intros Hl. rewrite insert_app_l by lia. f_equal.
  rewrite insert_take_drop by lia.
  replace (S (length l - 1)) with (length l) by lia.
  rewrite drop_all. reflexivity.
Qed.

Lemma length_marked (arr : list Data) (n : nat) :
  length ((mark_observed <$> take n arr) ++ drop n arr) = length arr.
Proof.
  rewrite length_app, length_fmap, length_take, length_drop. lia.
Qed.

(** X17: [switchData] on a block with an open buffer next to its current
    scale and enough integrations to ratify it returns [true] and leaves a
    block at rest at the scale of the buffer: the buffer is the current
    data, no buffer is open, the pyramids are well formed and reach exactly
    down to the new current scale. This holds for the switch to the finer
    scale, which grows the pyramids, and for the switch to the coarser
    scale, which truncates them. *)
Theorem switchData_settles (k : Z) (h : heap) (b : BlockMultiRes) (buf : ptr) :
  0 <= k < 31 -> buffering k h b buf -> ratified b ->
  exists h' b',
    switchData (2 ^ k) h b = Some (h', b', true)
    /\ settled k h' b'
    /\ current_scale b' = buffer_scale_ b
    /\ curr_data_ b' = Some buf.
Proof.
  intros Hk (Hinv & Hmin & Hcur & Hbuf & Hcase) Hrat.
  pose proof Hinv as (Hpos & Hpyr).
  pose proof Hpyr as (Lmin & Lmax & Lk & Hnd & Dmin & Dmax & Hlive).
  unfold switchData.
  rewrite (proj2 (switchData_test b) Hrat). rewrite Hbuf.
  cbn [mbind option_bind]. rewrite log2_pow2 by lia.
  unfold finest_allocated in Hmin.
  set (L := length (block_data_ b)) in *.
  destruct Hcase as [(Hbs & Hbs0 & (arr & Harr & Hlarr) & Hnot)
                    | (Hbs & Hbsk & Hat)].
  - (* finer *)
    destruct (Z.ltb_spec (buffer_scale_ b) (current_scale b)); [| lia].
    set (n := cu (2 ^ k ≫ (buffer_scale_ b + 1))).
    destruct (new_array h n) as [pmin h1] eqn:E1.
    apply new_array_inv in E1 as [F1 ->].
    replace (k - (buffer_scale_ b + 1)) with (Z.of_nat (L - 1)) by lia.
    rewrite set_at_Some by (rewrite length_app; cbn; lia).
    cbn [mbind option_bind].
    destruct (new_array (<[pmin := _]> h) n) as [pmax h2] eqn:E2.
    apply new_array_inv in E2 as [F2 ->].
    apply lookup_insert_None in F2 as [F2 N21].
    rewrite set_at_Some by (rewrite length_app; cbn; lia).
    cbn [mbind option_bind]. rewrite Nat2Z.id.
    set (D := replicate (Z.to_nat n) default_data) in *.
    assert (Hn : 0 <= n) by (apply cu_shiftr_nonneg; lia).
    assert (LD : Z.of_nat (length D) = n) by (apply length_replicate_Z; exact Hn).
    assert (Nb1 : buf <> pmin) by congruence.
    assert (Nb2 : buf <> pmax) by congruence.
    rewrite !lookup_insert_ne by congruence. rewrite Harr.
    cbn [mbind option_bind].
    destruct (Z.ltb_spec (Z.of_nat (length arr)) (cu (2 ^ k ≫ buffer_scale_ b)));
      [lia |].
    eexists _, _. split; [reflexivity |].
    unfold settled, pyramid_inv, finest_allocated.
    cbn [block_data_ block_min_data_ block_max_data_ min_scale current_scale
         buffer_data_ buffer_scale_ curr_data_ set_pyramid].
    rewrite length_app. cbn [length]. fold L.
    split; [| auto].
    split; [| split; [lia | auto]].
    split; [lia |].
    replace (L + 1 - 1)%nat with L by lia.
    rewrite <- Lmin at 1. rewrite insert_last_app by lia.
    rewrite <- Lmax at 1. rewrite insert_last_app by lia.
    rewrite Lmin, Lmax. fold L.
    set (h2 := <[pmax := D]> (<[pmin := D]> h)).
    assert (Hext : h ⊆ h2).
    { apply map_subseteq_spec. intros q a Hq. unfold h2.
      rewrite !lookup_insert_ne by congruence. exact Hq. }
    pose proof (pyramid_unshare k h h2 (block_data_ b) (block_min_data_ b)
                  (block_max_data_ b) pmin pmax D D Hpos Hpyr F1 F2
                  ltac:(congruence)
                  (fun q a Hq => lookup_weaken _ _ _ _ Hq Hext)) as Hpyr2.
    fold L in Hpyr2.
    assert (Hlen2 : Z.of_nat (length D) = cu (2 ^ k ≫ (k - (Z.of_nat L - 1)))).
    { rewrite LD. unfold n. do 2 f_equal. lia. }
    specialize (Hpyr2 ltac:(unfold h2; rewrite lookup_insert_ne by congruence;
                             apply lookup_insert_eq)
                      ltac:(apply lookup_insert_eq) Hlen2 Hlen2).
    apply (pyramid_push_shared_live k h2 _ (block_data_ b) _ _ buf
             ((mark_observed <$> take (Z.to_nat (cu (2 ^ k ≫ buffer_scale_ b))) arr)
              ++ drop (Z.to_nat (cu (2 ^ k ≫ buffer_scale_ b))) arr)).
    + exact Hpyr2.
    + fold L. lia.
    + rewrite !elem_of_app, !list_elem_of_singleton.
      intros [Hin | [[Hin | ->] | [Hin | ->]]]; try congruence;
        apply Hnot; rewrite !elem_of_app; eauto using elem_of_take_l.
    + intros q Hq. apply lookup_insert_ne. congruence.
    + apply lookup_insert_eq.
    + rewrite length_marked, Hlarr. fold L. do 2 f_equal. lia.
  - (* coarser *)
    destruct (Z.ltb_spec (buffer_scale_ b) (current_scale b)); [lia |].
    destruct (deleteUpTo_spec k h b (buffer_scale_ b) Hk Hinv
                ltac:(unfold finest_allocated; exact Hmin) ltac:(lia))
      as [_ Hdel].
    destruct (Hdel ltac:(lia))
      as (h1 & b1 & -> & Hinv1 & Ed1 & Emin1 & Emax1 & Hms1 & Hfin1 & _ & _
          & Hfree1).
    cbn [mbind option_bind].
    pose proof Hinv1 as (Hpos1 & Hpyr1).
    pose proof Hpyr1 as (_ & _ & _ & _ & _ & _ & Hlive1).
    assert (Hb1 : block_data_ b1 !! (L - 2)%nat = Some buf).
    { rewrite Ed1. rewrite lookup_take_lt by lia.
      unfold at_ in Hat. destruct (k - buffer_scale_ b <? 0); [discriminate |].
      replace (Z.to_nat (k - buffer_scale_ b)) with (L - 2)%nat in Hat by lia.
      exact Hat. }
    destruct (Hlive1 _ buf (or_introl Hb1)) as (arr & Harr & Hlarr).
    rewrite Harr. cbn [mbind option_bind].
    replace (k - Z.of_nat (L - 2)) with (buffer_scale_ b) in Hlarr by lia.
    destruct (Z.ltb_spec (Z.of_nat (length arr)) (cu (2 ^ k ≫ buffer_scale_ b)));
      [lia |].
    eexists _, _. split; [reflexivity |].
    unfold settled, pyramid_inv, finest_allocated.
    cbn [block_data_ block_min_data_ block_max_data_ min_scale current_scale
         buffer_data_ buffer_scale_ curr_data_].
    unfold finest_allocated in Hfin1.
    split; [| auto]. split; [| split; [lia | auto]].
    split; [exact Hpos1 |].
    apply (pyramid_update k h1 _ _ _ _ buf arr); [exact Hpyr1 | exact Harr |].
    apply length_marked.
Qed.

(** The block of side 2 that buffers the finer scale 0 after 20
    integrations, and the block that buffers the coarser scale 1. *)
Lemma switchData_settles_witness :
  (exists h' b',
      switchData 2 fixtures.coarse_heap fixtures.coarse_block
      = Some (h', b', true)
      /\ settled 1 h' b' /\ current_scale b' = 0
      /\ curr_data_ b' = Some 2%positive)
  /\ (exists h' b',
        switchData 2 fixtures.fine_heap fixtures.fine_block
        = Some (h', b', true)
        /\ settled 1 h' b' /\ current_scale b' = 1
        /\ curr_data_ b' = Some 1%positive).
Proof.
  assert (Hk : 0 <= 1 < 31) by lia.
  split.
  - apply (switchData_settles 1 fixtures.coarse_heap fixtures.coarse_block
             2%positive Hk).
    + split; [concrete_pyramid_inv |]. do 3 (split; [reflexivity |]).
      left. split; [reflexivity |]. split; [cbn; lia |].
      split; [eexists; split; reflexivity |].
      refine (bool_decide_unpack _ _). vm_compute. exact I.
    + split; [cbn; lia | vm_compute; discriminate].
  - apply (switchData_settles 1 fixtures.fine_heap fixtures.fine_block
             1%positive Hk).
    + split; [concrete_pyramid_inv |]. do 3 (split; [reflexivity |]).
      right. split; [reflexivity |]. split; [cbn; lia | reflexivity].
    + split; [cbn; lia | vm_compute; discriminate].
Defined.

End block_buffer_facts.

(** ** The links of the octree under allocation, pruning and propagation *)

Section octree_links_facts.
Import cxx occupancy octree octree_inv propagator updater.
Local Open Scope Z_scope.

Lemma links_ok_b_sound (p : pool) : links_ok_b p = true -> links_ok p.
Proof.
  unfold links_ok_b. rewrite forallb_forall. intros H a o i c Ha Hi.
  specialize (H (a, o)). cbn beta iota in H.
  rewrite forallb_forall in H.
  assert (Hin : In (a, o) (map_to_list p)).
  { apply list_elem_of_In, elem_of_map_to_list. exact Ha. }
  specialize (H Hin (i, Some c)). cbn beta iota in H.
  assert (Hic : In (i, Some c) (imap pair (children o))).
  { apply list_elem_of_In. exact (elem_of_lookup_imap_2 pair _ _ _ Hi). }
  specialize (H Hic).
  destruct (p !! c) as [oc |]; [| discriminate].
  exists oc. split; [reflexivity |].
  unfold child_ok_b in H. apply andb_true_iff in H as [H H3].
  apply andb_true_iff in H as [H1 H2].
  apply bool_decide_eq_true in H1, H3. apply Z.eqb_eq in H2.
  split; [exact H1 | split; [exact H2 | exact H3]].
Qed.

Section BlockSize.
Variable BlockSize : Z.

Lemma child_ok_same_place (a : ptr) (o o' : Octant) (i : nat) (oc oc' : Octant) :
  size o' = size o -> coord o' = coord o ->
  parent_ptr oc' = parent_ptr oc -> size oc' = size oc -> coord oc' = coord oc ->
  child_ok a o i oc -> child_ok a o' i oc'.
Proof.
  unfold child_ok. intros -> -> -> -> ->. auto.
Qed.

Lemma allocate_missing_keeps_links (t : Octree) (a : ptr) (parent : Octant)
    (child_idx : Z) (c : ptr) (t' : Octree) :
  links_ok (memory_pool_ t) ->
  memory_pool_ t !! a = Some parent ->
  allocate_missing BlockSize t a parent child_idx = Some (c, t') ->
  links_ok (memory_pool_ t')
  /\ memory_pool_ t !! c = None
  /\ (forall x, x <> a -> x <> c -> memory_pool_ t' !! x = memory_pool_ t !! x)
  /\ exists parent', memory_pool_ t' !! a = Some parent'
                     /\ size parent' = size parent
                     /\ coord parent' = coord parent
                     /\ getChild parent' child_idx = Some (Some c)
                     /\ forall j, j <> child_idx ->
                          getChild parent' j = getChild parent j.
Proof.
  intros Hlinks Hp. unfold allocate_missing.
  set (alloc := if size parent =? BlockSize ≪ 1
                then allocateBlock BlockSize (memory_pool_ t) a parent child_idx
                else allocateNode (memory_pool_ t) a parent child_idx).
  set (c0 := fresh (dom (memory_pool_ t))).
  assert (Halloc : exists o,
             alloc = (c0, <[c0 := o]> (memory_pool_ t))
             /\ parent_ptr o = Some a /\ size o = size parent ≫ 1
             /\ coord o = child_coord (coord parent) (size parent ≫ 1) child_idx
             /\ forall j y, children o !! j = Some (Some y) -> False).
  { unfold alloc, allocateBlock, allocateNode, pool_new.
    destruct (Z.eqb_spec (size parent) (BlockSize ≪ 1)) as [E | E];
      eexists; (split; [reflexivity |]); cbn [parent_ptr size coord children].
    - assert (EB : size parent ≫ 1 = BlockSize).
      { rewrite E. rewrite Z.shiftr_shiftl_l by lia. reflexivity. }
      rewrite EB. repeat split; try reflexivity.
      intros j y Hj. rewrite lookup_nil in Hj. discriminate.
    - repeat split; try reflexivity.
      intros j y Hj. unfold no_children in Hj.
      apply lookup_replicate in Hj as [Hj _]. discriminate. }
  destruct Halloc as (o & -> & Ho1 & Ho2 & Ho3 & Ho4).
  assert (Hfresh : memory_pool_ t !! c0 = None).
  { apply not_elem_of_dom. apply is_fresh. }
  assert (Hne : c0 <> a) by congruence.
  unfold setChild.
  destruct (block.set_at (children parent) child_idx (Some c0)) as [cs |] eqn:Hset;
    cbn [fmap option_fmap option_map mbind option_bind]; [| discriminate].
  intros [= <- <-]. cbn [memory_pool_].
  assert (Hidx : 0 <= child_idx < Z.of_nat (length (children parent))
                 /\ cs = <[Z.to_nat child_idx := Some c0]> (children parent)).
  { unfold block.set_at in Hset.
    destruct (Z.ltb_spec child_idx 0); cbn in Hset; [discriminate |].
    destruct (Z.leb_spec (Z.of_nat (length (children parent))) child_idx);
      [discriminate |]. injection Hset as <-. split; [lia | reflexivity]. }
  destruct Hidx as [Hidx ->].
  set (parent' := set_children parent _).
  split; [| split; [exact Hfresh | split]].
  - intros x ox j y Hx Hj.
    assert (Hold : forall z oz, memory_pool_ t !! z = Some oz ->
              exists oz', (<[a := parent']> (<[c0 := o]> (memory_pool_ t))) !! z
                          = Some oz'
                          /\ parent_ptr oz' = parent_ptr oz
                          /\ size oz' = size oz /\ coord oz' = coord oz).
    { intros z oz Hz. destruct (decide (z = a)) as [-> | Hza].
      - rewrite lookup_insert_eq. exists parent'. rewrite Hp in Hz.
        injection Hz as <-. auto.
      - rewrite lookup_insert_ne by congruence.
        rewrite lookup_insert_ne by congruence. eauto. }
    destruct (decide (x = a)) as [-> | Hxa].
    + rewrite lookup_insert_eq in Hx. injection Hx as <-.
      cbn [parent' children set_children] in Hj.
      destruct (decide (j = Z.to_nat child_idx)) as [-> | Hji].
      * rewrite list_lookup_insert_eq in Hj by lia. injection Hj as <-.
        exists o. rewrite lookup_insert_ne by congruence.
        rewrite lookup_insert_eq. split; [reflexivity |].
        unfold child_ok. cbn [parent' size coord set_children].
        rewrite Z2Nat.id by lia. auto.
      * rewrite list_lookup_insert_ne in Hj by congruence.
        destruct (Hlinks a parent j y Hp Hj) as (oy & Hy & Hok).
        destruct (Hold y oy Hy) as (oy' & Hy' & E1 & E2 & E3).
        exists oy'. split; [exact Hy' |].
        apply (child_ok_same_place a parent parent' j oy oy'); auto.
    + destruct (decide (x = c0)) as [-> | Hxc].
      * rewrite lookup_insert_ne in Hx by congruence.
        rewrite lookup_insert_eq in Hx. injection Hx as <-.
        destruct (Ho4 j y Hj).
      * rewrite !lookup_insert_ne in Hx by congruence.
        destruct (Hlinks x ox j y Hx Hj) as (oy & Hy & Hok).
        destruct (Hold y oy Hy) as (oy' & Hy' & E1 & E2 & E3).
        exists oy'. split; [exact Hy' |].
        apply (child_ok_same_place x ox ox j oy oy'); auto.
  - intros x Hxa Hxc. rewrite !lookup_insert_ne by congruence. reflexivity.
  - exists parent'. split; [apply lookup_insert_eq |].
    split; [reflexivity |]. split; [reflexivity |].
    unfold getChild, at_. cbn [parent' children set_children].
    destruct (Z.ltb_spec child_idx 0); [lia |]. split.
    + apply list_lookup_insert_eq. lia.
    + intros j Hj. destruct (Z.ltb_spec j 0); [reflexivity |].
      apply list_lookup_insert_ne. lia.
Qed.

(** X18: [allocate] keeps the octree linked: if every child pointer led to
    a live octant that points back to its parent, has half its side and
    lies in the octant that the child index selects, this still holds
    after [allocate] returns. The returned octant is that child of the
    parent, the other children of the parent and all other octants are as
    they were. *)
Theorem allocate_keeps_links (t : Octree) (a : ptr) (child_idx : Z) (c : ptr)
    (t' : Octree) :
  links_ok (memory_pool_ t) ->
  allocate BlockSize t a child_idx = Some (c, t') ->
  links_ok (memory_pool_ t')
  /\ (forall x, x <> a -> x <> c -> memory_pool_ t' !! x = memory_pool_ t !! x)
  /\ exists parent parent' child,
       memory_pool_ t !! a = Some parent
       /\ memory_pool_ t' !! a = Some parent'
       /\ getChild parent' child_idx = Some (Some c)
       /\ (forall j, j <> child_idx -> getChild parent' j = getChild parent j)
       /\ memory_pool_ t' !! c = Some child
       /\ child_ok a parent (Z.to_nat child_idx) child.
Proof.
  intros Hlinks. unfold allocate.
  destruct (memory_pool_ t !! a) as [parent |] eqn:Hp;
    cbn [mbind option_bind]; [| discriminate].
  destruct (is_block parent); [discriminate |].
  destruct (getChild parent child_idx) as [[c0 |] |] eqn:Hc;
    cbn [mbind option_bind]; [| | discriminate].
  - intros [= <- <-]. split; [exact Hlinks |]. split; [reflexivity |].
    assert (Hc' : children parent !! Z.to_nat child_idx = Some (Some c0)).
    { unfold getChild, at_ in Hc. destruct (child_idx <? 0); [discriminate | exact Hc]. }
    destruct (Hlinks a parent _ c0 Hp Hc') as (oc & Hoc & Hok).
    exists parent, parent, oc. auto 10.
  - intros Hmiss.
    destruct (allocate_missing_keeps_links t a parent child_idx c t' Hlinks Hp Hmiss)
      as (Hlinks' & Hfresh & Hframe & parent' & Hp' & Hsz & Hco & Hc' & Hother).
    split; [exact Hlinks' |]. split; [exact Hframe |].
    assert (Hc'' : children parent' !! Z.to_nat child_idx = Some (Some c)).
    { unfold getChild, at_ in Hc'. destruct (child_idx <? 0); [discriminate | exact Hc']. }
    destruct (Hlinks' a parent' _ c Hp' Hc'') as (oc & Hoc & Hok).
    exists parent, parent', oc. split; [reflexivity |].
    do 4 (split; [assumption |]).
    apply (child_ok_same_place a parent' parent _ oc oc); auto.
Qed.

End BlockSize.

(** The first child of the root of the octree of side 32 with blocks of
    side 8: a node of side 16 at the origin. *)
Lemma allocate_keeps_links_witness :
  exists c t' child,
    allocate 8 fixtures.empty_tree 1%positive 0 = Some (c, t')
    /\ links_ok (memory_pool_ t')
    /\ memory_pool_ t' !! c = Some child
    /\ size child = 16 /\ coord child = (0, 0, 0)
    /\ parent_ptr child = Some 1%positive.
Proof.
  destruct (allocate 8 fixtures.empty_tree 1%positive 0) as [[c t'] |] eqn:E;
    [| vm_compute in E; discriminate E].
  destruct (allocate_keeps_links 8 fixtures.empty_tree 1%positive 0 c t')
    as (Hlinks & _ & parent & parent' & child & Hp & _ & _ & _ & Hc & Hok);
    [apply links_ok_b_sound; vm_compute; reflexivity | exact E |].
  exists c, t', child. split; [reflexivity |]. split; [exact Hlinks |].
  split; [exact Hc |]. destruct Hok as (Hpar & Hsz & Hco).
  vm_compute in Hp. injection Hp as <-.
  split; [exact Hsz |]. split; [exact Hco | exact Hpar].
Defined.

Lemma descendants_loop_parent (rec : pool -> ptr -> option (list ptr))
    (p : pool) (cs : list (option ptr)) (ds : list ptr) :
  reaches_through_children rec ->
  descendants_loop rec p cs = Some ds ->
  forall c, c ∈ ds ->
    Some c ∈ cs
    \/ exists y o, y ∈ ds /\ p !! y = Some o /\ Some c ∈ children o.
Proof.
  intros Hrec. revert ds. induction cs as [| [c0 |] cs IH]; intros ds; cbn.
  - intros [= <-] c Hc. inversion Hc.
  - destruct (p !! c0) as [child |] eqn:Hc0; cbn; [| discriminate].
    destruct (if is_block child then Some [] else rec p c0) as [below |] eqn:Hb;
      cbn; [| discriminate].
    destruct (descendants_loop rec p cs) as [rest |] eqn:Hr; cbn; [| discriminate].
    intros [= <-] c Hc. rewrite elem_of_app, elem_of_cons in Hc.
    destruct Hc as [Hc | [-> | Hc]].
    + right. destruct (is_block child); [injection Hb as <-; inversion Hc |].
      destruct (Hrec p c0 below Hb c Hc) as (y & o & Hy & Ho & Hin).
      exists y, o. split; [| auto].
      rewrite elem_of_app, elem_of_cons. destruct Hy as [-> | Hy]; auto.
    + left. left.
    + destruct (IH rest eq_refl c Hc) as [Hin | (y & o & Hy & Ho & Hin)].
      * left. right. exact Hin.
      * right. exists y, o. split; [| auto].
        rewrite elem_of_app, elem_of_cons. auto.
  - intros Hds c Hc. destruct (IH ds Hds c Hc) as [Hin | H]; [| auto].
    left. right. exact Hin.
Qed.

Lemma descendants_parent (fuel : nat) :
  reaches_through_children (descendants fuel).
Proof.
  induction fuel as [| fuel IH]; intros p n ds; cbn; [discriminate |].
  destruct (p !! n) as [o |] eqn:Hn; cbn; [| discriminate].
  destruct (is_block o || negb (length (children o) =? 8)%nat); [discriminate |].
  intros Hds c Hc.
  destruct (descendants_loop_parent _ p _ ds IH Hds c Hc)
    as [Hin | (y & oy & Hy & Ho & Hin)].
  - exists n, o. auto.
  - exists y, oy. auto.
Qed.

Lemma deleteChildren_links (fuel : nat) (p : pool) (n : ptr) (ds : list ptr)
    (p' : pool) :
  links_ok p -> descendants fuel p n = Some ds -> NoDup (n :: ds) ->
  subtree_deleted p n ds p' -> links_ok p'.
Proof.
  intros Hlinks Hds Hnodup Hsub.
  apply NoDup_cons in Hnodup as [Hn_ds _].
  assert (Hkeep : forall c oc, p !! c = Some oc -> c ∉ ds ->
            exists oc', p' !! c = Some oc' /\ parent_ptr oc' = parent_ptr oc
                        /\ size oc' = size oc /\ coord oc' = coord oc).
  { intros c oc Hc Hnot. rewrite (Hsub c).
    destruct (decide (c = n)) as [-> | ?].
    - rewrite Hc. cbn. eexists. split; [reflexivity |]. auto.
    - rewrite decide_False by exact Hnot. eauto. }
  intros a o i c Ha Hi. rewrite (Hsub a) in Ha.
  destruct (decide (a = n)) as [-> | Han].
  - destruct (p !! n) as [node |]; cbn [fmap option_fmap option_map] in Ha;
      [| discriminate].
    injection Ha as <-. cbn [children set_children] in Hi.
    apply lookup_replicate in Hi as [Hi _]. discriminate.
  - destruct (decide (a ∈ ds)) as [| Hads]; [discriminate |].
    destruct (Hlinks a o i c Ha Hi) as (oc & Hc & Hok).
    assert (Hc_ds : c ∉ ds).
    { intros Hin.
      destruct (descendants_parent fuel p n ds Hds c Hin)
        as (y & oy & Hy & Hoy & Hcy).
      apply list_elem_of_lookup in Hcy as [j Hj].
      destruct (Hlinks y oy j c Hoy Hj) as (oc2 & Hc2 & (Hpar & _)).
      rewrite Hc in Hc2. injection Hc2 as <-.
      destruct Hok as (Hpar' & _). rewrite Hpar in Hpar'.
      injection Hpar' as ->. destruct Hy as [-> | Hy]; contradiction. }
    destruct (Hkeep c oc Hc Hc_ds) as (oc' & Hc' & E1 & E2 & E3).
    exists oc'. split; [exact Hc' |].
    apply (child_ok_same_place a o o i oc oc'); auto.
Qed.

(** X19: [deleteChildren] on a node whose subtree is a tree returns, and
    prunes exactly that subtree: every octant below the node is gone from
    the pool, the node is still there with its eight child pointers null
    and the rest of it unchanged, and every other octant is as it was. An
    octree that was linked is still linked: no child pointer is left that
    leads to a deleted octant. *)
Theorem deleteChildren_keeps_links (fuel : nat) (p : pool) (n : ptr) :
  links_ok p -> subtree_ok fuel p n ->
  exists p' ds node,
    deleteChildren fuel p n = Some p'
    /\ descendants fuel p n = Some ds /\ p !! n = Some node
    /\ links_ok p'
    /\ p' !! n = Some (set_children node no_children)
    /\ (forall c, c ∈ ds -> p' !! c = None)
    /\ (forall c, c ∉ ds -> c <> n -> p' !! c = p !! c).
Proof.
  intros Hlinks (ds & Hds & Hnodup).
  destruct (deleteChildren_spec fuel p n ds Hds Hnodup) as (p' & Hdel & Hsub).
  assert (Hnode : exists node, p !! n = Some node).
  { destruct fuel as [| fuel]; [discriminate |]. cbn [descendants] in Hds.
    destruct (p !! n) as [node |]; [eauto | discriminate]. }
  destruct Hnode as [node Hn].
  exists p', ds, node. split; [exact Hdel |]. split; [exact Hds |].
  split; [exact Hn |].
  split; [exact (deleteChildren_links fuel p n ds p' Hlinks Hds Hnodup Hsub) |].
  apply NoDup_cons in Hnodup as [Hn_ds _].
  split; [| split].
  - rewrite (Hsub n), decide_True by reflexivity. rewrite Hn. reflexivity.
  - intros c Hc. rewrite (Hsub c).
    rewrite decide_False by (intros ->; contradiction).
    rewrite decide_True by exact Hc. reflexivity.
  - intros c Hc Hcn. rewrite (Hsub c).
    rewrite decide_False by exact Hcn. rewrite decide_False by exact Hc.
    reflexivity.
Qed.

(** The root of side 32 whose first child is a node with eight blocks:
    deleting the children of that node removes the eight blocks and keeps
    the root and the node. *)
Lemma deleteChildren_keeps_links_witness :
  exists p',
    deleteChildren 2 fixtures.deep_pool 2%positive = Some p'
    /\ links_ok p'
    /\ Forall (λ c, p' !! c = None) (Z.to_pos <$> seqZ 3 8)
    /\ p' !! 1%positive = fixtures.deep_pool !! 1%positive
    /\ (children <$> p' !! 2%positive) = Some no_children.
Proof.
  destruct (deleteChildren_keeps_links 2 fixtures.deep_pool 2%positive)
    as (p' & ds & node & Hdel & Hds & Hn & Hlinks & Hn' & Hgone & Hkept).
  - apply links_ok_b_sound. vm_compute. reflexivity.
  - eexists. split; [vm_compute; reflexivity |].
    refine (bool_decide_unpack _ _). vm_compute. exact I.
  - vm_compute in Hds. injection Hds as <-.
    exists p'. split; [exact Hdel |]. split; [exact Hlinks |].
    split; [| split].
    + repeat constructor; apply Hgone;
        refine (bool_decide_unpack _ _); vm_compute; exact I.
    + apply Hkept; [| discriminate].
      refine (bool_decide_unpack _ _). vm_compute. exact I.
    + rewrite Hn'. reflexivity.
Defined.

(** X20: deleting the children of a node twice is deleting them once: on a
    node whose subtree is a tree the second [deleteChildren] returns and
    changes nothing. *)
Theorem deleteChildren_idempotent (fuel : nat) (p : pool) (n : ptr) :
  subtree_ok fuel p n ->
  exists p', deleteChildren fuel p n = Some p'
             /\ deleteChildren fuel p' n = Some p'.
Proof.
  intros (ds & Hds & Hnodup).
  destruct (deleteChildren_spec fuel p n ds Hds Hnodup) as (p' & Hdel & Hsub).
  exists p'. split; [exact Hdel |].
  destruct fuel as [| fuel]; [discriminate |].
  cbn [descendants] in Hds.
  destruct (p !! n) as [node |] eqn:Hn; cbn [mbind option_bind] in Hds;
    [| discriminate].
  destruct (is_block node) eqn:Hb; [discriminate |].
  pose proof (Hsub n) as Hn'. rewrite decide_True in Hn' by reflexivity.
  rewrite Hn in Hn'. cbn [fmap option_fmap option_map] in Hn'.
  cbn [deleteChildren]. rewrite Hn'. cbn [mbind option_bind].
  cbn [is_block children set_children]. rewrite Hb.
  change (length no_children =? 8)%nat with true. cbn [orb negb].
  change (deleteChildren_loop (deleteChildren fuel) no_children p') with (Some p').
  cbn [mbind option_bind]. rewrite Hn'. cbn [mbind option_bind].
  f_equal. apply insert_id. exact Hn'.
Qed.

(** The node with eight blocks below the root of side 32. *)
Lemma deleteChildren_idempotent_witness :
  exists p',
    deleteChildren 2 fixtures.deep_pool 2%positive = Some p'
    /\ deleteChildren 2 p' 2%positive = Some p'.
Proof.
  apply (deleteChildren_idempotent 2 fixtures.deep_pool 2%positive).
  eexists. split; [vm_compute; reflexivity |].
  refine (bool_decide_unpack _ _). vm_compute. exact I.
Defined.

Lemma set_aggregates_keeps_links (p : pool) (n : ptr) (node : Octant) (ts : Z)
    (dmin dmax : Data) :
  links_ok p -> p !! n = Some node ->
  links_ok (<[n := set_aggregates node ts dmin dmax]> p).
Proof.
  intros Hlinks Hn a o i c Ha Hi.
  assert (Hold : forall z oz, p !! z = Some oz ->
            exists oz', (<[n := set_aggregates node ts dmin dmax]> p) !! z = Some oz'
                        /\ parent_ptr oz' = parent_ptr oz
                        /\ size oz' = size oz /\ coord oz' = coord oz).
  { intros z oz Hz. destruct (decide (z = n)) as [-> | Hzn].
    - rewrite lookup_insert_eq. rewrite Hn in Hz. injection Hz as <-.
      eexists. split; [reflexivity |]. auto.
    - rewrite lookup_insert_ne by congruence. eauto. }
  destruct (decide (a = n)) as [-> | Han].
  - rewrite lookup_insert_eq in Ha. injection Ha as <-.
    cbn [children set_aggregates] in Hi.
    destruct (Hlinks n node i c Hn Hi) as (oc & Hc & Hok).
    destruct (Hold c oc Hc) as (oc' & Hc' & E1 & E2 & E3).
    exists oc'. split; [exact Hc' |].
    apply (child_ok_same_place n node _ i oc oc'); auto.
  - rewrite lookup_insert_ne in Ha by congruence.
    destruct (Hlinks a o i c Ha Hi) as (oc & Hc & Hok).
    destruct (Hold c oc Hc) as (oc' & Hc' & E1 & E2 & E3).
    exists oc'. split; [exact Hc' |].
    apply (child_ok_same_place a o o i oc oc'); auto.
Qed.

Lemma subtree_ok_set_aggregates (fuel : nat) (p : pool) (n : ptr)
    (node : Octant) (ts : Z) (dmin dmax : Data) :
  p !! n = Some node -> subtree_ok fuel p n ->
  subtree_ok fuel (<[n := set_aggregates node ts dmin dmax]> p) n.
Proof.
  intros Hn (ds & Hds & Hnodup). exists ds. split; [| exact Hnodup].
  apply (descendants_frame fuel p _ n ds Hds). intros x [-> | Hx].
  - rewrite lookup_insert_eq, Hn. reflexivity.
  - rewrite lookup_insert_ne; [reflexivity |].
    intros <-. apply NoDup_cons in Hnodup as [Hnot _]. contradiction.
Qed.

(** *** A visit of the propagation to the root *)

Section visit.

Variable round_float : Q -> Q.
Variable round_double : Q -> Q.
Variable propagation : pool -> ptr -> Z -> Z -> option (pool * Data).
Variable deletion : pool -> ptr -> option pool.
Variable fuel : nat.

(** What the visit relies on: a propagation changes the aggregates and the
    timestamp of its node and nothing else; a deletion below the root of a
    tree removes the octants below it, clears its child pointers and
    leaves the rest alone, and whenever it returns it has the effect of a
    pruning. *)
Hypothesis propagation_propagates :
  forall p n max_scale frame p' d,
    propagation p n max_scale frame = Some (p', d) -> propagates frame p n p' d.
Hypothesis deletion_deletes : deletes_subtree (descendants fuel) deletion.
Hypothesis deletion_prunes :
  forall p n p', deletion p n = Some p' -> prunes p n p'.

(** X21: a visit of a node during the propagation to the root that returns
    keeps the octree linked, whether the node is skipped, only gets new
    aggregates or is pruned: no child pointer is left that leads to a
    deleted octant. The octants below the node have to form a tree. *)
Theorem propagateToRoot_visit_keeps_links (frame : Z) (config : FieldConfig)
    (max_scale d : Z) (p p' : pool) (sets sets' : list (gset ptr)) (n : ptr) :
  links_ok p -> subtree_ok fuel p n ->
  propagateToRoot_visit round_float round_double propagation deletion
    frame config max_scale d (p, sets) n = Some (p', sets') ->
  links_ok p'.
Proof.
  intros Hlinks Hsub Hrun.
  destruct (propagateToRoot_visit_cases _ _ _ _ _ _ _ _ _ _ _ _ _ Hrun)
    as (node & Hn & [(_ & -> & _) | (_ & parent & p1 & d1 & _ & Hprop & _ & Hcase)]);
    [exact Hlinks |].
  destruct (propagation_propagates _ _ _ _ _ _ Hprop) as (o & dmin & Ho & ->).
  rewrite Hn in Ho. injection Ho as <-.
  pose proof (set_aggregates_keeps_links p n node frame dmin d1 Hlinks Hn)
    as Hlinks1.
  destruct Hcase as [[_ Hdel] | [_ ->]]; [| exact Hlinks1].
  destruct (subtree_ok_set_aggregates fuel p n node frame dmin d1 Hn Hsub)
    as (ds & Hds & Hnodup).
  destruct (deletion_deletes _ n ds Hds Hnodup) as (p2 & Hdel2 & Hdeleted).
  rewrite Hdel in Hdel2. injection Hdel2 as <-.
  exact (deleteChildren_links fuel _ n ds p' Hlinks1 Hds Hnodup Hdeleted).
Qed.

(** X22: a node is propagated at most once per frame: after a visit of a
    node that has returned, a second visit of the same node in the same
    frame changes neither the pool nor the node sets. *)
Theorem propagateToRoot_visit_once (frame : Z) (config : FieldConfig)
    (max_scale d : Z) (p p' : pool) (sets sets' : list (gset ptr)) (n : ptr) :
  propagateToRoot_visit round_float round_double propagation deletion
    frame config max_scale d (p, sets) n = Some (p', sets') ->
  propagateToRoot_visit round_float round_double propagation deletion
    frame config max_scale d (p', sets') n = Some (p', sets').
Proof.
  intros Hrun.
  assert (Hstamped : forall q s o, q !! n = Some o ->
            timestamp o = frame \/ parent_ptr o = None ->
            propagateToRoot_visit round_float round_double propagation deletion
              frame config max_scale d (q, s) n = Some (q, s)).
  { intros q s o Hq Ho. unfold propagateToRoot_visit. rewrite Hq.
    cbn [mbind option_bind]. destruct Ho as [-> | ->].
    - rewrite Z.eqb_refl. reflexivity.
    - destruct (timestamp o =? frame); reflexivity. }
  destruct (propagateToRoot_visit_cases _ _ _ _ _ _ _ _ _ _ _ _ _ Hrun)
    as (node & Hn & [(Hskip & -> & ->) | (_ & parent & p1 & d1 & _ & Hprop & _ & Hcase)]).
  { exact (Hstamped p sets node Hn Hskip). }
  destruct (propagation_propagates _ _ _ _ _ _ Hprop) as (o & dmin & Ho & ->).
  rewrite Hn in Ho. injection Ho as <-.
  destruct Hcase as [[_ Hdel] | [_ ->]].
  - destruct (deletion_prunes _ _ _ Hdel) as [(o1 & Ho1 & Hn' & _) _].
    rewrite lookup_insert_eq in Ho1. injection Ho1 as <-.
    apply (Hstamped p' sets' _ Hn'). left. reflexivity.
  - eapply Hstamped; [apply lookup_insert_eq | left; reflexivity].
Qed.

End visit.

End octree_links_facts.

(** The visit of the node with eight free blocks below the root of side
    32, which prunes the blocks. *)
Lemma propagateToRoot_visit_keeps_links_witness :
  exists p' sets',
    updater.propagateToRoot_visit id id updater.propagate_node
      (octree.deleteChildren 6) 7 fixtures.config 2 1
      (fixtures.deep_pool, [∅; ∅]) 2%positive = Some (p', sets')
    /\ p' !! 3%positive = None
    /\ octree_inv.links_ok p'.
Proof.
  destruct (updater.propagateToRoot_visit id id updater.propagate_node
              (octree.deleteChildren 6) 7 fixtures.config 2 1
              (fixtures.deep_pool, [∅; ∅]) 2%positive)
    as [[p' sets'] |] eqn:Hrun; [| vm_compute in Hrun; discriminate Hrun].
  exists p', sets'. split; [reflexivity |]. split.
  - vm_compute in Hrun. injection Hrun as <- _. reflexivity.
  - apply (propagateToRoot_visit_keeps_links id id updater.propagate_node
             (octree.deleteChildren 6) 6 propagate_node_propagates
             (deleteChildren_spec 6) 7 fixtures.config 2 1
             fixtures.deep_pool p' [∅; ∅] sets' 2%positive); [| | exact Hrun].
    + apply links_ok_b_sound. vm_compute. reflexivity.
    + eexists. split; [vm_compute; reflexivity |].
      refine (bool_decide_unpack _ _). vm_compute. exact I.
Defined.

(** The same visit, twice. *)
Lemma propagateToRoot_visit_once_witness :
  exists p' sets',
    updater.propagateToRoot_visit id id updater.propagate_node
      (octree.deleteChildren 6) 7 fixtures.config 2 1
      (fixtures.deep_pool, [∅; ∅]) 2%positive = Some (p', sets')
    /\ updater.propagateToRoot_visit id id updater.propagate_node
         (octree.deleteChildren 6) 7 fixtures.config 2 1 (p', sets') 2%positive
       = Some (p', sets').
Proof.
  destruct (updater.propagateToRoot_visit id id updater.propagate_node
              (octree.deleteChildren 6) 7 fixtures.config 2 1
              (fixtures.deep_pool, [∅; ∅]) 2%positive)
    as [[p' sets'] |] eqn:Hrun; [| vm_compute in Hrun; discriminate Hrun].
  exists p', sets'. split; [reflexivity |].
  exact (propagateToRoot_visit_once id id updater.propagate_node
           (octree.deleteChildren 6) propagate_node_propagates
           (deleteChildren_prunes 6) 7 fixtures.config 2 1
           fixtures.deep_pool p' [∅; ∅] sets' 2%positive Hrun).
Defined.

(** ** The cubes of the children of an octant *)

Section child_coord_facts.
Import cxx block octree.
Local Open Scope Z_scope.

Lemma child_idx_cases (idx : Z) :
  0 <= idx < 8 ->
  idx = 0 \/ idx = 1 \/ idx = 2 \/ idx = 3 \/ idx = 4 \/ idx = 5 \/ idx = 6
  \/ idx = 7.
Proof. lia. Qed.

Lemma child_coord_bits (c : Vector3i) (s idx : Z) :
  0 <= idx < 8 ->
  exists bx by_ bz,
    (bx = 0 \/ bx = 1) /\ (by_ = 0 \/ by_ = 1) /\ (bz = 0 \/ bz = 1)
    /\ idx = bx + 2 * by_ + 4 * bz
    /\ child_coord c s idx = (c.1.1 + s * bx, c.1.2 + s * by_, c.2 + s * bz).
Proof.
  intros Hidx. destruct c as [[x y] z].
  destruct (child_idx_cases idx Hidx) as [-> | [-> | [-> | [-> | [-> | [-> | [-> | ->]]]]]]];
    cbn.
  - exists 0, 0, 0. auto 10.
  - exists 1, 0, 0. auto 10.
  - exists 0, 1, 0. auto 10.
  - exists 1, 1, 0. auto 10.
  - exists 0, 0, 1. auto 10.
  - exists 1, 0, 1. auto 10.
  - exists 0, 1, 1. auto 10.
  - exists 1, 1, 1. auto 10.
Qed.

(** X23: the eight children of an octant tile it. With the coordinates that
    the constructor of a block computes from the child index, every child
    cube lies inside the cube of the parent, two different children share
    no voxel, and every voxel of the parent lies in one of the
    children. *)
Theorem child_coord_tiles (c : Vector3i) (child_size : Z) :
  0 < child_size ->
  (forall idx v, 0 <= idx < 8 ->
     inside_block child_size (child_coord c child_size idx) v ->
     inside_block (2 * child_size) c v)
  /\ (forall idx idx' v, 0 <= idx < 8 -> 0 <= idx' < 8 ->
        inside_block child_size (child_coord c child_size idx) v ->
        inside_block child_size (child_coord c child_size idx') v ->
        idx = idx')
  /\ (forall v, inside_block (2 * child_size) c v ->
        exists idx, 0 <= idx < 8
                    /\ inside_block child_size (child_coord c child_size idx) v).
Proof.
  intros Hs. split; [| split].
  - intros idx v Hidx.
    destruct (child_coord_bits c child_size idx Hidx)
      as (bx & by_ & bz & Hx & Hy & Hz & _ & ->).
    destruct c as [[x y] z], v as [[vx vy] vz]. cbn. nia.
  - intros idx idx' v Hidx Hidx'.
    destruct (child_coord_bits c child_size idx Hidx)
      as (bx & by_ & bz & Hx & Hy & Hz & -> & ->).
    destruct (child_coord_bits c child_size idx' Hidx')
      as (bx' & by' & bz' & Hx' & Hy' & Hz' & -> & ->).
    destruct c as [[x y] z], v as [[vx vy] vz]. cbn. nia.
  - intros v Hv. destruct c as [[x y] z], v as [[vx vy] vz]. cbn in Hv.
    set (bx := if vx <? x + child_size then 0 else 1).
    set (by_ := if vy <? y + child_size then 0 else 1).
    set (bz := if vz <? z + child_size then 0 else 1).
    assert (Hx : bx = 0 /\ vx < x + child_size \/ bx = 1 /\ x + child_size <= vx).
    { unfold bx. destruct (Z.ltb_spec vx (x + child_size)); auto. }
    assert (Hy : by_ = 0 /\ vy < y + child_size \/ by_ = 1 /\ y + child_size <= vy).
    { unfold by_. destruct (Z.ltb_spec vy (y + child_size)); auto. }
    assert (Hz : bz = 0 /\ vz < z + child_size \/ bz = 1 /\ z + child_size <= vz).
    { unfold bz. destruct (Z.ltb_spec vz (z + child_size)); auto. }
    exists (bx + 2 * by_ + 4 * bz). split; [lia |].
    destruct (child_coord_bits (x, y, z) child_size (bx + 2 * by_ + 4 * bz)
                ltac:(lia))
      as (bx' & by' & bz' & Hx' & Hy' & Hz' & E & ->).
    assert (bx' = bx /\ by' = by_ /\ bz' = bz) as (-> & -> & ->) by lia.
    cbn. nia.
Qed.

(** The octant of side 16 at [(16, 0, 32)]: child 5 starts at
    [(24, 0, 40)], and the voxel [(25, 3, 47)] lies in child 5 only. *)
Lemma child_coord_tiles_witness :
  child_coord (16, 0, 32) 8 5 = (24, 0, 40)
  /\ inside_block 16 (16, 0, 32) (25, 3, 47)
  /\ ~ inside_block 8 (child_coord (16, 0, 32) 8 4) (25, 3, 47).
Proof.
  destruct (child_coord_tiles (16, 0, 32) 8) as (Hin & Hdisj & _); [lia |].
  split; [reflexivity |]. split.
  - apply (Hin 5); [lia |].
    change (child_coord (16, 0, 32) 8 5) with (24, 0, 40). cbn. lia.
  - intros H4. specialize (Hdisj 4 5 (25, 3, 47)).
    assert (E : 4 = 5); [| discriminate E].
    apply Hdisj; [lia | lia | exact H4 |].
    change (child_coord (16, 0, 32) 8 5) with (24, 0, 40). cbn. lia.
Defined.

End child_coord_facts.

(** ** What the propagation into a parent node selects *)

Section propagator_more_facts.
Import cxx occupancy octree propagator propagator_bounds.
Local Open Scope Z_scope.

Lemma max_fields_visit_child (acc acc' : Aggregate) (child : Octant) :
  visit_child acc child = Some acc' ->
  let taken := Qltb 0 (weight (field (max_data child)))
               && Qltb (max_occupancy acc) (get_field (max_data child)) in
  max_mean_occupancy acc'
  = (if taken then occupancy (field (max_data child))
     else max_mean_occupancy acc)
  /\ max_weight acc'
     = (if taken then weight (field (max_data child)) else max_weight acc).
Proof.
  unfold visit_child.
  destruct (Qltb 0 (weight (field (min_data child)))
            && Qltb (get_field (min_data child)) (min_occupancy acc));
    cbn [max_occupancy max_data_count];
    destruct (Qltb 0 (weight (field (max_data child)))
              && Qltb _ (get_field (max_data child)));
    destruct (negb _); try discriminate;
    destruct (observed (field (max_data child))); intros [= <-]; cbn;
    split; reflexivity.
Qed.

Lemma min_fields_visit_child (acc acc' : Aggregate) (child : Octant) :
  visit_child acc child = Some acc' ->
  let taken := Qltb 0 (weight (field (min_data child)))
               && Qltb (get_field (min_data child)) (min_occupancy acc) in
  min_data_count acc'
  = (if taken then min_data_count acc + 1 else min_data_count acc)
  /\ min_occupancy acc'
     = (if taken then get_field (min_data child) else min_occupancy acc)
  /\ min_mean_occupancy acc'
     = (if taken then occupancy (field (min_data child))
        else min_mean_occupancy acc)
  /\ min_weight acc'
     = (if taken then weight (field (min_data child)) else min_weight acc).
Proof.
  unfold visit_child.
  destruct (Qltb 0 (weight (field (min_data child)))
            && Qltb (get_field (min_data child)) (min_occupancy acc));
    cbn [max_occupancy max_data_count];
    destruct (Qltb 0 (weight (field (max_data child)))
              && Qltb _ (get_field (max_data child)));
    destruct (negb _); try discriminate;
    destruct (observed (field (max_data child))); intros [= <-]; cbn;
    repeat split; reflexivity.
Qed.

Lemma max_tracks_visit_child (kids : list Octant) (acc acc' : Aggregate)
    (child : Octant) :
  max_invariant acc -> max_tracks kids acc ->
  visit_child acc child = Some acc' ->
  max_tracks (kids ++ [child]) acc'.
Proof.
  intros (Hnn & _ & _) [Hle Hex] Hrun.
  destruct (max_part_visit_child acc acc' child Hrun) as [Hc Ho].
  destruct (max_fields_visit_child acc acc' child Hrun) as [Hm Hw].
  cbv zeta in Hc, Ho, Hm, Hw. unfold max_tracks. rewrite Hc, Ho, Hm, Hw.
  destruct (Qltb 0 (weight (field (max_data child)))) eqn:Ew; cbn [andb].
  - apply Qltb_lt in Ew.
    destruct (Qltb (max_occupancy acc) (get_field (max_data child))) eqn:Eg.
    + apply Qltb_lt in Eg. split.
      * intros kid Hin Hkw. apply elem_of_app in Hin as [Hin | Hin].
        -- specialize (Hle kid Hin Hkw). lra.
        -- apply list_elem_of_singleton in Hin as ->. apply Qle_refl.
      * intros _. exists child. split; [apply elem_of_app; right; left |]. auto.
    + apply Qltb_ge in Eg. split.
      * intros kid Hin Hkw. apply elem_of_app in Hin as [Hin | Hin].
        -- exact (Hle kid Hin Hkw).
        -- apply list_elem_of_singleton in Hin as ->. exact Eg.
      * intros Hpos. destruct (Hex Hpos) as (kid & Hin & Hrest).
        exists kid. split; [apply elem_of_app; left; exact Hin | exact Hrest].
  - split.
    + intros kid Hin Hkw. apply elem_of_app in Hin as [Hin | Hin].
      * exact (Hle kid Hin Hkw).
      * apply list_elem_of_singleton in Hin as ->.
        apply Qltb_lt in Hkw. congruence.
    + intros Hpos. destruct (Hex Hpos) as (kid & Hin & Hrest).
      exists kid. split; [apply elem_of_app; left; exact Hin | exact Hrest].
Qed.

Lemma min_tracks_visit_child (kids : list Octant) (acc acc' : Aggregate)
    (child : Octant) :
  min_tracks kids acc -> visit_child acc child = Some acc' ->
  min_tracks (kids ++ [child]) acc'
  /\ (0 < min_data_count acc'
      <-> 0 < min_data_count acc \/ child_min_weighted child).
Proof.
  intros (Hnn & Hup & Hzero & Hle & Hex) Hrun.
  destruct (min_fields_visit_child acc acc' child Hrun) as (Hc & Ho & Hm & Hw).
  cbv zeta in Hc, Ho, Hm, Hw. unfold min_tracks, child_min_weighted.
  rewrite Hc, Ho, Hm, Hw.
  destruct (Qltb 0 (weight (field (min_data child)))) eqn:Ew; cbn [andb].
  - apply Qltb_lt in Ew.
    destruct (Qltb (get_field (min_data child)) (min_occupancy acc)) eqn:Eg.
    + apply Qltb_lt in Eg. split; [| split; intros; [| lia]].
      * split; [lia |]. split; [lra |]. split; [intros; lia |]. split.
        -- intros kid Hin Hkw. apply elem_of_app in Hin as [Hin | Hin].
           ++ specialize (Hle kid Hin Hkw). lra.
           ++ apply list_elem_of_singleton in Hin as ->. apply Qle_refl.
        -- intros _. exists child. split; [apply elem_of_app; right; left |]. auto.
      * right. split; [exact Ew | lra].
    + apply Qltb_ge in Eg. split; [| split].
      * split; [lia |]. split; [exact Hup |]. split; [exact Hzero |]. split.
        -- intros kid Hin Hkw. apply elem_of_app in Hin as [Hin | Hin].
           ++ exact (Hle kid Hin Hkw).
           ++ apply list_elem_of_singleton in Hin as ->. exact Eg.
        -- intros Hpos. destruct (Hex Hpos) as (kid & Hin & Hrest).
           exists kid. split; [apply elem_of_app; left; exact Hin | exact Hrest].
      * auto.
      * intros [H | [_ H]]; [exact H |].
        destruct (Z.eq_dec (min_data_count acc) 0) as [E | E]; [| lia].
        specialize (Hzero E). lra.
  - split; [| split].
    + split; [lia |]. split; [exact Hup |]. split; [exact Hzero |]. split.
      * intros kid Hin Hkw. apply elem_of_app in Hin as [Hin | Hin].
        -- exact (Hle kid Hin Hkw).
        -- apply list_elem_of_singleton in Hin as ->.
           apply Qltb_lt in Hkw. congruence.
      * intros Hpos. destruct (Hex Hpos) as (kid & Hin & Hrest).
        exists kid. split; [apply elem_of_app; left; exact Hin | exact Hrest].
    + auto.
    + intros [H | [H _]]; [exact H |]. apply Qltb_lt in H. congruence.
Qed.

Lemma tracks_visit_kids (kids : list Octant) :
  forall (visited : list Octant) (acc acc' : Aggregate),
    max_invariant acc -> max_tracks visited acc -> min_tracks visited acc ->
    visit_kids kids acc = Some acc' ->
    max_tracks (visited ++ kids) acc'
    /\ min_tracks (visited ++ kids) acc'
    /\ (0 < min_data_count acc'
        <-> 0 < min_data_count acc \/ Exists child_min_weighted kids).
Proof.
  induction kids as [| child kids IH]; intros visited acc acc' Hinv Hmax Hmin;
    cbn [visit_kids].
  - intros [= <-]. rewrite app_nil_r, Exists_nil. split; [exact Hmax |].
    split; [exact Hmin | tauto].
  - destruct (visit_child acc child) as [acc1 |] eqn:H1;
      cbn [mbind option_bind]; [| discriminate].
    intros Hrest.
    destruct (max_count_visit_child acc acc1 child Hinv H1) as [Hinv' _].
    pose proof (max_tracks_visit_child visited acc acc1 child Hinv Hmax H1)
      as Hmax'.
    destruct (min_tracks_visit_child visited acc acc1 child Hmin H1)
      as [Hmin' Hcnt].
    destruct (IH (visited ++ [child]) _ _ Hinv' Hmax' Hmin' Hrest)
      as (H2 & H3 & H4).
    rewrite <- app_assoc in H2, H3. cbn [app] in H2, H3.
    split; [exact H2 |]. split; [exact H3 |].
    rewrite H4, Hcnt, Exists_cons. tauto.
Qed.

(** X24: what the propagation into a parent node stores. The propagation
    into a node with eight child slots whose children pass the assertion of
    the loop (their min and max data agree on [observed]) returns, and it
    touches only the aggregates of that node. If a child carries weight in
    its max data,
    the new max data of the node is the occupancy and weight of the child
    whose weighted max value is greatest; otherwise the max data is left
    as it was. In the same way the new min data is taken from the child
    whose weighted min value is least. *)
Theorem propagate_to_parent_node_bounds (p : pool) (n : ptr) (node : Octant)
    (ts : Z) (kids : list Octant) :
  p !! n = Some node -> is_block node = false ->
  length (children node) = 8%nat ->
  live_children p (children node) = Some kids ->
  Forall child_consistent kids ->
  exists dmin dmax,
    propagate_to_parent_node p n ts
    = Some (<[n := set_aggregates node ts dmin dmax]> p, dmax)
    /\ (Exists child_weighted kids -> greatest_of kids dmax)
    /\ (~ Exists child_weighted kids -> dmax = max_data node)
    /\ (Exists child_min_weighted kids -> least_of kids dmin)
    /\ (~ Exists child_min_weighted kids -> dmin = min_data node).
Proof.
  intros Hn Hb Hlen Hkids Hcons.
  unfold propagate_to_parent_node. rewrite Hn. cbn [mbind option_bind].
  rewrite Hb, Hlen. cbn [orb negb Nat.eqb].
  rewrite visit_children_live, Hkids. cbn [mbind option_bind].
  destruct (proj2 (visit_kids_consistent kids initial) Hcons) as [acc Hacc].
  rewrite Hacc. cbn [mbind option_bind].
  eexists _, _. split; [reflexivity |].
  assert (Hmax0 : max_tracks [] initial).
  { split; [intros kid Hin; inversion Hin | cbn; lia]. }
  assert (Hmin0 : min_tracks [] initial).
  { unfold min_tracks. cbn [initial min_data_count min_occupancy].
    split; [lia |]. split; [apply Qle_refl |]. split; [reflexivity |].
    split; [intros kid Hin; inversion Hin | lia]. }
  destruct (tracks_visit_kids kids [] initial acc max_invariant_initial
              Hmax0 Hmin0 Hacc)
    as ([Hle Hex] & (_ & _ & _ & Hge & Hexm) & Hmcnt).
  cbn [app] in *.
  pose proof (max_count_visit_kids kids initial acc max_invariant_initial Hacc)
    as Hcnt.
  cbn [max_data_count min_data_count initial] in Hcnt, Hmcnt.
  unfold write_back.
  split; [| split; [| split]].
  - intros HE. assert (Hpos : 0 < max_data_count acc) by (apply Hcnt; auto).
    destruct (Z.ltb_spec 0 (max_data_count acc)); [| lia].
    destruct (Hex Hpos) as (kid & Hin & Hw & E1 & E2 & E3).
    split.
    + intros kid' Hin' Hw'. unfold get_field at 2. cbn [field occupancy weight].
      specialize (Hle kid' Hin' Hw'). rewrite E3 in Hle.
      rewrite E1, E2. exact Hle.
    + exists kid. cbn [field occupancy weight]. auto.
  - intros HE. destruct (Z.ltb_spec 0 (max_data_count acc)) as [Hpos |];
      [| reflexivity].
    apply Hcnt in Hpos as [? | ?]; [lia | contradiction].
  - intros HE. assert (Hpos : 0 < min_data_count acc) by (apply Hmcnt; auto).
    destruct (Z.ltb_spec 0 (min_data_count acc)); [| lia].
    destruct (Hexm Hpos) as (kid & Hin & Hw & E1 & E2 & E3).
    split.
    + intros kid' Hin' Hw'. unfold get_field at 1. cbn [field occupancy weight].
      specialize (Hge kid' Hin' Hw'). rewrite E3 in Hge.
      rewrite E1, E2. exact Hge.
    + exists kid. cbn [field occupancy weight]. auto.
  - intros HE. destruct (Z.ltb_spec 0 (min_data_count acc)) as [Hpos |];
      [| reflexivity].
    apply Hmcnt in Hpos as [? | ?]; [lia | contradiction].
Qed.

(** The root of side 16 with eight free blocks of log-odds -5 and weight
    3: the max and the min data of the root become those of a block. *)
Lemma propagate_to_parent_node_bounds_witness :
  exists (dmin dmax : Data) (p' : pool),
    propagate_to_parent_node fixtures.free_pool 1%positive 7
    = Some (p', dmax)
    /\ occupancy (field dmax) = (-5)%Q /\ weight (field dmax) = 3%Q
    /\ occupancy (field dmin) = (-5)%Q /\ weight (field dmin) = 3%Q.
Proof.
  destruct (propagate_to_parent_node_bounds fixtures.free_pool 1%positive
              fixtures.free_root 7
              (snd <$> fixtures.free_blocks 1 2 (0, 0, 0)%Z))
    as (dmin & dmax & Hrun & Hmax & _ & Hmin & _); try reflexivity.
  { repeat constructor. }
  destruct Hmax as [_ (kid & Hkid & _ & Ho & Hw)].
  { apply Exists_cons_hd. split; reflexivity. }
  destruct Hmin as [_ (kid' & Hkid' & _ & Ho' & Hw')].
  { apply Exists_cons_hd. split; reflexivity. }
  assert (Hall : forall k, k ∈ snd <$> fixtures.free_blocks 1 2 (0, 0, 0)%Z ->
                   max_data k = fixtures.free_data
                   /\ min_data k = fixtures.free_data).
  { apply Forall_forall. repeat constructor. }
  destruct (Hall kid Hkid) as [Ek _]. destruct (Hall kid' Hkid') as [_ Ek'].
  rewrite Ek in Ho, Hw. rewrite Ek' in Ho', Hw'.
  exists dmin, dmax. eexists. split; [exact Hrun |]. auto.
Defined.

Lemma visit_children_frame (p p' : pool) (cs : list (option ptr))
    (acc : Aggregate) :
  (forall c, Some c ∈ cs -> p' !! c = p !! c) ->
  visit_children p' cs acc = visit_children p cs acc.
Proof.
  revert acc. induction cs as [| [c |] cs IH]; intros acc Hsame; cbn.
  - reflexivity.
  - rewrite (Hsame c) by left. destruct (p !! c) as [child |]; cbn; [| reflexivity].
    destruct (visit_child acc child) as [acc' |]; cbn; [| reflexivity].
    apply IH. intros c' Hc'. apply Hsame. right. exact Hc'.
  - apply IH. intros c' Hc'. apply Hsame. right. exact Hc'.
Qed.

Lemma write_back_idempotent (old : Data) (count : Z) (m w : Q) (oc : Z) :
  write_back (write_back old count m w oc) count m w oc
  = write_back old count m w oc.
Proof.
  unfold write_back. destruct (0 <? count); [| reflexivity].
  cbn [field observed]. destruct (oc =? 8); reflexivity.
Qed.

(** X25: propagating into the same node twice is propagating once: when
    the children are unchanged, the second propagation with the same frame
    number returns the same data and leaves the pool as the first one left
    it. *)
Theorem propagate_to_parent_node_idempotent (p p1 : pool) (n : ptr) (ts : Z)
    (d : Data) :
  (forall node, p !! n = Some node -> Some n ∉ children node) ->
  propagate_to_parent_node p n ts = Some (p1, d) ->
  propagate_to_parent_node p1 n ts = Some (p1, d).
Proof.
  intros Hself. unfold propagate_to_parent_node at 1.
  destruct (p !! n) as [node |] eqn:Hn; cbn [mbind option_bind]; [| discriminate].
  specialize (Hself node eq_refl).
  destruct (is_block node || negb (length (children node) =? 8)%nat) eqn:Hb;
    [discriminate |].
  destruct (visit_children p (children node) initial) as [acc |] eqn:Hacc;
    cbn [mbind option_bind]; [| discriminate].
  intros [= <- <-]. unfold propagate_to_parent_node.
  rewrite lookup_insert_eq. cbn [mbind option_bind].
  cbn [is_block children set_aggregates min_data max_data]. rewrite Hb.
  rewrite (visit_children_frame p), Hacc.
  2:{ intros c Hc. apply lookup_insert_ne. intros ->. contradiction. }
  cbn [mbind option_bind]. rewrite !write_back_idempotent.
  rewrite insert_insert_eq. reflexivity.
Qed.

(** The root of side 16 with eight free blocks, propagated twice. *)
Lemma propagate_to_parent_node_idempotent_witness :
  exists p1 d,
    propagate_to_parent_node fixtures.free_pool 1%positive 7 = Some (p1, d)
    /\ propagate_to_parent_node p1 1%positive 7 = Some (p1, d).
Proof.
  destruct (propagate_to_parent_node fixtures.free_pool 1%positive 7)
    as [[p1 d] |] eqn:E; [| vm_compute in E; discriminate E].
  exists p1, d. split; [reflexivity |].
  apply (propagate_to_parent_node_idempotent fixtures.free_pool p1 1%positive
           7 d); [| exact E].
  intros node Hn. vm_compute in Hn. injection Hn as <-.
  refine (bool_decide_unpack _ _). vm_compute. exact I.
Defined.

End propagator_more_facts.

(** ** Propagation of the time stamps *)

Section timestamp_facts.
Import cxx occupancy octree updater propagator_impl.
Local Open Scope Z_scope.

Lemma stamped_refl (p : pool) : stamped p p.
Proof.
  intros x. destruct (p !! x) as [o |]; [| exact I].
  split; [destruct o; reflexivity | lia].
Qed.

Lemma stamped_trans (p p1 p2 : pool) :
  stamped p p1 -> stamped p1 p2 -> stamped p p2.
Proof.
  intros H1 H2 x. specialize (H1 x). specialize (H2 x).
  destruct (p !! x) as [o |], (p1 !! x) as [o1 |], (p2 !! x) as [o2 |];
    try contradiction; try exact I.
  destruct H1 as [E1 L1], H2 as [E2 L2]. split; [| lia].
  rewrite E2, E1. reflexivity.
Qed.

Lemma stamped_insert (p : pool) (x : ptr) (o : Octant) (t : Z) :
  p !! x = Some o -> timestamp o <= t ->
  stamped p (<[x := set_timestamp o t]> p).
Proof.
  intros Hx Ht y. destruct (decide (y = x)) as [-> | Hy].
  - rewrite Hx, lookup_insert_eq. split; [reflexivity | exact Ht].
  - rewrite lookup_insert_ne by congruence. apply stamped_refl.
Qed.

Lemma stamped_parent (p p' : pool) (c : ptr) (child : Octant) :
  stamped p p' -> p !! c = Some child ->
  exists child', p' !! c = Some child'
                 /\ parent_ptr child' = parent_ptr child
                 /\ timestamp child <= timestamp child'.
Proof.
  intros Hst Hc. specialize (Hst c). rewrite Hc in Hst.
  destruct (p' !! c) as [child' |]; [| contradiction].
  destruct Hst as [E L]. exists child'. split; [reflexivity |].
  split; [rewrite E; reflexivity | exact L].
Qed.

Lemma propagateToRoot_first_loop (octant_ptrs : list ptr) :
  forall (p0 p : pool) (s : gset ptr) (seen : list ptr),
    stamped p0 p ->
    (forall x, ~ direct_parent p0 seen x -> p !! x = p0 !! x) ->
    (forall c child par, c ∈ seen -> p0 !! c = Some child ->
       parent_ptr child = Some par ->
       exists o', p !! par = Some o' /\ timestamp child <= timestamp o') ->
    (forall c, c ∈ octant_ptrs ->
       exists child par parent, p0 !! c = Some child
                                /\ parent_ptr child = Some par
                                /\ p0 !! par = Some parent) ->
    exists p' s',
      foldM propagateToRoot_first octant_ptrs (p, s) = Some (p', s')
      /\ stamped p0 p'
      /\ (forall x, ~ direct_parent p0 (seen ++ octant_ptrs) x ->
            p' !! x = p0 !! x)
      /\ (forall c child par, c ∈ seen ++ octant_ptrs -> p0 !! c = Some child ->
            parent_ptr child = Some par ->
            exists o', p' !! par = Some o' /\ timestamp child <= timestamp o').
Proof.
  induction octant_ptrs as [| c rest IH]; intros p0 p s seen Hst Hframe Hup Hlive.
  - cbn. exists p, s. rewrite app_nil_r. auto.
  - destruct (Hlive c ltac:(left)) as (child0 & par & parent0 & Hc0 & Hpar0 & Hp0).
    destruct (stamped_parent p0 p c child0 Hst Hc0) as (child & Hc & Hpar & Hts).
    destruct (stamped_parent p0 p par parent0 Hst Hp0) as (parent & Hp & _ & _).
    cbn [foldM]. unfold propagateToRoot_first at 2.
    rewrite Hc. cbn [mbind option_bind]. rewrite Hpar, Hpar0.
    cbn [mbind option_bind]. rewrite Hp. cbn [mbind option_bind].
    destruct (Z.ltb_spec (timestamp parent) (timestamp child)) as [Hlt | Hge].
    + set (p1 := <[par := set_timestamp parent (timestamp child)]> p).
      assert (Hst1 : stamped p0 p1).
      { apply (stamped_trans p0 p p1 Hst).
        apply stamped_insert; [exact Hp | lia]. }
      destruct (IH p0 p1 ({[par]} ∪ s) (seen ++ [c]) Hst1)
        as (p' & s' & Hfold & Hst' & Hframe' & Hup').
      * intros x Hx. rewrite <- (app_nil_r (seen ++ [c])) in Hx.
        unfold p1. assert (Hx' : ~ direct_parent p0 seen x /\ x <> par).
        { split.
          - intros (c1 & ch1 & Hin & H1 & H2). apply Hx. exists c1, ch1.
            split; [| auto]. rewrite !elem_of_app. auto.
          - intros ->. apply Hx. exists c, child0. split; [| auto].
            rewrite !elem_of_app, list_elem_of_singleton. auto. }
        destruct Hx' as [Hx1 Hx2].
        rewrite lookup_insert_ne by congruence. apply Hframe. exact Hx1.
      * intros c1 ch1 par1 Hin H1 H2. apply elem_of_app in Hin as [Hin | Hin].
        -- destruct (Hup c1 ch1 par1 Hin H1 H2) as (o' & Ho' & Hle).
           destruct (stamped_parent p p1 par1 o') as (o'' & Ho'' & _ & Hle');
             [apply stamped_insert; [exact Hp | lia] | exact Ho' |].
           exists o''. split; [exact Ho'' | lia].
        -- apply list_elem_of_singleton in Hin as ->.
           rewrite Hc0 in H1. injection H1 as <-.
           rewrite Hpar0 in H2. injection H2 as <-.
           exists (set_timestamp parent (timestamp child)).
           split; [apply lookup_insert_eq | exact Hts].
      * intros c1 Hc1. apply Hlive. right. exact Hc1.
      * exists p', s'. rewrite <- app_assoc in Hframe', Hup'.
        split; [exact Hfold |]. auto.
    + destruct (IH p0 p s (seen ++ [c]) Hst)
        as (p' & s' & Hfold & Hst' & Hframe' & Hup').
      * intros x Hx. apply Hframe.
        intros (c1 & ch1 & Hin & H1 & H2). apply Hx. exists c1, ch1.
        split; [| auto]. rewrite !elem_of_app. auto.
      * intros c1 ch1 par1 Hin H1 H2. apply elem_of_app in Hin as [Hin | Hin].
        -- exact (Hup c1 ch1 par1 Hin H1 H2).
        -- apply list_elem_of_singleton in Hin as ->.
           rewrite Hc0 in H1. injection H1 as <-.
           rewrite Hpar0 in H2. injection H2 as <-.
           exists parent. split; [exact Hp | lia].
      * intros c1 Hc1. apply Hlive. right. exact Hc1.
      * exists p', s'. rewrite <- app_assoc in Hframe', Hup'.
        split; [exact Hfold |]. auto.
Qed.

(** X26: [propagateTimeStampToRoot] lifts the time stamps by one level
    only. On octants that all have a live parent it returns, whatever the
    bound on the rounds of its [while] loop, since that loop is never
    entered: [parent_ptrs] is empty when the loop is reached. Afterwards
    every parent of a listed octant carries a time stamp that is at least
    the one of the octant; only time stamps change and they only grow; and
    every octant that is not the parent of a listed octant, the
    grandparents and the root among them, is exactly as it was. *)
Theorem propagateTimeStampToRoot_one_level (fuel : nat) (p : pool)
    (octant_ptrs : list ptr) :
  (forall c, c ∈ octant_ptrs ->
     exists child par parent, p !! c = Some child
                              /\ parent_ptr child = Some par
                              /\ p !! par = Some parent) ->
  exists p',
    propagateTimeStampToRoot fuel p octant_ptrs = Some p'
    /\ (forall x, ~ direct_parent p octant_ptrs x -> p' !! x = p !! x)
    /\ (forall x o, p !! x = Some o ->
          exists o', p' !! x = Some o' /\ o' = set_timestamp o (timestamp o')
                     /\ timestamp o <= timestamp o')
    /\ (forall c child par, c ∈ octant_ptrs -> p !! c = Some child ->
          parent_ptr child = Some par ->
          exists o', p' !! par = Some o' /\ timestamp child <= timestamp o').
Proof.
  intros Hlive.
  destruct (propagateToRoot_first_loop octant_ptrs p p ∅ [] (stamped_refl p))
    as (p' & s' & Hfold & Hst & Hframe & Hup).
  - reflexivity.
  - intros c child par Hin. inversion Hin.
  - exact Hlive.
  - exists p'. unfold propagateTimeStampToRoot, propagateToRoot.
    rewrite Hfold. cbn [mbind option_bind].
    split; [destruct fuel; reflexivity |].
    split; [exact Hframe |]. split; [| exact Hup].
    intros x o Hx. specialize (Hst x). rewrite Hx in Hst.
    destruct (p' !! x) as [o' |]; [| contradiction]. exists o'. tauto.
Qed.

(** Two blocks of frame 7 below the node of side 16, which hangs below the
    root of side 32: the node gets the time stamp 7, the root keeps its
    own. *)
Lemma propagateTimeStampToRoot_one_level_witness :
  exists p' node',
    propagateTimeStampToRoot 5 fixtures.deep_pool [3%positive; 4%positive]
    = Some p'
    /\ p' !! 2%positive = Some node' /\ 7 <= timestamp node'
    /\ p' !! 1%positive = fixtures.deep_pool !! 1%positive.
Proof.
  destruct (propagateTimeStampToRoot_one_level 5 fixtures.deep_pool
              [3%positive; 4%positive])
    as (p' & Hrun & Hframe & _ & Hup).
  - intros c Hc. rewrite !elem_of_cons, elem_of_nil in Hc.
    destruct Hc as [-> | [-> | []]]; eexists _, _, _;
      (split; [reflexivity |]); split; reflexivity.
  - destruct (Hup 3%positive _ 2%positive ltac:(left) eq_refl eq_refl)
      as (node' & Hn & Hts).
    exists p', node'. split; [exact Hrun |]. split; [exact Hn |].
    split; [exact Hts |]. apply Hframe.
    intros (c & child & Hc & Hchild & Hpar).
    rewrite !elem_of_cons, elem_of_nil in Hc.
    destruct Hc as [-> | [-> | []]]; vm_compute in Hchild;
      injection Hchild as <-; discriminate Hpar.
Defined.

End timestamp_facts.

(** ** Propagation inside an occupancy block *)

Section block_propagation_facts.
Import cxx cmath occupancy block updater block_propagation.
Local Open Scope Z_scope.

Lemma aggregate_children_foldl (arr : list Data) (size x y z : Z)
    (cs : list Data) :
  mapM (at_ arr) (child_data_indices size x y z) = Some cs ->
  aggregate_children arr size x y z = Some (foldl add_child initial cs).
Proof.
  unfold aggregate_children. generalize (child_data_indices size x y z).
  generalize initial. intros s l. revert s cs.
  induction l as [| idx l IH]; intros s cs; cbn.
  - intros [= <-]. reflexivity.
  - destruct (at_ arr idx) as [c |]; cbn; [| discriminate].
    destruct (mapM (at_ arr) l) as [cs' |] eqn:E; cbn; [| discriminate].
    intros [= <-]. cbn. apply IH. reflexivity.
Qed.

Lemma add_child_rising (children : list Data) :
  forall s : Sums,
    Sorted Qlt (max_occupancy s
                :: (get_field
                    <$> filter (λ d, Qltb 0 (weight (field d)) = true) children)) ->
    let s' := foldl add_child s children in
    min_mean_occupancy s' = min_mean_occupancy s
    /\ min_weight s' = min_weight s
    /\ min_occupancy s' = min_occupancy s
    /\ data_count s'
       = data_count s
         + Z.of_nat (length (filter (λ d, Qltb 0 (weight (field d)) = true)
                               children)).
Proof.
  induction children as [| c cs IH]; intros s Hs; cbn [foldl].
  - cbn. repeat split; try reflexivity. lia.
  - rewrite filter_cons in Hs |- *.
    destruct (decide (Qltb 0 (weight (field c)) = true)) as [Hw | Hw].
    + cbn [fmap list_fmap] in Hs. apply Sorted_inv in Hs as [Hs Hhd].
      apply HdRel_inv in Hhd.
      assert (Hmax : max_occupancy (add_child s c) = get_field c).
      { unfold add_child. cbn [max_occupancy]. rewrite Hw.
        rewrite (proj2 (Qltb_lt _ _) Hhd). reflexivity. }
      destruct (IH (add_child s c)) as (E1 & E2 & E3 & E4).
      { rewrite Hmax. exact Hs. }
      cbv zeta. rewrite E1, E2, E3, E4.
      unfold add_child.
      cbn [min_mean_occupancy min_weight min_occupancy data_count].
      rewrite Hw, (proj2 (Qltb_lt _ _) Hhd). cbn [andb negb length].
      repeat split; try reflexivity. lia.
    + destruct (Qltb 0 (weight (field c))) eqn:Ew; [congruence |].
      destruct (IH (add_child s c)) as (E1 & E2 & E3 & E4).
      { unfold add_child. cbn [max_occupancy]. rewrite Ew. exact Hs. }
      cbv zeta. rewrite E1, E2, E3, E4.
      unfold add_child.
      cbn [min_mean_occupancy min_weight min_occupancy data_count].
      rewrite Ew. repeat split; reflexivity.
Qed.

(** X27: the first level of the propagation inside a block can miss the
    minimum. A weighted child that raises the running maximum is not
    compared with the running minimum. So when the weighted children of a
    parent voxel are visited with rising values, the parent is written (at
    least one child carries weight) and its min data gets the occupancy 0
    and the weight 0 with which the loop started, not the data of the
    least child. *)
Theorem first_level_min_misses_rising_children (arr : list Data)
    (size x y z : Z) (cs : list Data) (parent_data parent_min_data
    parent_max_data : Data) :
  mapM (at_ arr) (child_data_indices size x y z) = Some cs ->
  rising cs ->
  Exists (λ d, (0 < weight (field d))%Q) cs ->
  exists s new_data new_min new_max,
    aggregate_children arr size x y z = Some s
    /\ write_parent s parent_data parent_min_data parent_max_data
       = (new_data, new_min, new_max)
    /\ occupancy (field new_min) = 0%Q /\ weight (field new_min) = 0%Q
    /\ get_field new_min = (0 * 0)%Q.
Proof.
  intros Hcs Hrise Hex.
  rewrite (aggregate_children_foldl arr size x y z cs Hcs).
  destruct (add_child_rising cs initial Hrise) as (E1 & E2 & E3 & E4).
  cbn [initial min_mean_occupancy min_weight min_occupancy data_count] in *.
  set (s := foldl add_child initial cs) in *.
  assert (Hpos : 0 < data_count s).
  { rewrite E4. apply Exists_exists in Hex as (d & Hin & Hd).
    assert (Hf : d ∈ filter (λ d, Qltb 0 (weight (field d)) = true) cs).
    { apply list_elem_of_filter. split; [apply Qltb_lt; exact Hd | exact Hin]. }
    destruct (filter _ cs); [inversion Hf | cbn; lia]. }
  eexists s, _, _, _. split; [reflexivity |].
  unfold write_parent. rewrite (proj2 (Z.ltb_lt _ _) Hpos).
  split; [reflexivity |]. unfold get_field. cbn [field occupancy weight]. rewrite E1, E2. auto.
Qed.


(** Eight voxels of weight 1 with the log-odds -4, ..., 4 in the order of
    the loops: the parent max is the last voxel, the parent min is
    [(0, 0)]. *)
Lemma first_level_min_misses_rising_children_witness :
  let d := fixtures.voxel 0 0 false in
  exists s new_data new_min new_max,
    aggregate_children samples.rising_voxels 2 0 0 0 = Some s
    /\ write_parent s d d d = (new_data, new_min, new_max)
    /\ occupancy (field new_min) = 0%Q /\ weight (field new_min) = 0%Q
    /\ occupancy (field new_max) = 4%Q.
Proof.
  intros d.
  destruct (first_level_min_misses_rising_children samples.rising_voxels
              2 0 0 0 samples.rising_voxels d d d)
    as (s & new_data & new_min & new_max & Hs & Hw & Ho & Hwt & _).
  - reflexivity.
  - unfold rising. cbn. repeat constructor.
  - apply Exists_cons_hd. reflexivity.
  - exists s, new_data, new_min, new_max.
    split; [exact Hs |]. split; [exact Hw |]. split; [exact Ho |].
    split; [exact Hwt |].
    vm_compute in Hs. injection Hs as <-. vm_compute in Hw.
    injection Hw as _ _ <-. reflexivity.
Defined.

Lemma add_child_sums (children : list Data) :
  forall s : Sums,
    let ws := filter (λ d, Qltb 0 (weight (field d)) = true) children in
    let s' := foldl add_child s children in
    (mean_occupancy s' == mean_occupancy s + Qsum (occupancy ∘ field <$> ws))%Q
    /\ (mean_weight s' == mean_weight s + Qsum (weight ∘ field <$> ws))%Q
    /\ data_count s' = data_count s + Z.of_nat (length ws)
    /\ observed_count s'
       = observed_count s
         + Z.of_nat (length (filter (λ d, observed (field d) = true) children)).
Proof.
  induction children as [| c cs IH]; intros s; cbn [foldl].
  - cbn. split; [lra |]. split; [lra |]. split; lia.
  - destruct (IH (add_child s c)) as (E1 & E2 & E3 & E4).
    cbv zeta. rewrite E1, E2, E3, E4. rewrite !filter_cons.
    unfold Qsum, add_child.
    cbn [mean_occupancy mean_weight data_count observed_count].
    destruct (decide (Qltb 0 (weight (field c)) = true)) as [Hw | Hw];
      destruct (decide (observed (field c) = true)) as [Ho | Ho].
    + rewrite Hw, Ho. cbn [fmap list_fmap Qsum foldr length]. unfold compose.
      split; [lra |]. split; [lra |]. split; lia.
    + rewrite Hw. destruct (observed (field c)); [congruence |].
      cbn [fmap list_fmap Qsum foldr length]. unfold compose.
      split; [lra |]. split; [lra |]. split; lia.
    + destruct (Qltb 0 (weight (field c))); [congruence |]. rewrite Ho.
      cbn [length]. split; [lra |]. split; [lra |]. split; lia.
    + destruct (Qltb 0 (weight (field c))); [congruence |].
      destruct (observed (field c)); [congruence |].
      split; [lra |]. split; [lra |]. split; lia.
Qed.

(** X28: the first level of the propagation inside a block averages. If no
    child of a parent voxel carries weight, the parent voxel and its min
    and max data are left as they were. Otherwise the new occupancy of the
    parent is the mean of the occupancies of its weighted children, its
    new weight is the sum of their weights rounded up and then divided by
    their number, and it is marked as not observed. *)
Theorem first_level_mean (arr : list Data) (size x y z : Z) (cs : list Data)
    (parent_data parent_min_data parent_max_data : Data) :
  mapM (at_ arr) (child_data_indices size x y z) = Some cs ->
  let ws := filter (λ d, Qltb 0 (weight (field d)) = true) cs in
  exists s new_data new_min new_max,
    aggregate_children arr size x y z = Some s
    /\ write_parent s parent_data parent_min_data parent_max_data
       = (new_data, new_min, new_max)
    /\ (ws = [] -> new_data = parent_data /\ new_min = parent_min_data
                   /\ new_max = parent_max_data)
    /\ (ws <> [] ->
        (occupancy (field new_data)
         == Qsum (occupancy ∘ field <$> ws) / inject_Z (Z.of_nat (length ws)))%Q
        /\ (weight (field new_data)
            == cmath.ceil (Qsum (weight ∘ field <$> ws))
               / inject_Z (Z.of_nat (length ws)))%Q
        /\ observed (field new_data) = false).
Proof.
  intros Hcs ws.
  rewrite (aggregate_children_foldl arr size x y z cs Hcs).
  destruct (add_child_sums cs initial) as (E1 & E2 & E3 & _).
  cbn [initial mean_occupancy mean_weight data_count] in *. fold ws in E1, E2, E3.
  set (s := foldl add_child initial cs) in *.
  destruct (Z.ltb_spec 0 (data_count s)) as [Hpos | Hzero];
    eexists s, _, _, _; (split; [reflexivity |]); unfold write_parent;
    [rewrite (proj2 (Z.ltb_lt _ _) Hpos) | rewrite (proj2 (Z.ltb_ge _ _) Hzero)];
    (split; [reflexivity |]).
  - split.
    + intros Hnil. rewrite Hnil in E3. cbn in E3. lia.
    + intros _. cbn [field occupancy weight observed].
      rewrite E3, Z.add_0_l. split; [| split; [| reflexivity]].
      * rewrite E1. rewrite Qplus_0_l. reflexivity.
      * unfold cmath.ceil. rewrite E2. rewrite Qplus_0_l. reflexivity.
  - split; [auto |]. intros Hne. exfalso.
    destruct ws; [congruence | cbn in E3; lia].
Qed.

(** The eight voxels of the block of side 2: the parent gets the
    occupancy -9/8 and the weight 22/8. *)
Lemma first_level_mean_witness :
  let d := fixtures.voxel 0 0 false in
  exists s new_data new_min new_max,
    aggregate_children samples.fine_voxels 2 0 0 0 = Some s
    /\ write_parent s d d d = (new_data, new_min, new_max)
    /\ (occupancy (field new_data) == - (9 # 8))%Q
    /\ (weight (field new_data) == 22 # 8)%Q
    /\ observed (field new_data) = false.
Proof.
  intros d.
  destruct (first_level_mean samples.fine_voxels 2 0 0 0 samples.fine_voxels
              d d d)
    as (s & new_data & new_min & new_max & Hs & Hw & _ & Hmean);
    [reflexivity |].
  destruct Hmean as (Ho & Hwt & Hobs); [discriminate |].
  exists s, new_data, new_min, new_max.
  split; [exact Hs |]. split; [exact Hw |].
  split; [rewrite Ho; reflexivity |].
  split; [rewrite Hwt; reflexivity | exact Hobs].
Defined.

End block_propagation_facts.

(** ** The choice of the integration scale *)

Section scale_selection_facts.
Import cxx occupancy scale_selection.
Local Open Scope Z_scope.

(** X29: the recommended integration scale of a block is a scale of the
    block, and once data has been integrated it is at most one step
    coarser than the current scale. It is at most one step finer, too,
    unless the free-space shortcut applies (low variance and a maximum
    value below [0.95 * log_odd_min]) while the scale computed from the
    sensor is finer. For a block that was never integrated
    ([min_scale = -1]) it is the computed scale, raised to the free-space
    scale under low variance and capped by the coarsest scale. *)
Theorem recommended_scale_bounds (low_variance : bool)
    (min_scale current_scale : Z) (max_value log_odd_min : Q)
    (fs_integr_scale max_scale computed : Z) :
  0 <= max_scale -> 0 <= fs_integr_scale ->
  (min_scale <> -1 -> 0 <= current_scale <= max_scale) ->
  let r := recommended_scale low_variance min_scale current_scale max_value
             log_odd_min fs_integr_scale max_scale computed in
  0 <= r <= max_scale
  /\ (min_scale <> -1 -> r <= current_scale + 1)
  /\ (min_scale <> -1 ->
      low_variance = false \/ ((95 # 100) * log_odd_min <= max_value)%Q
      \/ current_scale - 1 <= computed ->
      current_scale - 1 <= r)
  /\ (min_scale = -1 ->
      r = Z.min (Z.max (if low_variance then fs_integr_scale else 0) computed)
                max_scale).
Proof.
  intros Hmax Hfs Hcur. cbv zeta. unfold recommended_scale.
  destruct (Z.eqb_spec min_scale (-1)) as [Hm | Hm].
  - rewrite orb_true_l, andb_true_r.
    split; [destruct low_variance; lia |].
    split; [contradiction |]. split; [contradiction |].
    intros _. destruct low_variance; reflexivity.
  - specialize (Hcur Hm). cbn [orb].
    destruct (low_variance
              && Qltb max_value ((95 # 100) * log_odd_min)) eqn:E.
    + apply andb_true_iff in E as [-> E]. apply Qltb_lt in E.
      split; [lia |]. split; [intros; lia |]. split; [| contradiction].
      intros _ [? | [Hge | Hc]]; [discriminate | | lia].
      exfalso. apply (Qlt_not_le _ _ E Hge).
    + split; [lia |]. split; [intros; lia |].
      split; [intros; lia | contradiction].
Qed.

(** A block at scale 2 of 3 whose data varies: a sensor that asks for scale
    0 gets scale 1. A free block of low variance drops to the free-space
    scale 0 at once. *)
Lemma recommended_scale_bounds_witness :
  recommended_scale false 0 2 (-3) (-5) 0 3 0 = 1
  /\ recommended_scale true 0 2 (-5) (-5) 0 3 0 = 0
  /\ 0 <= recommended_scale true 0 2 (-5) (-5) 0 3 0 <= 3.
Proof.
  destruct (recommended_scale_bounds false 0 2 (-3) (-5) 0 3 0)
    as (_ & _ & Hlo & _); [lia | lia | lia |].
  destruct (recommended_scale_bounds true 0 2 (-5) (-5) 0 3 0)
    as (Hr & _); [lia | lia | lia |].
  split; [reflexivity |]. split; [reflexivity | exact Hr].
Defined.

End scale_selection_facts.
